(** * RedNote capture: the batch pipeline, embedded and verified

    A shallow embedding of the queue store ([queue-manager.ts]), the
    sequential orchestrator ([batch-processor.ts]), the Drive upload sink
    ([drive-uploader.ts]) and the filename / base64 helpers of
    [pdf-generator.ts], followed by the properties of the batch pipeline
    specification checked against them.

    Conventions.
    - A JavaScript string is its sequence of UTF-16 code units ([list N]).
    - A JavaScript number holding a count is a [nat]; a number that results
      from a division is an IEEE-754 binary64 value ([spec_float]).
    - Asynchronous functions are computations over an explicit [World]
      (session storage, the processor's two flags, the progress object of the
      running batch, a ghost log of observable events) that either return a
      value or throw.  Everything the program awaits from outside (the clock,
      UUIDs, the PDF renderer, the auth provider, [fetch], calls to [cancel()]
      arriving while a run is suspended) is read from an [Env] oracle.
    - Where the program awaits a promise that nothing rejects and that has
      no timeout, the computation may also never settle ([Async]). *)

From Stdlib Require Import List ZArith NArith PArith Bool Lia String Ascii.
From Stdlib.Strings Require Import Byte.
From Stdlib Require Import DecimalString.
From Stdlib Require Import SpecFloat.
Import ListNotations.

(* ================================================================== *)
(** * JavaScript strings *)
(* ================================================================== *)

Definition JSString := list N.

Module JS.

(** A literal: the code units of an ASCII string. *)
Definition str (s : string) : JSString :=
  map N_of_ascii (list_ascii_of_string s).

Fixpoint eqb (a b : JSString) : bool :=
  match a, b with
  | [], [] => true
  | x :: a', y :: b' => N.eqb x y && eqb a' b'
  | _, _ => false
  end.

Definition isEmpty (s : JSString) : bool :=
  match s with [] => true | _ => false end.

(** [s.startsWith(p)] *)
Fixpoint startsWith (s p : JSString) {struct p} : bool :=
  match p, s with
  | [], _ => true
  | x :: p', y :: s' => N.eqb x y && startsWith s' p'
  | _ :: _, [] => false
  end.

(** [s.includes(p)] *)
Fixpoint includes (s p : JSString) : bool :=
  startsWith s p ||
  match s with
  | [] => false
  | _ :: s' => includes s' p
  end.

(** [s.endsWith(p)] *)
Definition endsWith (s p : JSString) : bool :=
  startsWith (rev s) (rev p).

(** [s.substring(0, n)] *)
Definition substring0 (n : nat) (s : JSString) : JSString := firstn n s.

(** The code units matched by the regular-expression class [\s], which are
    also the ones [String.prototype.trim] strips (WhiteSpace and
    LineTerminator of ECMA-262). *)
Definition isWhiteSpace (c : N) : bool :=
  ((9 <=? c) && (c <=? 13) || (c =? 32) || (c =? 160) || (c =? 5760)
   || ((8192 <=? c) && (c <=? 8202)) || (c =? 8232) || (c =? 8233)
   || (c =? 8239) || (c =? 8287) || (c =? 12288) || (c =? 65279))%N.

Fixpoint dropWhile (p : N -> bool) (s : JSString) : JSString :=
  match s with
  | [] => []
  | c :: s' => if p c then dropWhile p s' else s
  end.

Definition trimStart (s : JSString) : JSString := dropWhile isWhiteSpace s.
Definition trimEnd (s : JSString) : JSString := rev (dropWhile isWhiteSpace (rev s)).
Definition trim (s : JSString) : JSString := trimEnd (trimStart s).

(** [s.toLowerCase()], on the code units A-Z.  The full Unicode mapping also
    changes code units above 127, but none of them lowers to an ASCII
    character other than [k] (KELVIN SIGN) and [i] (dotted capital I), so a
    test of the lowered string against an ASCII suffix built from other
    letters is decided by this part alone. *)
Definition toLowerUnit (c : N) : N :=
  if ((65 <=? c) && (c <=? 90))%N then (c + 32)%N else c.
Definition toLowerCase (s : JSString) : JSString := map toLowerUnit s.

(** [String(n)] for an integer. *)
Definition ofZ (z : Z) : JSString := str (NilZero.string_of_int (Z.to_int z)).
Definition ofNat (n : nat) : JSString := ofZ (Z.of_nat n).

(** What a [throw] carries: an [Error] object with its message, or any other
    value.  The program only ever inspects [error instanceof Error] and
    [error.message]. *)
Inductive Exn : Type :=
| ErrorObj (message : JSString)
| NonError.

(** The outcome of evaluating an expression that may throw. *)
Inductive Result (A : Type) : Type :=
| Ok (a : A)
| Throw (e : Exn).
Arguments Ok {A} a.
Arguments Throw {A} e.

End JS.

(* ================================================================== *)
(** * pdf-generator.ts: generateFilename *)
(* ================================================================== *)

Module Filename.
Import JS.

(** The character class of the first [replace]: less-than, greater-than,
    colon, double quote, slash, backslash, bar, question mark, asterisk. *)
Definition isIllegal (c : N) : bool :=
  existsb (N.eqb c) [60; 62; 58; 34; 47; 92; 124; 63; 42]%N.

(** The first [replace], global, with the empty string. *)
Definition stripIllegal (s : JSString) : JSString :=
  filter (fun c => negb (isIllegal c)) s.

(** The second [replace] (one or more [\s], global, by one space): every maximal run of white space becomes one
    space; [inRun] tells that the previous unit belonged to the run. *)
Fixpoint collapseFrom (inRun : bool) (s : JSString) : JSString :=
  match s with
  | [] => []
  | c :: s' =>
      if isWhiteSpace c
      then (if inRun then collapseFrom true s' else 32%N :: collapseFrom true s')
      else c :: collapseFrom false s'
  end.
Definition collapseWhiteSpace (s : JSString) : JSString := collapseFrom false s.

Definition defaultName : JSString := str "RedNote_Post".
Definition pdfExt : JSString := str ".pdf".

Definition sanitize (title : JSString) : JSString :=
  trim (collapseWhiteSpace (stripIllegal title)).

Definition finalName (title : JSString) : JSString :=
  let truncated := substring0 200 (sanitize title) in
  if isEmpty truncated then defaultName else truncated.

Definition generateFilename (title : JSString) : JSString :=
  let name := finalName title in
  if endsWith (toLowerCase name) pdfExt then name else name ++ pdfExt.

(** Shape of a name whose white space is normalised: each white-space unit
    is a plain space and is not followed by another white-space unit. *)
Fixpoint singleSpaced (s : JSString) : bool :=
  match s with
  | [] => true
  | c :: s' =>
      (if isWhiteSpace c
       then N.eqb c 32 && match s' with [] => true | d :: _ => negb (isWhiteSpace d) end
       else true)
      && singleSpaced s'
  end.

Definition headNotSpace (s : JSString) : bool :=
  match s with [] => true | c :: _ => negb (isWhiteSpace c) end.

Definition lastNotSpace (s : JSString) : bool := headNotSpace (rev s).

End Filename.

(** ** Modelled from the spec: the file name as the specification words it

    Strip the characters illegal in file names, collapse repeated white
    space, truncate to a bounded length, substitute a default name if the
    result is empty, and append the extension unless the name ends with it
    in some letter case.  Nothing here is taken from the code;
    [generateFilename] is compared with [FilenameSpec.filename]. *)

Module FilenameSpec.

(** The characters that are illegal in file names. *)
Definition forbidden : list N := [60; 62; 58; 34; 47; 92; 124; 63; 42]%N.

Definition isLegal (c : N) : bool := negb (existsb (N.eqb c) forbidden).

(** The words of a text: its maximal runs of units that are not white
    space, in order; [current] is the word being read. *)
Fixpoint wordsFrom (current : JSString) (s : JSString) : list JSString :=
  match s with
  | [] => if JS.isEmpty current then [] else [current]
  | c :: s' =>
      if JS.isWhiteSpace c
      then (if JS.isEmpty current then wordsFrom [] s' else current :: wordsFrom [] s')
      else wordsFrom (current ++ [c]) s'
  end.

Definition words (s : JSString) : list JSString := wordsFrom [] s.

(** Words put together with one space between neighbours. *)
Fixpoint unwords (ws : list JSString) : JSString :=
  match ws with
  | [] => []
  | [w] => w
  | w :: rest => w ++ 32%N :: unwords rest
  end.

(** The legal characters of the title, word by word, at most 200 units. *)
Definition stem (title : JSString) : JSString :=
  firstn 200 (unwords (words (filter isLegal title))).

Definition named (title : JSString) : JSString :=
  match stem title with
  | [] => JS.str "RedNote_Post"
  | _ => stem title
  end.

(** A name that ends with the extension, whatever the letter case. *)
Definition hasExtension (name : JSString) : bool :=
  JS.endsWith (JS.toLowerCase name) (JS.str ".pdf").

(** Modelled from the spec: the derivation of the file name. *)
Definition filename (title : JSString) : JSString :=
  if hasExtension (named title) then named title else named title ++ JS.str ".pdf".

End FilenameSpec.

(** A string whose last unit is not white space. *)
Definition lastKept (s : JSString) : Prop :=
  exists a c, s = a ++ [c] /\ JS.isWhiteSpace c = false.


(* ================================================================== *)
(** * pdf-generator.ts: uint8ArrayToBase64 / base64ToUint8Array *)
(* ================================================================== *)

Module Base64.
Import JS.

(** ** The platform functions [btoa] and [atob] (HTML Standard, section
    8.3, over the forgiving-base64 algorithms of the Infra Standard). *)

(** The base64 alphabet: A-Z, a-z, 0-9, plus, slash. *)
Definition alphabet (i : N) : N :=
  (if i <? 26 then 65 + i
   else if i <? 52 then 71 + i
   else if i <? 62 then i - 4
   else if i =? 62 then 43
   else 47)%N.

(** Position of a code unit in the alphabet. *)
Definition sextet (c : N) : option N :=
  (if (65 <=? c) && (c <=? 90) then Some (c - 65)
   else if (97 <=? c) && (c <=? 122) then Some (c - 71)
   else if (48 <=? c) && (c <=? 57) then Some (c + 4)
   else if c =? 43 then Some 62
   else if c =? 47 then Some 63
   else None)%N.

Definition equalsSign : N := 61%N.

(** forgiving-base64 encode of a byte sequence (RFC 4648 with padding). *)
Fixpoint encode (bs : list N) : JSString :=
  match bs with
  | a :: b :: c :: rest =>
      alphabet (a / 4) :: alphabet ((a mod 4) * 16 + b / 16)
        :: alphabet ((b mod 16) * 4 + c / 64) :: alphabet (c mod 64)
        :: encode rest
  | [a; b] =>
      [alphabet (a / 4); alphabet ((a mod 4) * 16 + b / 16);
       alphabet ((b mod 16) * 4); equalsSign]
  | [a] =>
      [alphabet (a / 4); alphabet ((a mod 4) * 16); equalsSign; equalsSign]
  | [] => []
  end%N.

(** [btoa(data)]: throws InvalidCharacterError when a code unit exceeds
    U+00FF, otherwise encodes the code units as bytes. *)
Definition btoa (data : JSString) : Result JSString :=
  if existsb (fun c => 255 <? c)%N data
  then Throw (ErrorObj (str "InvalidCharacterError"))
  else Ok (encode data).

Definition isAsciiWhiteSpace (c : N) : bool :=
  ((c =? 9) || (c =? 10) || (c =? 12) || (c =? 13) || (c =? 32))%N.

(** Step 2 of forgiving-base64 decode: one or two trailing equals signs are
    removed when the length is a multiple of four. *)
Definition stripPadding (data : JSString) : JSString :=
  if (List.length data mod 4 =? 0)%nat
  then match rev data with
       | c1 :: r1 =>
           if N.eqb c1 equalsSign
           then match r1 with
                | c2 :: r2 => if N.eqb c2 equalsSign then rev r2 else rev r1
                | [] => rev r1
                end
           else data
       | [] => data
       end
  else data.

Fixpoint sextets (data : JSString) : option (list N) :=
  match data with
  | [] => Some []
  | c :: r =>
      match sextet c, sextets r with
      | Some v, Some vs => Some (v :: vs)
      | _, _ => None
      end
  end.

(** Steps 5-9: every four sextets give three bytes; a remainder of two
    sextets gives one byte (the last four bits are dropped), of three gives
    two bytes (the last two bits are dropped). *)
Fixpoint decodeSextets (vs : list N) : list N :=
  match vs with
  | a :: b :: c :: d :: rest =>
      (a * 4 + b / 16) :: ((b mod 16) * 16 + c / 4) :: ((c mod 4) * 64 + d)
        :: decodeSextets rest
  | [a; b; c] => [a * 4 + b / 16; (b mod 16) * 16 + c / 4]
  | [a; b] => [a * 4 + b / 16]
  | _ => []
  end%N.

(** [atob(data)] *)
Definition atob (data : JSString) : Result JSString :=
  let d1 := filter (fun c => negb (isAsciiWhiteSpace c)) data in
  let d2 := stripPadding d1 in
  if (List.length d2 mod 4 =? 1)%nat
  then Throw (ErrorObj (str "InvalidCharacterError"))
  else match sextets d2 with
       | None => Throw (ErrorObj (str "InvalidCharacterError"))
       | Some vs => Ok (decodeSextets vs)
       end.

(** ** The two helpers of pdf-generator.ts *)

Definition Uint8Array := list byte.

(** [String.fromCharCode.apply(null, Array.from(chunk))] *)
Definition fromCharCodes (chunk : Uint8Array) : JSString := map Byte.to_N chunk.

(** [bytes.subarray(a, b)] for [a <= b <= bytes.length] *)
Definition subarray (bytes : Uint8Array) (a b : N) : Uint8Array :=
  firstn (N.to_nat (b - a)) (skipn (N.to_nat a) bytes).

Definition byteLength (bytes : Uint8Array) : N := N.of_nat (List.length bytes).

Definition chunkSize : N := 32768%N.

(** The loop [for (let i = 0; i < len; i += chunkSize)]; each iteration
    advances [i], so [len] iterations are always enough. *)
Fixpoint chunkLoop (fuel : nat) (bytes : Uint8Array) (i : N) (binary : JSString)
  : JSString :=
  match fuel with
  | O => binary
  | S fuel' =>
      let len := byteLength bytes in
      if (i <? len)%N
      then
        let chunk := subarray bytes i (N.min (i + chunkSize) len) in
        chunkLoop fuel' bytes (i + chunkSize) (binary ++ fromCharCodes chunk)
      else binary
  end.

Definition uint8ArrayToBase64 (bytes : Uint8Array) : Result JSString :=
  let binary := chunkLoop (List.length bytes) bytes 0 [] in
  btoa binary.

(** Storing a number into a [Uint8Array] element keeps its low eight bits. *)
Definition toUint8 (c : N) : byte :=
  match Byte.of_N (c mod 256) with
  | Some b => b
  | None => x00
  end.

Definition base64ToUint8Array (base64 : JSString) : Result Uint8Array :=
  match atob base64 with
  | Throw e => Throw e
  | Ok binary => Ok (map toUint8 binary)
  end.

End Base64.

(* ================================================================== *)
(** * JavaScript numbers that arise from a division *)
(* ================================================================== *)

Module Float64.

Definition prec : Z := 53.
Definition emax : Z := 1024.

(** An IEEE-754 binary64 value. *)
Definition Number := spec_float.

(** The number denoted by a count. *)
Definition ofCount (n : nat) : Number := binary_normalize prec emax (Z.of_nat n) 0 false.

Definition div (x y : Number) : Number := SFdiv prec emax x y.
Definition mul (x y : Number) : Number := SFmul prec emax x y.

(** The integer [floor(v + 1/2)] for the finite value [v = (-1)^s * m * 2^e]. *)
Definition roundHalfUp (s : bool) (m : positive) (e : Z) : Z :=
  let v := if s then Zneg m else Zpos m in
  if (0 <=? e)%Z then v * 2 ^ e
  else (2 * v + 2 ^ (- e)) / (2 * 2 ^ (- e)).

(** [Math.round(x)]: the integral number closest to [x], ties towards
    positive infinity; NaN, the infinities and the zeros are returned as
    they are, and a result of zero keeps the sign of [x]. *)
Definition Math_round (x : Number) : Number :=
  match x with
  | S754_finite s m e =>
      let z := roundHalfUp s m e in
      if (z =? 0)%Z then S754_zero s else binary_normalize prec emax z 0 false
  | _ => x
  end.

(** [Math.round((completed / total) * 100)] *)
Definition roundedPercentage (completed total : nat) : Number :=
  Math_round (mul (div (ofCount completed) (ofCount total)) (ofCount 100)).

End Float64.

(* ================================================================== *)
(** * models/captured-post.ts and models/post-queue.ts *)
(* ================================================================== *)

Inductive CaptureStatus : Type :=
| Captured | PdfGenerating | PdfReady | CsUploading | Uploaded | CsError.

Record PostImage : Type := mkPostImage {
  img_url : JSString;
  img_index : nat;
  img_width : option nat;
  img_height : option nat;
  img_altText : option JSString
}.

Record CapturedPost : Type := mkCapturedPost {
  post_id : JSString;
  post_sourceUrl : JSString;
  post_title : JSString;
  post_description : JSString;
  post_authorName : JSString;
  post_authorId : JSString;
  post_captureTimestamp : Z;
  post_images : list PostImage;
  post_isVideo : bool;
  post_videoThumbnail : option JSString;
  post_status : CaptureStatus
}.

Inductive QueueItemStatus : Type :=
| Pending | Processing | Completed | Failed.

Definition statusEqb (a b : QueueItemStatus) : bool :=
  match a, b with
  | Pending, Pending | Processing, Processing
  | Completed, Completed | Failed, Failed => true
  | _, _ => false
  end.

(** [QueueItemResult]; an optional property that is absent or [undefined]
    is [None]. *)
Record QueueItemResult : Type := mkResult {
  pdfBlobUrl : option JSString;
  pdfFilename : option JSString;
  pdfSizeBytes : option nat;
  driveFileId : option JSString;
  webViewLink : option JSString;
  completedAt : Z
}.

(** [Partial<QueueItemResult>] as an object literal: for each property,
    [None] when the literal does not mention it and [Some v] when it does
    ([v] itself may be [undefined], that is [None]). *)
Record PartialResult : Type := mkPartial {
  set_pdfBlobUrl : option (option JSString);
  set_pdfFilename : option (option JSString);
  set_pdfSizeBytes : option (option nat);
  set_driveFileId : option (option JSString);
  set_webViewLink : option (option JSString);
  set_completedAt : option Z
}.

Record QueueItem : Type := mkQueueItem {
  item_id : JSString;
  item_postId : JSString;
  item_post : CapturedPost;
  item_status : QueueItemStatus;
  item_addedAt : Z;
  item_startedAt : option Z;
  item_result : option QueueItemResult;
  item_error : option JSString;
  item_retryCount : nat
}.

Record PostQueue : Type := mkPostQueue {
  items : list QueueItem;
  totalItems : nat;
  pendingItems : nat;
  processingItems : nat;
  completedItems : nat;
  failedItems : nat;
  createdAt : Z;
  updatedAt : Z
}.

Inductive QueueStatus : Type :=
| QsEmpty | QsPending | QsProcessing | QsCompleted | QsPartialFailure.

Definition getQueueStatus (queue : PostQueue) : QueueStatus :=
  if (totalItems queue =? 0)%nat then QsEmpty
  else if (0 <? processingItems queue)%nat then QsProcessing
  else if (0 <? pendingItems queue)%nat then QsPending
  else if (0 <? failedItems queue)%nat then QsPartialFailure
  else QsCompleted.

(** [createEmptyQueue()], given the value [Date.now()] returned. *)
Definition createEmptyQueue (now : Z) : PostQueue :=
  mkPostQueue [] 0 0 0 0 0 now now.

(* ================================================================== *)
(** * The batch progress snapshot, the world and the environment *)
(* ================================================================== *)

Inductive Phase : Type :=
| PhIdle | PhGeneratingPdf | PhUploading | PhComplete.

Record BatchProgress : Type := mkProgress {
  percentage : Float64.Number;
  completed : nat;
  total : nat;
  successCount : nat;
  failedCount : nat;
  currentItem : option JSString;
  phase : Phase;
  cancelled : bool
}.

(** [GeneratedPdf], as far as the orchestrator reads it. *)
Record GeneratedPdf : Type := mkGeneratedPdf {
  pdf_capturedPostId : JSString;
  pdf_pdfBase64 : JSString;
  pdf_filename : JSString;
  pdf_sizeBytes : nat;
  pdf_pageCount : nat
}.

(** The JSON body of a successful Drive upload. *)
Record DriveFile : Type := mkDriveFile {
  df_id : option JSString;
  df_webViewLink : option JSString;
  df_webContentLink : option JSString
}.

(** What [await response.json().catch(() => ({}))] yields for a response
    that is not ok: [null], on which reading [errorData.error] throws a
    [TypeError] with the message of the engine, or a value of which
    [errorData.error?.message] is read ([None] when it is absent). *)
Inductive ErrorData : Type :=
| ErrorDataNull (typeErrorMessage : JSString)
| ErrorDataValue (message : option JSString).

(** What [fetch(DRIVE_UPLOAD_URL, ...)] does: it rejects, or it resolves
    with a response whose [ok] is determined by the status, whose body is
    read as [ErrorData] when it is not ok, and whose [json()] yields the
    file data or throws otherwise (also when reading a property of the data
    throws). *)
Record HttpResponse : Type := mkHttpResponse {
  http_status : nat;
  http_errorData : ErrorData;
  http_json : JS.Result DriveFile
}.

Inductive FetchOutcome : Type :=
| FetchRejects (e : JS.Exn)
| FetchResolves (r : HttpResponse).

Definition http_ok (r : HttpResponse) : bool :=
  (200 <=? http_status r)%nat && (http_status r <=? 299)%nat.

(** Events a run makes observable; the log is a ghost of the world. *)
Inductive Event : Type :=
| EvProgress (snapshot : BatchProgress)
| EvDelay (ms : Z)
| EvProcessItem (itemId : JSString)
| EvUploadAttempt (attempt : Z).

Record World : Type := mkWorld {
  storage : option PostQueue;
  sessionBatchProgress : option BatchProgress;
  sessionBatchComplete : bool;
  flagCancelled : bool;
  flagProcessing : bool;
  progress : BatchProgress;
  clockReads : nat;
  uuidCalls : nat;
  pipelineCalls : nat;
  log : list Event
}.

(** Everything the program awaits from outside. *)
Record Env : Type := mkEnv {
  clock : nat -> Z;
  randomUUID : nat -> JSString;
  generatePdf : nat -> JS.Result GeneratedPdf;
  getAccessToken : nat -> JS.Result JSString;
  fetchUpload : nat -> Z -> FetchOutcome;
  cancelArrives : nat -> bool
}.

(* ================================================================== *)
(** * Computations over the world *)
(* ================================================================== *)

Definition M (A : Type) : Type := World -> JS.Result A * World.

Definition ret {A} (a : A) : M A := fun w => (JS.Ok a, w).

Definition throw {A} (e : JS.Exn) : M A := fun w => (JS.Throw e, w).

Definition bind {A B} (c : M A) (k : A -> M B) : M B :=
  fun w =>
    match c w with
    | (JS.Ok a, w') => k a w'
    | (JS.Throw e, w') => (JS.Throw e, w')
    end.

(** [try { c } catch (error) { h error }] *)
Definition tryCatch {A} (c : M A) (h : JS.Exn -> M A) : M A :=
  fun w =>
    match c w with
    | (JS.Ok a, w') => (JS.Ok a, w')
    | (JS.Throw e, w') => h e w'
    end.

Definition liftResult {A} (r : JS.Result A) : M A := fun w => (r, w).

Definition getWorld : M World := fun w => (JS.Ok w, w).

Definition modify (f : World -> World) : M unit := fun w => (JS.Ok tt, f w).

Declare Scope monad_scope.
Delimit Scope monad_scope with monad.
Notation "x <- c ;; k" := (bind c (fun x => k))
  (at level 61, c at next level, right associativity) : monad_scope.
Notation "c ;; k" := (bind c (fun _ => k))
  (at level 61, right associativity) : monad_scope.
Open Scope monad_scope.

(** World updates, one per field the program writes. *)
Definition withStorage (s : option PostQueue) (w : World) : World :=
  mkWorld s (sessionBatchProgress w) (sessionBatchComplete w) (flagCancelled w)
    (flagProcessing w) (progress w) (clockReads w) (uuidCalls w) (pipelineCalls w)
    (log w).
Definition withSessionProgress (p : option BatchProgress) (w : World) : World :=
  mkWorld (storage w) p (sessionBatchComplete w) (flagCancelled w)
    (flagProcessing w) (progress w) (clockReads w) (uuidCalls w) (pipelineCalls w)
    (log w).
Definition withSessionComplete (b : bool) (w : World) : World :=
  mkWorld (storage w) (sessionBatchProgress w) b (flagCancelled w)
    (flagProcessing w) (progress w) (clockReads w) (uuidCalls w) (pipelineCalls w)
    (log w).
Definition withCancelled (b : bool) (w : World) : World :=
  mkWorld (storage w) (sessionBatchProgress w) (sessionBatchComplete w) b
    (flagProcessing w) (progress w) (clockReads w) (uuidCalls w) (pipelineCalls w)
    (log w).
Definition withProcessing (b : bool) (w : World) : World :=
  mkWorld (storage w) (sessionBatchProgress w) (sessionBatchComplete w)
    (flagCancelled w) b (progress w) (clockReads w) (uuidCalls w) (pipelineCalls w)
    (log w).
Definition withProgress (p : BatchProgress) (w : World) : World :=
  mkWorld (storage w) (sessionBatchProgress w) (sessionBatchComplete w)
    (flagCancelled w) (flagProcessing w) p (clockReads w) (uuidCalls w)
    (pipelineCalls w) (log w).
Definition withClockReads (n : nat) (w : World) : World :=
  mkWorld (storage w) (sessionBatchProgress w) (sessionBatchComplete w)
    (flagCancelled w) (flagProcessing w) (progress w) n (uuidCalls w)
    (pipelineCalls w) (log w).
Definition withUuidCalls (n : nat) (w : World) : World :=
  mkWorld (storage w) (sessionBatchProgress w) (sessionBatchComplete w)
    (flagCancelled w) (flagProcessing w) (progress w) (clockReads w) n
    (pipelineCalls w) (log w).
Definition withPipelineCalls (n : nat) (w : World) : World :=
  mkWorld (storage w) (sessionBatchProgress w) (sessionBatchComplete w)
    (flagCancelled w) (flagProcessing w) (progress w) (clockReads w) (uuidCalls w)
    n (log w).
Definition withLog (l : list Event) (w : World) : World :=
  mkWorld (storage w) (sessionBatchProgress w) (sessionBatchComplete w)
    (flagCancelled w) (flagProcessing w) (progress w) (clockReads w) (uuidCalls w)
    (pipelineCalls w) l.

Definition emit (e : Event) : M unit := modify (fun w => withLog (log w ++ [e]) w).

(** [delay(ms)]: the wait is recorded, nothing else changes. *)
Definition delay (ms : Z) : M unit := emit (EvDelay ms).

(** A fresh world: nothing stored, no run in flight. *)
Definition idleProgress : BatchProgress :=
  mkProgress (S754_zero false) 0 0 0 0 None PhIdle false.

Definition initialWorld : World :=
  mkWorld None None false false false idleProgress 0 0 0 [].

Section WithEnv.
Variable env : Env.

(** [Date.now()] *)
Definition dateNow : M Z :=
  fun w => (JS.Ok (clock env (clockReads w)), withClockReads (S (clockReads w)) w).

(** [crypto.randomUUID()] *)
Definition cryptoRandomUUID : M JSString :=
  fun w => (JS.Ok (randomUUID env (uuidCalls w)), withUuidCalls (S (uuidCalls w)) w).

(* ---------------------------------------------------------------- *)
(** ** services/queue-manager.ts *)

Definition createQueueItem (post : CapturedPost) : M QueueItem :=
  id <- cryptoRandomUUID ;;
  now <- dateNow ;;
  ret (mkQueueItem id (post_id post) post Pending now None None None 0).

Definition countStatus (s : QueueItemStatus) (l : list QueueItem) : nat :=
  List.length (filter (fun i => statusEqb (item_status i) s) l).

(** [calculateQueueProgress] *)
Record QueueProgress : Type := mkQueueProgress {
  qp_percentage : Float64.Number;
  qp_completed : nat;
  qp_total : nat;
  qp_successCount : nat;
  qp_failedCount : nat
}.

Definition calculateQueueProgress (queue : PostQueue) : QueueProgress :=
  let total := totalItems queue in
  let completed := completedItems queue + failedItems queue in
  let percentage :=
    if (total =? 0)%nat then S754_zero false
    else Float64.roundedPercentage completed total in
  mkQueueProgress percentage completed total (completedItems queue) (failedItems queue).

Definition recalculateTotals (queue : PostQueue) : M PostQueue :=
  now <- dateNow ;;
  ret (mkPostQueue (items queue)
         (List.length (items queue))
         (countStatus Pending (items queue))
         (countStatus Processing (items queue))
         (countStatus Completed (items queue))
         (countStatus Failed (items queue))
         (createdAt queue) now).

Definition setItems (l : list QueueItem) (queue : PostQueue) : PostQueue :=
  mkPostQueue l (totalItems queue) (pendingItems queue) (processingItems queue)
    (completedItems queue) (failedItems queue) (createdAt queue) (updatedAt queue).

(** [getQueue]: the stored queue, or a fresh empty one when the key is
    absent. *)
Definition getQueue : M PostQueue :=
  w <- getWorld ;;
  match storage w with
  | Some q => ret q
  | None => now <- dateNow ;; ret (createEmptyQueue now)
  end.

Definition saveQueue (queue : PostQueue) : M unit :=
  modify (withStorage (Some queue)).

Definition addToQueue (post : CapturedPost) : M QueueItem :=
  queue <- getQueue ;;
  match find (fun item => JS.eqb (item_postId item) (post_id post)) (items queue) with
  | Some existingItem => ret existingItem
  | None =>
      item <- createQueueItem post ;;
      queue' <- recalculateTotals (setItems (items queue ++ [item]) queue) ;;
      saveQueue queue' ;;
      ret item
  end.

Definition removeFromQueue (itemId : JSString) : M unit :=
  queue <- getQueue ;;
  let kept := filter (fun item => negb (JS.eqb (item_id item) itemId)) (items queue) in
  queue' <- recalculateTotals (setItems kept queue) ;;
  saveQueue queue'.

(** The object spread [{...item.result, ...result, completedAt: now}]. *)
Definition override {A} (new : option (option A)) (old : option A) : option A :=
  match new with
  | Some v => v
  | None => old
  end.

Definition mergeResult (old : option QueueItemResult) (new : PartialResult) (now : Z)
  : QueueItemResult :=
  mkResult
    (override (set_pdfBlobUrl new) (match old with Some r => pdfBlobUrl r | None => None end))
    (override (set_pdfFilename new) (match old with Some r => pdfFilename r | None => None end))
    (override (set_pdfSizeBytes new) (match old with Some r => pdfSizeBytes r | None => None end))
    (override (set_driveFileId new) (match old with Some r => driveFileId r | None => None end))
    (override (set_webViewLink new) (match old with Some r => webViewLink r | None => None end))
    now.

(** Replace the first element satisfying [p], as a mutation of the object
    [Array.prototype.find] returned. *)
Fixpoint replaceFirst (p : QueueItem -> bool) (new : QueueItem) (l : list QueueItem)
  : list QueueItem :=
  match l with
  | [] => []
  | x :: l' => if p x then new :: l' else x :: replaceFirst p new l'
  end.

Definition setStatus (s : QueueItemStatus) (i : QueueItem) : QueueItem :=
  mkQueueItem (item_id i) (item_postId i) (item_post i) s (item_addedAt i)
    (item_startedAt i) (item_result i) (item_error i) (item_retryCount i).
Definition setStartedAt (t : option Z) (i : QueueItem) : QueueItem :=
  mkQueueItem (item_id i) (item_postId i) (item_post i) (item_status i) (item_addedAt i)
    t (item_result i) (item_error i) (item_retryCount i).
Definition setResult (r : option QueueItemResult) (i : QueueItem) : QueueItem :=
  mkQueueItem (item_id i) (item_postId i) (item_post i) (item_status i) (item_addedAt i)
    (item_startedAt i) r (item_error i) (item_retryCount i).
Definition setError (e : option JSString) (i : QueueItem) : QueueItem :=
  mkQueueItem (item_id i) (item_postId i) (item_post i) (item_status i) (item_addedAt i)
    (item_startedAt i) (item_result i) e (item_retryCount i).
Definition setRetryCount (n : nat) (i : QueueItem) : QueueItem :=
  mkQueueItem (item_id i) (item_postId i) (item_post i) (item_status i) (item_addedAt i)
    (item_startedAt i) (item_result i) (item_error i) n.

Definition isNone {A} (o : option A) : bool :=
  match o with None => true | Some _ => false end.

Definition updateItemStatus (itemId : JSString) (status : QueueItemStatus)
    (result : option PartialResult) (error : option JSString) : M unit :=
  queue <- getQueue ;;
  let hasId := fun i => JS.eqb (item_id i) itemId in
  match find hasId (items queue) with
  | None => ret tt
  | Some item =>
      let item1 := setStatus status item in
      item2 <- (if statusEqb status Processing && isNone (item_startedAt item1)
                then now <- dateNow ;; ret (setStartedAt (Some now) item1)
                else ret item1) ;;
      item3 <- (match result with
                | Some partial =>
                    now <- dateNow ;;
                    ret (setResult (Some (mergeResult (item_result item2) partial now)) item2)
                | None => ret item2
                end) ;;
      let item4 := match error with
                   | Some e => setError (Some e) item3
                   | None => item3
                   end in
      queue' <- recalculateTotals (setItems (replaceFirst hasId item4 (items queue)) queue) ;;
      saveQueue queue'
  end.

Definition clearQueue : M unit :=
  now <- dateNow ;;
  saveQueue (createEmptyQueue now).

Definition clearCompletedItems : M unit :=
  queue <- getQueue ;;
  let kept := filter (fun item => negb (statusEqb (item_status item) Completed)) (items queue) in
  queue' <- recalculateTotals (setItems kept queue) ;;
  saveQueue queue'.

Definition getPendingItems : M (list QueueItem) :=
  queue <- getQueue ;;
  ret (filter (fun item => statusEqb (item_status item) Pending) (items queue)).

Definition getItem (itemId : JSString) : M (option QueueItem) :=
  queue <- getQueue ;;
  ret (find (fun item => JS.eqb (item_id item) itemId) (items queue)).

Definition retryItem (item : QueueItem) : QueueItem :=
  if statusEqb (item_status item) Failed
  then setRetryCount (S (item_retryCount item)) (setError None (setStatus Pending item))
  else item.

Definition retryFailedItems : M nat :=
  queue <- getQueue ;;
  let retriedCount := countStatus Failed (items queue) in
  let queue1 := setItems (map retryItem (items queue)) queue in
  if (0 <? retriedCount)%nat
  then queue' <- recalculateTotals queue1 ;; saveQueue queue' ;; ret retriedCount
  else ret retriedCount.

Definition getItemCount : M nat :=
  queue <- getQueue ;; ret (totalItems queue).

Definition isPostInQueue (postId : JSString) : M bool :=
  queue <- getQueue ;;
  ret (existsb (fun item => JS.eqb (item_postId item) postId) (items queue)).

(* ---------------------------------------------------------------- *)
(** ** services/drive-uploader.ts *)

Record UploadResult : Type := mkUploadResult {
  ur_success : bool;
  ur_fileId : option JSString;
  ur_webViewLink : option JSString;
  ur_webContentLink : option JSString;
  ur_error : option JSString
}.

Record UploadOptions : Type := mkUploadOptions {
  uo_folderId : option JSString;
  uo_maxRetries : option Z;
  uo_accessToken : JSString
}.

Definition uploadFailure (message : JSString) : UploadResult :=
  mkUploadResult false None None None (Some message).

(** [error instanceof Error ? error.message : 'Unknown error'] *)
Definition errorMessageOf (e : JS.Exn) : JSString :=
  match e with
  | JS.ErrorObj m => m
  | JS.NonError => JS.str "Unknown error"
  end.

(** [a || b] on an optional string: [undefined] and the empty string are
    falsy. *)
Definition orElse (a : option JSString) (b : JSString) : JSString :=
  match a with
  | Some s => if JS.isEmpty s then b else s
  | None => b
  end.

(** [performUpload], given what its [fetch] does.  The request it builds
    (metadata, multipart body, bearer header) has no influence on how the
    program continues and is left out. *)
Definition performUpload (outcome : FetchOutcome) : JS.Result UploadResult :=
  match outcome with
  | FetchRejects e => JS.Throw e
  | FetchResolves response =>
      if negb (http_ok response)
      then
        match http_errorData response with
        | ErrorDataNull typeErrorMessage => JS.Throw (JS.ErrorObj typeErrorMessage)
        | ErrorDataValue message =>
            let status := JS.ofNat (http_status response) in
            let errorMessage := orElse message (JS.str "HTTP " ++ status) in
            JS.Throw (JS.ErrorObj (status ++ JS.str ": " ++ errorMessage))
        end
      else
        match http_json response with
        | JS.Throw e => JS.Throw e
        | JS.Ok data =>
            JS.Ok (mkUploadResult true (df_id data) (df_webViewLink data)
                     (df_webContentLink data) None)
        end
  end.

(** The test that stops the retries: the message mentions 401 or 403. *)
Definition isAuthError (errorMessage : JSString) : bool :=
  JS.includes errorMessage (JS.str "401") || JS.includes errorMessage (JS.str "403").

(** The loop [for (let attempt = 1; attempt <= maxRetries; attempt++)];
    [remaining] counts the iterations left, [maxRetries - attempt + 1]. *)
Fixpoint uploadLoop (fetches : Z -> FetchOutcome) (maxRetries : Z)
    (remaining : nat) (attempt : Z) : M UploadResult :=
  match remaining with
  | O => ret (uploadFailure (JS.str "Max retries exceeded"))
  | S remaining' =>
      emit (EvUploadAttempt attempt) ;;
      match performUpload (fetches attempt) with
      | JS.Ok result => ret result
      | JS.Throw error =>
          let errorMessage := errorMessageOf error in
          if isAuthError errorMessage
          then ret (uploadFailure errorMessage)
          else if (attempt =? maxRetries)%Z
          then ret (uploadFailure
                      (JS.str "Upload failed after " ++ JS.ofZ maxRetries
                         ++ JS.str " attempts: " ++ errorMessage))
          else
            delay (2 ^ attempt * 1000) ;;
            uploadLoop fetches maxRetries remaining' (attempt + 1)
      end
  end.

Definition uploadToDrive (fetches : Z -> FetchOutcome) (filename : JSString)
    (options : UploadOptions) : M UploadResult :=
  let maxRetries := match uo_maxRetries options with Some n => n | None => 3%Z end in
  uploadLoop fetches maxRetries (Z.to_nat maxRetries) 1.

(* ---------------------------------------------------------------- *)
(** ** services/batch-processor.ts *)

(** The progress callbacks the program passes: an observer that copies each
    snapshot (the ghost log alone), and the closure of [handleProcessQueue],
    which stores the snapshot under the session key [batchProgress]. *)
Inductive ProgressCallback : Type :=
| CbObserve
| CbStoreInSession.

Record BatchProcessorOptions : Type := mkOptions {
  opt_uploadToDrive : bool;
  opt_folderId : option JSString;
  opt_onProgress : option ProgressCallback;
  opt_continueOnError : option bool;
  opt_maxRetries : option Z
}.

Definition setPercentage (x : Float64.Number) (p : BatchProgress) : BatchProgress :=
  mkProgress x (completed p) (total p) (successCount p) (failedCount p)
    (currentItem p) (phase p) (cancelled p).
Definition setCompleted (n : nat) (p : BatchProgress) : BatchProgress :=
  mkProgress (percentage p) n (total p) (successCount p) (failedCount p)
    (currentItem p) (phase p) (cancelled p).
Definition setSuccessCount (n : nat) (p : BatchProgress) : BatchProgress :=
  mkProgress (percentage p) (completed p) (total p) n (failedCount p)
    (currentItem p) (phase p) (cancelled p).
Definition setFailedCount (n : nat) (p : BatchProgress) : BatchProgress :=
  mkProgress (percentage p) (completed p) (total p) (successCount p) n
    (currentItem p) (phase p) (cancelled p).
Definition setCurrentItem (t : option JSString) (p : BatchProgress) : BatchProgress :=
  mkProgress (percentage p) (completed p) (total p) (successCount p) (failedCount p)
    t (phase p) (cancelled p).
Definition setPhase (ph : Phase) (p : BatchProgress) : BatchProgress :=
  mkProgress (percentage p) (completed p) (total p) (successCount p) (failedCount p)
    (currentItem p) ph (cancelled p).
Definition setCancelled (b : bool) (p : BatchProgress) : BatchProgress :=
  mkProgress (percentage p) (completed p) (total p) (successCount p) (failedCount p)
    (currentItem p) (phase p) b.

(** A mutation of the run's progress object. *)
Definition mutateProgress (f : BatchProgress -> BatchProgress) : M unit :=
  modify (fun w => withProgress (f (progress w)) w).

(** [onProgress?.(progress)]: the callback, when there is one, receives the
    progress object as it is at that moment. *)
Definition notify (onProgress : option ProgressCallback) : M unit :=
  match onProgress with
  | None => ret tt
  | Some callback =>
      w <- getWorld ;;
      emit (EvProgress (progress w)) ;;
      match callback with
      | CbObserve => ret tt
      | CbStoreInSession => modify (withSessionProgress (Some (progress w)))
      end
  end.

(** [cancel()] *)
Definition cancel : M unit :=
  modify (fun w => if flagProcessing w then withCancelled true w else w).

Definition isProcessing : M bool := w <- getWorld ;; ret (flagProcessing w).
Definition isCancelled : M bool := w <- getWorld ;; ret (flagCancelled w).

(** [processItem].  Its call number selects what the renderer, the auth
    provider and [fetch] do this time. *)
Definition processItem (item : QueueItem) (shouldUpload : bool)
    (folderId : option JSString) (onProgress : option ProgressCallback) : M bool :=
  w <- getWorld ;;
  let call := pipelineCalls w in
  modify (withPipelineCalls (S call)) ;;
  emit (EvProcessItem (item_id item)) ;;
  updateItemStatus (item_id item) Processing None None ;;
  mutateProgress (setPhase PhGeneratingPdf) ;;
  notify onProgress ;;
  pdfResult <- liftResult (generatePdf env call) ;;
  _pdfBytes <- liftResult (Base64.base64ToUint8Array (pdf_pdfBase64 pdfResult)) ;;
  updateItemStatus (item_id item) Processing
    (Some (mkPartial None (Some (Some (pdf_filename pdfResult)))
             (Some (Some (pdf_sizeBytes pdfResult))) None None None))
    None ;;
  (if shouldUpload
   then
     mutateProgress (setPhase PhUploading) ;;
     notify onProgress ;;
     accessToken <- liftResult (getAccessToken env call) ;;
     if JS.isEmpty accessToken
     then throw (JS.ErrorObj (JS.str "Not authenticated"))
     else
       uploadResult <- uploadToDrive (fetchUpload env call) (pdf_filename pdfResult)
                         (mkUploadOptions folderId None accessToken) ;;
       if negb (ur_success uploadResult)
       then throw (JS.ErrorObj (orElse (ur_error uploadResult) (JS.str "Upload failed")))
       else
         updateItemStatus (item_id item) Processing
           (Some (mkPartial None None None (Some (ur_fileId uploadResult))
                    (Some (ur_webViewLink uploadResult)) None))
           None
   else ret tt) ;;
  ret true.

(** The loop [for (let attempt = 0; attempt < maxRetries; attempt++)] around
    [processItem]; it yields [success] and [lastError].  The [try] block
    holds the call and the [break]; the [catch] block records the message and
    waits unless this was the last attempt. *)
Fixpoint retryLoop (item : QueueItem) (shouldUpload : bool) (folderId : option JSString)
    (onProgress : option ProgressCallback) (maxRetries : Z)
    (remaining : nat) (attempt : Z) (lastError : option JSString)
  : M (bool * option JSString) :=
  match remaining with
  | O => ret (false, lastError)
  | S remaining' =>
      attempted <- tryCatch
                     (success <- processItem item shouldUpload folderId onProgress ;;
                      ret (inl success))
                     (fun error => ret (inr error)) ;;
      match attempted with
      | inl true => ret (true, lastError)
      | inl false =>
          retryLoop item shouldUpload folderId onProgress maxRetries
            remaining' (attempt + 1) lastError
      | inr error =>
          let lastError' := Some (errorMessageOf error) in
          (if (attempt <? maxRetries - 1)%Z
           then delay (1000 * (attempt + 1))
           else ret tt) ;;
          retryLoop item shouldUpload folderId onProgress maxRetries
            remaining' (attempt + 1) lastError'
      end
  end.

(** How the loop over the pending items ended. *)
Inductive LoopExit : Type :=
| Exhausted
| BrokeOnCancel
| BrokeOnError.

(** Steps b to e of one iteration of the loop over the pending items: name
    the current item, run the retry loop, and record the item as completed
    or failed.  Yields [success]. *)
Definition settleItem (shouldUpload : bool) (folderId : option JSString)
    (onProgress : option ProgressCallback) (maxRetries : Z) (item : QueueItem) : M bool :=
  mutateProgress (setCurrentItem (Some (post_title (item_post item)))) ;;
  outcome <- retryLoop item shouldUpload folderId onProgress maxRetries
               (Z.to_nat maxRetries) 0 None ;;
  let '(success, lastError) := outcome in
  (if success
   then
     mutateProgress (fun p => setSuccessCount (S (successCount p)) p) ;;
     now <- dateNow ;;
     updateItemStatus (item_id item) Completed
       (Some (mkPartial None None None None None (Some now))) None
   else
     mutateProgress (fun p => setFailedCount (S (failedCount p)) p) ;;
     updateItemStatus (item_id item) Failed None lastError) ;;
  ret success.

(** One iteration up to its progress report (steps b to f). *)
Definition processOneItem (shouldUpload : bool) (folderId : option JSString)
    (onProgress : option ProgressCallback) (maxRetries : Z) (totalCount : nat)
    (item : QueueItem) : M bool :=
  success <- settleItem shouldUpload folderId onProgress maxRetries item ;;
  mutateProgress (fun p => setCompleted (S (completed p)) p) ;;
  mutateProgress
    (fun p => setPercentage (Float64.roundedPercentage (completed p) totalCount) p) ;;
  notify onProgress ;;
  ret success.

(** The loop [for (const item of pendingItems)]; [index] is the position of
    the head of [pending] in the snapshot.  A call of [cancel()] made while
    the run was suspended takes effect here, before the flag is read. *)
Fixpoint itemLoop (shouldUpload : bool) (folderId : option JSString)
    (onProgress : option ProgressCallback) (continueOnError : bool) (maxRetries : Z)
    (totalCount : nat) (pending : list QueueItem) (index : nat) : M LoopExit :=
  match pending with
  | [] => ret Exhausted
  | item :: rest =>
      (if cancelArrives env index then cancel else ret tt) ;;
      w <- getWorld ;;
      if flagCancelled w
      then
        mutateProgress (setCancelled true) ;;
        mutateProgress (setPhase PhComplete) ;;
        notify onProgress ;;
        ret BrokeOnCancel
      else
        success <- processOneItem shouldUpload folderId onProgress maxRetries
                     totalCount item ;;
        if negb success && negb continueOnError
        then ret BrokeOnError
        else itemLoop shouldUpload folderId onProgress continueOnError maxRetries
               totalCount rest (S index)
  end.

Definition withDefault {A} (o : option A) (d : A) : A :=
  match o with Some a => a | None => d end.

(** [processQueue], paired with how its loop ended. *)
Definition processQueueRun (options : BatchProcessorOptions)
  : M (LoopExit * BatchProgress) :=
  let shouldUpload := opt_uploadToDrive options in
  let folderId := opt_folderId options in
  let onProgress := opt_onProgress options in
  let continueOnError := withDefault (opt_continueOnError options) true in
  let maxRetries := withDefault (opt_maxRetries options) 1%Z in
  modify (withCancelled false) ;;
  modify (withProcessing true) ;;
  pendingItems <- getPendingItems ;;
  let totalCount := List.length pendingItems in
  modify (withProgress
            (mkProgress (S754_zero false) 0 totalCount 0 0 None PhIdle false)) ;;
  if (totalCount =? 0)%nat
  then
    mutateProgress (setPhase PhComplete) ;;
    mutateProgress (setPercentage (Float64.ofCount 100)) ;;
    notify onProgress ;;
    modify (withProcessing false) ;;
    w <- getWorld ;;
    ret (Exhausted, progress w)
  else
    exit <- itemLoop shouldUpload folderId onProgress continueOnError maxRetries
              totalCount pendingItems 0 ;;
    mutateProgress (setPhase PhComplete) ;;
    mutateProgress (setCurrentItem None) ;;
    notify onProgress ;;
    modify (withProcessing false) ;;
    w <- getWorld ;;
    ret (exit, progress w).

Definition processQueue (options : BatchProcessorOptions) : M BatchProgress :=
  r <- processQueueRun options ;;
  ret (snd r).

(* ---------------------------------------------------------------- *)
(** ** types/errors.ts and background/handlers/queue.ts *)

Inductive ErrorCode : Type :=
| UNKNOWN_ERROR | INTERNAL_ERROR | INVALID_REQUEST | VALIDATION_ERROR
| TAB_NOT_FOUND | NOT_REDNOTE_PAGE
| EXTRACTION_ERROR | EXTRACTION_FAILED | NO_POST_DATA | NO_CAPTURE
| PDF_GENERATION_ERROR | PDF_GENERATION_FAILED | IMAGE_DOWNLOAD_FAILED
| FONT_LOAD_FAILED | NO_PDF | DOWNLOAD_ERROR
| NOT_AUTHENTICATED | UPLOAD_FAILED | DRIVE_API_ERROR | NETWORK_ERROR
| AUTH_CANCELLED | AUTH_FAILED | TOKEN_EXPIRED
| QUEUE_EMPTY | BATCH_PROCESSING_FAILED | PROCESSING_IN_PROGRESS.

Record ErrorResponse : Type := mkErrorResponse {
  er_error : JSString;
  er_errorCode : ErrorCode;
  er_requestId : option JSString
}.

Definition createErrorResponse (errorCode : ErrorCode) (message : JSString)
    (requestId : option JSString) : ErrorResponse :=
  mkErrorResponse message errorCode requestId.

Record ProcessQueuePayload : Type := mkPayload {
  pl_uploadToDrive : option bool;
  pl_folderId : option JSString
}.

(** The three responses of [handleProcessQueue]. *)
Inductive ProcessQueueResponse : Type :=
| RespError (e : ErrorResponse)
| RespNothingToProcess (message : JSString) (requestId : option JSString)
| RespStarted (message : JSString) (itemCount : nat) (requestId : option JSString).

(** [handleProcessQueue].  The run it starts is not awaited by the program:
    the response is returned while the run is suspended at its first
    [await].  Here the run is carried to its end, followed by the
    continuation that stores the final progress, before the response is
    returned. *)
Definition handleProcessQueue (payload : option ProcessQueuePayload)
    (requestId : option JSString) : M ProcessQueueResponse :=
  busy <- isProcessing ;;
  if busy
  then ret (RespError (createErrorResponse PROCESSING_IN_PROGRESS
                         (JS.str "Batch processing already in progress") requestId))
  else
    let uploadToDrive :=
      withDefault (match payload with Some p => pl_uploadToDrive p | None => None end) true in
    let folderId := match payload with Some p => pl_folderId p | None => None end in
    pendingItems <- getPendingItems ;;
    if (List.length pendingItems =? 0)%nat
    then ret (RespNothingToProcess (JS.str "No items to process") requestId)
    else
      finalProgress <- processQueue
                         (mkOptions uploadToDrive folderId (Some CbStoreInSession)
                            (Some true) (Some 2%Z)) ;;
      modify (withSessionProgress (Some finalProgress)) ;;
      modify (withSessionComplete true) ;;
      ret (RespStarted (JS.str "Processing started") (List.length pendingItems) requestId).

End WithEnv.

(* ================================================================== *)
(** * Vocabulary of the properties *)
(* ================================================================== *)

(** The queue [getQueue] would return in world [w]. *)
Definition storedQueue (env : Env) (w : World) : PostQueue :=
  match storage w with
  | Some q => q
  | None => createEmptyQueue (clock env (clockReads w))
  end.

(** The derived counts of a queue are the counts of its item list. *)
Definition countsConsistent (q : PostQueue) : Prop :=
  totalItems q = List.length (items q)
  /\ pendingItems q = countStatus Pending (items q)
  /\ processingItems q = countStatus Processing (items q)
  /\ completedItems q = countStatus Completed (items q)
  /\ failedItems q = countStatus Failed (items q)
  /\ pendingItems q + processingItems q + completedItems q + failedItems q = totalItems q.

(** The mutating operations of the queue manager. *)
Inductive QueueOp : Type :=
| OpAddToQueue (post : CapturedPost)
| OpRemoveFromQueue (itemId : JSString)
| OpUpdateItemStatus (itemId : JSString) (status : QueueItemStatus)
    (result : option PartialResult) (error : option JSString)
| OpClearQueue
| OpClearCompletedItems
| OpRetryFailedItems.

Definition runOp (env : Env) (op : QueueOp) : M unit :=
  match op with
  | OpAddToQueue post => _ <- addToQueue env post ;; ret tt
  | OpRemoveFromQueue itemId => removeFromQueue env itemId
  | OpUpdateItemStatus itemId status result error =>
      updateItemStatus env itemId status result error
  | OpClearQueue => clearQueue env
  | OpClearCompletedItems => clearCompletedItems env
  | OpRetryFailedItems => _ <- retryFailedItems env ;; ret tt
  end.

(** The worlds reached after each operation of a sequence, in order. *)
Fixpoint worldsAfter (env : Env) (ops : list QueueOp) (w : World) : list World :=
  match ops with
  | [] => []
  | op :: rest =>
      let w' := snd (runOp env op w) in
      w' :: worldsAfter env rest w'
  end.

(** Readings of the ghost log. *)
Definition isDelay (e : Event) : option Z :=
  match e with EvDelay ms => Some ms | _ => None end.
Definition isSnapshot (e : Event) : option BatchProgress :=
  match e with EvProgress p => Some p | _ => None end.
Definition isUploadAttempt (e : Event) : bool :=
  match e with EvUploadAttempt _ => true | _ => false end.
Definition isProcessItem (e : Event) : bool :=
  match e with EvProcessItem _ => true | _ => false end.

Fixpoint filterMap {A B} (f : A -> option B) (l : list A) : list B :=
  match l with
  | [] => []
  | x :: l' =>
      match f x with
      | Some y => y :: filterMap f l'
      | None => filterMap f l'
      end
  end.

Definition delaysOf (l : list Event) : list Z := filterMap isDelay l.
Definition snapshotsOf (l : list Event) : list BatchProgress := filterMap isSnapshot l.
Definition uploadAttempts (l : list Event) : nat := List.length (filter isUploadAttempt l).
Definition processItemCalls (l : list Event) : nat := List.length (filter isProcessItem l).


(** The waits of the per-item loop after [count] failed attempts that were
    not the last: 1000 ms times the attempt number. *)
Fixpoint linearBackoff (count : nat) (first : Z) : list Z :=
  match count with
  | O => []
  | S count' => (1000 * first)%Z :: linearBackoff count' (first + 1)
  end.

(** A progress snapshot whose percentage agrees with its counters: 100 for
    an empty batch, the rounded quotient otherwise. *)
Definition percentageAgrees (p : BatchProgress) : Prop :=
  percentage p =
  if (total p =? 0)%nat then Float64.ofCount 100
  else Float64.roundedPercentage (completed p) (total p).

Definition isPending (i : QueueItem) : bool := statusEqb (item_status i) Pending.





(** The queue with freshly recomputed counts. *)
Definition recounted (q : PostQueue) (now : Z) : PostQueue :=
  mkPostQueue (items q) (List.length (items q))
    (countStatus Pending (items q)) (countStatus Processing (items q))
    (countStatus Completed (items q)) (countStatus Failed (items q))
    (createdAt q) now.

Definition storageConsistent (s : option PostQueue) : Prop :=
  match s with
  | Some q => countsConsistent q
  | None => True
  end.

Definition storedItems (w : World) : list QueueItem :=
  match storage w with
  | Some q => items q
  | None => []
  end.

Definition hasId (itemId : JSString) (i : QueueItem) : bool := JS.eqb (item_id i) itemId.

(** [w'] differs from [w] at most in the stored queue and in the number of
    clock reads. *)
Definition sameButQueue (w w' : World) : Prop :=
  log w' = log w /\ progress w' = progress w
  /\ flagCancelled w' = flagCancelled w /\ flagProcessing w' = flagProcessing w
  /\ pipelineCalls w' = pipelineCalls w /\ uuidCalls w' = uuidCalls w
  /\ sessionBatchProgress w' = sessionBatchProgress w
  /\ sessionBatchComplete w' = sessionBatchComplete w.

(** A computation keeps a relation between the world it starts in and the
    world it ends in, whether it returns or throws. *)
Definition preserves {A} (R : World -> World -> Prop) (c : M A) : Prop :=
  forall w, R w (snd (c w)).

(** A computation that always returns. *)
Definition returns {A} (c : M A) : Prop :=
  forall w, exists a, fst (c w) = JS.Ok a.

(** During a run over [t] pending items that started with the log [base]:
    the progress object has [total = t] and a percentage that agrees with its
    [completed], and so does every snapshot reported since the start. *)
Definition snapshotsAgree (base : list Event) (t : nat) (w : World) : Prop :=
  total (progress w) = t
  /\ percentage (progress w) = Float64.roundedPercentage (completed (progress w)) t
  /\ exists evs, log w = base ++ evs /\ Forall percentageAgrees (snapshotsOf evs).

(** A number that is a positive finite value or positive infinity. *)
Definition positiveNumber (x : Float64.Number) : Prop :=
  (exists m e, x = S754_finite false m e) \/ x = S754_infinity false.

(** An environment in which nothing fails and nobody cancels. *)
Definition quietEnv : Env :=
  mkEnv (fun n => Z.of_nat n)
        (fun n => JS.str "item-" ++ JS.ofNat n)
        (fun _ => JS.Ok (mkGeneratedPdf [] (JS.str "TWFu") (JS.str "post.pdf") 3 1))
        (fun _ => JS.Ok (JS.str "token"))
        (fun _ _ => FetchResolves
                      (mkHttpResponse 200 (ErrorDataValue None)
                         (JS.Ok (mkDriveFile (Some (JS.str "file-1")) None None))))
        (fun _ => false).

Definition observedRun : BatchProcessorOptions :=
  mkOptions false None (Some CbObserve) None None.

(** The stored item list keeps its tail [tail] while the part before it,
    which holds an item with identifier [itemId], keeps its length. *)
Definition keepsTail (itemId : JSString) (tail : list QueueItem) (w w' : World) : Prop :=
  forall front,
    storedItems w = front ++ tail -> existsb (hasId itemId) front = true ->
    exists front',
      storedItems w' = front' ++ tail
      /\ existsb (hasId itemId) front' = true
      /\ List.length front' = List.length front.

(** The counters of the progress object that only the end of an iteration
    or a cancellation changes. *)
Definition keepsCounters (w w' : World) : Prop :=
  completed (progress w') = completed (progress w)
  /\ cancelled (progress w') = cancelled (progress w)
  /\ total (progress w') = total (progress w).

(** The renderer succeeds at pipeline call [call], with a payload that
    decodes. *)
Definition rendersAt (env : Env) (call : nat) : Prop :=
  exists pdf bytes,
    generatePdf env call = JS.Ok pdf
    /\ Base64.base64ToUint8Array (pdf_pdfBase64 pdf) = JS.Ok bytes.

(** The log grew by events among which there is one call of [processItem]
    and neither a wait nor an upload attempt. *)
Definition oneAttemptLogged (w w' : World) : Prop :=
  exists evs,
    log w' = log w ++ evs
    /\ processItemCalls evs = 1 /\ delaysOf evs = [] /\ uploadAttempts evs = 0.

Definition samplePost (name : string) : CapturedPost :=
  mkCapturedPost (JS.str name) (JS.str "https://www.xiaohongshu.com/explore/1")
    (JS.str name) [] (JS.str "author") (JS.str "user-1") 0 [] false None Captured.

Definition sampleItem (name : string) (status : QueueItemStatus) : QueueItem :=
  mkQueueItem (JS.str name) (JS.str name) (samplePost name) status 0 None None None 0.

(** A world whose queue holds three pending items. *)
Definition threePending : World :=
  withStorage
    (Some (mkPostQueue [sampleItem "a" Pending; sampleItem "b" Pending;
                        sampleItem "c" Pending] 3 3 0 0 0 0 0))
    initialWorld.

(** [threePending] while a run is in flight and [cancel()] has been called:
    the flag waits for the next item boundary. *)
Definition runInFlight : World :=
  withCancelled true (withProcessing true threePending).

(** An environment like [quietEnv] in which [cancel()] is called while the
    first item is processed, and one in which every render throws. *)
Definition cancelAfterFirstEnv : Env :=
  mkEnv (clock quietEnv) (randomUUID quietEnv) (generatePdf quietEnv)
        (getAccessToken quietEnv) (fetchUpload quietEnv) (fun index => Nat.eqb index 1).

Definition failingRenderEnv : Env :=
  mkEnv (clock quietEnv) (randomUUID quietEnv)
        (fun _ => JS.Throw (JS.ErrorObj (JS.str "render failed")))
        (getAccessToken quietEnv) (fetchUpload quietEnv) (cancelArrives quietEnv).

Definition stopOnErrorRun : BatchProcessorOptions :=
  mkOptions false None (Some CbObserve) (Some false) (Some 2%Z).

Definition alwaysServerError : Z -> FetchOutcome :=
  fun _ => FetchResolves (mkHttpResponse 500 (ErrorDataValue None) (JS.Throw JS.NonError)).



(** The relation "the agreement of the snapshots is kept". *)
Definition keepsAgreement (base : list Event) (t : nat) (w w' : World) : Prop :=
  snapshotsAgree base t w -> snapshotsAgree base t w'.

(* ================================================================== *)
(** * Auxiliary notions of the proofs *)
(* ================================================================== *)

(** A string without a character that is illegal in a file name. *)
Definition legal (s : JSString) : Prop :=
  Forall (fun c => Filename.isIllegal c = false) s.

(** The sextet values, and what makes the code unit of one usable: it
    decodes to the value, it is neither white space nor the padding sign, and
    it fits in a byte. *)
Definition sextetValues : list N := map N.of_nat (seq 0 64).

Definition goodUnit (i : N) : bool :=
  match Base64.sextet (Base64.alphabet i) with
  | Some j => N.eqb i j
  | None => false
  end
  && negb (Base64.isAsciiWhiteSpace (Base64.alphabet i))
  && negb (N.eqb (Base64.alphabet i) Base64.equalsSign)
  && (Base64.alphabet i <=? 255)%N.

(** The sextets [encode] writes for a byte sequence, and its padding. *)
Fixpoint groups (bs : list N) : list N :=
  match bs with
  | a :: b :: c :: rest =>
      (a / 4) :: ((a mod 4) * 16 + b / 16) :: ((b mod 16) * 4 + c / 64) :: (c mod 64)
        :: groups rest
  | [a; b] => [a / 4; (a mod 4) * 16 + b / 16; (b mod 16) * 4]
  | [a] => [a / 4; (a mod 4) * 16]
  | [] => []
  end%N.

Definition padding (bs : list N) : JSString :=
  match (List.length bs mod 3)%nat with
  | 1%nat => [Base64.equalsSign; Base64.equalsSign]
  | 2%nat => [Base64.equalsSign]
  | _ => []
  end.

Definition isBytes (bs : list N) : Prop := Forall (fun b => (b < 256)%N) bs.

(* ================================================================== *)
(** * background/handlers/queue.ts: the other handlers *)
(* ================================================================== *)

(** The payload of [handleAddToQueue] after the cast; an absent property is
    [None]. *)
Record AddToQueuePayload : Type := mkAddPayload {
  ap_post : option CapturedPost;
  ap_useCurrentCapture : option bool
}.

Inductive AddToQueueResponse : Type :=
| AddRejected (e : ErrorResponse)
| AddAlreadyQueued (message : JSString) (requestId : option JSString)
| AddQueued (queueItem : QueueItem) (queueLength : nat) (message : JSString)
    (requestId : option JSString).

Record QueueStatusData : Type := mkQueueStatusData {
  qs_queue : PostQueue;
  qs_progress : QueueProgress;
  qs_status : QueueStatus;
  qs_isProcessing : bool;
  qs_batchProgress : option BatchProgress;
  qs_batchComplete : bool
}.

Inductive RemoveFromQueueResponse : Type :=
| RemoveRejected (e : ErrorResponse)
| Removed (message : JSString) (queueLength : nat) (requestId : option JSString).

(** A success response that carries a message, and one that carries a
    message and a count. *)
Record MessageResponse : Type := mkMessageResponse {
  mr_message : JSString;
  mr_requestId : option JSString
}.

Record CountResponse : Type := mkCountResponse {
  cr_message : JSString;
  cr_count : nat;
  cr_requestId : option JSString
}.

(** Truthiness of an optional boolean and of an optional string. *)
Definition truthyBool (b : option bool) : bool :=
  match b with Some true => true | _ => false end.

Definition truthyString (s : option JSString) : bool :=
  match s with Some s' => negb (JS.isEmpty s') | None => false end.

Section QueueHandlers.
Variable env : Env.

(** [handleAddToQueue].  [currentCapture] is what session storage holds
    under the key of that name when the handler reads it; none of the
    functions here writes that key. *)
Definition handleAddToQueue (currentCapture : option CapturedPost)
    (payload : option AddToQueuePayload) (requestId : option JSString)
  : M AddToQueueResponse :=
  let post := match payload with Some p => ap_post p | None => None end in
  let useCurrentCapture :=
    match payload with Some p => ap_useCurrentCapture p | None => None end in
  let postToAdd : ErrorResponse + option CapturedPost :=
    match post with
    | Some p => inr (Some p)
    | None =>
        if truthyBool useCurrentCapture
        then match currentCapture with
             | None => inl (createErrorResponse NO_CAPTURE
                              (JS.str "No current capture to add to queue") requestId)
             | Some c => inr (Some c)
             end
        else inr None
    end in
  match postToAdd with
  | inl e => ret (AddRejected e)
  | inr None =>
      ret (AddRejected (createErrorResponse VALIDATION_ERROR
                          (JS.str "No post provided to add to queue") requestId))
  | inr (Some postToAdd) =>
      isInQueue <- isPostInQueue env (post_id postToAdd) ;;
      if isInQueue
      then ret (AddAlreadyQueued (JS.str "Post already in queue") requestId)
      else
        queueItem <- addToQueue env postToAdd ;;
        queue <- getQueue env ;;
        ret (AddQueued queueItem (totalItems queue) (JS.str "Post added to queue") requestId)
  end.

(** [handleGetQueueStatus] *)
Definition handleGetQueueStatus (requestId : option JSString)
  : M (QueueStatusData * option JSString) :=
  queue <- getQueue env ;;
  let progress := calculateQueueProgress queue in
  let status := getQueueStatus queue in
  w <- getWorld ;;
  busy <- isProcessing ;;
  ret (mkQueueStatusData queue progress status busy
         (sessionBatchProgress w) (sessionBatchComplete w), requestId).

(** [handleRemoveFromQueue]; [itemId] is the property of the payload, [None]
    when the payload or the property is absent. *)
Definition handleRemoveFromQueue (itemId : option JSString) (requestId : option JSString)
  : M RemoveFromQueueResponse :=
  match itemId with
  | Some id =>
      if truthyString itemId
      then
        removeFromQueue env id ;;
        queue <- getQueue env ;;
        ret (Removed (JS.str "Item removed from queue") (totalItems queue) requestId)
      else ret (RemoveRejected (createErrorResponse VALIDATION_ERROR
                                  (JS.str "Item ID is required") requestId))
  | None =>
      ret (RemoveRejected (createErrorResponse VALIDATION_ERROR
                             (JS.str "Item ID is required") requestId))
  end.

(** [handleClearQueue]: the queue is replaced by an empty one and the two
    session keys of the last run are removed. *)
Definition handleClearQueue (requestId : option JSString) : M MessageResponse :=
  clearQueue env ;;
  modify (withSessionProgress None) ;;
  modify (withSessionComplete false) ;;
  ret (mkMessageResponse (JS.str "Queue cleared") requestId).

(** [handleClearCompletedItems] *)
Definition handleClearCompletedItems (requestId : option JSString) : M CountResponse :=
  clearCompletedItems env ;;
  queue <- getQueue env ;;
  ret (mkCountResponse (JS.str "Completed items cleared") (totalItems queue) requestId).

(** [handleRetryFailedItems] *)
Definition handleRetryFailedItems (requestId : option JSString) : M CountResponse :=
  retriedCount <- retryFailedItems env ;;
  ret (mkCountResponse (JS.ofNat retriedCount ++ JS.str " items reset for retry")
         retriedCount requestId).

(** [handleCancelProcessing] *)
Definition handleCancelProcessing (requestId : option JSString) : M MessageResponse :=
  busy <- isProcessing ;;
  if negb busy
  then ret (mkMessageResponse (JS.str "No processing in progress") requestId)
  else
    cancel ;;
    ret (mkMessageResponse (JS.str "Processing cancelled") requestId).

End QueueHandlers.

(* ================================================================== *)
(** * Vocabulary of the further properties *)
(* ================================================================== *)

(** Item [j] is item [i] after updates of its status: the identifier, the
    post, the time it was added and the retry count are those of [i], and a
    start time [i] has is kept. *)
Definition sameIdentity (i j : QueueItem) : Prop :=
  item_id j = item_id i /\ item_postId j = item_postId i /\ item_post j = item_post i
  /\ item_addedAt j = item_addedAt i /\ item_retryCount j = item_retryCount i
  /\ (forall t, item_startedAt i = Some t -> item_startedAt j = Some t).

(** The stored list of [w'] is the one of [w], item by item, up to updates
    of status. *)
Definition keepsItems (w w' : World) : Prop :=
  Forall2 sameIdentity (storedItems w) (storedItems w').

(** Consistent stored counts stay consistent. *)
Definition keepsConsistency (w w' : World) : Prop :=
  storageConsistent (storage w) -> storageConsistent (storage w').

(** The counters of a progress snapshot fit together: every counted item
    either succeeded or failed, and no more items are counted than the
    batch holds. *)
Definition countersCoherent (p : BatchProgress) : Prop :=
  completed p = successCount p + failedCount p /\ completed p <= total p.

(** Two snapshots with the same four counters. *)
Definition sameCounters (p p' : BatchProgress) : Prop :=
  completed p' = completed p /\ total p' = total p
  /\ successCount p' = successCount p /\ failedCount p' = failedCount p.

(** From [w] to [w'] the counters of the progress object did not move, and
    every snapshot reported in between carries them. *)
Definition steady (w w' : World) : Prop :=
  sameCounters (progress w) (progress w')
  /\ exists evs,
       log w' = log w ++ evs /\ Forall (sameCounters (progress w)) (snapshotsOf evs).

(** The last element of a list, if any. *)
Fixpoint lastOf {A} (l : list A) : option A :=
  match l with
  | [] => None
  | [x] => Some x
  | _ :: l' => lastOf l'
  end.

(** A computation that, from any world, adds to the log at most [calls]
    calls of [processItem] and at most [uploads] upload attempts. *)
Definition withinBudget {A} (calls uploads : nat) (c : M A) : Prop :=
  forall w, exists evs,
    log (snd (c w)) = log w ++ evs
    /\ processItemCalls evs <= calls /\ uploadAttempts evs <= uploads.

(** An environment like [quietEnv] whose uploads always meet a server
    error. *)
Definition serverDownEnv : Env :=
  mkEnv (clock quietEnv) (randomUUID quietEnv) (generatePdf quietEnv)
        (getAccessToken quietEnv) (fun _ => alwaysServerError) (cancelArrives quietEnv).

(** The upload budget of one call of [processItem]: the three attempts of
    [uploadToDrive], which is called without [maxRetries]. *)
Definition uploadsPerCall (shouldUpload : bool) : nat := if shouldUpload then 3 else 0.

(** The post [handleAddToQueue] is asked to add: the one of the payload, or
    else the current capture when the payload asks for it. *)
Definition requestedPost (currentCapture : option CapturedPost)
    (payload : option AddToQueuePayload) : option CapturedPost :=
  match payload with
  | Some (mkAddPayload (Some p) _) => Some p
  | Some (mkAddPayload None (Some true)) => currentCapture
  | _ => None
  end.

Definition asksForCurrentCapture (payload : option AddToQueuePayload) : bool :=
  match payload with
  | Some (mkAddPayload None (Some true)) => true
  | _ => false
  end.

Definition refersTo (postId : JSString) (i : QueueItem) : bool :=
  JS.eqb (item_postId i) postId.

(* ================================================================== *)
(** * services/drive-uploader.ts: upload records and the history *)
(* ================================================================== *)

Inductive UploadStatus : Type :=
| UsPending | UsUploading | UsSuccess | UsFailed.

Record UploadRecord : Type := mkUploadRecord {
  rec_id : JSString;
  rec_capturedPostId : JSString;
  rec_driveFileId : option JSString;
  rec_driveWebViewLink : option JSString;
  rec_status : UploadStatus;
  rec_startedAt : Z;
  rec_completedAt : option Z;
  rec_errorMessage : option JSString;
  rec_retryCount : nat;
  rec_filename : JSString
}.

(** [s || null] on an optional string. *)
Definition orNull (s : option JSString) : option JSString :=
  match s with
  | Some s' => if JS.isEmpty s' then None else Some s'
  | None => None
  end.

Section UploadRecords.
Variable env : Env.

(** [createUploadRecord]; [generateUploadId] is [crypto.randomUUID]. *)
Definition createUploadRecord (capturedPostId filename : JSString) : M UploadRecord :=
  id <- cryptoRandomUUID env ;;
  now <- dateNow env ;;
  ret (mkUploadRecord id capturedPostId None None UsPending now None None 0 filename).

(** [updateUploadRecord] *)
Definition updateUploadRecord (record : UploadRecord) (result : UploadResult)
  : M UploadRecord :=
  if ur_success result
  then
    now <- dateNow env ;;
    ret (mkUploadRecord (rec_id record) (rec_capturedPostId record)
           (orNull (ur_fileId result)) (orNull (ur_webViewLink result))
           UsSuccess (rec_startedAt record) (Some now) None
           (rec_retryCount record) (rec_filename record))
  else
    now <- dateNow env ;;
    ret (mkUploadRecord (rec_id record) (rec_capturedPostId record)
           (rec_driveFileId record) (rec_driveWebViewLink record)
           UsFailed (rec_startedAt record) (Some now)
           (Some (orElse (ur_error result) (JS.str "Unknown error")))
           (S (rec_retryCount record)) (rec_filename record)).

End UploadRecords.

(** What [chrome.storage.local] holds under the key [uploadHistory];
    [None] when the key is absent. *)
Definition HistoryStore : Type := option (list UploadRecord).

(** [l.slice(-n)]: the last [n] elements. *)
Definition sliceLast {A} (n : nat) (l : list A) : list A :=
  skipn (List.length l - n) l.

(** [getUploadHistory]: the stored list, the empty one by default. *)
Definition getUploadHistory (store : HistoryStore) : list UploadRecord :=
  withDefault store [].

(** [saveUploadToHistory]: the store it leaves. *)
Definition saveUploadToHistory (record : UploadRecord) (store : HistoryStore)
  : HistoryStore :=
  let uploadHistory := withDefault store [] in
  let updatedHistory := sliceLast 100 (uploadHistory ++ [record]) in
  Some updatedHistory.

(** The data of the response of [handleGetUploadHistory] (handlers/history.ts)
    when reading the store does not fail: the history, newest first. *)
Definition handleGetUploadHistory (store : HistoryStore) : list UploadRecord :=
  rev (getUploadHistory store).

(* ================================================================== *)
(** * Computations over a store of their own *)
(* ================================================================== *)

(** The monad of [M], for the parts of the program whose state is not the
    [World] of the batch pipeline. *)
Definition ST (S A : Type) : Type := S -> JS.Result A * S.

Definition st_ret {S A} (a : A) : ST S A := fun s => (JS.Ok a, s).

Definition st_throw {S A} (e : JS.Exn) : ST S A := fun s => (JS.Throw e, s).

Definition st_bind {S A B} (c : ST S A) (k : A -> ST S B) : ST S B :=
  fun s =>
    match c s with
    | (JS.Ok a, s') => k a s'
    | (JS.Throw e, s') => (JS.Throw e, s')
    end.

Definition st_try {S A} (c : ST S A) (h : JS.Exn -> ST S A) : ST S A :=
  fun s =>
    match c s with
    | (JS.Ok a, s') => (JS.Ok a, s')
    | (JS.Throw e, s') => h e s'
    end.

Definition st_get {S} : ST S S := fun s => (JS.Ok s, s).

Definition st_modify {S} (f : S -> S) : ST S unit := fun s => (JS.Ok tt, f s).

Declare Scope st_scope.
Delimit Scope st_scope with st.
Notation "x <~ c ;; k" := (st_bind c (fun x => k))
  (at level 61, c at next level, right associativity) : st_scope.
Notation "c ;;; k" := (st_bind c (fun _ => k))
  (at level 61, right associativity) : st_scope.

(* ================================================================== *)
(** * models/auth-state.ts and services/google-auth.ts *)
(* ================================================================== *)

Module GoogleAuth.
Local Open Scope st_scope.

Record AuthState : Type := mkAuthState {
  accessToken : option JSString;
  expiresAt : option Z;
  userEmail : option JSString;
  isAuthenticated : bool
}.

Definition DEFAULT_AUTH_STATE : AuthState := mkAuthState None None None false.

Definition EXPIRATION_BUFFER_MS : Z := 5 * 60 * 1000.

(** What the callback of [chrome.identity.getAuthToken] finds:
    [chrome.runtime.lastError], with its message if it has one, and the
    token. *)
Record IdentityOutcome : Type := mkIdentityOutcome {
  lastError : option (option JSString);
  token : option JSString
}.

(** What the request to the userinfo endpoint does: [fetch] rejects, or it
    resolves with a response that is [ok] or not and whose [json()] yields
    the [email] property of the body or throws. *)
Inductive UserinfoOutcome : Type :=
| UserinfoRejects
| UserinfoResponds (ok : bool) (email : JS.Result (option JSString)).

(** The session key [auth], with counters for the calls made to the outside
    and the tokens handed to [chrome.identity.removeCachedAuthToken]. *)
Record Store : Type := mkStore {
  auth : option AuthState;
  clockReads : nat;
  identityCalls : nat;
  userinfoCalls : nat;
  removedTokens : list JSString
}.

Record Provider : Type := mkProvider {
  clock : nat -> Z;
  getAuthToken : nat -> bool -> IdentityOutcome;
  userinfo : nat -> UserinfoOutcome
}.

Definition withAuth (a : option AuthState) (s : Store) : Store :=
  mkStore a (clockReads s) (identityCalls s) (userinfoCalls s) (removedTokens s).

Section WithProvider.
Variable provider : Provider.

Definition dateNow : ST Store Z :=
  fun s => (JS.Ok (clock provider (clockReads s)),
            mkStore (auth s) (S (clockReads s)) (identityCalls s) (userinfoCalls s)
              (removedTokens s)).

(** [getAuthState]: the stored state, the default one when there is none. *)
Definition getAuthState : ST Store AuthState :=
  s <~ st_get ;; st_ret (withDefault (auth s) DEFAULT_AUTH_STATE).

Definition saveAuthState (authState : AuthState) : ST Store unit :=
  st_modify (withAuth (Some authState)).

(** [isTokenExpired]: a missing or zero expiry counts as expired, without a
    look at the clock. *)
Definition isTokenExpired (authState : AuthState) : ST Store bool :=
  match expiresAt authState with
  | None => st_ret true
  | Some t =>
      if (t =? 0)%Z then st_ret true
      else now <~ dateNow ;; st_ret (t - EXPIRATION_BUFFER_MS <=? now)%Z
  end.

(** The promise around [chrome.identity.getAuthToken]. *)
Definition requestToken (interactive : bool) : ST Store JSString :=
  s <~ st_get ;;
  let outcome := getAuthToken provider (identityCalls s) interactive in
  st_modify (fun s => mkStore (auth s) (clockReads s) (S (identityCalls s))
                        (userinfoCalls s) (removedTokens s)) ;;;
  match lastError outcome with
  | Some message =>
      let error := orElse message (JS.str "Authentication failed") in
      if JS.includes error (JS.str "not approve") || JS.includes error (JS.str "cancel")
      then st_throw (JS.ErrorObj (JS.str "AUTH_CANCELLED"))
      else st_throw (JS.ErrorObj error)
  | None =>
      if truthyString (token outcome)
      then
        let tok := withDefault (token outcome) [] in
        now <~ dateNow ;;
        saveAuthState (mkAuthState (Some tok) (Some (now + 3600000)%Z) None true) ;;;
        st_ret tok
      else st_throw (JS.ErrorObj (JS.str "No token received"))
  end.

(** [getAccessToken(interactive)] *)
Definition getAccessToken (interactive : bool) : ST Store JSString :=
  authState <~ getAuthState ;;
  usable <~ (if isAuthenticated authState && truthyString (accessToken authState)
             then expired <~ isTokenExpired authState ;; st_ret (negb expired)
             else st_ret false) ;;
  if usable
  then st_ret (withDefault (accessToken authState) [])
  else requestToken interactive.

(** [removeCachedToken] *)
Definition removeCachedToken (tok : JSString) : ST Store unit :=
  st_modify (fun s => mkStore (auth s) (clockReads s) (identityCalls s)
                        (userinfoCalls s) (removedTokens s ++ [tok])).



(** [signOut] *)
Definition signOut : ST Store unit :=
  authState <~ getAuthState ;;
  (if truthyString (accessToken authState)
   then removeCachedToken (withDefault (accessToken authState) [])
   else st_ret tt) ;;;
  saveAuthState DEFAULT_AUTH_STATE.

(** [refreshTokenIfNeeded] *)
Definition refreshTokenIfNeeded : ST Store (option JSString) :=
  authState <~ getAuthState ;;
  if negb (isAuthenticated authState)
  then st_ret None
  else
    expired <~ isTokenExpired authState ;;
    if expired
    then
      st_try
        ((if truthyString (accessToken authState)
          then removeCachedToken (withDefault (accessToken authState) [])
          else st_ret tt) ;;;
         tok <~ getAccessToken false ;;
         st_ret (Some tok))
        (fun _ => st_ret None)
    else st_ret (accessToken authState).

End WithProvider.

End GoogleAuth.

(** A provider that hands out a token at once, and a store in which nobody
    is signed in. *)
Definition grantingProvider : GoogleAuth.Provider :=
  GoogleAuth.mkProvider (fun n => 1000 * Z.of_nat n)%Z
    (fun _ _ => GoogleAuth.mkIdentityOutcome None (Some (JS.str "ya29.token")))
    (fun _ => GoogleAuth.UserinfoRejects).

Definition signedOutStore : GoogleAuth.Store := GoogleAuth.mkStore None 0 0 0 [].

(** The stored token [getAccessToken] answers with, if there is one: the
    token of a sign-in that has an expiry which is more than five minutes
    after the clock reading of the store. *)
Definition tokenInForce (provider : GoogleAuth.Provider) (s : GoogleAuth.Store)
  : option JSString :=
  let authState := withDefault (GoogleAuth.auth s) GoogleAuth.DEFAULT_AUTH_STATE in
  match GoogleAuth.expiresAt authState with
  | Some t =>
      if GoogleAuth.isAuthenticated authState
         && negb (t =? 0)%Z
         && (GoogleAuth.clock provider (GoogleAuth.clockReads s)
             <? t - GoogleAuth.EXPIRATION_BUFFER_MS)%Z
      then orNull (GoogleAuth.accessToken authState)
      else None
  | None => None
  end.

(** The message of the error the promise around [getAuthToken] rejects
    with when the callback finds [lastError] set. *)
Definition lastErrorMessage (message : option JSString) : JSString :=
  let error := orElse message (JS.str "Authentication failed") in
  if JS.includes error (JS.str "not approve") || JS.includes error (JS.str "cancel")
  then JS.str "AUTH_CANCELLED"
  else error.

(** What [processItem] throws when the auth provider gives it no token: the
    error with which [getAccessToken] rejects - the only way the one of
    google-auth.ts fails - or [Not authenticated] for a token that is
    empty. *)
Definition providerError (r : JS.Result JSString) : option JS.Exn :=
  match r with
  | JS.Throw e => Some e
  | JS.Ok tok =>
      if JS.isEmpty tok then Some (JS.ErrorObj (JS.str "Not authenticated")) else None
  end.

(** A provider whose callback receives neither an error nor a token. *)
Definition silentProvider : GoogleAuth.Provider :=
  GoogleAuth.mkProvider (fun n => 1000 * Z.of_nat n)%Z
    (fun _ _ => GoogleAuth.mkIdentityOutcome None None)
    (fun _ => GoogleAuth.UserinfoRejects).

(** An environment like [quietEnv] whose auth provider is [getAccessToken]
    of google-auth.ts over [silentProvider], nobody being signed in: every
    call rejects with [No token received]. *)
Definition noTokenEnv : Env :=
  mkEnv (clock quietEnv) (randomUUID quietEnv) (generatePdf quietEnv)
        (fun call => fst (GoogleAuth.getAccessToken silentProvider true
                            (GoogleAuth.mkStore None 0 call 0 [])))
        (fetchUpload quietEnv) (cancelArrives quietEnv).

(* ================================================================== *)
(** * background/handlers: generate-pdf.ts, upload.ts, download-pdf.ts *)
(* ================================================================== *)

Module CaptureHandlers.
Local Open Scope st_scope.

(** The session key [currentPdfMeta]: the generated PDF without its data,
    as far as [GeneratedPdf] carries it here. *)
Record PdfMeta : Type := mkPdfMeta {
  meta_capturedPostId : JSString;
  meta_filename : JSString;
  meta_sizeBytes : nat;
  meta_pageCount : nat
}.

(** What the three handlers share: the module variable [cachedPdf], the
    session keys [currentCapture] and [currentPdfMeta], the property
    [defaultDriveFolderId] of the stored settings, the store of the auth
    service, the upload history, and the world of the pipeline with its
    clock, its identifiers, its call numbers and its log of upload
    attempts.  Reading and writing the storage areas is taken not to fail. *)
Record State : Type := mkState {
  cachedPdf : option GeneratedPdf;
  currentCapture : option CapturedPost;
  currentPdfMeta : option PdfMeta;
  defaultDriveFolderId : option JSString;
  authStore : GoogleAuth.Store;
  uploadHistory : HistoryStore;
  world : World
}.

Definition setCachedPdf (p : option GeneratedPdf) (s : State) : State :=
  mkState p (currentCapture s) (currentPdfMeta s) (defaultDriveFolderId s)
    (authStore s) (uploadHistory s) (world s).
Definition setCurrentCapture (c : option CapturedPost) (s : State) : State :=
  mkState (cachedPdf s) c (currentPdfMeta s) (defaultDriveFolderId s)
    (authStore s) (uploadHistory s) (world s).
Definition setCurrentPdfMeta (m : option PdfMeta) (s : State) : State :=
  mkState (cachedPdf s) (currentCapture s) m (defaultDriveFolderId s)
    (authStore s) (uploadHistory s) (world s).
Definition setAuthStore (a : GoogleAuth.Store) (s : State) : State :=
  mkState (cachedPdf s) (currentCapture s) (currentPdfMeta s) (defaultDriveFolderId s)
    a (uploadHistory s) (world s).
Definition setUploadHistory (h : HistoryStore) (s : State) : State :=
  mkState (cachedPdf s) (currentCapture s) (currentPdfMeta s) (defaultDriveFolderId s)
    (authStore s) h (world s).
Definition setWorld (w : World) (s : State) : State :=
  mkState (cachedPdf s) (currentCapture s) (currentPdfMeta s) (defaultDriveFolderId s)
    (authStore s) (uploadHistory s) w.

(** A computation of the pipeline, and one of the auth service, run on
    their part of the state. *)
Definition onWorld {A} (c : M A) : ST State A :=
  fun s => let (r, w) := c (world s) in (r, setWorld w s).

Definition onAuth {A} (c : ST GoogleAuth.Store A) : ST State A :=
  fun s => let (r, a) := c (authStore s) in (r, setAuthStore a s).

Definition st_lift {A} (r : JS.Result A) : ST State A := fun s => (r, s).

(** [{ ...capture, status }] *)
Definition withStatus (status : CaptureStatus) (c : CapturedPost) : CapturedPost :=
  mkCapturedPost (post_id c) (post_sourceUrl c) (post_title c) (post_description c)
    (post_authorName c) (post_authorId c) (post_captureTimestamp c) (post_images c)
    (post_isVideo c) (post_videoThumbnail c) status.

(** [if (capture) await chrome.storage.session.set({ currentCapture:
    { ...capture, status } })] *)
Definition storeStatus (capture : option CapturedPost) (status : CaptureStatus)
  : ST State unit :=
  match capture with
  | Some c => st_modify (setCurrentCapture (Some (withStatus status c)))
  | None => st_ret tt
  end.

(** The call number that selects what the renderer or [fetch] does this
    time, as in [processItem]. *)
Definition nextCall : ST State nat :=
  s <~ st_get ;;
  let call := pipelineCalls (world s) in
  st_modify (fun s => setWorld (withPipelineCalls (S call) (world s)) s) ;;;
  st_ret call.

(** [error instanceof Error ? error.message : fallback] *)
Definition messageOr (fallback : string) (e : JS.Exn) : JSString :=
  match e with
  | JS.ErrorObj m => m
  | JS.NonError => JS.str fallback
  end.

(** The payload of [handleGeneratePdf] after the cast. *)
Record GeneratePayload : Type := mkGeneratePayload {
  gp_capturedPostId : option JSString;
  gp_forceRegenerate : option bool
}.

Inductive GenerateResponse : Type :=
| GenerateRejected (e : ErrorResponse)
| Generated (data : GeneratedPdf) (requestId : option JSString).

Inductive UploadResponse : Type :=
| UploadRejected (e : ErrorResponse)
| UploadDone (uploadRecord : UploadRecord) (webViewLink : JSString)
    (requestId : option JSString).

Inductive DownloadResponse : Type :=
| DownloadRejected (e : ErrorResponse)
| DownloadStarted (downloadId : nat) (filename : JSString) (requestId : option JSString).

Section WithEnv.
Variable env : Env.
Variable provider : GoogleAuth.Provider.

(** [handleGeneratePdf].  The options it takes from the stored settings go
    to the renderer, for which [generatePdf env] stands. *)
Definition handleGeneratePdf (payload : option GeneratePayload)
    (requestId : option JSString) : ST State GenerateResponse :=
  st_try
    (s <~ st_get ;;
     let currentCapture := currentCapture s in
     let payloadId := match payload with Some p => gp_capturedPostId p | None => None end in
     let force := match payload with
                  | Some p => truthyBool (gp_forceRegenerate p)
                  | None => false
                  end in
     let hit := match cachedPdf s, payloadId with
                | Some cached, Some id =>
                    if JS.eqb (pdf_capturedPostId cached) id && negb force
                    then Some cached else None
                | _, _ => None
                end in
     match hit with
     | Some cached => st_ret (Generated cached requestId)
     | None =>
         match currentCapture with
         | None =>
             st_ret (GenerateRejected
                       (createErrorResponse NO_CAPTURE
                          (JS.str "No captured post found. Please capture a post first.")
                          requestId))
         | Some capturedPost =>
             if truthyString payloadId
                && negb (JS.eqb (withDefault payloadId []) (post_id capturedPost))
             then st_ret (GenerateRejected
                            (createErrorResponse VALIDATION_ERROR
                               (JS.str "Captured post ID mismatch") requestId))
             else
               storeStatus (Some capturedPost) PdfGenerating ;;;
               call <~ nextCall ;;
               generatedPdf <~ st_lift (generatePdf env call) ;;
               st_modify (setCachedPdf (Some generatedPdf)) ;;;
               st_modify (setCurrentPdfMeta
                            (Some (mkPdfMeta (pdf_capturedPostId generatedPdf)
                                     (pdf_filename generatedPdf)
                                     (pdf_sizeBytes generatedPdf)
                                     (pdf_pageCount generatedPdf)))) ;;;
               storeStatus (Some capturedPost) PdfReady ;;;
               st_ret (Generated generatedPdf requestId)
         end
     end)
    (fun error =>
       s <~ st_get ;;
       storeStatus (currentCapture s) CsError ;;;
       st_ret (GenerateRejected
                 (createErrorResponse PDF_GENERATION_ERROR
                    (messageOr "Failed to generate PDF" error) requestId))).

(** The check of the authentication in [handleUploadToDrive]: the auth
    state to upload with, or [None] when a fresh token could not be had. *)
Definition authForUpload : ST State (option GoogleAuth.AuthState) :=
  authState <~ onAuth GoogleAuth.getAuthState ;;
  stale <~ (if negb (GoogleAuth.isAuthenticated authState) then st_ret true
            else onAuth (GoogleAuth.isTokenExpired provider authState)) ;;
  if stale
  then st_try
         (onAuth (GoogleAuth.getAccessToken provider true) ;;;
          fresh <~ onAuth GoogleAuth.getAuthState ;;
          st_ret (Some fresh))
         (fun _ => st_ret None)
  else st_ret (Some authState).

(** [handleUploadToDrive]; [capturedPostId] is the property of the payload,
    [None] when the payload or the property is absent. *)
Definition handleUploadToDrive (capturedPostId : option JSString)
    (requestId : option JSString) : ST State UploadResponse :=
  st_try
    (s <~ st_get ;;
     let currentCapture := currentCapture s in
     match cachedPdf s with
     | None =>
         st_ret (UploadRejected
                   (createErrorResponse NO_PDF
                      (JS.str "No PDF available. Please generate a PDF first.")
                      requestId))
     | Some generatedPdf =>
         if truthyString capturedPostId
            && negb (JS.eqb (withDefault capturedPostId [])
                       (pdf_capturedPostId generatedPdf))
         then st_ret (UploadRejected
                        (createErrorResponse VALIDATION_ERROR
                           (JS.str "PDF does not match the specified capture") requestId))
         else
           checked <~ authForUpload ;;
           match checked with
           | None =>
               st_ret (UploadRejected
                         (createErrorResponse NOT_AUTHENTICATED
                            (JS.str "Please sign in to upload to Google Drive")
                            requestId))
           | Some authState =>
               if negb (truthyString (GoogleAuth.accessToken authState))
               then st_ret (UploadRejected
                              (createErrorResponse NOT_AUTHENTICATED
                                 (JS.str "No valid access token") requestId))
               else
                 storeStatus currentCapture CsUploading ;;;
                 uploadRecord <~ onWorld (createUploadRecord env
                                            (pdf_capturedPostId generatedPdf)
                                            (pdf_filename generatedPdf)) ;;
                 _pdfBytes <~ st_lift (Base64.base64ToUint8Array
                                         (pdf_pdfBase64 generatedPdf)) ;;
                 s1 <~ st_get ;;
                 let folderId := defaultDriveFolderId s1 in
                 call <~ nextCall ;;
                 result <~ onWorld
                             (uploadToDrive (fetchUpload env call)
                                (pdf_filename generatedPdf)
                                (mkUploadOptions folderId None
                                   (withDefault (GoogleAuth.accessToken authState) []))) ;;
                 uploadRecord <~ onWorld (updateUploadRecord env uploadRecord result) ;;
                 st_modify (fun s => setUploadHistory
                                       (saveUploadToHistory uploadRecord (uploadHistory s))
                                       s) ;;;
                 storeStatus currentCapture
                   (if ur_success result then Uploaded else CsError) ;;;
                 if negb (ur_success result)
                 then st_ret (UploadRejected
                                (createErrorResponse UPLOAD_FAILED
                                   (orElse (ur_error result) (JS.str "Upload failed"))
                                   requestId))
                 else st_ret (UploadDone uploadRecord
                                (orElse (ur_webViewLink result) []) requestId)
           end
     end)
    (fun error =>
       st_ret (UploadRejected
                 (createErrorResponse UPLOAD_FAILED
                    (messageOr "Upload failed" error) requestId))).

(** [handleDownloadPdf], given what [chrome.downloads.download] does. *)
Definition handleDownloadPdf (download : JS.Result nat) (requestId : option JSString)
  : ST State DownloadResponse :=
  st_try
    (s <~ st_get ;;
     match cachedPdf s with
     | None =>
         st_ret (DownloadRejected
                   (createErrorResponse NO_PDF
                      (JS.str "No PDF available. Please generate a PDF first.")
                      requestId))
     | Some generatedPdf =>
         downloadId <~ st_lift download ;;
         st_ret (DownloadStarted downloadId (pdf_filename generatedPdf) requestId)
     end)
    (fun error =>
       st_ret (DownloadRejected
                 (createErrorResponse DOWNLOAD_ERROR
                    (messageOr "Failed to download PDF" error) requestId))).

End WithEnv.

End CaptureHandlers.

(** Two states of the handlers that differ in the store of the auth service
    at most. *)
Definition sameButAuth (s s' : CaptureHandlers.State) : Prop :=
  CaptureHandlers.cachedPdf s' = CaptureHandlers.cachedPdf s
  /\ CaptureHandlers.currentCapture s' = CaptureHandlers.currentCapture s
  /\ CaptureHandlers.currentPdfMeta s' = CaptureHandlers.currentPdfMeta s
  /\ CaptureHandlers.defaultDriveFolderId s' = CaptureHandlers.defaultDriveFolderId s
  /\ CaptureHandlers.uploadHistory s' = CaptureHandlers.uploadHistory s
  /\ CaptureHandlers.world s' = CaptureHandlers.world s.

(** What an upload that was tried leaves behind: the record names the
    cached PDF, it is the entry the history gained, and between one and
    three requests were sent. *)
Definition recordedUpload (s s' : CaptureHandlers.State) (record : UploadRecord) : Prop :=
  (exists pdf,
      CaptureHandlers.cachedPdf s = Some pdf
      /\ rec_capturedPostId record = pdf_capturedPostId pdf
      /\ rec_filename record = pdf_filename pdf)
  /\ CaptureHandlers.uploadHistory s' =
     saveUploadToHistory record (CaptureHandlers.uploadHistory s)
  /\ exists evs,
       log (CaptureHandlers.world s') = log (CaptureHandlers.world s) ++ evs
       /\ 1 <= uploadAttempts evs <= 3.

(** The capture a payload of [handleGeneratePdf] names, and whether the
    payload asks for a new PDF whatever is cached. *)
Definition namedCapture (payload : option CaptureHandlers.GeneratePayload)
  : option JSString :=
  match payload with
  | Some p => CaptureHandlers.gp_capturedPostId p
  | None => None
  end.

Definition forcesNew (payload : option CaptureHandlers.GeneratePayload) : bool :=
  match payload with
  | Some p => truthyBool (CaptureHandlers.gp_forceRegenerate p)
  | None => false
  end.

(** The cached PDF a request to generate is answered with: the one cached
    for the capture the payload names, unless the payload forces a new
    one. *)
Definition answersFromCache (s : CaptureHandlers.State)
    (payload : option CaptureHandlers.GeneratePayload) : option GeneratedPdf :=
  match CaptureHandlers.cachedPdf s, namedCapture payload with
  | Some cached, Some id =>
      if JS.eqb (pdf_capturedPostId cached) id && negb (forcesNew payload)
      then Some cached
      else None
  | _, _ => None
  end.

(** A request names a capture, and not the one with identifier [actual]. *)
Definition namesAnother (capturedPostId : option JSString) (actual : JSString) : bool :=
  match capturedPostId with
  | Some id => negb (JS.isEmpty id) && negb (JS.eqb id actual)
  | None => false
  end.

(** The token an upload is made with, if one can be had: the token of a
    sign-in that has not expired, or else, when nobody is signed in or the
    sign-in has expired, the token [getAccessToken] gives. *)
Definition tokenForUpload (provider : GoogleAuth.Provider) (s : GoogleAuth.Store)
  : option JSString :=
  let authState := withDefault (GoogleAuth.auth s) GoogleAuth.DEFAULT_AUTH_STATE in
  let (expired, checkedAt) :=
    if GoogleAuth.isAuthenticated authState
    then GoogleAuth.isTokenExpired provider authState s
    else (JS.Ok true, s) in
  match expired with
  | JS.Ok false => orNull (GoogleAuth.accessToken authState)
  | _ =>
      match fst (GoogleAuth.getAccessToken provider true checkedAt) with
      | JS.Ok tok => Some tok
      | JS.Throw _ => None
      end
  end.

(** What [uploadToDrive] returns; the world it runs in has no part in it. *)
Definition resultOfUpload (fetches : Z -> FetchOutcome) (filename : JSString)
    (options : UploadOptions) : JS.Result UploadResult :=
  fst (uploadToDrive fetches filename options initialWorld).

(** A state of the handlers in which a PDF is cached for the current
    capture and nobody is signed in. *)
Definition readyToUpload : CaptureHandlers.State :=
  CaptureHandlers.mkState
    (Some (mkGeneratedPdf (JS.str "post-1") (JS.str "TWFu") (JS.str "post.pdf") 3 1))
    (Some (samplePost "post-1")) None None signedOutStore None initialWorld.

(** The status of the current capture, when there is one. *)
Definition captureStatus (s : CaptureHandlers.State) : option CaptureStatus :=
  match CaptureHandlers.currentCapture s with
  | Some c => Some (post_status c)
  | None => None
  end.

(* ================================================================== *)
(** * Computations that may never settle *)
(* ================================================================== *)

(** How an awaited computation ends: its promise settles, fulfilled or
    rejected, or it never settles - and then nothing that follows the
    [await] runs, neither a [catch] nor a [finally] block. *)
Inductive Completion (A : Type) : Type :=
| Settled (r : JS.Result A)
| NeverSettles.
Arguments Settled {A} r.
Arguments NeverSettles {A}.

Definition Async (S A : Type) : Type := S -> Completion A * S.

Definition as_ret {S A} (a : A) : Async S A := fun s => (Settled (JS.Ok a), s).

Definition as_throw {S A} (e : JS.Exn) : Async S A := fun s => (Settled (JS.Throw e), s).

Definition as_never {S A} : Async S A := fun s => (NeverSettles, s).

Definition as_bind {S A B} (c : Async S A) (k : A -> Async S B) : Async S B :=
  fun s =>
    match c s with
    | (Settled (JS.Ok a), s') => k a s'
    | (Settled (JS.Throw e), s') => (Settled (JS.Throw e), s')
    | (NeverSettles, s') => (NeverSettles, s')
    end.

Definition as_try {S A} (c : Async S A) (h : JS.Exn -> Async S A) : Async S A :=
  fun s =>
    match c s with
    | (Settled (JS.Throw e), s') => h e s'
    | other => other
    end.

Definition as_get {S} : Async S S := fun s => (Settled (JS.Ok s), s).

Definition as_modify {S} (f : S -> S) : Async S unit :=
  fun s => (Settled (JS.Ok tt), f s).

Declare Scope async_scope.
Delimit Scope async_scope with async.
Notation "x <~ c ;; k" := (as_bind c (fun x => k))
  (at level 61, c at next level, right associativity) : async_scope.
Notation "c ;;; k" := (as_bind c (fun _ => k))
  (at level 61, right associativity) : async_scope.

(* ================================================================== *)
(** * services/batch-manager.ts: BatchManager.processBatch *)
(* ================================================================== *)

Module BatchManager.
Local Open Scope async_scope.

Record NoteRef : Type := mkNoteRef {
  noteId : JSString;
  noteUrl : JSString
}.

Inductive ResultStatus : Type := RsSuccess | RsError.

(** An element of [progress.results]. *)
Record NoteResult : Type := mkNoteResult {
  res_noteId : JSString;
  res_status : ResultStatus;
  res_error : option JSString;
  res_pdfBase64 : option JSString;
  res_filename : option JSString
}.

Record BatchProgress : Type := mkBatchProgress {
  total : nat;
  current : nat;
  succeeded : nat;
  failed : nat;
  results : list NoteResult
}.

(** An element of the array [processBatch] returns. *)
Record PdfOutput : Type := mkPdfOutput {
  out_noteId : JSString;
  out_pdfBase64 : JSString;
  out_filename : option JSString
}.

(** What [chrome.tabs.create] does: it rejects with an error, or resolves
    with a tab that may lack an identifier. *)
Inductive TabOutcome : Type :=
| TabRejects (message : JSString)
| TabCreated (id : option nat).

(** The response to the [CAPTURE_POST] message, and to [GENERATE_PDF]. *)
Record CaptureResponse : Type := mkCaptureResponse {
  cap_success : bool;
  cap_error : option JSString;
  cap_data : option CapturedPost
}.

Record PdfData : Type := mkPdfData {
  pd_pdfBase64 : option JSString;
  pd_filename : option JSString
}.

Record PdfResponse : Type := mkPdfResponse {
  gen_success : bool;
  gen_error : option JSString;
  gen_data : option PdfData
}.

(** The browser as the manager meets it, note by note: the tab it opens,
    whether that tab ever reports the status [complete], the responses to
    the two messages ([None] when the callback receives [undefined]),
    whether closing the tab fails, and the message of the [TypeError] for
    reading a property of [undefined].  Each message is taken to be
    answered - its callback is called - and the API calls reject with
    [Error] objects. *)
Record Browser : Type := mkBrowser {
  tabsCreate : nat -> TabOutcome;
  tabLoads : nat -> bool;
  capture : nat -> option CaptureResponse;
  generate : nat -> option PdfResponse;
  tabsRemove : nat -> option JSString;
  typeErrorMessage : JSString -> JSString
}.

Inductive Event : Type :=
| EvSnapshot (p : BatchProgress)
| EvTabRemoved (id : nat).

(** The two flags of the manager, the progress object of the batch, which
    the callback receives by reference, and the log of what the callback saw
    and of the tabs closed. *)
Record State : Type := mkState {
  isRunning : bool;
  shouldStop : bool;
  progress : BatchProgress;
  log : list Event
}.

Definition setRunning (b : bool) (s : State) : State :=
  mkState b (shouldStop s) (progress s) (log s).
Definition setShouldStop (b : bool) (s : State) : State :=
  mkState (isRunning s) b (progress s) (log s).
Definition setProgress (p : BatchProgress) (s : State) : State :=
  mkState (isRunning s) (shouldStop s) p (log s).
Definition emit (e : Event) : Async State unit :=
  as_modify (fun s => mkState (isRunning s) (shouldStop s) (progress s) (log s ++ [e])).

Definition mutate (f : BatchProgress -> BatchProgress) : Async State unit :=
  as_modify (fun s => setProgress (f (progress s)) s).

(** [onProgress(progress)]: the callback, taken to return normally, is
    recorded with the progress object as it is at the moment of the call. *)
Definition onProgress : Async State unit :=
  s <~ as_get ;; emit (EvSnapshot (progress s)).

Definition truthyId (id : option nat) : bool :=
  match id with Some (S _) => true | _ => false end.

Section WithBrowser.
Variable browser : Browser.

(** The identifier the [try] block leaves in [tabId], which [finally]
    reads. *)
Definition tabIdOf (index : nat) : option nat :=
  match tabsCreate browser index with
  | TabRejects _ => None
  | TabCreated id => id
  end.

(** [waitForTabLoad]: the promise is resolved by the listener when the tab
    reports the status [complete]; nothing rejects it and there is no
    timeout, so it never settles for a tab that never reports it. *)
Definition waitForTabLoad (index : nat) : Async State unit :=
  if tabLoads browser index then as_ret tt else as_never.

(** The [try] block of one iteration, for the note at position [index].
    The grace period of two seconds always passes.  The count of successes
    is raised before the object pushed onto the results is built, and
    building it reads two properties of the data of the response. *)
Definition tryBlock (index : nat) (note : NoteRef) : Async State unit :=
  match tabsCreate browser index with
  | TabRejects message => as_throw (JS.ErrorObj message)
  | TabCreated tabId =>
      if negb (truthyId tabId)
      then as_throw (JS.ErrorObj (JS.str "Failed to create tab"))
      else
        waitForTabLoad index ;;;
        let captureResponse := capture browser index in
        let captured := match captureResponse with
                        | Some r => cap_success r
                        | None => false
                        end in
        if negb captured
        then as_throw (JS.ErrorObj
                         (orElse match captureResponse with
                                 | Some r => cap_error r
                                 | None => None
                                 end (JS.str "Capture failed")))
        else
          match match captureResponse with Some r => cap_data r | None => None end with
          | None => as_throw (JS.ErrorObj (typeErrorMessage browser (JS.str "id")))
          | Some _capturedPost =>
              let pdfResponse := generate browser index in
              let generated := match pdfResponse with
                               | Some r => gen_success r
                               | None => false
                               end in
              if negb generated
              then as_throw (JS.ErrorObj
                               (orElse match pdfResponse with
                                       | Some r => gen_error r
                                       | None => None
                                       end (JS.str "PDF Generation failed")))
              else
                let stats := match pdfResponse with Some r => gen_data r | None => None end in
                mutate (fun p => mkBatchProgress (total p) (current p) (S (succeeded p))
                                   (failed p) (results p)) ;;;
                match stats with
                | None =>
                    as_throw (JS.ErrorObj (typeErrorMessage browser (JS.str "pdfBase64")))
                | Some stats =>
                    mutate (fun p => mkBatchProgress (total p) (current p) (succeeded p)
                                       (failed p)
                                       (results p ++
                                        [mkNoteResult (noteId note) RsSuccess None
                                           (pd_pdfBase64 stats) (pd_filename stats)]))
                end
          end
  end.

(** The [catch] block. *)
Definition catchBlock (note : NoteRef) (err : JS.Exn) : Async State unit :=
  mutate (fun p => mkBatchProgress (total p) (current p) (succeeded p) (S (failed p))
                     (results p ++ [mkNoteResult (noteId note) RsError
                                      (match err with
                                       | JS.ErrorObj m => Some m
                                       | JS.NonError => None
                                       end) None None])).

(** The [finally] block. *)
Definition finallyBlock (index : nat) : Async State unit :=
  match tabIdOf index with
  | Some id =>
      if truthyId (Some id)
      then match tabsRemove browser index with
           | None => emit (EvTabRemoved id)
           | Some message => as_throw (JS.ErrorObj message)
           end
      else as_ret tt
  | None => as_ret tt
  end.

(** One iteration after the test of [shouldStop]. *)
Definition processNote (index : nat) (note : NoteRef) : Async State unit :=
  mutate (fun p => mkBatchProgress (total p) (S (current p)) (succeeded p) (failed p)
                     (results p)) ;;;
  onProgress ;;;
  as_try (tryBlock index note) (catchBlock note) ;;;
  finallyBlock index.

(** The loop [for (const note of notes)]. *)
Fixpoint noteLoop (notes : list NoteRef) (index : nat) : Async State unit :=
  match notes with
  | [] => as_ret tt
  | note :: rest =>
      s <~ as_get ;;
      if shouldStop s then as_ret tt
      else processNote index note ;;; noteLoop rest (S index)
  end.

Definition toOutput (r : NoteResult) : option PdfOutput :=
  match res_status r, res_pdfBase64 r with
  | RsSuccess, Some pdf =>
      if JS.isEmpty pdf then None else Some (mkPdfOutput (res_noteId r) pdf (res_filename r))
  | _, _ => None
  end.

Definition processBatch (notes : list NoteRef) : Async State (list PdfOutput) :=
  s <~ as_get ;;
  if isRunning s then as_ret []
  else
    as_modify (setRunning true) ;;;
    as_modify (setShouldStop false) ;;;
    as_modify (setProgress (mkBatchProgress (List.length notes) 0 0 0 [])) ;;;
    onProgress ;;;
    noteLoop notes 0 ;;;
    as_modify (setRunning false) ;;;
    s' <~ as_get ;;
    as_ret (filterMap toOutput (results (progress s'))).

End WithBrowser.

End BatchManager.

(** The snapshots the callback of [processBatch] saw. *)
Definition batchSnapshots (l : list BatchManager.Event) : list BatchManager.BatchProgress :=
  filterMap (fun e => match e with
                      | BatchManager.EvSnapshot p => Some p
                      | BatchManager.EvTabRemoved _ => None
                      end) l.

(** Whether closing the tab of the note at [index] is tried and fails, and
    with which message. *)
Definition tabRemovalFailure (browser : BatchManager.Browser) (index : nat)
  : option JSString :=
  if BatchManager.truthyId (BatchManager.tabIdOf browser index)
  then BatchManager.tabsRemove browser index
  else None.

(** Whether the wait for the tab of the note at [index] is reached and
    never returns: the tab is opened and never finishes loading. *)
Definition tabHangs (browser : BatchManager.Browser) (index : nat) : bool :=
  BatchManager.truthyId (BatchManager.tabIdOf browser index)
  && negb (BatchManager.tabLoads browser index).

Definition isErrorResult (r : BatchManager.NoteResult) : bool :=
  match BatchManager.res_status r with
  | BatchManager.RsError => true
  | BatchManager.RsSuccess => false
  end.

(** A browser in which everything works, and one in which the PDF response
    reports success without data. *)
Definition workingBrowser : BatchManager.Browser :=
  BatchManager.mkBrowser
    (fun i => BatchManager.TabCreated (Some (S i)))
    (fun _ => true)
    (fun _ => Some (BatchManager.mkCaptureResponse true None (Some (samplePost "p"))))
    (fun _ => Some (BatchManager.mkPdfResponse true None
                      (Some (BatchManager.mkPdfData (Some (JS.str "TWFu"))
                               (Some (JS.str "p.pdf"))))))
    (fun _ => None)
    (fun _ => JS.str "TypeError").

Definition noDataBrowser : BatchManager.Browser :=
  BatchManager.mkBrowser
    (BatchManager.tabsCreate workingBrowser) (BatchManager.tabLoads workingBrowser)
    (BatchManager.capture workingBrowser)
    (fun _ => Some (BatchManager.mkPdfResponse true None None))
    (BatchManager.tabsRemove workingBrowser) (BatchManager.typeErrorMessage workingBrowser).

(** A browser in which closing a tab fails. *)
Definition stuckTabBrowser : BatchManager.Browser :=
  BatchManager.mkBrowser
    (BatchManager.tabsCreate workingBrowser) (BatchManager.tabLoads workingBrowser)
    (BatchManager.capture workingBrowser)
    (BatchManager.generate workingBrowser)
    (fun _ => Some (JS.str "No tab with id"))
    (BatchManager.typeErrorMessage workingBrowser).

(** A browser in which the tab of the second note never finishes
    loading. *)
Definition stalledTabBrowser : BatchManager.Browser :=
  BatchManager.mkBrowser
    (BatchManager.tabsCreate workingBrowser) (fun i => negb (i =? 1))
    (BatchManager.capture workingBrowser)
    (BatchManager.generate workingBrowser)
    (BatchManager.tabsRemove workingBrowser)
    (BatchManager.typeErrorMessage workingBrowser).

Definition idleManager : BatchManager.State :=
  BatchManager.mkState false false (BatchManager.mkBatchProgress 0 0 0 0 []) [].

Definition sampleNote (name : string) : BatchManager.NoteRef :=
  BatchManager.mkNoteRef (JS.str name) (JS.str "https://www.xiaohongshu.com/explore/1").

(* ================================================================== *)
(** * services/image-downloader.ts *)
(* ================================================================== *)

Module ImageDownloader.
Local Open Scope st_scope.

Inductive ImageType : Type := ItJpeg | ItPng | ItWebp | ItUnknown.

Record DownloadedImage : Type := mkDownloadedImage {
  di_image : PostImage;
  di_bytes : option Base64.Uint8Array;
  di_type : ImageType;
  di_success : bool;
  di_error : option JSString
}.

(** [Partial<DownloadOptions>]: an absent property is [None]. *)
Record DownloadOptions : Type := mkDownloadOptions {
  do_maxRetries : option Z;
  do_timeout : option Z;
  do_convertWebP : option bool
}.

Definition DEFAULT_maxRetries : Z := 3.
Definition DEFAULT_convertWebP : bool := true.

(** [bytes[i] === v] *)
Definition byteIs (bytes : Base64.Uint8Array) (i : nat) (v : byte) : bool :=
  match nth_error bytes i with
  | Some b => Byte.eqb b v
  | None => false
  end.

(** [detectImageType]: the magic bytes of JPEG, PNG and WebP. *)
Definition detectImageType (bytes : Base64.Uint8Array) : ImageType :=
  if (List.length bytes <? 4)%nat then ItUnknown
  else if byteIs bytes 0 xff && byteIs bytes 1 xd8 && byteIs bytes 2 xff then ItJpeg
  else if byteIs bytes 0 x89 && byteIs bytes 1 x50 && byteIs bytes 2 x4e
          && byteIs bytes 3 x47 then ItPng
  else if byteIs bytes 0 x52 && byteIs bytes 1 x49 && byteIs bytes 2 x46
          && byteIs bytes 3 x46 && (11 <? List.length bytes)%nat
          && byteIs bytes 8 x57 && byteIs bytes 9 x45 && byteIs bytes 10 x42
          && byteIs bytes 11 x50 then ItWebp
  else ItUnknown.

(** What [fetch(image.url, ...)] does at one attempt: it rejects (also when
    the timeout aborts it), or resolves with a status and a body whose
    [arrayBuffer()] yields the bytes or throws. *)
Inductive FetchOutcome : Type :=
| Rejects (e : JS.Exn)
| Responds (status : nat) (body : JS.Result Base64.Uint8Array).

(** The network for one image, attempt by attempt, with what
    [convertWebPToJpeg] makes of the bytes of that attempt ([None] for
    [null]; it catches every error itself). *)
Record Network : Type := mkNetwork {
  fetches : Z -> FetchOutcome;
  converts : Z -> option Base64.Uint8Array
}.

Inductive Event : Type :=
| EvAttempt (attempt : Z)
| EvDelay (ms : Z).

Definition emit (e : Event) : ST (list Event) unit := st_modify (fun l => l ++ [e]).

Definition failure (image : PostImage) (message : JSString) : DownloadedImage :=
  mkDownloadedImage image None ItUnknown false (Some message).

(** The [try] block of one attempt. *)
Definition tryDownload (network : Network) (image : PostImage) (convertWebP : bool)
    (attempt : Z) : JS.Result DownloadedImage :=
  match fetches network attempt with
  | Rejects e => JS.Throw e
  | Responds status body =>
      if negb ((200 <=? status)%nat && (status <=? 299)%nat)
      then JS.Throw (JS.ErrorObj (JS.str "HTTP " ++ JS.ofNat status))
      else
        match body with
        | JS.Throw e => JS.Throw e
        | JS.Ok bytes =>
            let type := detectImageType bytes in
            let convert := match type with ItWebp => convertWebP | _ => false end in
            if convert
            then match converts network attempt with
                 | Some converted =>
                     JS.Ok (mkDownloadedImage image (Some converted) ItJpeg true None)
                 | None => JS.Ok (mkDownloadedImage image (Some bytes) type true None)
                 end
            else JS.Ok (mkDownloadedImage image (Some bytes) type true None)
        end
  end.

(** The loop [for (let attempt = 1; attempt <= opts.maxRetries; attempt++)];
    [remaining] counts the iterations left. *)
Fixpoint downloadLoop (network : Network) (image : PostImage) (convertWebP : bool)
    (maxRetries : Z) (remaining : nat) (attempt : Z) : ST (list Event) DownloadedImage :=
  match remaining with
  | O => st_ret (failure image (JS.str "Max retries exceeded"))
  | S remaining' =>
      emit (EvAttempt attempt) ;;;
      match tryDownload network image convertWebP attempt with
      | JS.Ok result => st_ret result
      | JS.Throw error =>
          let errorMessage := errorMessageOf error in
          if (attempt =? maxRetries)%Z
          then st_ret (failure image errorMessage)
          else
            emit (EvDelay (2 ^ attempt * 500)) ;;;
            downloadLoop network image convertWebP maxRetries remaining' (attempt + 1)
      end
  end.

Definition downloadImage (network : Network) (image : PostImage)
    (options : DownloadOptions) : ST (list Event) DownloadedImage :=
  let maxRetries := withDefault (do_maxRetries options) DEFAULT_maxRetries in
  let convertWebP := withDefault (do_convertWebP options) DEFAULT_convertWebP in
  downloadLoop network image convertWebP maxRetries (Z.to_nat maxRetries) 1.

(** [downloadImages]: [Promise.all] over the downloads, which share
    nothing; their results are those of running them one after another, and
    the log lists them image by image.  [networks] gives the network of the
    image at each position. *)
Fixpoint downloadAll (networks : nat -> Network) (images : list PostImage)
    (options : DownloadOptions) (index : nat) : ST (list Event) (list DownloadedImage) :=
  match images with
  | [] => st_ret []
  | image :: rest =>
      result <~ downloadImage (networks index) image options ;;
      results <~ downloadAll networks rest options (S index) ;;
      st_ret (result :: results)
  end.

Definition downloadImages (networks : nat -> Network) (images : list PostImage)
    (options : DownloadOptions) : ST (list Event) (list DownloadedImage) :=
  downloadAll networks images options 0.

End ImageDownloader.

(** Readings of the log of a download. *)
Definition downloadAttempts (l : list ImageDownloader.Event) : nat :=
  List.length (filter (fun e => match e with
                                | ImageDownloader.EvAttempt _ => true
                                | ImageDownloader.EvDelay _ => false
                                end) l).

Definition downloadDelays (l : list ImageDownloader.Event) : list Z :=
  filterMap (fun e => match e with
                      | ImageDownloader.EvDelay ms => Some ms
                      | ImageDownloader.EvAttempt _ => None
                      end) l.

(** The waits of the download loop after [count] failed attempts that were
    not the last: [2^attempt] times 500 ms. *)
Fixpoint downloadBackoff (count : nat) (first : Z) : list Z :=
  match count with
  | O => []
  | S count' => (2 ^ first * 500)%Z :: downloadBackoff count' (first + 1)
  end.

Definition isSome {A} (o : option A) : bool :=
  match o with Some _ => true | None => false end.

(* ================================================================== *)
(** * pdf-generator.ts: splitting text by emoji and wrapping it *)
(* ================================================================== *)

Module PdfText.

Definition EMOJI_RANGES : list (N * N) :=
  [(0x1F600, 0x1F64F); (0x1F300, 0x1F5FF); (0x1F680, 0x1F6FF); (0x1F1E0, 0x1F1FF);
   (0x1F900, 0x1F9FF); (0x1FA00, 0x1FA6F); (0x1FA70, 0x1FAFF); (0x2600, 0x26FF);
   (0x2700, 0x27BF); (0x231A, 0x231B); (0x23E9, 0x23F3); (0x23F8, 0x23FA);
   (0x25AA, 0x25AB); (0x25B6, 0x25C0); (0x25FB, 0x25FE); (0x2614, 0x2615);
   (0x2648, 0x2653); (0x2702, 0x2702); (0x2705, 0x2705); (0x2708, 0x270D);
   (0x270F, 0x270F); (0x2714, 0x2714); (0x2716, 0x2716); (0x2728, 0x2728);
   (0x274C, 0x274C); (0x2753, 0x2755); (0x2757, 0x2757); (0x2763, 0x2764);
   (0x2795, 0x2797); (0x27A1, 0x27A1); (0x2934, 0x2935); (0x2B05, 0x2B07);
   (0x2B1B, 0x2B1C); (0x2B50, 0x2B50); (0x2B55, 0x2B55); (0x3030, 0x3030);
   (0x303D, 0x303D)]%N.

Definition isEmoji (codePoint : N) : bool :=
  existsb (fun range => (fst range <=? codePoint) && (codePoint <=? snd range))%N
    EMOJI_RANGES.

Definition isHighSurrogate (c : N) : bool := ((0xD800 <=? c) && (c <=? 0xDBFF))%N.
Definition isLowSurrogate (c : N) : bool := ((0xDC00 <=? c) && (c <=? 0xDFFF))%N.

(** The strings [for (const char of s)] yields: one per code point, a
    surrogate pair together, a lone surrogate by itself. *)
Fixpoint chars (s : JSString) : list JSString :=
  match s with
  | [] => []
  | c :: rest =>
      match rest with
      | d :: rest' =>
          if isHighSurrogate c && isLowSurrogate d
          then [c; d] :: chars rest'
          else [c] :: chars rest
      | [] => [[c]]
      end
  end.

(** [char.codePointAt(0) || 0] *)
Definition codePointAt0 (char : JSString) : N :=
  match char with
  | c :: d :: _ =>
      if isHighSurrogate c && isLowSurrogate d
      then (0x10000 + (c - 0xD800) * 0x400 + (d - 0xDC00))%N
      else c
  | [c] => c
  | [] => 0%N
  end.

Record TextSegment : Type := mkTextSegment {
  seg_text : JSString;
  seg_isEmoji : bool
}.

Definition isVariationSelector (codePoint : N) : bool :=
  ((0xFE00 <=? codePoint) && (codePoint <=? 0xFE0F))%N.

(** The loop of [splitTextByEmoji] over the characters left, with its three
    variables, and the push after the loop. *)
Fixpoint splitLoop (rest : list JSString) (segments : list TextSegment)
    (currentSegment : JSString) (currentIsEmoji : bool) : list TextSegment :=
  match rest with
  | [] =>
      if JS.isEmpty currentSegment then segments
      else segments ++ [mkTextSegment currentSegment currentIsEmoji]
  | char :: rest' =>
      let codePoint := codePointAt0 char in
      let charIsEmoji := isEmoji codePoint in
      if isVariationSelector codePoint
      then splitLoop rest' segments currentSegment currentIsEmoji
      else if JS.isEmpty currentSegment
      then splitLoop rest' segments char charIsEmoji
      else if Bool.eqb charIsEmoji currentIsEmoji
      then splitLoop rest' segments (currentSegment ++ char) currentIsEmoji
      else splitLoop rest' (segments ++ [mkTextSegment currentSegment currentIsEmoji])
             char charIsEmoji
  end.

Definition splitTextByEmoji (text : JSString) : list TextSegment :=
  splitLoop (chars text) [] [] false.

(** [text.split(newline)]; [current] collects the piece being read. *)
Fixpoint splitLines (s : JSString) (current : JSString) : list JSString :=
  match s with
  | [] => [current]
  | c :: rest =>
      if (c =? 10)%N then current :: splitLines rest []
      else splitLines rest (current ++ [c])
  end.

(** [x > y] on numbers. *)
Definition greater (x y : Float64.Number) : bool := SFltb y x.

Section WithFont.
(** [font.widthOfTextAtSize], taken not to throw. *)
Variable widthOfTextAtSize : JSString -> Float64.Number -> Float64.Number.
Variable fontSize maxWidth : Float64.Number.

(** The loop of [wrapText] over the characters of a paragraph. *)
Fixpoint wrapLoop (rest : list JSString) (lines : list JSString) (currentLine : JSString)
  : list JSString * JSString :=
  match rest with
  | [] => (lines, currentLine)
  | char :: rest' =>
      let testLine := currentLine ++ char in
      let width := widthOfTextAtSize testLine fontSize in
      if greater width maxWidth && negb (JS.isEmpty currentLine)
      then wrapLoop rest' (lines ++ [currentLine]) char
      else wrapLoop rest' lines testLine
  end.

(** The body of the loop over the paragraphs. *)
Definition wrapParagraph (lines : list JSString) (paragraph : JSString) : list JSString :=
  if JS.isEmpty (JS.trim paragraph)
  then lines ++ [[]]
  else
    let '(lines', currentLine) := wrapLoop (chars paragraph) lines [] in
    if JS.isEmpty currentLine then lines' else lines' ++ [currentLine].

Definition wrapText (text : JSString) : list JSString :=
  fold_left wrapParagraph (splitLines text []) [].

End WithFont.

End PdfText.

(** The flags of neighbouring elements differ. *)
Fixpoint alternating (flags : list bool) : Prop :=
  match flags with
  | a :: (b :: _) as rest => a <> b /\ alternating rest
  | _ => True
  end.

(** A paragraph that is empty or white space only. *)
Definition blank (paragraph : JSString) : bool := JS.isEmpty (JS.trim paragraph).

(** The segments made of groups of characters: each group gives the segment
    of its characters put together, with the flag of the group. *)
Definition segmentsOf (groups : list (list JSString * bool)) : list PdfText.TextSegment :=
  map (fun g => PdfText.mkTextSegment (List.concat (fst g)) (snd g)) groups.

(** Every group holds at least one character, and its characters are
    emoji exactly when the flag of the group says so. *)
Definition uniformGroups (groups : list (list JSString * bool)) : Prop :=
  Forall (fun g => fst g <> []
                   /\ Forall (fun char => char <> []
                                          /\ PdfText.isEmoji (PdfText.codePointAt0 char) = snd g)
                        (fst g))
    groups.

Definition notSelector (char : JSString) : bool :=
  negb (PdfText.isVariationSelector (PdfText.codePointAt0 char)).

(** A line that fits the width [maxWidth] at the font size: its width is
    not greater. *)
Definition fitsWidth (widthOfTextAtSize : JSString -> Float64.Number -> Float64.Number)
    (fontSize maxWidth : Float64.Number) (line : JSString) : Prop :=
  PdfText.greater (widthOfTextAtSize line fontSize) maxWidth = false.

(** A line of a paragraph that is not blank: it is not empty, and it is one
    character of the paragraph or fits. *)
Definition wrappedPart (widthOfTextAtSize : JSString -> Float64.Number -> Float64.Number)
    (fontSize maxWidth : Float64.Number) (paragraph line : JSString) : Prop :=
  line <> []
  /\ (In line (PdfText.chars paragraph)
      \/ fitsWidth widthOfTextAtSize fontSize maxWidth line).

(** A line [wrapText] may produce from the paragraphs: an empty one, a
    single character of a paragraph, or a line that fits. *)
Definition wrappedLine (widthOfTextAtSize : JSString -> Float64.Number -> Float64.Number)
    (fontSize maxWidth : Float64.Number) (paragraphs : list JSString) (line : JSString)
  : Prop :=
  line = []
  \/ (exists paragraph, In paragraph paragraphs /\ In line (PdfText.chars paragraph))
  \/ fitsWidth widthOfTextAtSize fontSize maxWidth line.

(* ================================================================== *)
(** * Facts about strings and file names *)
(* ================================================================== *)

Section FilenameFacts.
Import JS Filename.

Lemma startsWith_split s p :
  startsWith s p = true -> exists r, s = p ++ r.
Proof.
  revert s; induction p as [|x p IH]; intros s H.
  - now exists s.
  - destruct s as [|y s]; [discriminate|]. simpl in H.
    apply andb_prop in H as [Hx Hs]. apply N.eqb_eq in Hx; subst y.
    destruct (IH _ Hs) as [r ->]. now exists r.
Qed.

Lemma startsWith_app p r : startsWith (p ++ r) p = true.
Proof.
  induction p as [|x p IH]; simpl; [reflexivity|].
  now rewrite N.eqb_refl, IH.
Qed.

Lemma map_eq_app_split (f : N -> N) s p r :
  map f s = p ++ r -> exists a b, s = a ++ b /\ map f a = p /\ map f b = r.
Proof.
  revert s; induction p as [|x p IH]; intros s H.
  - exists [], s. auto.
  - destruct s as [|y s]; [discriminate|]. simpl in H. injection H as Hy Hs.
    destruct (IH _ Hs) as (a & b & -> & Ha & Hb).
    exists (y :: a), b. simpl. now rewrite Hy, Ha.
Qed.

Lemma endsWith_lower_split s p :
  endsWith (toLowerCase s) p = true ->
  exists stem ext, s = stem ++ ext /\ toLowerCase ext = p.
Proof.
  unfold endsWith, toLowerCase. intros H.
  rewrite <- map_rev in H.
  apply startsWith_split in H as [r Hr].
  apply map_eq_app_split in Hr as (a & b & Hs & Ha & _).
  exists (rev b), (rev a). split.
  - rewrite <- rev_app_distr, <- Hs. now rewrite rev_involutive.
  - rewrite map_rev, Ha. apply rev_involutive.
Qed.

Lemma endsWith_app_ext s :
  endsWith (toLowerCase (s ++ pdfExt)) pdfExt = true.
Proof.
  unfold endsWith, toLowerCase. rewrite map_app, rev_app_distr.
  apply startsWith_app.
Qed.

(** Sub-strings *)

Lemma dropWhile_suffix p s : exists a, s = a ++ dropWhile p s.
Proof.
  induction s as [|c s [a IH]]; simpl.
  - now exists [].
  - destruct (p c).
    + exists (c :: a). simpl. now rewrite <- IH.
    + now exists [].
Qed.

Lemma trimEnd_prefix s : exists b, s = trimEnd s ++ b.
Proof.
  unfold trimEnd. destruct (dropWhile_suffix isWhiteSpace (rev s)) as [a Ha].
  exists (rev a). rewrite <- rev_app_distr, <- Ha. now rewrite rev_involutive.
Qed.

Lemma trim_infix s : exists a b, s = a ++ trim s ++ b.
Proof.
  unfold trim, trimStart.
  destruct (dropWhile_suffix isWhiteSpace s) as [a Ha].
  destruct (trimEnd_prefix (dropWhile isWhiteSpace s)) as [b Hb].
  exists a, b. now rewrite <- Hb.
Qed.

(** No illegal character *)

Lemma legal_app a b : legal (a ++ b) <-> legal a /\ legal b.
Proof. apply Forall_app. Qed.

Lemma legal_stripIllegal s : legal (stripIllegal s).
Proof.
  apply Forall_forall. intros c Hc. apply filter_In in Hc as [_ Hc].
  now apply negb_true_iff in Hc.
Qed.

Lemma legal_collapseFrom b s : legal s -> legal (collapseFrom b s).
Proof.
  intros H; revert b; induction H as [|c s Hc Hs IH]; intros b; simpl.
  - constructor.
  - destruct (isWhiteSpace c); [destruct b|].
    + apply IH.
    + constructor; [reflexivity|apply IH].
    + constructor; [exact Hc|apply IH].
Qed.

Lemma legal_sanitize title : legal (sanitize title).
Proof.
  unfold sanitize.
  destruct (trim_infix (collapseWhiteSpace (stripIllegal title))) as (a & b & H).
  pose proof (legal_collapseFrom false _ (legal_stripIllegal title)) as L.
  unfold collapseWhiteSpace in *. rewrite H in L.
  apply legal_app in L as [_ L]. now apply legal_app in L as [L _].
Qed.

Lemma legal_firstn n s : legal s -> legal (firstn n s).
Proof.
  intros H. rewrite <- (firstn_skipn n s) in H. now apply legal_app in H.
Qed.

Lemma legal_finalName title : legal (finalName title).
Proof.
  unfold finalName, substring0.
  destruct (isEmpty _).
  - unfold legal. repeat constructor.
  - apply legal_firstn, legal_sanitize.
Qed.

(** White space *)

Lemma headNotSpace_collapse_inRun s : headNotSpace (collapseFrom true s) = true.
Proof.
  induction s as [|c s IH]; simpl; [reflexivity|].
  destruct (isWhiteSpace c) eqn:E; [exact IH|]. simpl. now rewrite E.
Qed.

Lemma singleSpaced_collapseFrom b s : singleSpaced (collapseFrom b s) = true.
Proof.
  revert b; induction s as [|c s IH]; intros b; simpl; [reflexivity|].
  destruct (isWhiteSpace c) eqn:E.
  - destruct b; [apply IH|].
    simpl. rewrite IH, andb_true_r.
    pose proof (headNotSpace_collapse_inRun s) as Hh.
    destruct (collapseFrom true s); [reflexivity|exact Hh].
  - simpl. now rewrite E, IH.
Qed.

Lemma singleSpaced_app_inv a b :
  singleSpaced (a ++ b) = true -> singleSpaced a = true /\ singleSpaced b = true.
Proof.
  induction a as [|c a IH]; simpl; intros H; [auto|].
  apply andb_prop in H as [Hc Ha]. destruct (IH Ha) as [IHa IHb].
  split; [|exact IHb]. rewrite IHa, andb_true_r.
  destruct (isWhiteSpace c); [|reflexivity].
  apply andb_prop in Hc as [Hc Hn]. rewrite Hc. simpl.
  destruct a; [reflexivity|exact Hn].
Qed.

Lemma singleSpaced_app a b :
  singleSpaced a = true -> singleSpaced b = true -> headNotSpace b = true ->
  singleSpaced (a ++ b) = true.
Proof.
  intros Ha Hb Hh. induction a as [|c a IH]; simpl; [exact Hb|].
  simpl in Ha. apply andb_prop in Ha as [Hc Ha]. rewrite (IH Ha), andb_true_r.
  destruct (isWhiteSpace c); [|reflexivity].
  apply andb_prop in Hc as [Hc Hn]. rewrite Hc. simpl.
  destruct a; simpl; [|exact Hn].
  destruct b; [reflexivity|exact Hh].
Qed.

Lemma headNotSpace_dropWhile s : headNotSpace (dropWhile isWhiteSpace s) = true.
Proof.
  induction s as [|c s IH]; simpl; [reflexivity|].
  destruct (isWhiteSpace c) eqn:E; [exact IH|]. simpl. now rewrite E.
Qed.

Lemma headNotSpace_prefix a b : headNotSpace (a ++ b) = true -> headNotSpace a = true.
Proof. destruct a; simpl; auto. Qed.

Lemma headNotSpace_app a b :
  a <> [] -> headNotSpace a = true -> headNotSpace (a ++ b) = true.
Proof. destruct a; simpl; [congruence|auto]. Qed.

Lemma singleSpaced_sanitize title : singleSpaced (sanitize title) = true.
Proof.
  unfold sanitize.
  destruct (trim_infix (collapseWhiteSpace (stripIllegal title))) as (a & b & H).
  pose proof (singleSpaced_collapseFrom false (stripIllegal title)) as S.
  unfold collapseWhiteSpace in *. rewrite H in S.
  apply singleSpaced_app_inv in S as [_ S]. now apply singleSpaced_app_inv in S as [S _].
Qed.

Lemma headNotSpace_sanitize title : headNotSpace (sanitize title) = true.
Proof.
  unfold sanitize, trim.
  destruct (trimEnd_prefix (trimStart (collapseWhiteSpace (stripIllegal title)))) as [b Hb].
  apply headNotSpace_prefix with (b := b). rewrite <- Hb.
  apply headNotSpace_dropWhile.
Qed.

Lemma singleSpaced_finalName title : singleSpaced (finalName title) = true.
Proof.
  unfold finalName, substring0. destruct (isEmpty _); [reflexivity|].
  pose proof (singleSpaced_sanitize title) as S.
  rewrite <- (firstn_skipn 200 (sanitize title)) in S.
  now apply singleSpaced_app_inv in S.
Qed.

Lemma headNotSpace_finalName title : headNotSpace (finalName title) = true.
Proof.
  unfold finalName, substring0. destruct (isEmpty _); [reflexivity|].
  apply headNotSpace_prefix with (b := skipn 200 (sanitize title)).
  rewrite firstn_skipn. apply headNotSpace_sanitize.
Qed.

Lemma finalName_nonempty title : finalName title <> [].
Proof.
  unfold finalName. destruct (substring0 200 (sanitize title)) eqn:E; simpl.
  - discriminate.
  - discriminate.
Qed.

Lemma lower_f_not_space c : toLowerUnit c = 102%N -> isWhiteSpace c = false.
Proof.
  unfold toLowerUnit. destruct ((65 <=? c) && (c <=? 90))%N eqn:E; intros H.
  - assert (c = 70%N) by lia. now subst.
  - now subst.
Qed.

Lemma lastNotSpace_endsWith_pdf s :
  endsWith (toLowerCase s) pdfExt = true -> lastNotSpace s = true.
Proof.
  unfold endsWith, lastNotSpace, toLowerCase. rewrite <- map_rev.
  change (rev pdfExt) with [102; 100; 112; 46]%N.
  destruct (rev s) as [|c r]; [discriminate|].
  cbn [map startsWith headNotSpace]. intros H. apply andb_prop in H as [H _]. apply N.eqb_eq in H.
  symmetry in H. now rewrite (lower_f_not_space _ H).
Qed.

Lemma length_finalName title : (List.length (finalName title) <= 200)%nat.
Proof.
  unfold finalName, substring0. destruct (isEmpty _).
  - vm_compute. lia.
  - apply firstn_le_length.
Qed.

Section SpecFacts.
Import JS Filename FilenameSpec.

Lemma collapse_inRun_trimStart (s : JSString) :
  trimStart (collapseFrom false s) = collapseFrom true s.
Proof.
  unfold trimStart. destruct s as [|c s]; [reflexivity|].
  cbn [collapseFrom]. destruct (isWhiteSpace c) eqn:E.
  - cbn [dropWhile]. change (isWhiteSpace 32) with true. cbv iota.
    pose proof (headNotSpace_collapse_inRun s) as H.
    destruct (collapseFrom true s) as [|d r]; [reflexivity|].
    cbn [headNotSpace] in H. cbn [dropWhile].
    destruct (isWhiteSpace d); [discriminate|reflexivity].
  - cbn [dropWhile]. now rewrite E.
Qed.

Lemma trimEnd_lastKept (s : JSString) : lastKept s -> trimEnd s = s.
Proof.
  intros (a & c & -> & Hc). unfold trimEnd. rewrite rev_app_distr.
  cbn [rev app dropWhile]. rewrite Hc. cbn [rev]. now rewrite rev_involutive.
Qed.

Lemma trimEnd_blank (a b : JSString) :
  trimEnd b = [] -> trimEnd (a ++ b) = trimEnd a.
Proof.
  unfold trimEnd. intros H. rewrite rev_app_distr.
  assert (Hb : dropWhile isWhiteSpace (rev b) = []).
  { apply (f_equal (@rev N)) in H. now rewrite rev_involutive in H. }
  clear H. induction (rev b) as [|c r IH]; [reflexivity|].
  cbn [app dropWhile] in *. destruct (isWhiteSpace c); [now apply IH|discriminate].
Qed.

Lemma trimEnd_kept (a b : JSString) :
  trimEnd b <> [] -> trimEnd (a ++ b) = a ++ trimEnd b.
Proof.
  unfold trimEnd. intros H. rewrite rev_app_distr.
  assert (Hb : dropWhile isWhiteSpace (rev b) <> []).
  { intros E. apply H. now rewrite E. }
  clear H. induction (rev b) as [|c r IH]; [now contradiction Hb|].
  cbn [app dropWhile] in *. destruct (isWhiteSpace c).
  - now apply IH.
  - cbn [rev]. rewrite rev_app_distr, rev_involutive, <- app_assoc. reflexivity.
Qed.

Lemma wordsFrom_nonempty (s : JSString) :
  forall current, Forall (fun w => w <> []) (wordsFrom current s).
Proof.
  induction s as [|c s IH]; intros current; cbn [wordsFrom].
  - destruct current; cbn; constructor; [discriminate|constructor].
  - destruct (isWhiteSpace c).
    + destruct current; cbn [isEmpty]; [apply IH|].
      constructor; [discriminate|apply IH].
    + apply IH.
Qed.

Lemma unwords_empty (ws : list JSString) :
  Forall (fun w => w <> []) ws -> unwords ws = [] -> ws = [].
Proof.
  intros H E. destruct ws as [|w [|v rest]]; [reflexivity| |].
  - inversion H; subst. now cbn in E.
  - cbn in E. destruct w; discriminate.
Qed.

Lemma unwords_cons (w : JSString) (ws : list JSString) :
  unwords (w :: ws) = match ws with [] => w | _ => w ++ 32%N :: unwords ws end.
Proof. destruct ws; reflexivity. Qed.

Lemma collapse_words (s : JSString) :
  forall current,
    (current = [] -> trimEnd (collapseFrom true s) = unwords (wordsFrom [] s))
    /\ (lastKept current ->
        trimEnd (current ++ collapseFrom false s) = unwords (wordsFrom current s)).
Proof.
  induction s as [|c s IH]; intros current.
  - split.
    + reflexivity.
    + intros H. cbn [collapseFrom wordsFrom]. rewrite app_nil_r.
      rewrite (trimEnd_lastKept _ H).
      destruct H as (a & d & -> & _). destruct a; reflexivity.
  - cbn [collapseFrom wordsFrom]. destruct (isWhiteSpace c) eqn:E.
    + destruct (IH []) as (IH0 & _). specialize (IH0 eq_refl). split.
      * intros _. exact IH0.
      * intros H.
        assert (Hne : isEmpty current = false).
        { destruct H as (a & d & -> & _). now destruct a. }
        rewrite Hne, unwords_cons.
        destruct (wordsFrom [] s) as [|w ws] eqn:Ew.
        -- cbn [unwords] in IH0.
           change (current ++ 32%N :: collapseFrom true s)
             with (current ++ [32%N] ++ collapseFrom true s).
           rewrite app_assoc, (trimEnd_blank _ _ IH0).
           rewrite (trimEnd_blank current [32%N] eq_refl).
           now apply trimEnd_lastKept.
        -- assert (Hw : unwords (w :: ws) <> []).
           { intros Eu. pose proof (wordsFrom_nonempty s []) as F. rewrite Ew in F.
             now pose proof (unwords_empty _ F Eu). }
           rewrite <- IH0 in Hw |- *.
           change (current ++ 32%N :: collapseFrom true s)
             with (current ++ [32%N] ++ collapseFrom true s).
           rewrite app_assoc, (trimEnd_kept _ _ Hw), <- app_assoc. reflexivity.
    + assert (Hk : lastKept (current ++ [c])) by now exists current, c.
      destruct (IH (current ++ [c])) as (_ & IH1). specialize (IH1 Hk).
      split.
      * intros ->. destruct (IH [c]) as (_ & IHc).
        apply (IHc (ex_intro _ [] (ex_intro _ c (conj eq_refl E)))).
      * intros _. rewrite <- IH1, <- app_assoc. reflexivity.
Qed.

(** [sanitize] keeps the legal characters of the title, word by word. *)
Lemma sanitize_words (title : JSString) :
  sanitize title = unwords (words (filter isLegal title)).
Proof.
  unfold sanitize, trim, collapseWhiteSpace. rewrite collapse_inRun_trimStart.
  destruct (collapse_words (stripIllegal title) []) as (H & _).
  rewrite (H eq_refl). reflexivity.
Qed.

Lemma generateFilename_refines (title : JSString) :
  generateFilename title = filename title.
Proof.
  unfold generateFilename, filename, finalName, named, stem, hasExtension, substring0.
  rewrite sanitize_words.
  destruct (firstn 200 (unwords (words (filter isLegal title)))); reflexivity.
Qed.

End SpecFacts.

(** C9, amended: for every title, the name [generateFilename] returns is
    the one the specification describes: the legal characters of the title,
    word by word with single spaces, cut at 200 code units, or the default
    name when nothing is left, followed by the extension unless the name
    already ends with it in some letter case.  So it holds none of the nine
    illegal characters; its white space is single plain spaces, none at its
    start or end; it is a stem of at most 200 code units followed by the
    extension in some letter case; and it is the default name with the
    extension when the title leaves no legal word. *)
Theorem generateFilename_spec (title : JSString) :
  let name := generateFilename title in
  name = FilenameSpec.filename title
  /\ Forall (fun c => isIllegal c = false) name
  /\ (singleSpaced name = true /\ headNotSpace name = true /\ lastNotSpace name = true)
  /\ (exists stem ext,
        name = stem ++ ext /\ toLowerCase ext = pdfExt /\ (List.length stem <= 200)%nat)
  /\ (FilenameSpec.words (filter FilenameSpec.isLegal title) = [] ->
      name = str "RedNote_Post.pdf")
  /\ FilenameSpec.hasExtension name = true.
Proof.
  cbv zeta.
  assert (Hdef : generateFilename title =
                 if endsWith (toLowerCase (finalName title)) pdfExt
                 then finalName title else finalName title ++ pdfExt) by reflexivity.
  split; [apply generateFilename_refines|].
  repeat split.
  - rewrite Hdef. destruct (endsWith _ _).
    + apply legal_finalName.
    + apply legal_app. split; [apply legal_finalName|]. repeat constructor.
  - rewrite Hdef. destruct (endsWith _ _).
    + apply singleSpaced_finalName.
    + apply singleSpaced_app; [apply singleSpaced_finalName|reflexivity|reflexivity].
  - rewrite Hdef. destruct (endsWith _ _).
    + apply headNotSpace_finalName.
    + apply headNotSpace_app; [apply finalName_nonempty|apply headNotSpace_finalName].
  - rewrite Hdef. destruct (endsWith _ _) eqn:E.
    + now apply lastNotSpace_endsWith_pdf.
    + apply lastNotSpace_endsWith_pdf, endsWith_app_ext.
  - rewrite Hdef. destruct (endsWith _ _) eqn:E.
    + destruct (endsWith_lower_split _ _ E) as (stem & ext & Hn & He).
      exists stem, ext. repeat split; auto.
      pose proof (length_finalName title) as L. rewrite Hn, List.length_app in L. lia.
    + exists (finalName title), pdfExt. repeat split. apply length_finalName.
  - intros Hw. rewrite generateFilename_refines.
    unfold FilenameSpec.filename, FilenameSpec.named, FilenameSpec.stem. now rewrite Hw.
  - unfold FilenameSpec.hasExtension. change (str ".pdf") with pdfExt.
    rewrite Hdef. destruct (endsWith _ _) eqn:E; [exact E|apply endsWith_app_ext].
Qed.

(** C9 as stated fails: the name does not always end in exactly one
    extension.  The test that guards the appending looks at the end of the
    name only, so a title that ends with two extensions keeps both. *)
Lemma generateFilename_keeps_a_doubled_suffix :
  generateFilename (str "a.pdf.pdf") = str "a.pdf" ++ pdfExt
  /\ FilenameSpec.hasExtension (str "a.pdf") = true.
Proof. split; vm_compute; reflexivity. Qed.

Example generateFilename_example :
  generateFilename (str "a/b:c*d") = str "abcd.pdf".
Proof. vm_compute. reflexivity. Qed.

(** The suffix test ignores the letter case and keeps the one of the title. *)
Example generateFilename_keeps_case :
  generateFilename (str "  Report   2024.PDF ") = str "Report 2024.PDF".
Proof. vm_compute. reflexivity. Qed.

(** White space is normalised before the cut at 200 code units: the cut may
    leave a space in front of the extension. *)
Example generateFilename_cut_after_space :
  generateFilename (repeat 97%N 199 ++ str " b")
  = repeat 97%N 199 ++ str " .pdf".
Proof. vm_compute. reflexivity. Qed.

End FilenameFacts.

(* ================================================================== *)
(** * The base64 round trip *)
(* ================================================================== *)

Section Base64Facts.
Import JS Base64.

Ltac divmod := cbv beta; zify; Z.to_euclidean_division_equations; lia.

(** The alphabet *)

Lemma sextetValues_complete i : (i < 64)%N -> In i sextetValues.
Proof.
  intros H. unfold sextetValues. apply in_map_iff.
  exists (N.to_nat i). split; [apply N2Nat.id|].
  apply in_seq. lia.
Qed.

Lemma alphabet_good i : (i < 64)%N -> goodUnit i = true.
Proof.
  intros H. apply sextetValues_complete in H.
  assert (A : forallb goodUnit sextetValues = true) by (vm_compute; reflexivity).
  rewrite forallb_forall in A. now apply A.
Qed.

Lemma sextet_alphabet i : (i < 64)%N -> sextet (alphabet i) = Some i.
Proof.
  intros H. pose proof (alphabet_good i H) as G. unfold goodUnit in G.
  repeat (apply andb_prop in G as [G _]).
  destruct (sextet (alphabet i)); [|discriminate].
  apply N.eqb_eq in G. now subst.
Qed.

Lemma alphabet_not_space i : (i < 64)%N -> isAsciiWhiteSpace (alphabet i) = false.
Proof.
  intros H. pose proof (alphabet_good i H) as G. unfold goodUnit in G.
  apply andb_prop in G as [G _]. apply andb_prop in G as [G _].
  apply andb_prop in G as [_ G]. now apply negb_true_iff in G.
Qed.

Lemma alphabet_not_equals i : (i < 64)%N -> alphabet i <> equalsSign.
Proof.
  intros H. pose proof (alphabet_good i H) as G. unfold goodUnit in G.
  apply andb_prop in G as [G _]. apply andb_prop in G as [_ G].
  apply negb_true_iff in G. now apply N.eqb_neq in G.
Qed.

(** Induction three bytes at a time. *)
Lemma list_ind3 (A : Type) (P : list A -> Prop) :
  P [] -> (forall a, P [a]) -> (forall a b, P [a; b]) ->
  (forall a b c l, P l -> P (a :: b :: c :: l)) ->
  forall l, P l.
Proof.
  intros H0 H1 H2 H3 l.
  enough (P l /\ (forall a, P (a :: l)) /\ (forall a b, P (a :: b :: l))) by tauto.
  induction l as [|x l (IH0 & IH1 & IH2)]; auto.
Qed.

Lemma padding_step a b c l : padding (a :: b :: c :: l) = padding l.
Proof.
  unfold padding.
  replace (List.length (a :: b :: c :: l)) with (3 + List.length l)%nat by reflexivity.
  replace ((3 + List.length l) mod 3)%nat with (List.length l mod 3)%nat; [reflexivity|].
  rewrite Nat.add_comm. symmetry. apply (Nat.Div0.mod_add _ 1 3).
Qed.

Lemma encode_groups bs : encode bs = map alphabet (groups bs) ++ padding bs.
Proof.
  induction bs as [| a | a b | a b c l IH] using list_ind3; try reflexivity.
  rewrite padding_step.
  change (encode (a :: b :: c :: l)) with
    (alphabet (a / 4) :: alphabet ((a mod 4) * 16 + b / 16)
       :: alphabet ((b mod 16) * 4 + c / 64) :: alphabet (c mod 64) :: encode l)%N.
  rewrite IH. reflexivity.
Qed.

Lemma groups_bounded bs : isBytes bs -> Forall (fun v => (v < 64)%N) (groups bs).
Proof.
  induction bs as [| a | a b | a b c l IH] using list_ind3; intros H.
  - constructor.
  - inversion_clear H. cbn [groups].
    repeat (apply Forall_cons; [divmod|]). apply Forall_nil.
  - inversion_clear H as [|? ? Ha H']. inversion_clear H' as [|? ? Hb _].
    cbn [groups]. repeat (apply Forall_cons; [divmod|]). apply Forall_nil.
  - inversion_clear H as [|? ? Ha H']. inversion_clear H' as [|? ? Hb H''].
    inversion_clear H'' as [|? ? Hc Hl].
    change (groups (a :: b :: c :: l)) with
      ((a / 4) :: ((a mod 4) * 16 + b / 16) :: ((b mod 16) * 4 + c / 64) :: (c mod 64)
         :: groups l)%N.
    repeat (apply Forall_cons; [divmod|]). now apply IH.
Qed.

Lemma length_groups_mod4 bs : (List.length (groups bs) mod 4 <> 1)%nat.
Proof.
  induction bs as [| a | a b | a b c l IH] using list_ind3; try (simpl; lia).
  change (groups (a :: b :: c :: l)) with
    ((a / 4) :: ((a mod 4) * 16 + b / 16) :: ((b mod 16) * 4 + c / 64) :: (c mod 64)
       :: groups l)%N.
  replace (List.length (_ :: _ :: _ :: _ :: groups l)) with (List.length (groups l) + 1 * 4)%nat
    by (simpl; lia).
  now rewrite Nat.Div0.mod_add.
Qed.

Lemma length_encode_mod4 bs : (List.length (encode bs) mod 4 = 0)%nat.
Proof.
  induction bs as [| a | a b | a b c l IH] using list_ind3; try reflexivity.
  change (encode (a :: b :: c :: l)) with
    (alphabet (a / 4) :: alphabet ((a mod 4) * 16 + b / 16)
       :: alphabet ((b mod 16) * 4 + c / 64) :: alphabet (c mod 64) :: encode l)%N.
  replace (List.length (_ :: _ :: _ :: _ :: encode l)) with (List.length (encode l) + 1 * 4)%nat
    by (simpl; lia).
  now rewrite Nat.Div0.mod_add.
Qed.

Lemma decodeSextets_groups bs : isBytes bs -> decodeSextets (groups bs) = bs.
Proof.
  induction bs as [| a | a b | a b c l IH] using list_ind3; intros H.
  - reflexivity.
  - inversion_clear H. cbn [groups decodeSextets]. f_equal. divmod.
  - inversion_clear H as [|? ? Ha H']. inversion_clear H' as [|? ? Hb _].
    cbn [groups decodeSextets]. f_equal; [divmod|]. f_equal. divmod.
  - inversion_clear H as [|? ? Ha H']. inversion_clear H' as [|? ? Hb H''].
    inversion_clear H'' as [|? ? Hc Hl].
    change (decodeSextets (groups (a :: b :: c :: l))) with
      (((a / 4) * 4 + ((a mod 4) * 16 + b / 16) / 16)
         :: ((((a mod 4) * 16 + b / 16) mod 16) * 16 + ((b mod 16) * 4 + c / 64) / 4)
         :: ((((b mod 16) * 4 + c / 64) mod 4) * 64 + c mod 64)
         :: decodeSextets (groups l))%N.
    rewrite (IH Hl). f_equal; [divmod|]. f_equal; [divmod|]. f_equal. divmod.
Qed.

Lemma sextets_alphabet vs :
  Forall (fun v => (v < 64)%N) vs -> sextets (map alphabet vs) = Some vs.
Proof.
  induction 1 as [|v vs Hv _ IH]; simpl; [reflexivity|].
  now rewrite (sextet_alphabet v Hv), IH.
Qed.

Lemma filter_space_alphabet vs :
  Forall (fun v => (v < 64)%N) vs ->
  filter (fun c => negb (isAsciiWhiteSpace c)) (map alphabet vs) = map alphabet vs.
Proof.
  induction 1 as [|v vs Hv _ IH]; simpl; [reflexivity|].
  now rewrite (alphabet_not_space v Hv), IH.
Qed.

Lemma filter_space_encode bs :
  isBytes bs -> filter (fun c => negb (isAsciiWhiteSpace c)) (encode bs) = encode bs.
Proof.
  intros H. rewrite encode_groups, filter_app, filter_space_alphabet by now apply groups_bounded.
  f_equal. unfold padding. destruct (List.length bs mod 3)%nat as [|[|[|]]]; reflexivity.
Qed.

Lemma rev_alphabet_head vs :
  Forall (fun v => (v < 64)%N) vs ->
  match rev (map alphabet vs) with
  | [] => True
  | c :: _ => c <> equalsSign
  end.
Proof.
  intros H. rewrite <- map_rev.
  apply Forall_rev in H. destruct H as [|v r Hv _]; simpl; [exact I|].
  now apply alphabet_not_equals.
Qed.

Lemma stripPadding_encode bs :
  isBytes bs -> stripPadding (encode bs) = map alphabet (groups bs).
Proof.
  intros H. unfold stripPadding. rewrite length_encode_mod4. simpl Nat.eqb. cbv iota.
  rewrite encode_groups, rev_app_distr.
  pose proof (rev_alphabet_head _ (groups_bounded _ H)) as Hh.
  pose proof (rev_involutive (map alphabet (groups bs))) as Hr.
  destruct (rev (map alphabet (groups bs))) as [|c r].
  - rewrite <- Hr.
    unfold padding. destruct (List.length bs mod 3)%nat as [|[|[|]]]; reflexivity.
  - apply N.eqb_neq in Hh.
    unfold padding. destruct (List.length bs mod 3)%nat as [|[|[|]]];
      cbn [rev app]; rewrite ?app_nil_r.
    + now rewrite Hh.
    + change (N.eqb equalsSign equalsSign) with true. cbv iota. exact Hr.
    + change (N.eqb equalsSign equalsSign) with true. cbv iota. now rewrite Hh.
    + now rewrite Hh.
Qed.

Lemma atob_encode bs : isBytes bs -> atob (encode bs) = Ok bs.
Proof.
  intros H. unfold atob. cbv zeta.
  rewrite (filter_space_encode _ H), (stripPadding_encode _ H), length_map.
  pose proof (length_groups_mod4 bs) as L.
  destruct (Nat.eqb_spec (List.length (groups bs) mod 4) 1) as [E|_]; [contradiction|].
  rewrite (sextets_alphabet _ (groups_bounded _ H)).
  now rewrite (decodeSextets_groups _ H).
Qed.

Lemma btoa_bytes bs : isBytes bs -> btoa bs = Ok (encode bs).
Proof.
  intros H. unfold btoa.
  replace (existsb (fun c => (255 <? c)%N) bs) with false; [reflexivity|].
  symmetry. apply not_true_iff_false. intros E.
  apply existsb_exists in E as (c & Hc & Hlt).
  unfold isBytes in H. rewrite Forall_forall in H. specialize (H c Hc).
  apply N.ltb_lt in Hlt. lia.
Qed.

(** The chunk loop rebuilds the whole byte string *)

Lemma isBytes_fromCharCodes bytes : isBytes (fromCharCodes bytes).
Proof.
  unfold isBytes, fromCharCodes. apply Forall_forall. intros c Hc.
  apply in_map_iff in Hc as (b & <- & _).
  pose proof (Byte.to_N_bounded b). lia.
Qed.

Lemma firstn_extend (A : Type) (l : list A) (i j : nat) :
  (i <= j)%nat -> firstn i l ++ firstn (j - i) (skipn i l) = firstn j l.
Proof.
  revert i j. induction l as [|x l IH]; intros i j H.
  - now rewrite skipn_nil, !firstn_nil.
  - destruct i as [|i].
    + now rewrite Nat.sub_0_r.
    + destruct j as [|j]; [lia|].
      cbn [firstn skipn Nat.sub app]. f_equal. apply IH. lia.
Qed.

Lemma chunkLoop_invariant bytes fuel i :
  (N.of_nat (List.length bytes) <= i + N.of_nat fuel)%N ->
  chunkLoop fuel bytes i (fromCharCodes (firstn (N.to_nat i) bytes))
  = fromCharCodes bytes.
Proof.
  revert i. induction fuel as [|fuel IH]; intros i Hf.
  - cbn [chunkLoop]. rewrite firstn_all2; [reflexivity|lia].
  - cbn [chunkLoop]. cbv zeta. unfold byteLength.
    destruct (N.ltb_spec i (N.of_nat (List.length bytes))) as [Hlt|Hge].
    + unfold subarray, fromCharCodes. rewrite <- map_app.
      rewrite N2Nat.inj_sub.
      rewrite firstn_extend by (unfold chunkSize; lia).
      destruct (N.le_ge_cases (i + chunkSize) (N.of_nat (List.length bytes))) as [Hm|Hm].
      * rewrite N.min_l by exact Hm.
        apply (IH (i + chunkSize)%N). unfold chunkSize. lia.
      * rewrite N.min_r by exact Hm.
        rewrite Nat2N.id, firstn_all.
        pose proof (IH (i + chunkSize)%N) as IH'.
        rewrite (firstn_all2 (n := N.to_nat (i + chunkSize)) bytes) in IH' by lia.
        apply IH'. unfold chunkSize. lia.
    + rewrite firstn_all2; [reflexivity|lia].
Qed.

Lemma chunkLoop_all bytes :
  chunkLoop (List.length bytes) bytes 0 [] = fromCharCodes bytes.
Proof.
  apply (chunkLoop_invariant bytes (List.length bytes) 0). lia.
Qed.

Lemma toUint8_to_N bytes : map toUint8 (fromCharCodes bytes) = bytes.
Proof.
  unfold fromCharCodes. rewrite map_map. rewrite <- (map_id bytes) at 2.
  apply map_ext. intros b. unfold toUint8.
  pose proof (Byte.to_N_bounded b).
  rewrite N.mod_small by lia. now rewrite Byte.of_to_N.
Qed.

(** C10: [uint8ArrayToBase64] returns on every byte array, of any length,
    and [base64ToUint8Array] maps its result back to the same bytes. *)
Theorem base64_roundtrip (bytes : Uint8Array) :
  exists s, uint8ArrayToBase64 bytes = Ok s /\ base64ToUint8Array s = Ok bytes.
Proof.
  exists (encode (fromCharCodes bytes)).
  unfold uint8ArrayToBase64, base64ToUint8Array. cbv zeta.
  rewrite chunkLoop_all.
  rewrite (btoa_bytes _ (isBytes_fromCharCodes bytes)).
  rewrite (atob_encode _ (isBytes_fromCharCodes bytes)).
  now rewrite toUint8_to_N.
Qed.

End Base64Facts.

(* ================================================================== *)
(** * Facts about binary64 numbers *)
(* ================================================================== *)

Section Float64Facts.
Import Float64.

Local Open Scope Z_scope.

Lemma shr_1_m (r : shr_record) :
  0 <= shr_m r -> shr_m (shr_1 r) = shr_m r / 2.
Proof.
  destruct r as [m rb sb]. cbn [shr_m]. intros H.
  destruct m as [|p|p]; [reflexivity| |lia].
  destruct p as [p|p|]; cbn [shr_1 shr_m].
  - rewrite Pos2Z.inj_xI. Z.to_euclidean_division_equations. lia.
  - rewrite Pos2Z.inj_xO. Z.to_euclidean_division_equations. lia.
  - reflexivity.
Qed.

Lemma pow2_xI (n : positive) : 2 ^ Zpos n~1 = 2 * (2 ^ Zpos n * 2 ^ Zpos n).
Proof.
  change (Zpos n~1) with (Z.succ (2 * Zpos n)).
  rewrite Z.pow_succ_r by lia. now rewrite Z.pow_twice_r.
Qed.

Lemma pow2_xO (n : positive) : 2 ^ Zpos n~0 = 2 ^ Zpos n * 2 ^ Zpos n.
Proof.
  change (Zpos n~0) with (2 * Zpos n). apply Z.pow_twice_r.
Qed.

Lemma shr_iter_m (n : positive) (r : shr_record) :
  0 <= shr_m r -> shr_m (iter_pos shr_1 n r) = shr_m r / 2 ^ Zpos n.
Proof.
  revert r. induction n as [n IH|n IH|]; intros r H; cbn [iter_pos].
  - assert (Hk : 0 < 2 ^ Zpos n) by (apply Z.pow_pos_nonneg; lia).
    assert (H1 : 0 <= shr_m (shr_1 r)).
    { rewrite shr_1_m by exact H. apply Z.div_pos; lia. }
    assert (H2 : 0 <= shr_m (iter_pos shr_1 n (shr_1 r))).
    { rewrite IH by exact H1. apply Z.div_pos; [exact H1|exact Hk]. }
    rewrite (IH _ H2), (IH _ H1), (shr_1_m _ H), pow2_xI.
    rewrite !Z.div_div by lia. reflexivity.
  - assert (Hk : 0 < 2 ^ Zpos n) by (apply Z.pow_pos_nonneg; lia).
    assert (H2 : 0 <= shr_m (iter_pos shr_1 n r)).
    { rewrite IH by exact H. apply Z.div_pos; [exact H|exact Hk]. }
    rewrite (IH _ H2), (IH _ H), pow2_xO.
    rewrite !Z.div_div by lia. reflexivity.
  - rewrite (shr_1_m _ H). now rewrite Z.pow_1_r.
Qed.

Lemma digits2_pos_lower (p : positive) : 2 ^ Zpos (digits2_pos p) <= 2 * Zpos p.
Proof.
  induction p as [p IH|p IH|]; cbn [digits2_pos].
  - rewrite Pos2Z.inj_succ, Z.pow_succ_r by lia. lia.
  - rewrite Pos2Z.inj_succ, Z.pow_succ_r by lia. lia.
  - reflexivity.
Qed.

Lemma shr_record_of_loc_m m l : shr_m (shr_record_of_loc m l) = m.
Proof. destruct l as [|[| |]]; reflexivity. Qed.

(** Above the smallest exponent, shifting to the target exponent keeps a
    positive mantissa positive. *)
Lemma shr_fexp_positive (m e : Z) (l : location) :
  0 < m -> -1074 <= e ->
  0 < shr_m (fst (shr_fexp prec emax m e l)) /\ -1074 <= snd (shr_fexp prec emax m e l).
Proof.
  intros Hm He. unfold shr_fexp, shr.
  destruct m as [|p|p]; try lia. cbn [Zdigits2].
  set (d := Zpos (digits2_pos p)).
  assert (Hd : 2 ^ d <= 2 * Zpos p) by apply digits2_pos_lower.
  assert (Hd1 : 1 <= d) by (unfold d; lia).
  unfold fexp, emin, prec, emax.
  destruct (Z.max (d + e - 53) (3 - 1024 - 53) - e) as [|n|n] eqn:En;
    cbn [fst snd]; rewrite ?shr_record_of_loc_m; try lia.
  assert (Hn : Zpos n = d - 53) by lia.
  split; [|lia].
  rewrite shr_iter_m by (rewrite shr_record_of_loc_m; lia).
  rewrite shr_record_of_loc_m.
  apply Z.div_str_pos. split; [apply Z.pow_pos_nonneg; lia|].
  rewrite Hn.
  assert (2 ^ (d - 53) <= 2 ^ (d - 1)) by (apply Z.pow_le_mono_r; lia).
  assert (2 * 2 ^ (d - 1) = 2 ^ d).
  { rewrite <- Z.pow_succ_r by lia. f_equal. lia. }
  lia.
Qed.

Lemma round_nearest_even_positive m l : 0 < m -> 0 < round_nearest_even m l.
Proof.
  intros H. destruct l as [|[| |]]; cbn [round_nearest_even]; try lia.
  destruct (Z.even m); lia.
Qed.

Lemma binary_round_aux_positive (m e : Z) (l : location) :
  0 < m -> -1074 <= e -> positiveNumber (binary_round_aux prec emax false m e l).
Proof.
  intros Hm He. unfold binary_round_aux.
  destruct (shr_fexp_positive m e l Hm He) as [H1 H1e].
  destruct (shr_fexp prec emax m e l) as [mrs' e'] eqn:E1. cbn [fst snd] in H1, H1e.
  pose proof (round_nearest_even_positive _ (loc_of_shr_record mrs') H1) as H2.
  destruct (shr_fexp_positive _ e' loc_Exact H2 H1e) as [H3 _].
  destruct (shr_fexp prec emax _ e' loc_Exact) as [mrs'' e''] eqn:E2. cbn [fst] in H3.
  destruct (shr_m mrs'') as [|q|q]; try lia.
  destruct (e'' <=? emax - prec).
  - left. now exists q, e''.
  - now right.
Qed.

Lemma ofNat_positive (n : nat) : (0 < n)%nat -> positiveNumber (ofCount n).
Proof.
  intros H. unfold ofCount, binary_normalize.
  destruct (Z.of_nat n) as [|p|p] eqn:E; try lia.
  unfold binary_round, shl_align.
  set (t := fexp prec emax (Zpos (digits2_pos p) + 0)).
  assert (Ht : -1074 <= t) by (unfold t, fexp, emin, prec, emax; lia).
  destruct (t - 0) as [|d|d] eqn:Ed; apply binary_round_aux_positive; lia.
Qed.

Lemma roundedPercentage_zero (t : nat) :
  (0 < t)%nat -> roundedPercentage 0 t = S754_zero false.
Proof.
  intros H. unfold roundedPercentage.
  destruct (ofNat_positive t H) as [(m & e & ->)| ->]; reflexivity.
Qed.

(** The quotient is rounded twice, as binary64 arithmetic does: 23 of 40 is
    57.49999999999999 before [Math.round]. *)
Example roundedPercentage_23_of_40 : roundedPercentage 23 40 = ofCount 57.
Proof. vm_compute. reflexivity. Qed.

Example roundedPercentage_1_of_3 : roundedPercentage 1 3 = ofCount 33.
Proof. vm_compute. reflexivity. Qed.

Example roundedPercentage_1_of_8 : roundedPercentage 1 8 = ofCount 13.
Proof. vm_compute. reflexivity. Qed.

End Float64Facts.

(* ================================================================== *)
(** * Reasoning about computations *)
(* ================================================================== *)

Lemma bind_ok {A B} (c : M A) (k : A -> M B) (w w' : World) (a : A) :
  c w = (JS.Ok a, w') -> bind c k w = k a w'.
Proof. intros E. unfold bind. now rewrite E. Qed.

Lemma bind_throw {A B} (c : M A) (k : A -> M B) (w w' : World) (e : JS.Exn) :
  c w = (JS.Throw e, w') -> bind c k w = (JS.Throw e, w').
Proof. intros E. unfold bind. now rewrite E. Qed.

Lemma emit_run (e : Event) (w : World) :
  emit e w = (JS.Ok tt, withLog (log w ++ [e]) w).
Proof. reflexivity. Qed.

Section Combinators.
Variable R : World -> World -> Prop.
Hypothesis R_refl : forall w, R w w.
Hypothesis R_trans : forall w1 w2 w3, R w1 w2 -> R w2 w3 -> R w1 w3.

Lemma preserves_ret {A} (a : A) : preserves R (ret a).
Proof. intros w. apply R_refl. Qed.

Lemma preserves_throw {A} (e : JS.Exn) : preserves R (@throw A e).
Proof. intros w. apply R_refl. Qed.

Lemma preserves_liftResult {A} (r : JS.Result A) : preserves R (liftResult r).
Proof. intros w. apply R_refl. Qed.

Lemma preserves_getWorld : preserves R getWorld.
Proof. intros w. apply R_refl. Qed.

Lemma preserves_modify (f : World -> World) :
  (forall w, R w (f w)) -> preserves R (modify f).
Proof. intros H w. apply H. Qed.

Lemma preserves_bind {A B} (c : M A) (k : A -> M B) :
  preserves R c -> (forall a, preserves R (k a)) -> preserves R (bind c k).
Proof.
  intros Hc Hk w. unfold bind. specialize (Hc w).
  destruct (c w) as [[a|e] w']; cbn [snd] in *; [|exact Hc].
  eapply R_trans; [exact Hc|apply Hk].
Qed.

Lemma preserves_tryCatch {A} (c : M A) (h : JS.Exn -> M A) :
  preserves R c -> (forall e, preserves R (h e)) -> preserves R (tryCatch c h).
Proof.
  intros Hc Hh w. unfold tryCatch. specialize (Hc w).
  destruct (c w) as [[a|e] w']; cbn [snd] in *; [exact Hc|].
  eapply R_trans; [exact Hc|apply Hh].
Qed.

End Combinators.

Lemma returns_ret {A} (a : A) : returns (ret a).
Proof. intros w. now exists a. Qed.

Lemma returns_modify (f : World -> World) : returns (modify f).
Proof. intros w. now exists tt. Qed.

Lemma returns_getWorld : returns getWorld.
Proof. intros w. now exists w. Qed.

Lemma returns_bind {A B} (c : M A) (k : A -> M B) :
  returns c -> (forall a, returns (k a)) -> returns (bind c k).
Proof.
  intros Hc Hk w. unfold bind. destruct (Hc w) as [a Ha].
  destruct (c w) as [[a'|e] w']; cbn [fst] in Ha; [|discriminate].
  apply Hk.
Qed.

Lemma returns_run {A} (c : M A) (w : World) :
  returns c -> exists a w', c w = (JS.Ok a, w').
Proof.
  intros H. destruct (H w) as [a Ha]. exists a, (snd (c w)).
  destruct (c w) as [r w']. cbn in *. now subst.
Qed.

(* ================================================================== *)
(** * The queue manager *)
(* ================================================================== *)

Section QueueFacts.
Variable env : Env.

Lemma JS_eqb_refl (s : JSString) : JS.eqb s s = true.
Proof. induction s as [|c s IH]; simpl; [reflexivity|]. now rewrite N.eqb_refl. Qed.

Lemma find_app_none {A} (p : A -> bool) (l1 l2 : list A) :
  find p l1 = None -> find p (l1 ++ l2) = find p l2.
Proof.
  induction l1 as [|x l1 IH]; cbn [find app]; [reflexivity|].
  destruct (p x); [discriminate|exact IH].
Qed.

(** Every item has exactly one status. *)
Lemma countStatus_partition (l : list QueueItem) :
  countStatus Pending l + countStatus Processing l
  + countStatus Completed l + countStatus Failed l = List.length l.
Proof.
  unfold countStatus. induction l as [|i l IH]; [reflexivity|].
  cbn [filter List.length]. destruct (item_status i); cbn [statusEqb List.length]; lia.
Qed.

Lemma countsConsistent_empty (now : Z) : countsConsistent (createEmptyQueue now).
Proof. repeat split. Qed.

(** ** What each primitive does to the world *)

Lemma getQueue_run (w : World) :
  getQueue env w =
  (JS.Ok (storedQueue env w),
   match storage w with
   | Some _ => w
   | None => withClockReads (S (clockReads w)) w
   end).
Proof.
  unfold getQueue, storedQueue, bind, getWorld.
  destruct (storage w); reflexivity.
Qed.

Lemma recalculateTotals_run (q : PostQueue) (w : World) :
  recalculateTotals env q w =
  (JS.Ok (recounted q (clock env (clockReads w))), withClockReads (S (clockReads w)) w).
Proof. reflexivity. Qed.

Lemma countsConsistent_mk (l : list QueueItem) (created now : Z) :
  countsConsistent
    (mkPostQueue l (List.length l) (countStatus Pending l) (countStatus Processing l)
       (countStatus Completed l) (countStatus Failed l) created now).
Proof.
  unfold countsConsistent. cbn.
  repeat split. apply countStatus_partition.
Qed.

Lemma countsConsistent_recounted (q : PostQueue) (now : Z) :
  countsConsistent (recounted q now).
Proof. apply countsConsistent_mk. Qed.

Lemma storedQueue_consistent (w : World) :
  storageConsistent (storage w) <-> countsConsistent (storedQueue env w).
Proof.
  unfold storageConsistent, storedQueue. destruct (storage w); [tauto|].
  split; intros _; [apply countsConsistent_empty|exact I].
Qed.

(** ** Each operation keeps the stored counts consistent *)

Lemma createQueueItem_run (post : CapturedPost) (w : World) :
  createQueueItem env post w =
  (JS.Ok (mkQueueItem (randomUUID env (uuidCalls w)) (post_id post) post Pending
            (clock env (clockReads w)) None None None 0),
   withClockReads (S (clockReads w)) (withUuidCalls (S (uuidCalls w)) w)).
Proof. reflexivity. Qed.

Lemma addToQueue_storage (post : CapturedPost) (w : World) :
  storageConsistent (storage w) ->
  storageConsistent (storage (snd (addToQueue env post w))).
Proof.
  intros H. unfold addToQueue.
  erewrite bind_ok by apply getQueue_run.
  destruct (find _ (items (storedQueue env w))) as [existing|].
  - unfold ret. cbn [snd]. destruct (storage w) eqn:E; cbn; rewrite ?E; exact H.
  - erewrite bind_ok by apply createQueueItem_run.
    erewrite bind_ok by apply recalculateTotals_run.
    cbn. apply countsConsistent_recounted.
Qed.

Lemma removeFromQueue_storage (itemId : JSString) (w : World) :
  storageConsistent (storage (snd (removeFromQueue env itemId w))).
Proof.
  unfold removeFromQueue.
  erewrite bind_ok by apply getQueue_run.
  erewrite bind_ok by apply recalculateTotals_run.
  cbn. apply countsConsistent_recounted.
Qed.

Lemma clearCompletedItems_storage (w : World) :
  storageConsistent (storage (snd (clearCompletedItems env w))).
Proof.
  unfold clearCompletedItems.
  erewrite bind_ok by apply getQueue_run.
  erewrite bind_ok by apply recalculateTotals_run.
  cbn. apply countsConsistent_recounted.
Qed.

Lemma clearQueue_storage (w : World) :
  storageConsistent (storage (snd (clearQueue env w))).
Proof. cbn. apply countsConsistent_empty. Qed.

Lemma retryFailedItems_storage (w : World) :
  storageConsistent (storage w) ->
  storageConsistent (storage (snd (retryFailedItems env w))).
Proof.
  intros H. unfold retryFailedItems.
  erewrite bind_ok by apply getQueue_run.
  destruct (0 <? countStatus Failed (items (storedQueue env w)))%nat.
  - erewrite bind_ok by apply recalculateTotals_run.
    cbn. apply countsConsistent_recounted.
  - unfold ret. cbn [snd]. destruct (storage w) eqn:E; cbn; rewrite ?E; exact H.
Qed.

(** The item [updateItemStatus] writes back, and the clock reads it makes
    before recounting. *)
Lemma updateItemStatus_storage (itemId : JSString) (status : QueueItemStatus)
    (result : option PartialResult) (error : option JSString) (w : World) :
  storageConsistent (storage w) ->
  storageConsistent (storage (snd (updateItemStatus env itemId status result error w))).
Proof.
  intros H. unfold updateItemStatus.
  erewrite bind_ok by apply getQueue_run.
  destruct (find _ (items (storedQueue env w))) as [item|].
  - destruct (statusEqb status Processing && isNone (item_startedAt (setStatus status item)));
      destruct result as [partial|];
      cbn; apply countsConsistent_mk.
  - unfold ret. cbn [snd]. destruct (storage w) eqn:E; cbn; rewrite ?E; exact H.
Qed.

Lemma runOp_storage (op : QueueOp) (w : World) :
  storageConsistent (storage w) ->
  storageConsistent (storage (snd (runOp env op w))).
Proof.
  intros H. destruct op as [post|itemId|itemId status result error| | |]; cbn [runOp].
  - pose proof (addToQueue_storage post w H) as S.
    unfold bind. destruct (addToQueue env post w) as [[a|e] w']; exact S.
  - apply removeFromQueue_storage.
  - now apply updateItemStatus_storage.
  - apply clearQueue_storage.
  - apply clearCompletedItems_storage.
  - pose proof (retryFailedItems_storage w H) as S.
    unfold bind. destruct (retryFailedItems env w) as [[a|e] w']; exact S.
Qed.

(** ** Each operation returns *)

Lemma getQueue_returns : returns (getQueue env).
Proof. intros w. rewrite getQueue_run. eexists. reflexivity. Qed.

Lemma recount_and_save_returns (q : PostQueue) :
  returns (bind (recalculateTotals env q) (fun q' => saveQueue q')).
Proof. intros w. eexists. reflexivity. Qed.

Lemma runOp_returns (op : QueueOp) : returns (runOp env op).
Proof.
  destruct op as [post|itemId|itemId status result error| | |]; cbn [runOp].
  - apply returns_bind; [|intros _; apply returns_ret].
    unfold addToQueue. apply returns_bind; [apply getQueue_returns|]. intros q.
    destruct (find _ (items q)); [apply returns_ret|].
    intros w. eexists. reflexivity.
  - unfold removeFromQueue. apply returns_bind; [apply getQueue_returns|]. intros q.
    apply recount_and_save_returns.
  - unfold updateItemStatus. apply returns_bind; [apply getQueue_returns|]. intros q.
    destruct (find _ (items q)) as [item|]; [|apply returns_ret].
    destruct (statusEqb status Processing && isNone (item_startedAt (setStatus status item)));
      destruct result as [partial|]; intros w; eexists; reflexivity.
  - intros w. eexists. reflexivity.
  - unfold clearCompletedItems. apply returns_bind; [apply getQueue_returns|]. intros q.
    apply recount_and_save_returns.
  - apply returns_bind; [|intros _; apply returns_ret].
    unfold retryFailedItems. apply returns_bind; [apply getQueue_returns|]. intros q.
    destruct (0 <? countStatus Failed (items q))%nat; [|apply returns_ret].
    intros w. eexists. reflexivity.
Qed.

End QueueFacts.

(** C1: from a stored queue whose counts are those of its item list, after
    each operation of any sequence of queue operations the stored counts are
    again the counts of the item list: the total is the number of items,
    each status count is the number of items with that status, and the four
    status counts add up to the total. *)
Theorem queue_counts_invariant (env : Env) (ops : list QueueOp) (w : World) :
  countsConsistent (storedQueue env w) ->
  Forall (fun w' => countsConsistent (storedQueue env w')) (worldsAfter env ops w)
  /\ Forall (fun op => returns (runOp env op)) ops.
Proof.
  intros H. split; [|apply Forall_forall; intros op _; apply runOp_returns].
  revert w H. induction ops as [|op ops IH]; intros w H; cbn [worldsAfter].
  - constructor.
  - apply (proj2 (storedQueue_consistent env w)) in H.
    pose proof (runOp_storage env op w H) as H'.
    apply (proj1 (storedQueue_consistent env _)) in H'.
    constructor; [exact H'|]. now apply IH.
Qed.

Lemma queue_counts_invariant_witness :
  Forall (fun w' => countsConsistent (storedQueue quietEnv w'))
    (worldsAfter quietEnv
       [OpAddToQueue (samplePost "a"); OpAddToQueue (samplePost "b");
        OpAddToQueue (samplePost "a");
        OpUpdateItemStatus (JS.str "item-0") Failed None (Some (JS.str "boom"));
        OpRetryFailedItems; OpUpdateItemStatus (JS.str "item-1") Completed None None;
        OpClearCompletedItems; OpRemoveFromQueue (JS.str "item-0"); OpClearQueue]
       initialWorld).
Proof.
  apply (queue_counts_invariant quietEnv _ initialWorld). repeat split.
Defined.

(** The stored queue along that sequence of operations. *)
Example queue_counts_along_a_sequence :
  map (fun w' => let q := storedQueue quietEnv w' in
                 (totalItems q, pendingItems q, processingItems q, completedItems q,
                  failedItems q))
    (worldsAfter quietEnv
       [OpAddToQueue (samplePost "a"); OpAddToQueue (samplePost "b");
        OpAddToQueue (samplePost "a");
        OpUpdateItemStatus (JS.str "item-0") Failed None (Some (JS.str "boom"));
        OpRetryFailedItems; OpUpdateItemStatus (JS.str "item-1") Completed None None;
        OpClearCompletedItems; OpRemoveFromQueue (JS.str "item-0"); OpClearQueue]
       initialWorld)
  = [(1, 1, 0, 0, 0); (2, 2, 0, 0, 0); (2, 2, 0, 0, 0); (2, 1, 0, 0, 1); (2, 2, 0, 0, 0);
     (2, 1, 0, 1, 0); (1, 1, 0, 0, 0); (0, 0, 0, 0, 0); (0, 0, 0, 0, 0)].
Proof. vm_compute. reflexivity. Qed.

(** C4: when an item of the queue already refers to the post, [addToQueue]
    returns that item and changes nothing; otherwise it appends exactly one
    item, pending, never started, without result or error, with retry count
    0, and a second call with the same post returns that item and changes
    nothing. *)
Theorem addToQueue_idempotent (env : Env) (post : CapturedPost) (w : World) :
  let queue := storedQueue env w in
  match find (fun item => JS.eqb (item_postId item) (post_id post)) (items queue) with
  | Some existing => addToQueue env post w = (JS.Ok existing, w)
  | None =>
      exists item w',
        addToQueue env post w = (JS.Ok item, w')
        /\ item_postId item = post_id post /\ item_post item = post
        /\ item_status item = Pending /\ item_startedAt item = None
        /\ item_result item = None /\ item_error item = None
        /\ item_retryCount item = 0
        /\ items (storedQueue env w') = items queue ++ [item]
        /\ countsConsistent (storedQueue env w')
        /\ addToQueue env post w' = (JS.Ok item, w')
  end.
Proof.
  cbv zeta.
  destruct (find _ (items (storedQueue env w))) as [existing|] eqn:F.
  - unfold addToQueue. erewrite bind_ok by apply getQueue_run. rewrite F.
    unfold ret. f_equal.
    unfold storedQueue in F. destruct (storage w); [reflexivity|discriminate].
  - eexists. eexists.
    split.
    { unfold addToQueue. erewrite bind_ok by apply getQueue_run. rewrite F.
      erewrite bind_ok by apply createQueueItem_run.
      erewrite bind_ok by apply recalculateTotals_run.
      cbn. reflexivity. }
    repeat split.
    + apply countStatus_partition.
    + unfold addToQueue. erewrite bind_ok by apply getQueue_run.
      cbn [storedQueue storage withStorage withClockReads withUuidCalls items
             recounted setItems].
      rewrite (find_app_none _ _ _ F). cbn [find item_postId].
      rewrite JS_eqb_refl. reflexivity.
Qed.

(* ================================================================== *)
(** * The upload loop *)
(* ================================================================== *)

Section UploadFacts.







End UploadFacts.




(* ================================================================== *)
(** * The orchestrator *)
(* ================================================================== *)

Section BatchFacts.
Variable env : Env.

(** ** The queue manager inside a run *)

Lemma items_storedQueue (w : World) : items (storedQueue env w) = storedItems w.
Proof. unfold storedQueue, storedItems. now destruct (storage w). Qed.

(** [updateItemStatus] returns, touches nothing but the queue and the clock,
    and either leaves the item list alone or overwrites the first item that
    has the identifier with an item that has it too. *)
Lemma updateItemStatus_effect (itemId : JSString) (status : QueueItemStatus)
    (result : option PartialResult) (error : option JSString) (w : World) :
  exists w',
    updateItemStatus env itemId status result error w = (JS.Ok tt, w')
    /\ sameButQueue w w'
    /\ (storedItems w' = storedItems w
        \/ exists new, hasId itemId new = true
                       /\ storedItems w' = replaceFirst (hasId itemId) new (storedItems w)).
Proof.
  unfold updateItemStatus. erewrite bind_ok by apply getQueue_run.
  rewrite items_storedQueue.
  change (fun i : QueueItem => JS.eqb (item_id i) itemId) with (hasId itemId).
  destruct (find (hasId itemId) (storedItems w)) as [item|] eqn:F.
  - apply find_some in F as [_ Hid].
    assert (Hnew : forall i, item_id i = item_id item -> hasId itemId i = true).
    { intros i Hi. unfold hasId in *. now rewrite Hi. }
    destruct (statusEqb status Processing && isNone (item_startedAt (setStatus status item)));
      destruct result as [partial|]; destruct error as [e|];
      (eexists; split; [reflexivity|]; split;
       [destruct (storage w); repeat split
       |right; eexists; split; [apply Hnew|];
        [|unfold storedItems at 1; cbn; reflexivity]; reflexivity]).
  - eexists. split; [reflexivity|]. split.
    + destruct (storage w); repeat split.
    + left. unfold storedItems. destruct (storage w) eqn:E; cbn; now rewrite ?E.
Qed.

Lemma updateItemStatus_returns itemId status result error :
  returns (updateItemStatus env itemId status result error).
Proof.
  intros w. destruct (updateItemStatus_effect itemId status result error w) as (w' & E & _).
  exists tt. now rewrite E.
Qed.

(** ** Relations every step of the per-item pipeline keeps *)

Section Frame.
Variable R : World -> World -> Prop.
Hypothesis R_refl : forall w, R w w.
Hypothesis R_trans : forall w1 w2 w3, R w1 w2 -> R w2 w3 -> R w1 w3.
Hypothesis R_calls : forall w n, R w (withPipelineCalls n w).
Hypothesis R_session : forall w p, R w (withSessionProgress p w).
Hypothesis R_event :
  forall w e, isSnapshot e = None -> R w (withLog (log w ++ [e]) w).
Hypothesis R_snapshot :
  forall w, R w (withLog (log w ++ [EvProgress (progress w)]) w).
Hypothesis R_clock : forall w n, R w (withClockReads n w).
Hypothesis R_counters :
  forall w p',
    percentage p' = percentage (progress w) -> completed p' = completed (progress w) ->
    total p' = total (progress w) -> cancelled p' = cancelled (progress w) ->
    R w (withProgress p' w).
Variable itemId : JSString.
Hypothesis R_update :
  forall s r e, preserves R (updateItemStatus env itemId s r e).

Lemma emit_preserves (e : Event) : isSnapshot e = None -> preserves R (emit e).
Proof. intros H w. now apply R_event. Qed.

Lemma notify_preserves (onProgress : option ProgressCallback) :
  preserves R (notify onProgress).
Proof.
  destruct onProgress as [[|]|]; intros w; cbn; [apply R_snapshot| |apply R_refl].
  eapply R_trans; [apply R_snapshot|]. apply R_session.
Qed.

Lemma uploadLoop_preserves fetches maxRetries remaining :
  forall attempt, preserves R (uploadLoop fetches maxRetries remaining attempt).
Proof.
  induction remaining as [|remaining IH]; intros attempt; cbn [uploadLoop].
  - apply preserves_ret; assumption.
  - apply preserves_bind; [assumption|now apply emit_preserves|]. intros _.
    destruct (performUpload (fetches attempt)) as [result|error].
    + apply preserves_ret; assumption.
    + destruct (isAuthError (errorMessageOf error)); [apply preserves_ret; assumption|].
      destruct (attempt =? maxRetries)%Z; [apply preserves_ret; assumption|].
      apply preserves_bind; [assumption|now apply emit_preserves|]. intros _. apply IH.
Qed.

Lemma uploadToDrive_preserves fetches filename options :
  preserves R (uploadToDrive fetches filename options).
Proof. apply uploadLoop_preserves. Qed.

Lemma mutatePhase_preserves (ph : Phase) : preserves R (mutateProgress (setPhase ph)).
Proof. intros w. now apply R_counters. Qed.

Lemma processItem_preserves item shouldUpload folderId onProgress :
  item_id item = itemId ->
  preserves R (processItem env item shouldUpload folderId onProgress).
Proof.
  intros Hid. unfold processItem. rewrite Hid.
  apply preserves_bind; [assumption|now apply preserves_getWorld|]. intros w0.
  apply preserves_bind; [assumption|apply preserves_modify; intros w; apply R_calls|].
  intros _.
  apply preserves_bind; [assumption|now apply emit_preserves|]. intros _.
  apply preserves_bind; [assumption|apply R_update|]. intros _.
  apply preserves_bind; [assumption|apply mutatePhase_preserves|]. intros _.
  apply preserves_bind; [assumption|apply notify_preserves|]. intros _.
  apply preserves_bind; [assumption|now apply preserves_liftResult|]. intros pdf.
  apply preserves_bind; [assumption|now apply preserves_liftResult|]. intros bytes.
  apply preserves_bind; [assumption|apply R_update|]. intros _.
  apply preserves_bind; [assumption| |intros _; now apply preserves_ret].
  destruct shouldUpload; [|now apply preserves_ret].
  apply preserves_bind; [assumption|apply mutatePhase_preserves|]. intros _.
  apply preserves_bind; [assumption|apply notify_preserves|]. intros _.
  apply preserves_bind; [assumption|now apply preserves_liftResult|]. intros token.
  destruct (JS.isEmpty token); [now apply preserves_throw|].
  apply preserves_bind; [assumption|apply uploadToDrive_preserves|]. intros r.
  destruct (negb (ur_success r)); [now apply preserves_throw|apply R_update].
Qed.

Lemma retryLoop_preserves item shouldUpload folderId onProgress maxRetries remaining :
  item_id item = itemId ->
  forall attempt lastError,
    preserves R (retryLoop env item shouldUpload folderId onProgress maxRetries
                   remaining attempt lastError).
Proof.
  intros Hid. induction remaining as [|remaining IH]; intros attempt lastError;
    cbn [retryLoop].
  - now apply preserves_ret.
  - apply preserves_bind; [assumption| |].
    + apply preserves_tryCatch; [assumption| |intros e; now apply preserves_ret].
      apply preserves_bind; [assumption|now apply processItem_preserves|].
      intros b. now apply preserves_ret.
    + intros [[|]|error]; [now apply preserves_ret|apply IH|].
      apply preserves_bind; [assumption| |intros _; apply IH].
      destruct (attempt <? maxRetries - 1)%Z; [|now apply preserves_ret].
      now apply emit_preserves.
Qed.

Lemma settleItem_preserves item shouldUpload folderId onProgress maxRetries :
  item_id item = itemId ->
  preserves R (settleItem env shouldUpload folderId onProgress maxRetries item).
Proof.
  intros Hid. unfold settleItem.
  apply preserves_bind; [assumption|intros w; now apply R_counters|]. intros _.
  apply preserves_bind; [assumption|now apply retryLoop_preserves|].
  intros [success lastError].
  apply preserves_bind; [assumption| |intros _; now apply preserves_ret].
  rewrite Hid. destruct success.
  - apply preserves_bind; [assumption|intros w; now apply R_counters|]. intros _.
    apply preserves_bind; [assumption|intros w; apply R_clock|]. intros now.
    apply R_update.
  - apply preserves_bind; [assumption|intros w; now apply R_counters|]. intros _.
    apply R_update.
Qed.

End Frame.

(** ** The per-item loop always returns *)

Lemma retryLoop_returns item shouldUpload folderId onProgress maxRetries remaining :
  forall attempt lastError,
    returns (retryLoop env item shouldUpload folderId onProgress maxRetries
               remaining attempt lastError).
Proof.
  induction remaining as [|remaining IH]; intros attempt lastError; cbn [retryLoop].
  - apply returns_ret.
  - apply returns_bind.
    + intros w. unfold tryCatch.
      destruct (bind _ _ w) as [[a|e] w']; eexists; reflexivity.
    + intros [[|]|error]; [apply returns_ret|apply IH|].
      apply returns_bind; [|intros _; apply IH].
      destruct (attempt <? maxRetries - 1)%Z; [apply returns_modify|apply returns_ret].
Qed.

Lemma notify_returns (onProgress : option ProgressCallback) : returns (notify onProgress).
Proof. destruct onProgress as [[|]|]; intros w; eexists; reflexivity. Qed.

Lemma settleItem_returns item shouldUpload folderId onProgress maxRetries :
  returns (settleItem env shouldUpload folderId onProgress maxRetries item).
Proof.
  unfold settleItem. apply returns_bind; [apply returns_modify|]. intros _.
  apply returns_bind; [apply retryLoop_returns|]. intros [success lastError].
  apply returns_bind; [|intros _; apply returns_ret].
  destruct success.
  - apply returns_bind; [apply returns_modify|]. intros _.
    apply returns_bind; [intros w; eexists; reflexivity|]. intros now.
    apply updateItemStatus_returns.
  - apply returns_bind; [apply returns_modify|]. intros _.
    apply updateItemStatus_returns.
Qed.

(** One iteration, from the world it starts in: the world [w1] in which the
    item is settled, then the counters advance and the progress is
    reported. *)
Lemma processOneItem_run item shouldUpload folderId onProgress maxRetries totalCount w :
  exists success w1,
    settleItem env shouldUpload folderId onProgress maxRetries item w = (JS.Ok success, w1)
    /\ processOneItem env shouldUpload folderId onProgress maxRetries totalCount item w =
       (JS.Ok success,
        snd (notify onProgress
               (withProgress
                  (setPercentage
                     (Float64.roundedPercentage (S (completed (progress w1))) totalCount)
                     (setCompleted (S (completed (progress w1))) (progress w1)))
                  w1))).
Proof.
  destruct (returns_run _ w (settleItem_returns item shouldUpload folderId onProgress
                               maxRetries)) as (success & w1 & E).
  exists success, w1. split; [exact E|].
  unfold processOneItem. erewrite bind_ok by exact E.
  destruct onProgress as [[|]|]; reflexivity.
Qed.

End BatchFacts.

Lemma getPendingItems_run (env : Env) (w : World) :
  getPendingItems env w =
  (JS.Ok (filter isPending (storedItems w)),
   match storage w with
   | Some _ => w
   | None => withClockReads (S (clockReads w)) w
   end).
Proof.
  unfold getPendingItems. erewrite bind_ok by apply getQueue_run.
  rewrite items_storedQueue. reflexivity.
Qed.

(** [processQueue] when the snapshot of pending items is empty. *)
Lemma processQueue_empty_run (env : Env) (options : BatchProcessorOptions) (w : World) :
  filter isPending (storedItems w) = [] ->
  exists p w',
    processQueue env options w = (JS.Ok p, w')
    /\ phase p = PhComplete /\ percentage p = Float64.ofCount 100
    /\ total p = 0 /\ completed p = 0 /\ cancelled p = false
    /\ log w' = log w ++ match opt_onProgress options with
                         | Some _ => [EvProgress p]
                         | None => []
                         end
    /\ storage w' = storage w
    /\ flagProcessing w' = false.
Proof.
  intros Hnone. unfold processQueue. unfold bind at 1.
  unfold processQueueRun. cbv zeta.
  assert (Hp : exists w1,
             getPendingItems env (withProcessing true (withCancelled false w)) = (JS.Ok [], w1)
             /\ storage w1 = storage w /\ log w1 = log w).
  { rewrite getPendingItems_run. unfold storedItems at 1.
    cbn [storage withProcessing withCancelled]. fold (storedItems w). rewrite Hnone.
    eexists. split; [reflexivity|].
    destruct (storage w) eqn:E; cbn; rewrite ?E; split; reflexivity. }
  destruct Hp as (w1 & Hp & Hs1 & Hl1).
  erewrite bind_ok by reflexivity.
  erewrite bind_ok by reflexivity.
  erewrite bind_ok by exact Hp.
  cbn [List.length Nat.eqb].
  destruct (opt_onProgress options) as [[|]|]; cbn;
    (eexists; eexists; split; [reflexivity|]);
    repeat split; cbn [log storage withProcessing withProgress withLog
                         withSessionProgress];
    rewrite ?Hl1, ?app_nil_r; auto.
Qed.

(** C7: with no pending item, [processQueue] returns a progress whose
    phase is complete and whose percentage is 100, reports it once to the
    callback when there is one, and leaves the stored queue as it was. *)
Theorem processQueue_nothing_pending (env : Env) (options : BatchProcessorOptions)
    (w : World) :
  filter isPending (storedItems w) = [] ->
  exists p w',
    processQueue env options w = (JS.Ok p, w')
    /\ phase p = PhComplete /\ percentage p = Float64.ofCount 100
    /\ total p = 0 /\ completed p = 0 /\ cancelled p = false
    /\ log w' = log w ++ match opt_onProgress options with
                         | Some _ => [EvProgress p]
                         | None => []
                         end
    /\ storage w' = storage w
    /\ flagProcessing w' = false.
Proof. apply processQueue_empty_run. Qed.

Lemma processQueue_nothing_pending_witness :
  exists p w',
    processQueue quietEnv observedRun initialWorld = (JS.Ok p, w')
    /\ phase p = PhComplete /\ percentage p = Float64.ofCount 100
    /\ total p = 0 /\ completed p = 0 /\ cancelled p = false
    /\ log w' = log initialWorld ++ [EvProgress p]
    /\ storage w' = storage initialWorld
    /\ flagProcessing w' = false.
Proof.
  apply (processQueue_nothing_pending quietEnv observedRun initialWorld). reflexivity.
Defined.

Section SnapshotFacts.
Variable env : Env.
Variable base : list Event.
Variable t : nat.
Hypothesis t_positive : (0 < t)%nat.

Lemma keepsAgreement_refl w : (keepsAgreement base t) w w.
Proof. intros H. exact H. Qed.

Lemma keepsAgreement_trans w1 w2 w3 :
  (keepsAgreement base t) w1 w2 -> (keepsAgreement base t) w2 w3 -> (keepsAgreement base t) w1 w3.
Proof. unfold keepsAgreement. auto. Qed.

Lemma keepsAgreement_same w w' :
  log w' = log w -> percentage (progress w') = percentage (progress w) ->
  completed (progress w') = completed (progress w) ->
  total (progress w') = total (progress w) ->
  (keepsAgreement base t) w w'.
Proof.
  intros Hl Hp Hc Ht (H1 & H2 & H3). unfold snapshotsAgree.
  rewrite Hl, Hp, Hc, Ht. auto.
Qed.

Lemma filterMap_app {A B} (f : A -> option B) (l1 l2 : list A) :
  filterMap f (l1 ++ l2) = filterMap f l1 ++ filterMap f l2.
Proof.
  induction l1 as [|x l1 IH]; cbn [filterMap app]; [reflexivity|].
  destruct (f x); cbn [app]; now rewrite IH.
Qed.

Lemma keepsAgreement_event w e :
  isSnapshot e = None -> (keepsAgreement base t) w (withLog (log w ++ [e]) w).
Proof.
  intros He (H1 & H2 & evs & Hl & Hs). repeat split; [exact H1|exact H2|].
  exists (evs ++ [e]). cbn [log withLog]. rewrite Hl, app_assoc. split; [reflexivity|].
  unfold snapshotsOf in *. rewrite filterMap_app. cbn [filterMap]. rewrite He.
  now rewrite app_nil_r.
Qed.

Lemma agrees_of_invariant p :
  total p = t -> percentage p = Float64.roundedPercentage (completed p) t ->
  percentageAgrees p.
Proof.
  intros Ht Hp. unfold percentageAgrees. rewrite Ht.
  destruct (Nat.eqb_spec t 0); [lia|exact Hp].
Qed.

Lemma keepsAgreement_snapshot w :
  (keepsAgreement base t) w (withLog (log w ++ [EvProgress (progress w)]) w).
Proof.
  intros (H1 & H2 & evs & Hl & Hs). repeat split; [exact H1|exact H2|].
  exists (evs ++ [EvProgress (progress w)]). cbn [log withLog].
  rewrite Hl, app_assoc. split; [reflexivity|].
  unfold snapshotsOf in *. rewrite filterMap_app. cbn [filterMap isSnapshot].
  apply Forall_app. split; [exact Hs|]. constructor; [|constructor].
  now apply agrees_of_invariant.
Qed.

Lemma keepsAgreement_update itemId s r e :
  preserves (keepsAgreement base t) (updateItemStatus env itemId s r e).
Proof.
  intros w. destruct (updateItemStatus_effect env itemId s r e w) as (w' & E & S & _).
  rewrite E. cbn [snd]. destruct S as (Hl & Hp & _).
  apply keepsAgreement_same; [exact Hl|now rewrite Hp..].
Qed.

Lemma settleItem_keepsAgreement item shouldUpload folderId onProgress maxRetries :
  preserves (keepsAgreement base t) (settleItem env shouldUpload folderId onProgress maxRetries item).
Proof.
  apply (settleItem_preserves env (keepsAgreement base t) keepsAgreement_refl keepsAgreement_trans)
    with (itemId := item_id item); try reflexivity.
  - intros w n. now apply keepsAgreement_same.
  - intros w p. now apply keepsAgreement_same.
  - apply keepsAgreement_event.
  - apply keepsAgreement_snapshot.
  - intros w n. now apply keepsAgreement_same.
  - intros w p' Hp Hc Ht _. now apply keepsAgreement_same.
  - apply keepsAgreement_update.
Qed.

Lemma notify_keepsAgreement onProgress : preserves (keepsAgreement base t) (notify onProgress).
Proof.
  destruct onProgress as [[|]|]; intros w; cbn.
  - apply keepsAgreement_snapshot.
  - eapply keepsAgreement_trans; [apply keepsAgreement_snapshot|].
    now apply keepsAgreement_same.
  - apply keepsAgreement_refl.
Qed.

Lemma processOneItem_keepsAgreement item shouldUpload folderId onProgress maxRetries :
  preserves (keepsAgreement base t)
    (processOneItem env shouldUpload folderId onProgress maxRetries t item).
Proof.
  intros w.
  destruct (processOneItem_run env item shouldUpload folderId onProgress maxRetries t w)
    as (success & w1 & E1 & E).
  rewrite E. cbn [snd].
  pose proof (settleItem_keepsAgreement item shouldUpload folderId onProgress maxRetries w)
    as H1. rewrite E1 in H1. cbn [snd] in H1.
  eapply keepsAgreement_trans; [exact H1|].
  eapply keepsAgreement_trans; [|apply notify_keepsAgreement].
  intros (Ht & _ & Hlog). split; [exact Ht|]. split; [reflexivity|exact Hlog].
Qed.

Lemma itemLoop_keepsAgreement shouldUpload folderId onProgress continueOnError maxRetries
    pending :
  forall index,
    preserves (keepsAgreement base t)
      (itemLoop env shouldUpload folderId onProgress continueOnError maxRetries t
         pending index).
Proof.
  induction pending as [|item rest IH]; intros index; cbn [itemLoop].
  - apply preserves_ret, keepsAgreement_refl.
  - apply preserves_bind; [apply keepsAgreement_trans| |].
    + destruct (cancelArrives env index); [|apply preserves_ret, keepsAgreement_refl].
      intros w. unfold cancel, modify. cbn [snd].
      destruct (flagProcessing w); [now apply keepsAgreement_same|apply keepsAgreement_refl].
    + intros _.
      apply preserves_bind;
        [apply keepsAgreement_trans|apply preserves_getWorld, keepsAgreement_refl|].
      intros w0. destruct (flagCancelled w0).
      * apply preserves_bind; [apply keepsAgreement_trans| |].
        { intros w. now apply keepsAgreement_same. }
        intros _. apply preserves_bind; [apply keepsAgreement_trans| |].
        { intros w. now apply keepsAgreement_same. }
        intros _. apply preserves_bind;
          [apply keepsAgreement_trans|apply notify_keepsAgreement|].
        intros _. apply preserves_ret, keepsAgreement_refl.
      * apply preserves_bind;
          [apply keepsAgreement_trans|apply processOneItem_keepsAgreement|].
        intros success.
        destruct (negb success && negb continueOnError);
          [apply preserves_ret, keepsAgreement_refl|apply IH].
Qed.

End SnapshotFacts.

Lemma processOneItem_returns env item shouldUpload folderId onProgress maxRetries totalCount :
  returns (processOneItem env shouldUpload folderId onProgress maxRetries totalCount item).
Proof.
  intros w.
  destruct (processOneItem_run env item shouldUpload folderId onProgress maxRetries
              totalCount w) as (success & w1 & _ & E).
  exists success. now rewrite E.
Qed.

Lemma itemLoop_returns env shouldUpload folderId onProgress continueOnError maxRetries
    totalCount pending :
  forall index,
    returns (itemLoop env shouldUpload folderId onProgress continueOnError maxRetries
               totalCount pending index).
Proof.
  induction pending as [|item rest IH]; intros index; cbn [itemLoop].
  - apply returns_ret.
  - apply returns_bind.
    + destruct (cancelArrives env index); [apply returns_modify|apply returns_ret].
    + intros _. apply returns_bind; [apply returns_getWorld|]. intros w0.
      destruct (flagCancelled w0).
      * apply returns_bind; [apply returns_modify|]. intros _.
        apply returns_bind; [apply returns_modify|]. intros _.
        apply returns_bind; [apply notify_returns|]. intros _. apply returns_ret.
      * apply returns_bind; [apply processOneItem_returns|]. intros success.
        destruct (negb success && negb continueOnError); [apply returns_ret|apply IH].
Qed.

(** The run up to the first item: the flags are set, the snapshot is taken
    and the progress object is created. *)
Lemma processQueueRun_start {B} (env : Env) (options : BatchProcessorOptions) (w : World)
    (k : LoopExit * BatchProgress -> M B) :
  exists w2,
    bind (processQueueRun env options) k w =
    bind (let pendingItems := filter isPending (storedItems w) in
          let totalCount := List.length pendingItems in
          if (totalCount =? 0)%nat
          then
            mutateProgress (setPhase PhComplete) ;;
            mutateProgress (setPercentage (Float64.ofCount 100)) ;;
            notify (opt_onProgress options) ;;
            modify (withProcessing false) ;;
            w <- getWorld ;;
            ret (Exhausted, progress w)
          else
            exit <- itemLoop env (opt_uploadToDrive options) (opt_folderId options)
                      (opt_onProgress options)
                      (withDefault (opt_continueOnError options) true)
                      (withDefault (opt_maxRetries options) 1%Z)
                      totalCount pendingItems 0 ;;
            mutateProgress (setPhase PhComplete) ;;
            mutateProgress (setCurrentItem None) ;;
            notify (opt_onProgress options) ;;
            modify (withProcessing false) ;;
            w <- getWorld ;;
            ret (exit, progress w))%monad k w2
    /\ log w2 = log w /\ storage w2 = storage w
    /\ flagCancelled w2 = false /\ flagProcessing w2 = true
    /\ progress w2 =
       mkProgress (S754_zero false) 0 (List.length (filter isPending (storedItems w)))
         0 0 None PhIdle false.
Proof.
  eexists. split.
  - unfold bind at 1. unfold processQueueRun. cbv zeta.
    erewrite bind_ok by reflexivity.
    erewrite bind_ok by reflexivity.
    erewrite bind_ok by apply getPendingItems_run.
    unfold storedItems at 1 2 3.
    cbn [storage withProcessing withCancelled]. fold (storedItems w).
    erewrite bind_ok by reflexivity.
    unfold bind at 5. reflexivity.
  - destruct (storage w) eqn:E; cbn; rewrite ?E; repeat split.
Qed.

Lemma snapshotsAgree_final (base : list Event) (t : nat) (w : World)
    (onProgress : option ProgressCallback) (f : BatchProgress -> BatchProgress) :
  (0 < t)%nat ->
  (forall p, percentage (f p) = percentage p /\ completed (f p) = completed p
             /\ total (f p) = total p) ->
  snapshotsAgree base t w ->
  snapshotsAgree base t
    (snd (notify onProgress (withProgress (f (progress w)) w))).
Proof.
  intros Ht Hf H.
  apply (notify_keepsAgreement base t Ht onProgress).
  destruct (Hf (progress w)) as (Hp & Hc & Htot).
  revert H. apply keepsAgreement_same; cbn [log progress withProgress]; auto.
Qed.

(** C8, amended: every snapshot [processQueue] reports, and the progress
    it returns, has the percentage [Math.round((completed / total) * 100)]
    when [total] is positive and 100 when [total] is 0;
    [calculateQueueProgress] gives the same rounded quotient for a positive
    total and 0 for a total of 0. *)
Theorem progress_percentage (env : Env) (options : BatchProcessorOptions) (w : World) :
  (exists p w' evs,
      processQueue env options w = (JS.Ok p, w')
      /\ log w' = log w ++ evs
      /\ Forall percentageAgrees (snapshotsOf evs)
      /\ percentageAgrees p)
  /\ (forall queue,
        qp_percentage (calculateQueueProgress queue) =
        if (totalItems queue =? 0)%nat then S754_zero false
        else Float64.roundedPercentage (completedItems queue + failedItems queue)
               (totalItems queue)).
Proof.
  split; [|reflexivity].
  destruct (filter isPending (storedItems w)) as [|item rest] eqn:Hpend.
  - destruct (processQueue_empty_run env options w Hpend)
      as (p & w' & E & _ & Hpct & Htot & _ & _ & Hlog & _).
    assert (Hp : percentageAgrees p).
    { unfold percentageAgrees. now rewrite Htot, Hpct. }
    exists p, w'. eexists. split; [exact E|]. split; [exact Hlog|]. split; [|exact Hp].
    destruct (opt_onProgress options); repeat constructor. exact Hp.
  - unfold processQueue.
    destruct (processQueueRun_start env options w (fun r => ret (snd r)))
      as (w2 & -> & Hlog2 & _ & _ & _ & Hprog2).
    rewrite Hpend in *. cbn [List.length Nat.eqb] in *. cbv zeta.
    set (t := S (List.length rest)) in *.
    assert (Ht : (0 < t)%nat) by (unfold t; lia).
    assert (H2 : snapshotsAgree (log w) t w2).
    { unfold snapshotsAgree. rewrite Hprog2, Hlog2. cbn [total percentage completed].
      split; [reflexivity|]. split; [symmetry; now apply roundedPercentage_zero|].
      exists []. rewrite app_nil_r. split; [reflexivity|constructor]. }
    unfold bind at 1. unfold bind at 1.
    destruct (returns_run _ w2
                (itemLoop_returns env (opt_uploadToDrive options) (opt_folderId options)
                   (opt_onProgress options)
                   (withDefault (opt_continueOnError options) true)
                   (withDefault (opt_maxRetries options) 1%Z) t (item :: rest) 0))
      as (exit & w3 & E3).
    pose proof (itemLoop_keepsAgreement env (log w) t Ht (opt_uploadToDrive options)
                  (opt_folderId options) (opt_onProgress options)
                  (withDefault (opt_continueOnError options) true)
                  (withDefault (opt_maxRetries options) 1%Z) (item :: rest) 0 w2 H2) as H3.
    rewrite E3 in *. cbn [snd] in H3.
    pose proof (snapshotsAgree_final (log w) t w3 (opt_onProgress options)
                  (fun p => setCurrentItem None (setPhase PhComplete p)) Ht
                  (fun p => conj eq_refl (conj eq_refl eq_refl)) H3) as H4.
    destruct (opt_onProgress options) as [[|]|]; cbn in H4 |- *;
      destruct H4 as (Htot & Hpct & evs & Hl & Hs);
      (eexists; eexists; exists evs; split; [reflexivity|]; split; [exact Hl|];
       split; [exact Hs|]; apply (agrees_of_invariant t Ht); assumption).
Qed.

(** C8 as stated fails: the one snapshot of a run over an empty queue has
    [total = 0] and a percentage of 100, not 0. *)
Lemma empty_batch_reports_100 :
  let run := processQueue quietEnv observedRun initialWorld in
  exists p,
    fst run = JS.Ok p
    /\ snapshotsOf (log (snd run)) = [p]
    /\ total p = 0
    /\ percentage p = Float64.ofCount 100
    /\ percentage p <> S754_zero false.
Proof.
  cbv zeta. eexists. split; [vm_compute; reflexivity|].
  split; [vm_compute; reflexivity|]. split; [reflexivity|].
  split; [vm_compute; reflexivity|]. vm_compute. discriminate.
Qed.

Section FrameFacts.
Variable env : Env.

Lemma replaceFirst_app (p : QueueItem -> bool) (new : QueueItem) (l1 l2 : list QueueItem) :
  existsb p l1 = true ->
  replaceFirst p new (l1 ++ l2) = replaceFirst p new l1 ++ l2.
Proof.
  induction l1 as [|x l1 IH]; cbn [existsb replaceFirst app]; [discriminate|].
  destruct (p x); cbn [orb]; [reflexivity|]. intros H. now rewrite IH.
Qed.

Lemma replaceFirst_exists (p : QueueItem -> bool) (new : QueueItem) (l : list QueueItem) :
  p new = true -> existsb p l = true -> existsb p (replaceFirst p new l) = true.
Proof.
  intros Hnew. induction l as [|x l IH]; cbn [existsb replaceFirst]; [discriminate|].
  destruct (p x) eqn:E; cbn [orb existsb].
  - now rewrite Hnew.
  - rewrite E. exact IH.
Qed.

Lemma replaceFirst_length (p : QueueItem -> bool) (new : QueueItem) (l : list QueueItem) :
  List.length (replaceFirst p new l) = List.length l.
Proof.
  induction l as [|x l IH]; cbn [replaceFirst List.length]; [reflexivity|].
  destruct (p x); cbn [List.length]; [reflexivity|now rewrite IH].
Qed.

Variable itemId : JSString.
Variable tail : list QueueItem.

Lemma keepsTail_refl w : keepsTail itemId tail w w.
Proof. intros front H E. now exists front. Qed.

Lemma keepsTail_trans w1 w2 w3 :
  keepsTail itemId tail w1 w2 -> keepsTail itemId tail w2 w3 -> keepsTail itemId tail w1 w3.
Proof.
  intros H12 H23 front H E.
  destruct (H12 front H E) as (f2 & H2 & E2 & L2).
  destruct (H23 f2 H2 E2) as (f3 & H3 & E3 & L3).
  exists f3. repeat split; auto. congruence.
Qed.

Lemma keepsTail_same w w' : storage w' = storage w -> keepsTail itemId tail w w'.
Proof.
  intros Hs front H E. exists front. unfold storedItems in *. rewrite Hs. auto.
Qed.

Lemma keepsTail_update s r e :
  preserves (keepsTail itemId tail) (updateItemStatus env itemId s r e).
Proof.
  intros w. destruct (updateItemStatus_effect env itemId s r e w) as (w' & E & _ & S).
  rewrite E. cbn [snd]. intros front H Hex.
  destruct S as [S|(new & Hnew & S)].
  - exists front. rewrite S. auto.
  - exists (replaceFirst (hasId itemId) new front).
    rewrite S, H, replaceFirst_app by exact Hex.
    repeat split; [now apply replaceFirst_exists|apply replaceFirst_length].
Qed.

Lemma settleItem_keepsTail item shouldUpload folderId onProgress maxRetries :
  item_id item = itemId ->
  preserves (keepsTail itemId tail)
    (settleItem env shouldUpload folderId onProgress maxRetries item).
Proof.
  intros Hid.
  apply (settleItem_preserves env (keepsTail itemId tail) keepsTail_refl keepsTail_trans)
    with (itemId := itemId); try assumption.
  - intros w n. now apply keepsTail_same.
  - intros w p. now apply keepsTail_same.
  - intros w e _. now apply keepsTail_same.
  - intros w. now apply keepsTail_same.
  - intros w n. now apply keepsTail_same.
  - intros w p' _ _ _ _. now apply keepsTail_same.
  - apply keepsTail_update.
Qed.

End FrameFacts.

Section CounterFacts.
Variable env : Env.

Lemma keepsCounters_refl w : keepsCounters w w.
Proof. repeat split. Qed.

Lemma keepsCounters_trans w1 w2 w3 :
  keepsCounters w1 w2 -> keepsCounters w2 w3 -> keepsCounters w1 w3.
Proof.
  unfold keepsCounters. intros (a1 & a2 & a3) (b1 & b2 & b3). repeat split; congruence.
Qed.

Lemma keepsCounters_same w w' : progress w' = progress w -> keepsCounters w w'.
Proof. intros H. unfold keepsCounters. now rewrite H. Qed.

Lemma settleItem_keepsCounters item shouldUpload folderId onProgress maxRetries :
  preserves keepsCounters (settleItem env shouldUpload folderId onProgress maxRetries item).
Proof.
  apply (settleItem_preserves env keepsCounters keepsCounters_refl keepsCounters_trans)
    with (itemId := item_id item); try reflexivity.
  - intros w n. now apply keepsCounters_same.
  - intros w p. now apply keepsCounters_same.
  - intros w e _. now apply keepsCounters_same.
  - intros w. now apply keepsCounters_same.
  - intros w n. now apply keepsCounters_same.
  - intros w p' _ Hc Ht Hca. unfold keepsCounters. cbn [progress withProgress]. auto.
  - intros s r e w.
    destruct (updateItemStatus_effect env (item_id item) s r e w) as (w' & E & S & _).
    rewrite E. cbn [snd]. destruct S as (_ & Hp & _). now apply keepsCounters_same.
Qed.

Lemma notify_frame (onProgress : option ProgressCallback) (w : World) :
  storage (snd (notify onProgress w)) = storage w
  /\ progress (snd (notify onProgress w)) = progress w.
Proof. destruct onProgress as [[|]|]; split; reflexivity. Qed.

End CounterFacts.

Lemma filter_cons_split {A} (p : A -> bool) (l : list A) (x : A) (rest : list A) :
  filter p l = x :: rest ->
  exists l1 l2, l = l1 ++ x :: l2 /\ filter p l1 = [] /\ filter p l2 = rest /\ p x = true.
Proof.
  induction l as [|y l IH]; cbn [filter]; [discriminate|].
  destruct (p y) eqn:E; intros H.
  - injection H as -> <-. exists [], l. auto.
  - destruct (IH H) as (l1 & l2 & -> & H1 & H2 & Hx).
    exists (y :: l1), l2. cbn [filter app]. rewrite E. auto.
Qed.

(** What one iteration does to the stored list and to the count of
    completed items. *)
Lemma processOneItem_frame env shouldUpload folderId onProgress maxRetries totalCount item
    (front tail : list QueueItem) (w : World) :
  storedItems w = front ++ item :: tail ->
  exists success w' front',
    processOneItem env shouldUpload folderId onProgress maxRetries totalCount item w =
      (JS.Ok success, w')
    /\ storedItems w' = front' ++ tail
    /\ List.length front' = S (List.length front)
    /\ completed (progress w') = S (completed (progress w))
    /\ cancelled (progress w') = cancelled (progress w).
Proof.
  intros H.
  destruct (processOneItem_run env item shouldUpload folderId onProgress maxRetries
              totalCount w) as (success & w1 & E1 & E).
  pose proof (settleItem_keepsTail env (item_id item) tail item shouldUpload folderId
                onProgress maxRetries eq_refl w) as Ht.
  pose proof (settleItem_keepsCounters env item shouldUpload folderId onProgress
                maxRetries w) as Hc.
  rewrite E1 in Ht, Hc. cbn [snd] in Ht, Hc.
  destruct (Ht (front ++ [item])) as (front' & Hs & _ & Hl).
  { rewrite <- app_assoc. exact H. }
  { rewrite existsb_app. cbn [existsb]. unfold hasId at 2. rewrite JS_eqb_refl.
    now rewrite orb_true_r. }
  destruct Hc as (Hcomp & Hcanc & _).
  eexists success, _, front'. split; [exact E|].
  match goal with |- context [notify ?cb ?w0] =>
    destruct (notify_frame cb w0) as (Ns & Np)
  end.
  unfold storedItems in *. rewrite Ns, Np. cbn [storage progress withProgress].
  split; [exact Hs|]. split; [rewrite Hl, length_app; cbn; lia|].
  cbn [completed cancelled setPercentage setCompleted]. auto.
Qed.

Lemma filter_length_app {A} (p : A -> bool) (l1 l2 : list A) :
  List.length (filter p (l1 ++ l2)) = List.length (filter p l1) + List.length (filter p l2).
Proof. now rewrite filter_app, length_app. Qed.

(** C2 as stated fails: called while a run is in flight, [processQueue]
    itself is not rejected; it clears the pending cancellation, processes
    the items and ends with the processing flag off. *)
Lemma second_call_is_not_rejected :
  let run := processQueue quietEnv observedRun runInFlight in
  (exists p, fst run = JS.Ok p /\ completed p = 3 /\ successCount p = 3)
  /\ flagProcessing runInFlight = true /\ flagCancelled runInFlight = true
  /\ flagCancelled (snd run) = false
  /\ flagProcessing (snd run) = false
  /\ processItemCalls (log (snd run)) = 3
  /\ map item_status (storedItems (snd run)) = [Completed; Completed; Completed].
Proof.
  cbv zeta. split; [eexists; split; [vm_compute; reflexivity|split; reflexivity]|].
  vm_compute. repeat split.
Qed.

(** C2, amended: while a run is active, [handleProcessQueue] answers with
    the error response [PROCESSING_IN_PROGRESS] and leaves the world,
    including the run in flight, exactly as it was. *)
Theorem handleProcessQueue_rejects_when_processing (env : Env)
    (payload : option ProcessQueuePayload) (requestId : option JSString) (w : World) :
  flagProcessing w = true ->
  handleProcessQueue env payload requestId w =
  (JS.Ok (RespError (mkErrorResponse (JS.str "Batch processing already in progress")
                       PROCESSING_IN_PROGRESS requestId)), w).
Proof.
  intros H. unfold handleProcessQueue, isProcessing.
  erewrite bind_ok by reflexivity. rewrite H. reflexivity.
Qed.

Lemma handleProcessQueue_rejects_when_processing_witness :
  handleProcessQueue quietEnv None None runInFlight =
  (JS.Ok (RespError (mkErrorResponse (JS.str "Batch processing already in progress")
                       PROCESSING_IN_PROGRESS None)), runInFlight).
Proof.
  apply (handleProcessQueue_rejects_when_processing quietEnv None None runInFlight).
  reflexivity.
Defined.

(** Two runs that stop early. *)
Example cancelled_run_stops_at_second_item :
  let run := processQueueRun cancelAfterFirstEnv observedRun threePending in
  (exists p, fst run = JS.Ok (BrokeOnCancel, p)
             /\ completed p = 1 /\ cancelled p = true /\ phase p = PhComplete)
  /\ skipn 1 (storedItems (snd run)) = skipn 1 (storedItems threePending).
Proof.
  cbv zeta. split; [eexists; split; [vm_compute; reflexivity|repeat split]|].
  vm_compute. reflexivity.
Qed.

Example failed_item_stops_the_run :
  let run := processQueueRun failingRenderEnv stopOnErrorRun threePending in
  (exists p, fst run = JS.Ok (BrokeOnError, p) /\ completed p = 1 /\ failedCount p = 1)
  /\ map item_status (storedItems (snd run)) = [Failed; Pending; Pending]
  /\ skipn 1 (storedItems (snd run)) = skipn 1 (storedItems threePending).
Proof.
  cbv zeta. split; [eexists; split; [vm_compute; reflexivity|repeat split]|].
  vm_compute. repeat split.
Qed.

(* ================================================================== *)
(** * More about the queue manager *)
(* ================================================================== *)

Section QueueLookups.
Variable env : Env.

Lemma JS_eqb_eq (a b : JSString) : JS.eqb a b = true <-> a = b.
Proof.
  revert b. induction a as [|x a IH]; intros [|y b]; cbn [JS.eqb]; try easy.
  rewrite andb_true_iff, N.eqb_eq, IH. split; [intros [-> ->]; reflexivity|].
  intros E. injection E as -> ->. auto.
Qed.

Lemma storedItems_withStorage (q : PostQueue) (w : World) :
  storedItems (withStorage (Some q) w) = items q.
Proof. reflexivity. Qed.

(** What the three filtering and mapping operations leave in the store. *)
Lemma removeFromQueue_run (itemId : JSString) (w : World) :
  exists w',
    removeFromQueue env itemId w = (JS.Ok tt, w')
    /\ storedItems w' = filter (fun i => negb (hasId itemId i)) (storedItems w)
    /\ storageConsistent (storage w')
    /\ sameButQueue w w'.
Proof.
  unfold removeFromQueue. erewrite bind_ok by apply getQueue_run.
  erewrite bind_ok by apply recalculateTotals_run.
  eexists. split; [reflexivity|]. rewrite items_storedQueue.
  split; [reflexivity|]. split; [apply countsConsistent_recounted|].
  destruct (storage w); repeat split.
Qed.

Lemma clearCompletedItems_run (w : World) :
  exists w',
    clearCompletedItems env w = (JS.Ok tt, w')
    /\ storedItems w' =
       filter (fun i => negb (statusEqb (item_status i) Completed)) (storedItems w)
    /\ storageConsistent (storage w')
    /\ sameButQueue w w'.
Proof.
  unfold clearCompletedItems. erewrite bind_ok by apply getQueue_run.
  erewrite bind_ok by apply recalculateTotals_run.
  eexists. split; [reflexivity|]. rewrite items_storedQueue.
  split; [reflexivity|]. split; [apply countsConsistent_recounted|].
  destruct (storage w); repeat split.
Qed.

Lemma getItem_run (itemId : JSString) (w : World) :
  fst (getItem env itemId w) = JS.Ok (find (hasId itemId) (storedItems w)).
Proof.
  unfold getItem. erewrite bind_ok by apply getQueue_run.
  now rewrite items_storedQueue.
Qed.

Lemma getItemCount_run (w : World) :
  fst (getItemCount env w) = JS.Ok (totalItems (storedQueue env w)).
Proof. unfold getItemCount. erewrite bind_ok by apply getQueue_run. reflexivity. Qed.

Lemma isPostInQueue_run (postId : JSString) (w : World) :
  fst (isPostInQueue env postId w) =
  JS.Ok (existsb (fun item => JS.eqb (item_postId item) postId) (storedItems w)).
Proof.
  unfold isPostInQueue. erewrite bind_ok by apply getQueue_run.
  now rewrite items_storedQueue.
Qed.

Lemma find_filter_other (itemId other : JSString) (l : list QueueItem) :
  other <> itemId ->
  find (hasId other) (filter (fun i => negb (hasId itemId i)) l) = find (hasId other) l.
Proof.
  intros Hne. induction l as [|i l IH]; [reflexivity|].
  cbn [filter find]. destruct (hasId itemId i) eqn:E1; cbn [negb find].
  - destruct (hasId other i) eqn:E2; [|exact IH].
    unfold hasId in *. apply JS_eqb_eq in E1, E2. congruence.
  - now rewrite IH.
Qed.

Lemma find_filter_self (itemId : JSString) (l : list QueueItem) :
  find (hasId itemId) (filter (fun i => negb (hasId itemId i)) l) = None.
Proof.
  induction l as [|i l IH]; [reflexivity|].
  cbn [filter]. destruct (hasId itemId i) eqn:E; cbn [negb find]; [exact IH|].
  now rewrite E.
Qed.

End QueueLookups.

(** X1: [updateItemStatus] with an identifier no stored item has returns
    without writing: the stored queue, its [updatedAt] included, stays as it
    was, and so does everything else but the clock. *)
Theorem updateItemStatus_unknown_id (env : Env) (itemId : JSString)
    (status : QueueItemStatus) (result : option PartialResult) (error : option JSString)
    (w : World) :
  find (hasId itemId) (storedItems w) = None ->
  exists w',
    updateItemStatus env itemId status result error w = (JS.Ok tt, w')
    /\ storage w' = storage w
    /\ sameButQueue w w'.
Proof.
  intros H. unfold updateItemStatus. erewrite bind_ok by apply getQueue_run.
  rewrite items_storedQueue.
  change (fun i : QueueItem => JS.eqb (item_id i) itemId) with (hasId itemId).
  rewrite H. eexists. split; [reflexivity|].
  destruct (storage w) eqn:E; cbn; rewrite ?E; repeat split.
Qed.

Lemma updateItemStatus_unknown_id_witness :
  exists w',
    updateItemStatus quietEnv (JS.str "z") Failed None (Some (JS.str "late")) threePending
    = (JS.Ok tt, w')
    /\ storage w' = storage threePending
    /\ sameButQueue threePending w'.
Proof.
  apply (updateItemStatus_unknown_id quietEnv (JS.str "z") Failed None
           (Some (JS.str "late")) threePending).
  reflexivity.
Defined.

(** X2: after [removeFromQueue] the queue holds the items with another
    identifier, in their order, [getItem] no longer finds the identifier,
    finds every other identifier as before, and [getItemCount] is the number
    of items left; the rest of the world is untouched. *)
Theorem removeFromQueue_then_getItem (env : Env) (itemId : JSString) (w : World) :
  exists w',
    removeFromQueue env itemId w = (JS.Ok tt, w')
    /\ storedItems w' = filter (fun i => negb (hasId itemId i)) (storedItems w)
    /\ fst (getItem env itemId w') = JS.Ok None
    /\ (forall other, other <> itemId ->
          fst (getItem env other w') = fst (getItem env other w))
    /\ fst (getItemCount env w') = JS.Ok (List.length (storedItems w'))
    /\ sameButQueue w w'.
Proof.
  destruct (removeFromQueue_run env itemId w) as (w' & E & Hs & Hc & Hsame).
  exists w'. split; [exact E|]. split; [exact Hs|].
  split; [rewrite getItem_run, Hs; now rewrite find_filter_self|].
  split; [intros other Hne; rewrite !getItem_run, Hs; now rewrite find_filter_other|].
  split; [|exact Hsame].
  rewrite getItemCount_run. apply (storedQueue_consistent env) in Hc.
  destruct Hc as (Ht & _). now rewrite Ht, items_storedQueue.
Qed.

Section CountFacts.

Lemma countStatus_cons (s : QueueItemStatus) (i : QueueItem) (l : list QueueItem) :
  countStatus s (i :: l) =
  (if statusEqb (item_status i) s then 1 else 0) + countStatus s l.
Proof.
  unfold countStatus. cbn [filter]. now destruct (statusEqb (item_status i) s).
Qed.

Lemma countStatus_zero (s : QueueItemStatus) (l : list QueueItem) :
  countStatus s l = 0 <-> Forall (fun i => item_status i <> s) l.
Proof.
  induction l as [|i l IH]; [split; [constructor|reflexivity]|].
  rewrite countStatus_cons. split.
  - intros H. destruct (statusEqb (item_status i) s) eqn:E; [discriminate|].
    constructor; [|now apply IH].
    intros <-. now destruct (item_status i).
  - intros H. inversion H as [|? ? Hi Hl]; subst.
    replace (statusEqb (item_status i) s) with false.
    + now apply IH.
    + destruct (item_status i), s; try reflexivity; now contradiction Hi.
Qed.

Lemma countStatus_positive (s : QueueItemStatus) (l : list QueueItem) :
  0 < countStatus s l <-> exists i, In i l /\ item_status i = s.
Proof.
  induction l as [|i l IH].
  - split; [cbn; lia|intros (i & [] & _)].
  - rewrite countStatus_cons. split.
    + intros H. destruct (statusEqb (item_status i) s) eqn:E.
      * exists i. split; [now left|]. now destruct (item_status i), s.
      * destruct IH as [IH _]. destruct (IH H) as (j & Hj & Hs).
        exists j. split; [now right|exact Hs].
    + intros (j & [->|Hj] & Hs).
      * subst s. replace (statusEqb (item_status j) (item_status j)) with true; [lia|].
        now destruct (item_status j).
      * enough (0 < countStatus s l) by lia. apply IH. now exists j.
Qed.

Lemma map_retryItem_counts (l : list QueueItem) :
  countStatus Failed (map retryItem l) = 0
  /\ countStatus Pending (map retryItem l) = countStatus Pending l + countStatus Failed l
  /\ countStatus Processing (map retryItem l) = countStatus Processing l
  /\ countStatus Completed (map retryItem l) = countStatus Completed l.
Proof.
  induction l as [|i l (IH1 & IH2 & IH3 & IH4)]; [repeat split|].
  cbn [map]. rewrite !countStatus_cons, IH1, IH2, IH3, IH4.
  unfold retryItem. destruct (item_status i) eqn:E; cbn [statusEqb]; rewrite ?E;
    cbn [statusEqb item_status setRetryCount setError setStatus]; repeat split; lia.
Qed.

Lemma map_retryItem_none (l : list QueueItem) :
  countStatus Failed l = 0 -> map retryItem l = l.
Proof.
  intros H. apply countStatus_zero in H.
  induction H as [|i l Hi _ IH]; [reflexivity|].
  cbn [map]. rewrite IH. unfold retryItem.
  destruct (item_status i); try reflexivity. now contradiction Hi.
Qed.

Lemma pending_after_retry (l : list QueueItem) :
  map item_id (filter isPending (map retryItem l)) =
  map item_id (filter (fun i => isPending i || statusEqb (item_status i) Failed) l).
Proof.
  induction l as [|i l IH]; [reflexivity|].
  assert (H1 : isPending (retryItem i) = isPending i || statusEqb (item_status i) Failed).
  { unfold retryItem, isPending. now destruct (item_status i) eqn:E; cbn; rewrite ?E. }
  assert (H2 : item_id (retryItem i) = item_id i).
  { unfold retryItem. now destruct (statusEqb (item_status i) Failed). }
  cbn [map filter]. rewrite H1.
  destruct (isPending i || statusEqb (item_status i) Failed); cbn [map];
    now rewrite ?H2, IH.
Qed.

Lemma filter_notCompleted_counts (l : list QueueItem) :
  let kept := filter (fun i => negb (statusEqb (item_status i) Completed)) l in
  countStatus Completed kept = 0
  /\ countStatus Pending kept = countStatus Pending l
  /\ countStatus Processing kept = countStatus Processing l
  /\ countStatus Failed kept = countStatus Failed l
  /\ filter isPending kept = filter isPending l.
Proof.
  cbv zeta. induction l as [|i l (IH1 & IH2 & IH3 & IH4 & IH5)]; [repeat split|].
  cbn [filter]. unfold isPending at 2.
  destruct (item_status i) eqn:E; cbn [statusEqb negb filter];
    rewrite ?countStatus_cons, ?E; unfold isPending at 1; rewrite ?E; cbn [statusEqb];
    rewrite ?IH5; repeat split; auto; lia.
Qed.

End CountFacts.

Lemma retryFailedItems_run (env : Env) (w0 : World) :
  exists w1,
    retryFailedItems env w0 = (JS.Ok (countStatus Failed (storedItems w0)), w1)
    /\ storedItems w1 = map retryItem (storedItems w0)
    /\ (countStatus Failed (storedItems w0) = 0 -> storage w1 = storage w0)
    /\ sameButQueue w0 w1.
Proof.
  unfold retryFailedItems. erewrite bind_ok by apply getQueue_run.
  rewrite items_storedQueue.
  destruct (Nat.ltb_spec 0 (countStatus Failed (storedItems w0))) as [Hpos|Hzero].
  - erewrite bind_ok by apply recalculateTotals_run.
    eexists. split; [reflexivity|]. split; [reflexivity|]. split; [lia|].
    destruct (storage w0); repeat split.
  - eexists. split; [reflexivity|].
    assert (Hz : countStatus Failed (storedItems w0) = 0) by lia.
    split; [|split].
    + rewrite (map_retryItem_none _ Hz).
      unfold storedItems. destruct (storage w0) eqn:E; cbn; now rewrite ?E.
    + intros _. destruct (storage w0) eqn:E; cbn; now rewrite ?E.
    + destruct (storage w0); repeat split.
Qed.

(** X3: [retryFailedItems] returns the number of failed items and turns each
    of them into a pending item without error and with one more retry; no
    item is failed afterwards, the other counts stay, the pending items are
    then the formerly pending and failed ones in queue order, and a second
    call finds nothing to retry.  When no item was failed the stored queue is
    not written. *)
Theorem retryFailedItems_requeues_failed (env : Env) (w : World) :
  exists w',
    retryFailedItems env w = (JS.Ok (countStatus Failed (storedItems w)), w')
    /\ storedItems w' = map retryItem (storedItems w)
    /\ countStatus Failed (storedItems w') = 0
    /\ countStatus Pending (storedItems w') =
       countStatus Pending (storedItems w) + countStatus Failed (storedItems w)
    /\ countStatus Processing (storedItems w') = countStatus Processing (storedItems w)
    /\ countStatus Completed (storedItems w') = countStatus Completed (storedItems w)
    /\ map item_id (filter isPending (storedItems w')) =
       map item_id (filter (fun i => isPending i || statusEqb (item_status i) Failed)
                      (storedItems w))
    /\ (countStatus Failed (storedItems w) = 0 -> storage w' = storage w)
    /\ fst (retryFailedItems env w') = JS.Ok 0
    /\ sameButQueue w w'.
Proof.
  pose proof (retryFailedItems_run env) as Hrun.
  destruct (Hrun w) as (w' & E & Hs & Hnone & Hsame).
  destruct (map_retryItem_counts (storedItems w)) as (C1 & C2 & C3 & C4).
  exists w'. rewrite Hs. split; [exact E|]. split; [reflexivity|].
  repeat (split; [assumption|]).
  split; [apply pending_after_retry|]. split; [exact Hnone|]. split; [|exact Hsame].
  destruct (Hrun w') as (w'' & E' & _). rewrite E', Hs, C1. reflexivity.
Qed.

(** X4: [clearCompletedItems] keeps, in their order, exactly the items that
    are not completed: no completed item is left, the counts of the other
    statuses and the list of pending items are as before, and the stored
    counts are again those of the list. *)
Theorem clearCompletedItems_keeps_the_rest (env : Env) (w : World) :
  exists w',
    clearCompletedItems env w = (JS.Ok tt, w')
    /\ storedItems w' =
       filter (fun i => negb (statusEqb (item_status i) Completed)) (storedItems w)
    /\ countStatus Completed (storedItems w') = 0
    /\ countStatus Pending (storedItems w') = countStatus Pending (storedItems w)
    /\ countStatus Processing (storedItems w') = countStatus Processing (storedItems w)
    /\ countStatus Failed (storedItems w') = countStatus Failed (storedItems w)
    /\ fst (getPendingItems env w') = fst (getPendingItems env w)
    /\ fst (getItemCount env w') = JS.Ok (List.length (storedItems w'))
    /\ sameButQueue w w'.
Proof.
  destruct (clearCompletedItems_run env w) as (w' & E & Hs & Hc & Hsame).
  destruct (filter_notCompleted_counts (storedItems w)) as (C1 & C2 & C3 & C4 & C5).
  exists w'. rewrite Hs. split; [exact E|]. split; [reflexivity|].
  repeat (split; [assumption|]).
  split; [rewrite !getPendingItems_run; cbn [fst]; now rewrite Hs, C5|].
  split; [|exact Hsame].
  rewrite getItemCount_run. apply (storedQueue_consistent env) in Hc.
  destruct Hc as (Ht & _). now rewrite Ht, items_storedQueue, Hs.
Qed.

(** X5: on a queue whose counts are those of its item list, [getQueueStatus]
    reads the item list: empty when there is no item; processing when some
    item is being processed; pending when none is being processed and some
    item waits; partial failure when every item is completed or failed and
    one has failed; completed when there are items and all are completed. *)
Theorem getQueueStatus_of_items (q : PostQueue) :
  countsConsistent q ->
  match getQueueStatus q with
  | QsEmpty => items q = []
  | QsProcessing => exists i, In i (items q) /\ item_status i = Processing
  | QsPending =>
      Forall (fun i => item_status i <> Processing) (items q)
      /\ exists i, In i (items q) /\ item_status i = Pending
  | QsPartialFailure =>
      Forall (fun i => item_status i = Completed \/ item_status i = Failed) (items q)
      /\ exists i, In i (items q) /\ item_status i = Failed
  | QsCompleted =>
      items q <> [] /\ Forall (fun i => item_status i = Completed) (items q)
  end.
Proof.
  intros (Ht & Hp & Hpr & Hc & Hf & _). unfold getQueueStatus.
  destruct (Nat.eqb_spec (totalItems q) 0) as [H0|H0].
  { rewrite Ht in H0. now apply length_zero_iff_nil. }
  destruct (Nat.ltb_spec 0 (processingItems q)) as [H1|H1].
  { rewrite Hpr in H1. now apply countStatus_positive. }
  assert (Hnp : Forall (fun i => item_status i <> Processing) (items q)).
  { apply countStatus_zero. lia. }
  destruct (Nat.ltb_spec 0 (pendingItems q)) as [H2|H2].
  { split; [exact Hnp|]. rewrite Hp in H2. now apply countStatus_positive. }
  assert (Hnq : Forall (fun i => item_status i <> Pending) (items q)).
  { apply countStatus_zero. lia. }
  assert (Hcf : Forall (fun i => item_status i = Completed \/ item_status i = Failed)
                  (items q)).
  { rewrite Forall_forall in *. intros i Hi.
    specialize (Hnp i Hi). specialize (Hnq i Hi).
    destruct (item_status i); auto; now contradiction. }
  destruct (Nat.ltb_spec 0 (failedItems q)) as [H3|H3].
  { split; [exact Hcf|]. rewrite Hf in H3. now apply countStatus_positive. }
  assert (Hnf : Forall (fun i => item_status i <> Failed) (items q)).
  { apply countStatus_zero. lia. }
  split.
  - intros E. rewrite E in Ht. cbn in Ht. lia.
  - rewrite Forall_forall in *. intros i Hi.
    destruct (Hcf i Hi) as [H|H]; [exact H|]. now contradiction (Hnf i Hi).
Qed.

Lemma getQueueStatus_of_items_witness :
  Forall (fun i => item_status i <> Processing) (storedItems threePending)
  /\ exists i, In i (storedItems threePending) /\ item_status i = Pending.
Proof.
  apply (getQueueStatus_of_items
           (mkPostQueue (storedItems threePending) 3 3 0 0 0 0 0)).
  repeat split.
Defined.

(* ================================================================== *)
(** * What a run does to the stored queue *)
(* ================================================================== *)

(** A relation between worlds that only reads the stored queue and that
    [updateItemStatus] keeps is kept by a whole run. *)
Section RunFrame.
Variable env : Env.
Variable R : World -> World -> Prop.
Hypothesis R_refl : forall w, R w w.
Hypothesis R_trans : forall w1 w2 w3, R w1 w2 -> R w2 w3 -> R w1 w3.
Hypothesis R_same : forall w w', storage w' = storage w -> R w w'.
Hypothesis R_update :
  forall itemId s r e, preserves R (updateItemStatus env itemId s r e).

Lemma same_preserves {A} (c : M A) :
  (forall w, storage (snd (c w)) = storage w) -> preserves R c.
Proof. intros H w. apply R_same, H. Qed.

Lemma settleItem_run_frame item shouldUpload folderId onProgress maxRetries :
  preserves R (settleItem env shouldUpload folderId onProgress maxRetries item).
Proof.
  apply (settleItem_preserves env R R_refl R_trans) with (itemId := item_id item);
    try reflexivity; try (intros; now apply R_same).
  apply R_update.
Qed.

Lemma processOneItem_run_frame item shouldUpload folderId onProgress maxRetries totalCount :
  preserves R (processOneItem env shouldUpload folderId onProgress maxRetries totalCount item).
Proof.
  unfold processOneItem.
  apply preserves_bind; [assumption|apply settleItem_run_frame|]. intros success.
  apply preserves_bind; [assumption|apply same_preserves; reflexivity|]. intros _.
  apply preserves_bind; [assumption|apply same_preserves; reflexivity|]. intros _.
  apply preserves_bind; [assumption| |intros _; now apply preserves_ret].
  apply same_preserves. intros w. apply notify_frame.
Qed.

Lemma itemLoop_run_frame shouldUpload folderId onProgress continueOnError maxRetries
    totalCount pending :
  forall index,
    preserves R (itemLoop env shouldUpload folderId onProgress continueOnError maxRetries
                   totalCount pending index).
Proof.
  induction pending as [|item rest IH]; intros index; cbn [itemLoop].
  - now apply preserves_ret.
  - apply preserves_bind; [assumption| |].
    + apply same_preserves. intros w.
      destruct (cancelArrives env index); cbn; [|reflexivity].
      now destruct (flagProcessing w).
    + intros _. apply preserves_bind; [assumption|now apply preserves_getWorld|].
      intros w0. destruct (flagCancelled w0).
      * apply preserves_bind; [assumption|apply same_preserves; reflexivity|]. intros _.
        apply preserves_bind; [assumption|apply same_preserves; reflexivity|]. intros _.
        apply preserves_bind; [assumption| |intros _; now apply preserves_ret].
        apply same_preserves. intros w. apply notify_frame.
      * apply preserves_bind; [assumption|apply processOneItem_run_frame|].
        intros success.
        destruct (negb success && negb continueOnError); [now apply preserves_ret|apply IH].
Qed.

Lemma getPendingItems_same (w : World) :
  storage (snd (getPendingItems env w)) = storage w.
Proof.
  rewrite getPendingItems_run. cbn [snd]. destruct (storage w) eqn:E; cbn; now rewrite ?E.
Qed.

Lemma processQueueRun_run_frame (options : BatchProcessorOptions) :
  preserves R (processQueueRun env options).
Proof.
  unfold processQueueRun. cbv zeta.
  apply preserves_bind; [assumption|apply same_preserves; reflexivity|]. intros _.
  apply preserves_bind; [assumption|apply same_preserves; reflexivity|]. intros _.
  apply preserves_bind; [assumption|apply same_preserves, getPendingItems_same|].
  intros pending.
  apply preserves_bind; [assumption|apply same_preserves; reflexivity|]. intros _.
  assert (Hend : forall exit : LoopExit,
             preserves R (notify (opt_onProgress options) ;;
                          modify (withProcessing false) ;;
                          w <- getWorld ;; ret (exit, progress w))).
  { intros exit.
    apply preserves_bind; [assumption| |].
    - apply same_preserves. intros w. apply notify_frame.
    - intros _. apply preserves_bind; [assumption|apply same_preserves; reflexivity|].
      intros _. apply preserves_bind; [assumption|now apply preserves_getWorld|].
      intros w0. now apply preserves_ret. }
  destruct (List.length pending =? 0)%nat.
  - apply preserves_bind; [assumption|apply same_preserves; reflexivity|]. intros _.
    apply preserves_bind; [assumption|apply same_preserves; reflexivity|]. intros _.
    apply Hend.
  - apply preserves_bind; [assumption|apply itemLoop_run_frame|]. intros exit.
    apply preserves_bind; [assumption|apply same_preserves; reflexivity|]. intros _.
    apply preserves_bind; [assumption|apply same_preserves; reflexivity|]. intros _.
    apply Hend.
Qed.

Lemma processQueue_run_frame (options : BatchProcessorOptions) :
  preserves R (processQueue env options).
Proof.
  unfold processQueue.
  apply preserves_bind; [assumption|apply processQueueRun_run_frame|].
  intros r. now apply preserves_ret.
Qed.

End RunFrame.

Section IdentityFacts.
Variable env : Env.

Lemma sameIdentity_refl (i : QueueItem) : sameIdentity i i.
Proof. repeat split. auto. Qed.

Lemma sameIdentity_trans (i j k : QueueItem) :
  sameIdentity i j -> sameIdentity j k -> sameIdentity i k.
Proof.
  intros (a1 & a2 & a3 & a4 & a5 & a6) (b1 & b2 & b3 & b4 & b5 & b6).
  repeat split; try congruence. auto.
Qed.

Lemma keepsItems_refl (w : World) : keepsItems w w.
Proof.
  unfold keepsItems. induction (storedItems w); constructor;
    [apply sameIdentity_refl|assumption].
Qed.

Lemma Forall2_trans {A} (P : A -> A -> Prop) :
  (forall a b c, P a b -> P b c -> P a c) ->
  forall l1 l2 l3, Forall2 P l1 l2 -> Forall2 P l2 l3 -> Forall2 P l1 l3.
Proof.
  intros HP l1 l2 l3 H12. revert l3.
  induction H12 as [|a b l1 l2 Hab _ IH]; intros l3 H23;
    inversion H23; subst; constructor; eauto.
Qed.

Lemma keepsItems_trans (w1 w2 w3 : World) :
  keepsItems w1 w2 -> keepsItems w2 w3 -> keepsItems w1 w3.
Proof. apply Forall2_trans, sameIdentity_trans. Qed.

Lemma keepsItems_same (w w' : World) : storage w' = storage w -> keepsItems w w'.
Proof.
  intros H. unfold keepsItems, storedItems. rewrite H.
  induction (match storage w with Some q => items q | None => [] end); constructor;
    [apply sameIdentity_refl|assumption].
Qed.

Lemma replaceFirst_sameIdentity (p : QueueItem -> bool) (old new : QueueItem)
    (l : list QueueItem) :
  find p l = Some old -> sameIdentity old new ->
  Forall2 sameIdentity l (replaceFirst p new l).
Proof.
  intros Hf Hn. induction l as [|x l IH]; [discriminate|].
  cbn [find replaceFirst] in *. destruct (p x).
  - injection Hf as ->. constructor; [exact Hn|].
    clear. induction l; constructor; [apply sameIdentity_refl|assumption].
  - constructor; [apply sameIdentity_refl|now apply IH].
Qed.

(** The item [updateItemStatus] writes back. *)
Lemma updateItemStatus_item (itemId : JSString) (status : QueueItemStatus)
    (result : option PartialResult) (error : option JSString) (w : World) :
  storedItems (snd (updateItemStatus env itemId status result error w)) = storedItems w
  \/ exists old new,
       find (hasId itemId) (storedItems w) = Some old
       /\ storedItems (snd (updateItemStatus env itemId status result error w)) =
          replaceFirst (hasId itemId) new (storedItems w)
       /\ sameIdentity old new
       /\ item_status new = status.
Proof.
  unfold updateItemStatus. erewrite bind_ok by apply getQueue_run.
  rewrite items_storedQueue.
  change (fun i : QueueItem => JS.eqb (item_id i) itemId) with (hasId itemId).
  destruct (find (hasId itemId) (storedItems w)) as [item|] eqn:F.
  - right. exists item.
    destruct (item_startedAt item) as [t|] eqn:St;
      destruct status; cbn [statusEqb andb isNone setStatus item_startedAt];
      rewrite ?St; cbn [isNone];
      destruct result as [partial|]; destruct error as [e|];
      (eexists; split; [reflexivity|]; split; [reflexivity|]; split; [|reflexivity]);
      repeat split; cbn; try congruence; try discriminate.
  - left. unfold storedItems. destruct (storage w) eqn:E; cbn; now rewrite ?E.
Qed.

Lemma keepsItems_update itemId s r e :
  preserves keepsItems (updateItemStatus env itemId s r e).
Proof.
  intros w. unfold keepsItems.
  destruct (updateItemStatus_item itemId s r e w) as [E|(old & new & F & E & Hn & _)];
    rewrite E.
  - apply keepsItems_refl.
  - now apply replaceFirst_sameIdentity with (old := old).
Qed.

Lemma keepsConsistency_update itemId s r e :
  preserves keepsConsistency (updateItemStatus env itemId s r e).
Proof. intros w H. now apply updateItemStatus_storage. Qed.

End IdentityFacts.

(** X6: [updateItemStatus], and with it a whole run of [processQueue],
    never adds, removes or reorders an item and never changes an item's
    identifier, post, time of addition or retry count, nor a start time once
    it is set; and stored counts that were those of the item list are so
    again afterwards. *)
Theorem run_keeps_the_items (env : Env) (w : World) :
  (forall itemId status result error,
      keepsItems w (snd (updateItemStatus env itemId status result error w)))
  /\ (forall options,
        keepsItems w (snd (processQueue env options w))
        /\ keepsConsistency w (snd (processQueue env options w))).
Proof.
  split; [intros; apply keepsItems_update|]. intros options. split.
  - apply (processQueue_run_frame env keepsItems keepsItems_refl keepsItems_trans
             keepsItems_same (keepsItems_update env)).
  - apply (processQueue_run_frame env keepsConsistency).
    + intros w0 H. exact H.
    + intros w1 w2 w3 H12 H23 H. auto.
    + intros w0 w' E H. now rewrite E.
    + apply keepsConsistency_update.
Qed.

(* ================================================================== *)
(** * The counters of a run *)
(* ================================================================== *)

Section SteadyFacts.
Variable env : Env.

Lemma bind_bind {A B C} (c : M A) (k : A -> M B) (k' : B -> M C) (w : World) :
  bind (bind c k) k' w = bind c (fun a => bind (k a) k') w.
Proof. unfold bind. destruct (c w) as [[a|e] w']; reflexivity. Qed.

Lemma sameCounters_refl (p : BatchProgress) : sameCounters p p.
Proof. repeat split. Qed.

Lemma sameCounters_trans (p q r : BatchProgress) :
  sameCounters p q -> sameCounters q r -> sameCounters p r.
Proof.
  intros (a1 & a2 & a3 & a4) (b1 & b2 & b3 & b4). repeat split; congruence.
Qed.

Lemma steady_refl (w : World) : steady w w.
Proof.
  split; [apply sameCounters_refl|]. exists []. rewrite app_nil_r. split; constructor.
Qed.

Lemma snapshotsOf_app (l1 l2 : list Event) :
  snapshotsOf (l1 ++ l2) = snapshotsOf l1 ++ snapshotsOf l2.
Proof. apply filterMap_app. Qed.

Lemma steady_trans (w1 w2 w3 : World) : steady w1 w2 -> steady w2 w3 -> steady w1 w3.
Proof.
  intros (C12 & e1 & L1 & F1) (C23 & e2 & L2 & F2). split.
  - now apply sameCounters_trans with (q := progress w2).
  - exists (e1 ++ e2). split; [now rewrite L2, L1, app_assoc|].
    rewrite snapshotsOf_app. apply Forall_app. split; [exact F1|].
    revert F2. apply Forall_impl. intros p Hp.
    now apply sameCounters_trans with (q := progress w2).
Qed.

Lemma steady_quiet (w w' : World) :
  log w' = log w -> progress w' = progress w -> steady w w'.
Proof.
  intros Hl Hp. split; [rewrite Hp; apply sameCounters_refl|].
  exists []. rewrite app_nil_r. split; [exact Hl|constructor].
Qed.

Lemma steady_event (w : World) (e : Event) :
  isSnapshot e = None -> steady w (withLog (log w ++ [e]) w).
Proof.
  intros H. split; [apply sameCounters_refl|]. exists [e]. split; [reflexivity|].
  unfold snapshotsOf. cbn [filterMap]. rewrite H. constructor.
Qed.

Lemma steady_snapshot (w : World) :
  steady w (withLog (log w ++ [EvProgress (progress w)]) w).
Proof.
  split; [apply sameCounters_refl|]. exists [EvProgress (progress w)].
  split; [reflexivity|]. repeat constructor.
Qed.

Lemma steady_look (w : World) (f : BatchProgress -> BatchProgress) :
  sameCounters (progress w) (f (progress w)) ->
  steady w (withProgress (f (progress w)) w).
Proof.
  intros H. split; [exact H|]. exists []. rewrite app_nil_r. split; constructor.
Qed.

Lemma emit_steady (e : Event) : isSnapshot e = None -> preserves steady (emit e).
Proof. intros H w. now apply steady_event. Qed.

Lemma notify_steady (onProgress : option ProgressCallback) :
  preserves steady (notify onProgress).
Proof.
  destruct onProgress as [[|]|]; intros w; cbn;
    [apply steady_snapshot| |apply steady_refl].
  eapply steady_trans; [apply steady_snapshot|]. now apply steady_quiet.
Qed.

Lemma update_steady itemId s r e : preserves steady (updateItemStatus env itemId s r e).
Proof.
  intros w. destruct (updateItemStatus_effect env itemId s r e w) as (w' & E & S & _).
  rewrite E. cbn [snd]. destruct S as (Hl & Hp & _). now apply steady_quiet.
Qed.

Lemma phase_steady (ph : Phase) : preserves steady (mutateProgress (setPhase ph)).
Proof. intros w. apply (steady_look w (setPhase ph)). repeat split. Qed.

Lemma uploadLoop_steady fetches maxRetries remaining :
  forall attempt, preserves steady (uploadLoop fetches maxRetries remaining attempt).
Proof.
  pose proof steady_refl as Rr. pose proof steady_trans as Rt.
  induction remaining as [|remaining IH]; intros attempt; cbn [uploadLoop].
  - now apply preserves_ret.
  - apply preserves_bind; [assumption|now apply emit_steady|]. intros _.
    destruct (performUpload (fetches attempt)) as [result|error].
    + now apply preserves_ret.
    + destruct (isAuthError (errorMessageOf error)); [now apply preserves_ret|].
      destruct (attempt =? maxRetries)%Z; [now apply preserves_ret|].
      apply preserves_bind; [assumption|now apply emit_steady|]. intros _. apply IH.
Qed.

Lemma processItem_steady item shouldUpload folderId onProgress :
  preserves steady (processItem env item shouldUpload folderId onProgress).
Proof.
  pose proof steady_refl as Rr. pose proof steady_trans as Rt.
  unfold processItem.
  apply preserves_bind; [assumption|now apply preserves_getWorld|]. intros w0.
  apply preserves_bind; [assumption| |].
  { apply preserves_modify. intros w. now apply steady_quiet. }
  intros _.
  apply preserves_bind; [assumption|now apply emit_steady|]. intros _.
  apply preserves_bind; [assumption|apply update_steady|]. intros _.
  apply preserves_bind; [assumption|apply phase_steady|]. intros _.
  apply preserves_bind; [assumption|apply notify_steady|]. intros _.
  apply preserves_bind; [assumption|now apply preserves_liftResult|]. intros pdf.
  apply preserves_bind; [assumption|now apply preserves_liftResult|]. intros bytes.
  apply preserves_bind; [assumption|apply update_steady|]. intros _.
  apply preserves_bind; [assumption| |intros _; now apply preserves_ret].
  destruct shouldUpload; [|now apply preserves_ret].
  apply preserves_bind; [assumption|apply phase_steady|]. intros _.
  apply preserves_bind; [assumption|apply notify_steady|]. intros _.
  apply preserves_bind; [assumption|now apply preserves_liftResult|]. intros token.
  destruct (JS.isEmpty token); [now apply preserves_throw|].
  apply preserves_bind; [assumption|apply uploadLoop_steady|]. intros r.
  destruct (negb (ur_success r)); [now apply preserves_throw|apply update_steady].
Qed.

Lemma retryLoop_steady item shouldUpload folderId onProgress maxRetries remaining :
  forall attempt lastError,
    preserves steady (retryLoop env item shouldUpload folderId onProgress maxRetries
                        remaining attempt lastError).
Proof.
  pose proof steady_refl as Rr. pose proof steady_trans as Rt.
  induction remaining as [|remaining IH]; intros attempt lastError; cbn [retryLoop].
  - now apply preserves_ret.
  - apply preserves_bind; [assumption| |].
    + apply preserves_tryCatch; [assumption| |intros e; now apply preserves_ret].
      apply preserves_bind; [assumption|apply processItem_steady|].
      intros b. now apply preserves_ret.
    + intros [[|]|error]; [now apply preserves_ret|apply IH|].
      apply preserves_bind; [assumption| |intros _; apply IH].
      destruct (attempt <? maxRetries - 1)%Z; [|now apply preserves_ret].
      now apply emit_steady.
Qed.

(** One item settled: one more success or one more failure, nothing else
    moved, and the snapshots reported meanwhile carry the old counters. *)
Lemma settleItem_counts item shouldUpload folderId onProgress maxRetries (w : World) :
  exists success w1 evs,
    settleItem env shouldUpload folderId onProgress maxRetries item w = (JS.Ok success, w1)
    /\ log w1 = log w ++ evs
    /\ Forall (sameCounters (progress w)) (snapshotsOf evs)
    /\ completed (progress w1) = completed (progress w)
    /\ total (progress w1) = total (progress w)
    /\ successCount (progress w1) =
       (if success then S (successCount (progress w)) else successCount (progress w))
    /\ failedCount (progress w1) =
       (if success then failedCount (progress w) else S (failedCount (progress w))).
Proof.
  unfold settleItem. erewrite bind_ok by reflexivity.
  set (wa := withProgress (setCurrentItem (Some (post_title (item_post item))) (progress w)) w).
  destruct (returns_run _ wa
              (retryLoop_returns env item shouldUpload folderId onProgress maxRetries
                 (Z.to_nat maxRetries) 0%Z None)) as ([success lastError] & wb & Eb).
  pose proof (retryLoop_steady item shouldUpload folderId onProgress maxRetries
                (Z.to_nat maxRetries) 0%Z None wa) as Hst.
  rewrite Eb in Hst. cbn [snd] in Hst.
  destruct Hst as ((c1 & c2 & c3 & c4) & evs & Hl & Hf).
  cbn [progress withProgress log completed total successCount failedCount
         setCurrentItem] in c1, c2, c3, c4, Hl, Hf.
  erewrite bind_ok by exact Eb. cbv beta iota.
  exists success.
  destruct success.
  - rewrite bind_bind. erewrite bind_ok by reflexivity.
    rewrite bind_bind. erewrite bind_ok by reflexivity.
    match goal with |- context [bind (updateItemStatus env ?i ?s ?r ?e) _ ?w0] =>
      destruct (updateItemStatus_effect env i s r e w0) as (wc & Ec & (Lc & Pc & _) & _)
    end.
    erewrite bind_ok by exact Ec.
    eexists wc, evs. split; [reflexivity|].
    cbn [log progress withProgress withClockReads] in Lc, Pc.
    rewrite Lc, Pc. cbn [completed total successCount failedCount setSuccessCount].
    repeat split; auto; try congruence.
  - rewrite bind_bind. erewrite bind_ok by reflexivity.
    match goal with |- context [bind (updateItemStatus env ?i ?s ?r ?e) _ ?w0] =>
      destruct (updateItemStatus_effect env i s r e w0) as (wc & Ec & (Lc & Pc & _) & _)
    end.
    erewrite bind_ok by exact Ec.
    eexists wc, evs. split; [reflexivity|].
    cbn [log progress withProgress withClockReads] in Lc, Pc.
    rewrite Lc, Pc. cbn [completed total successCount failedCount setFailedCount].
    repeat split; auto; try congruence.
Qed.

Lemma snapshots_of_notify (onProgress : option ProgressCallback) (w : World) :
  exists w',
    notify onProgress w = (JS.Ok tt, w')
    /\ progress w' = progress w /\ storage w' = storage w
    /\ flagProcessing w' = flagProcessing w
    /\ log w' = log w ++ match onProgress with
                         | Some _ => [EvProgress (progress w)]
                         | None => []
                         end.
Proof.
  destruct onProgress as [[|]|]; eexists; (split; [reflexivity|]); cbn;
    rewrite ?app_nil_r; auto.
Qed.

Lemma Forall_reported (P : BatchProgress -> Prop) (onProgress : option ProgressCallback)
    (p : BatchProgress) :
  P p ->
  Forall P (snapshotsOf match onProgress with
                        | Some _ => [EvProgress p]
                        | None => []
                        end).
Proof. intros H. destruct onProgress; [constructor; [exact H|constructor]|constructor]. Qed.

Lemma processOneItem_counts item shouldUpload folderId onProgress maxRetries totalCount
    (w : World) :
  countersCoherent (progress w) -> completed (progress w) < total (progress w) ->
  exists success w' evs,
    processOneItem env shouldUpload folderId onProgress maxRetries totalCount item w =
      (JS.Ok success, w')
    /\ log w' = log w ++ evs
    /\ Forall countersCoherent (snapshotsOf evs)
    /\ countersCoherent (progress w')
    /\ completed (progress w') = S (completed (progress w))
    /\ total (progress w') = total (progress w).
Proof.
  intros (Hc & Hle) Hlt. unfold processOneItem.
  destruct (settleItem_counts item shouldUpload folderId onProgress maxRetries w)
    as (success & w1 & evs & E1 & L1 & F1 & C1 & T1 & S1 & Fl1).
  erewrite bind_ok by exact E1.
  erewrite bind_ok by reflexivity. erewrite bind_ok by reflexivity.
  match goal with |- context [bind (notify ?cb) _ ?w0] =>
    destruct (snapshots_of_notify cb w0) as (wn & En & Pn & _ & _ & Ln)
  end.
  erewrite bind_ok by exact En.
  cbn [progress withProgress log] in Pn, Ln.
  assert (Hnew : countersCoherent
                   (setPercentage
                      (Float64.roundedPercentage
                         (completed (setCompleted (S (completed (progress w1))) (progress w1)))
                         totalCount)
                      (setCompleted (S (completed (progress w1))) (progress w1)))).
  { unfold countersCoherent.
    cbn [completed total successCount failedCount setPercentage setCompleted].
    rewrite C1, T1, S1, Fl1. destruct success; lia. }
  exists success, wn. eexists. split; [reflexivity|].
  split; [rewrite Ln, L1, <- app_assoc; reflexivity|].
  split; [|split; [rewrite Pn; exact Hnew|]].
  - rewrite snapshotsOf_app. apply Forall_app. split.
    + revert F1. apply Forall_impl. intros p (a1 & a2 & a3 & a4).
      unfold countersCoherent. lia.
    + now apply Forall_reported.
  - rewrite Pn. cbn [completed total setPercentage setCompleted]. now rewrite C1, T1.
Qed.

Lemma itemLoop_counts shouldUpload folderId onProgress continueOnError maxRetries
    totalCount (pending : list QueueItem) :
  forall (index : nat) (w : World),
    countersCoherent (progress w) ->
    completed (progress w) + List.length pending <= total (progress w) ->
    exists exit w' evs,
      itemLoop env shouldUpload folderId onProgress continueOnError maxRetries
        totalCount pending index w = (JS.Ok exit, w')
      /\ log w' = log w ++ evs
      /\ Forall countersCoherent (snapshotsOf evs)
      /\ countersCoherent (progress w')
      /\ total (progress w') = total (progress w)
      /\ (exit = Exhausted ->
          completed (progress w') = completed (progress w) + List.length pending).
Proof.
  induction pending as [|item rest IH]; intros index w Hc Hle; cbn [itemLoop].
  - exists Exhausted, w, []. rewrite app_nil_r. cbn [List.length].
    repeat split; try apply Hc; try constructor; lia.
  - cbn [List.length] in Hle.
    set (w1 := snd ((if cancelArrives env index then cancel else ret tt) w)).
    assert (E1 : (if cancelArrives env index then cancel else ret tt) w = (JS.Ok tt, w1)).
    { unfold w1. destruct (cancelArrives env index); reflexivity. }
    assert (F1 : log w1 = log w /\ progress w1 = progress w).
    { unfold w1. destruct (cancelArrives env index); cbn; [|auto].
      destruct (flagProcessing w); auto. }
    destruct F1 as (Hl1 & Hp1).
    erewrite bind_ok by exact E1.
    erewrite bind_ok by reflexivity.
    destruct (flagCancelled w1).
    + erewrite bind_ok by reflexivity. erewrite bind_ok by reflexivity.
      match goal with |- context [bind (notify ?cb) _ ?w0] =>
        destruct (snapshots_of_notify cb w0) as (wn & En & Pn & _ & _ & Ln)
      end.
      erewrite bind_ok by exact En.
      cbn [progress withProgress log] in Pn, Ln.
      assert (Hnew : countersCoherent (setPhase PhComplete (setCancelled true (progress w1)))).
      { rewrite Hp1. exact Hc. }
      exists BrokeOnCancel, wn. eexists. split; [reflexivity|].
      split; [rewrite Ln, Hl1; reflexivity|].
      split; [now apply Forall_reported|].
      rewrite Pn. split; [exact Hnew|]. split; [now rewrite Hp1|discriminate].
    + destruct (processOneItem_counts item shouldUpload folderId onProgress maxRetries
                  totalCount w1) as (success & w2 & evs2 & E2 & L2 & F2 & C2 & N2 & T2).
      { now rewrite Hp1. }
      { rewrite Hp1. lia. }
      erewrite bind_ok by exact E2. rewrite Hp1 in N2, T2.
      destruct (negb success && negb continueOnError).
      * exists BrokeOnError, w2, evs2. split; [reflexivity|].
        split; [now rewrite L2, Hl1|]. repeat split; auto; try apply C2; discriminate.
      * destruct (IH (S index) w2 C2) as (exit & w' & evs & E & L & F & C & T & X).
        { rewrite N2, T2. lia. }
        exists exit, w', (evs2 ++ evs). split; [exact E|].
        split; [rewrite L, L2, Hl1, app_assoc; reflexivity|].
        split; [rewrite snapshotsOf_app; now apply Forall_app|].
        split; [exact C|]. split; [congruence|].
        intros Hx. rewrite (X Hx), N2. cbn [List.length]. lia.
Qed.

End SteadyFacts.

(** A run from its first step to its last. *)
Lemma processQueueRun_settles (env : Env) (options : BatchProcessorOptions) (w : World) :
  exists exit p w' evs,
    processQueueRun env options w = (JS.Ok (exit, p), w')
    /\ processQueue env options w = (JS.Ok p, w')
    /\ flagProcessing w' = false
    /\ phase p = PhComplete /\ currentItem p = None
    /\ total p = List.length (filter isPending (storedItems w))
    /\ countersCoherent p
    /\ (exit = Exhausted -> completed p = total p)
    /\ log w' = log w ++ evs
    /\ Forall countersCoherent (snapshotsOf evs)
    /\ (opt_onProgress options <> None -> lastOf (snapshotsOf evs) = Some p).
Proof.
  assert (Hlast : forall (l : list BatchProgress) p, lastOf (l ++ [p]) = Some p).
  { intros l p. induction l as [|x l IH]; [reflexivity|].
    cbn [app lastOf]. destruct (l ++ [p]) eqn:E; [now destruct l|exact IH]. }
  assert (Hq : forall r w0, processQueueRun env options w = (JS.Ok r, w0) ->
                            processQueue env options w = (JS.Ok (snd r), w0)).
  { intros r w0 E. unfold processQueue. erewrite bind_ok by exact E. reflexivity. }
  destruct (processQueueRun_start env options w (fun r => ret r))
    as (w2 & E & Hl2 & _ & _ & _ & Hprog2).
  assert (Ebind : forall c w0, bind c (fun r : LoopExit * BatchProgress => ret r) w0 = c w0).
  { intros c w0. unfold bind, ret. destruct (c w0) as [[a|e] w']; reflexivity. }
  rewrite !Ebind in E. clear Ebind. cbv zeta in E.
  destruct (filter isPending (storedItems w)) as [|item rest] eqn:Hpend.
  - cbn [List.length Nat.eqb] in E.
    erewrite bind_ok in E by reflexivity. erewrite bind_ok in E by reflexivity.
    match type of E with context [bind (notify ?cb) _ ?w0] =>
      destruct (snapshots_of_notify cb w0) as (wn & En & Pn & _ & _ & Ln)
    end.
    erewrite bind_ok in E by exact En.
    cbn [progress withProgress log] in Pn, Ln.
    erewrite bind_ok in E by reflexivity. erewrite bind_ok in E by reflexivity.
    unfold ret in E. cbn [progress withProcessing] in E. rewrite Pn, Hprog2 in E.
    eexists Exhausted, _, _, _. split; [exact E|]. split; [exact (Hq _ _ E)|].
    cbn [flagProcessing withProcessing phase currentItem total completed setPercentage
           setPhase log List.length].
    rewrite Ln, Hl2, Hprog2.
    repeat split; auto.
    + apply Forall_reported. split; cbn; lia.
    + intros Hcb. destruct (opt_onProgress options); [reflexivity|now contradiction Hcb].
  - cbn [List.length Nat.eqb] in E.
    destruct (itemLoop_counts env (opt_uploadToDrive options) (opt_folderId options)
                (opt_onProgress options) (withDefault (opt_continueOnError options) true)
                (withDefault (opt_maxRetries options) 1%Z) (S (List.length rest))
                (item :: rest) 0 w2) as (exit & w3 & evs & E3 & L3 & F3 & C3 & T3 & X3).
    { rewrite Hprog2. split; cbn; lia. }
    { rewrite Hprog2. cbn. lia. }
    erewrite bind_ok in E by exact E3.
    erewrite bind_ok in E by reflexivity. erewrite bind_ok in E by reflexivity.
    match type of E with context [bind (notify ?cb) _ ?w0] =>
      destruct (snapshots_of_notify cb w0) as (wn & En & Pn & _ & _ & Ln)
    end.
    erewrite bind_ok in E by exact En.
    cbn [progress withProgress log] in Pn, Ln.
    erewrite bind_ok in E by reflexivity. erewrite bind_ok in E by reflexivity.
    unfold ret in E. cbn [progress withProcessing] in E. rewrite Pn in E.
    rewrite Hprog2 in T3, X3. cbn [total completed] in T3, X3.
    assert (Hfin : countersCoherent (setCurrentItem None (setPhase PhComplete (progress w3)))).
    { exact C3. }
    eexists exit, _, _, _. split; [exact E|]. split; [exact (Hq _ _ E)|].
    cbn [flagProcessing withProcessing phase currentItem total completed setCurrentItem
           setPhase List.length log].
    rewrite Ln, L3, Hl2, <- app_assoc.
    split; [reflexivity|]. split; [reflexivity|]. split; [reflexivity|].
    split; [exact T3|]. split; [exact Hfin|].
    split; [intros Hx; rewrite (X3 Hx), T3; cbn; lia|].
    split; [reflexivity|]. rewrite snapshotsOf_app. split.
    + apply Forall_app. split; [exact F3|].
      now apply Forall_reported.
    + intros Hcb. destruct (opt_onProgress options); [|now contradiction Hcb].
      apply Hlast.
Qed.


(* ================================================================== *)
(** * A provider that gives no token *)
(* ================================================================== *)

Section ProviderFailure.
Variable env : Env.

Lemma find_replaceFirst (p : QueueItem -> bool) (new : QueueItem) (l : list QueueItem) :
  p new = true -> find p l <> None -> find p (replaceFirst p new l) = Some new.
Proof.
  intros Hn. induction l as [|x l IH]; cbn [find replaceFirst]; [now intros []|].
  destruct (p x) eqn:E; intros H.
  - cbn [find]. now rewrite Hn.
  - cbn [find]. rewrite E. now apply IH.
Qed.

(** An update keeps an item with the identifier findable. *)
Lemma updateItemStatus_found (itemId : JSString) (status : QueueItemStatus)
    (result : option PartialResult) (error : option JSString) (w : World) :
  exists w',
    updateItemStatus env itemId status result error w = (JS.Ok tt, w')
    /\ sameButQueue w w'
    /\ (find (hasId itemId) (storedItems w) <> None ->
        find (hasId itemId) (storedItems w') <> None).
Proof.
  destruct (updateItemStatus_effect env itemId status result error w)
    as (w' & E & S & [H|(new & Hn & H)]).
  - exists w'. split; [exact E|]. split; [exact S|]. now rewrite H.
  - exists w'. split; [exact E|]. split; [exact S|]. intros F.
    rewrite H, (find_replaceFirst _ _ _ Hn F). discriminate.
Qed.

(** The update that records a failure. *)
Lemma updateItemStatus_failed (itemId : JSString) (error : option JSString)
    (stored : QueueItem) (w : World) :
  find (hasId itemId) (storedItems w) = Some stored ->
  exists w' failed,
    updateItemStatus env itemId Failed None error w = (JS.Ok tt, w')
    /\ sameButQueue w w'
    /\ find (hasId itemId) (storedItems w') = Some failed
    /\ item_status failed = Failed
    /\ item_error failed = match error with
                           | Some e => Some e
                           | None => item_error stored
                           end.
Proof.
  intros F. unfold updateItemStatus. erewrite bind_ok by apply getQueue_run.
  rewrite items_storedQueue.
  change (fun i : QueueItem => JS.eqb (item_id i) itemId) with (hasId itemId).
  rewrite F. cbn [statusEqb andb].
  erewrite bind_ok by reflexivity. erewrite bind_ok by reflexivity.
  erewrite bind_ok by apply recalculateTotals_run.
  assert (Hid : hasId itemId stored = true) by (apply find_some in F; apply F).
  eexists. eexists. split; [reflexivity|].
  split; [destruct (storage w); repeat split|].
  split.
  - unfold storedItems at 1. cbn [storage withStorage items recounted setItems].
    apply find_replaceFirst; [|now rewrite F].
    destruct error; exact Hid.
  - destruct error; split; reflexivity.
Qed.

Lemma processItem_refused item folderId onProgress (e : JS.Exn) (w : World) :
  rendersAt env (pipelineCalls w) ->
  providerError (getAccessToken env (pipelineCalls w)) = Some e ->
  exists w',
    processItem env item true folderId onProgress w = (JS.Throw e, w')
    /\ pipelineCalls w' = S (pipelineCalls w)
    /\ oneAttemptLogged w w'
    /\ sameCounters (progress w) (progress w')
    /\ (find (hasId (item_id item)) (storedItems w) <> None ->
        find (hasId (item_id item)) (storedItems w') <> None).
Proof.
  intros (pdf & bytes & Hpdf & Hbytes) Htoken.
  unfold processItem.
  erewrite bind_ok by reflexivity.
  erewrite bind_ok by reflexivity.
  erewrite bind_ok by reflexivity.
  match goal with |- context [bind (updateItemStatus env ?i ?s ?r ?e0) _ ?w0] =>
    destruct (updateItemStatus_found i s r e0 w0) as (w1 & E1 & S1 & F1)
  end.
  erewrite bind_ok by exact E1.
  erewrite bind_ok by reflexivity.
  destruct S1 as (L1 & P1 & _ & _ & C1 & _).
  cbn [log pipelineCalls progress withLog withPipelineCalls] in L1, C1, P1.
  unfold storedItems at 1 in F1. cbn [storage withLog withPipelineCalls] in F1.
  fold (storedItems w) in F1.
  destruct onProgress as [[|]|].
  all: erewrite bind_ok by reflexivity.
  all: rewrite Hpdf; erewrite bind_ok by reflexivity.
  all: rewrite Hbytes; erewrite bind_ok by reflexivity.
  all: match goal with |- context [bind (updateItemStatus env ?i ?s ?r ?e0) _ ?w0] =>
         destruct (updateItemStatus_found i s r e0 w0) as (w2 & E2 & S2 & F2)
       end.
  all: erewrite bind_ok by exact E2.
  all: unfold bind at 1.
  all: erewrite bind_ok by reflexivity.
  all: erewrite bind_ok by reflexivity.
  all: destruct S2 as (L2 & P2 & _ & _ & C2 & _).
  all: cbn [log pipelineCalls progress withLog withPipelineCalls withProgress
              withSessionProgress] in L2, C2, P2.
  all: unfold storedItems at 1 in F2.
  all: cbn [storage withLog withPipelineCalls withProgress withSessionProgress] in F2.
  all: fold (storedItems w1) in F2.
  all: assert (Hthrow : forall w0,
                 bind (liftResult (getAccessToken env (pipelineCalls w)))
                   (fun accessToken =>
                      if JS.isEmpty accessToken
                      then throw (JS.ErrorObj (JS.str "Not authenticated"))
                      else
                        bind (uploadToDrive (fetchUpload env (pipelineCalls w))
                                (pdf_filename pdf)
                                (mkUploadOptions folderId None accessToken))
                          (fun uploadResult =>
                             if negb (ur_success uploadResult)
                             then throw (JS.ErrorObj
                                           (orElse (ur_error uploadResult)
                                              (JS.str "Upload failed")))
                             else
                               updateItemStatus env (item_id item) Processing
                                 (Some (mkPartial None None None
                                          (Some (ur_fileId uploadResult))
                                          (Some (ur_webViewLink uploadResult)) None))
                                 None)) w0
                 = (JS.Throw e, w0)).
  all: try (intros w0; unfold bind, liftResult; unfold providerError in Htoken;
            destruct (getAccessToken env (pipelineCalls w)) as [[|c tok]|e0];
            cbn [JS.isEmpty] in *; try discriminate;
            injection Htoken as <-; reflexivity).
  all: rewrite Hthrow.
  all: eexists; split; [reflexivity|].
  all: unfold oneAttemptLogged, sameCounters.
  all: cbn [log pipelineCalls progress withLog withPipelineCalls withProgress
              withSessionProgress completed total successCount failedCount setPhase].
  all: rewrite ?C2, ?C1, ?L2, ?L1, ?P2, ?P1.
  all: cbn [log pipelineCalls progress withLog withPipelineCalls withProgress
              withSessionProgress completed total successCount failedCount setPhase].
  all: split; [reflexivity|].
  all: split; [eexists; split; [rewrite <- ?app_assoc; reflexivity|]; repeat split|].
  all: split; [repeat split|].
  all: intros F; apply F2, F1, F.
Qed.

(** The message the retry loop records when the provider fails at a call. *)
Lemma retryLoop_refused item folderId onProgress maxRetries (remaining : nat) :
  forall (attempt : Z) (lastError : option JSString) (w : World),
    (attempt + Z.of_nat remaining = maxRetries)%Z ->
    (forall call, pipelineCalls w <= call -> rendersAt env call) ->
    (forall call, pipelineCalls w <= call ->
                  providerError (getAccessToken env call) <> None) ->
    exists w' evs,
      retryLoop env item true folderId onProgress maxRetries remaining attempt lastError w =
        (JS.Ok (false,
                match remaining with
                | O => lastError
                | S before =>
                    option_map errorMessageOf
                      (providerError (getAccessToken env (pipelineCalls w + before)))
                end), w')
      /\ log w' = log w ++ evs
      /\ processItemCalls evs = remaining
      /\ delaysOf evs = linearBackoff (remaining - 1) (attempt + 1)
      /\ uploadAttempts evs = 0
      /\ sameCounters (progress w) (progress w')
      /\ (find (hasId (item_id item)) (storedItems w) <> None ->
          find (hasId (item_id item)) (storedItems w') <> None).
Proof.
  induction remaining as [|remaining IH]; intros attempt lastError w Hmax Hpdf Htok.
  - exists w, []. rewrite app_nil_r. repeat split. auto.
  - cbn [retryLoop].
    destruct (providerError (getAccessToken env (pipelineCalls w))) as [e|] eqn:He;
      [|now destruct (Htok _ (le_n _))].
    destruct (processItem_refused item folderId onProgress e w (Hpdf _ (le_n _)) He)
      as (w1 & E1 & C1 & (evs1 & L1 & P1 & D1 & U1) & K1 & F1).
    erewrite bind_ok;
      [|unfold tryCatch; erewrite bind_throw by exact E1; reflexivity].
    assert (Hpdf1 : forall call, pipelineCalls w1 <= call -> rendersAt env call).
    { intros call Hc. apply Hpdf. lia. }
    assert (Htok1 : forall call, pipelineCalls w1 <= call ->
                                 providerError (getAccessToken env call) <> None).
    { intros call Hc. apply Htok. lia. }
    destruct remaining as [|remaining'].
    + destruct (Z.ltb_spec attempt (maxRetries - 1)) as [Hlt|_]; [lia|].
      erewrite bind_ok by reflexivity.
      cbn [retryLoop]. exists w1, evs1. unfold ret.
      rewrite Nat.add_0_r, He. cbn [option_map].
      repeat split; auto; apply K1.
    + destruct (Z.ltb_spec attempt (maxRetries - 1)) as [_|Hge]; [|lia].
      erewrite bind_ok by reflexivity.
      destruct (IH (attempt + 1)%Z (Some (errorMessageOf e))
                  (withLog (log w1 ++ [EvDelay (1000 * (attempt + 1))]) w1))
        as (w' & evs & E & L & P & D & U & K & F); try assumption; try lia.
      exists w', (evs1 ++ EvDelay (1000 * (attempt + 1)) :: evs).
      cbn [pipelineCalls withLog] in E. rewrite C1 in E.
      replace (S (pipelineCalls w) + remaining') with (pipelineCalls w + S remaining')
        in E by lia.
      split; [exact E|]. cbn [log withLog] in L.
      split; [rewrite L, L1, <- !app_assoc; reflexivity|].
      unfold processItemCalls, uploadAttempts, delaysOf in *.
      rewrite !filter_length_app, filterMap_app. cbn [filter filterMap isDelay
        isProcessItem isUploadAttempt]. rewrite P1, P, U1, U, D1, D.
      split; [lia|]. split.
      { replace (S (S remaining') - 1) with (S remaining') by lia.
        replace (S remaining' - 1) with remaining' by lia.
        cbn [linearBackoff app]. reflexivity. }
      split; [lia|]. split.
      { eapply sameCounters_trans; [exact K1|exact K]. }
      intros H. apply F, F1, H.
Qed.

End ProviderFailure.

(** C3, amended: a failure of the auth provider is retried like any other
    failure of an item.  When the renderer succeeds and, from this item on,
    every request for a token fails - getAccessToken rejects, or gives an
    empty token, which processItem turns into the error Not authenticated -
    settling a queued item with upload requested calls processItem exactly
    maxRetries times (not at all when maxRetries is not positive), waits
    1000 ms times the attempt number after each call but the last, never
    reaches the upload, counts one more failed item and leaves the item
    stored as failed, with the message of the last attempt as its error
    (with the error it had when no attempt was made). *)
Theorem provider_failure_is_retried (env : Env) (item stored : QueueItem)
    (folderId : option JSString) (onProgress : option ProgressCallback)
    (maxRetries : Z) (w : World) :
  (forall call, pipelineCalls w <= call -> rendersAt env call) ->
  (forall call, pipelineCalls w <= call ->
                providerError (getAccessToken env call) <> None) ->
  find (hasId (item_id item)) (storedItems w) = Some stored ->
  exists w' evs failed,
    settleItem env true folderId onProgress maxRetries item w = (JS.Ok false, w')
    /\ log w' = log w ++ evs
    /\ processItemCalls evs = Z.to_nat maxRetries
    /\ delaysOf evs = linearBackoff (Z.to_nat maxRetries - 1) 1
    /\ uploadAttempts evs = 0
    /\ failedCount (progress w') = S (failedCount (progress w))
    /\ successCount (progress w') = successCount (progress w)
    /\ find (hasId (item_id item)) (storedItems w') = Some failed
    /\ item_status failed = Failed
    /\ item_error failed =
         if (0 <? maxRetries)%Z
         then option_map errorMessageOf
                (providerError
                   (getAccessToken env (pipelineCalls w + (Z.to_nat maxRetries - 1))))
         else item_error stored.
Proof.
  intros Hpdf Htok Hfound. unfold settleItem.
  erewrite bind_ok by reflexivity.
  set (w0 := withProgress _ w).
  assert (Hrun : exists w1 evs lastError,
             retryLoop env item true folderId onProgress maxRetries
               (Z.to_nat maxRetries) 0 None w0 = (JS.Ok (false, lastError), w1)
             /\ log w1 = log w ++ evs
             /\ processItemCalls evs = Z.to_nat maxRetries
             /\ delaysOf evs = linearBackoff (Z.to_nat maxRetries - 1) 1
             /\ uploadAttempts evs = 0
             /\ sameCounters (progress w) (progress w1)
             /\ (exists found, find (hasId (item_id item)) (storedItems w1) = Some found
                              /\ ((maxRetries <= 0)%Z -> found = stored))
             /\ lastError =
                  if (0 <? maxRetries)%Z
                  then option_map errorMessageOf
                         (providerError
                            (getAccessToken env
                               (pipelineCalls w + (Z.to_nat maxRetries - 1))))
                  else None).
  { destruct (Z.ltb_spec 0 maxRetries) as [Hpos|Hneg].
    - destruct (retryLoop_refused env item folderId onProgress maxRetries
                  (Z.to_nat maxRetries) 0%Z None w0)
        as (w1 & evs & E & L & P & D & U & K & F); try assumption; try lia.
      destruct (find (hasId (item_id item)) (storedItems w1)) as [found|] eqn:Ef.
      2:{ exfalso. apply F; [|reflexivity]. subst w0. unfold storedItems.
          cbn [storage withProgress]. fold (storedItems w). now rewrite Hfound. }
      exists w1, evs. eexists. split; [exact E|].
      split; [exact L|]. split; [exact P|]. split; [exact D|]. split; [exact U|].
      split; [exact K|]. split; [exists found; split; [exact Ef|lia]|].
      destruct (Z.to_nat maxRetries) as [|before] eqn:En; [lia|].
      subst w0. cbn [pipelineCalls withProgress].
      now replace (S before - 1) with before by lia.
    - replace (Z.to_nat maxRetries) with 0 by lia.
      exists w0, [], None. rewrite app_nil_r.
      split; [reflexivity|]. split; [reflexivity|]. split; [reflexivity|].
      split; [reflexivity|]. split; [reflexivity|]. split; [repeat split|].
      split; [|reflexivity]. exists stored. split; [exact Hfound|auto]. }
  destruct Hrun as (w1 & evs & lastError & E & L & P & D & U & K & (found & Ef & Hsame) & Hl).
  erewrite bind_ok by exact E. cbv beta iota.
  destruct (updateItemStatus_failed env (item_id item) lastError found
              (withProgress (setFailedCount (S (failedCount (progress w1))) (progress w1)) w1))
    as (w2 & failed & E2 & S2 & F2 & St & Er); [exact Ef|].
  erewrite bind_ok; [|erewrite bind_ok by reflexivity; exact E2].
  unfold ret. exists w2, evs, failed.
  destruct S2 as (L2 & P2 & _).
  cbn [log progress withProgress] in L2, P2.
  destruct K as (_ & _ & Ks & Kf).
  split; [reflexivity|]. split; [congruence|]. split; [exact P|].
  split; [exact D|]. split; [exact U|].
  split; [rewrite P2; cbn [failedCount setFailedCount]; congruence|].
  split; [rewrite P2; cbn [successCount setFailedCount]; congruence|].
  split; [exact F2|]. split; [exact St|].
  rewrite Er, Hl. destruct (Z.ltb_spec 0 maxRetries) as [Hpos|Hneg].
  - destruct (providerError _) as [e|] eqn:He; [reflexivity|].
    exfalso. revert He. apply Htok. lia.
  - now rewrite Hsame.
Qed.

Lemma provider_failure_is_retried_witness :
  exists w' evs failed,
    settleItem noTokenEnv true None (Some CbObserve) 1 (sampleItem "a" Pending)
      threePending = (JS.Ok false, w')
    /\ log w' = log threePending ++ evs
    /\ processItemCalls evs = Z.to_nat 1
    /\ delaysOf evs = linearBackoff (Z.to_nat 1 - 1) 1
    /\ uploadAttempts evs = 0
    /\ failedCount (progress w') = S (failedCount (progress threePending))
    /\ successCount (progress w') = successCount (progress threePending)
    /\ find (hasId (item_id (sampleItem "a" Pending))) (storedItems w') = Some failed
    /\ item_status failed = Failed
    /\ item_error failed =
         if (0 <? 1)%Z
         then option_map errorMessageOf
                (providerError
                   (getAccessToken noTokenEnv
                      (pipelineCalls threePending + (Z.to_nat 1 - 1))))
         else item_error (sampleItem "a" Pending).
Proof.
  apply (provider_failure_is_retried noTokenEnv (sampleItem "a" Pending)
           (sampleItem "a" Pending) None (Some CbObserve) 1 threePending).
  - intros call _. eexists. eexists. split; [reflexivity|vm_compute; reflexivity].
  - intros call _. vm_compute. discriminate.
  - reflexivity.
Defined.

(** C3 as stated fails: with maxRetries 2, an item whose request for a
    token is rejected is attempted twice, with one wait of 1000 ms in
    between, and is stored as failed with the message of the provider; a
    run of processQueue over three such items makes six attempts and waits
    three times. *)
Lemma provider_failure_second_attempt :
  getAccessToken noTokenEnv 0 = JS.Throw (JS.ErrorObj (JS.str "No token received"))
  /\ (exists w',
        settleItem noTokenEnv true None None 2 (sampleItem "a" Pending) threePending
          = (JS.Ok false, w')
        /\ processItemCalls (log w') = 2
        /\ delaysOf (log w') = [1000%Z]
        /\ uploadAttempts (log w') = 0
        /\ option_map (fun i => (item_status i, item_error i))
             (find (hasId (JS.str "a")) (storedItems w'))
           = Some (Failed, Some (JS.str "No token received")))
  /\ (exists p w',
        processQueue noTokenEnv (mkOptions true None None None (Some 2%Z)) threePending
          = (JS.Ok p, w')
        /\ completed p = 3 /\ failedCount p = 3
        /\ processItemCalls (log w') = 6
        /\ delaysOf (log w') = [1000%Z; 1000%Z; 1000%Z]
        /\ uploadAttempts (log w') = 0
        /\ map item_status (storedItems w') = [Failed; Failed; Failed]).
Proof.
  split; [vm_compute; reflexivity|]. split.
  - eexists. split; [vm_compute; reflexivity|]. vm_compute. repeat split.
  - eexists. eexists. split; [vm_compute; reflexivity|]. vm_compute. repeat split.
Qed.

(* ================================================================== *)
(** * A run that stops early *)
(* ================================================================== *)

Section StopFacts.
Variable env : Env.

Lemma notify_flags (onProgress : option ProgressCallback) (w : World) :
  flagProcessing (snd (notify onProgress w)) = flagProcessing w
  /\ flagCancelled (snd (notify onProgress w)) = flagCancelled w.
Proof. destruct onProgress as [[|]|]; split; reflexivity. Qed.

Lemma settleItem_flags item shouldUpload folderId onProgress maxRetries (w : World) :
  flagProcessing (snd (settleItem env shouldUpload folderId onProgress maxRetries item w))
    = flagProcessing w
  /\ flagCancelled (snd (settleItem env shouldUpload folderId onProgress maxRetries item w))
     = flagCancelled w.
Proof.
  apply (settleItem_preserves env
           (fun w w' => flagProcessing w' = flagProcessing w
                        /\ flagCancelled w' = flagCancelled w))
    with (itemId := item_id item); try reflexivity; try (intros; split; reflexivity).
  - intros w1 w2 w3 (a1 & a2) (b1 & b2). split; congruence.
  - intros s r e w0.
    destruct (updateItemStatus_effect env (item_id item) s r e w0) as (w' & E & S & _).
    rewrite E. cbn [snd]. destruct S as (_ & _ & Hc & Hp & _). auto.
Qed.

Lemma retryLoop_found item shouldUpload folderId onProgress maxRetries remaining
    attempt lastError :
  preserves (fun w w' => find (hasId (item_id item)) (storedItems w) <> None ->
                         find (hasId (item_id item)) (storedItems w') <> None)
    (retryLoop env item shouldUpload folderId onProgress maxRetries remaining
       attempt lastError).
Proof.
  apply (retryLoop_preserves env
           (fun w w' => find (hasId (item_id item)) (storedItems w) <> None ->
                        find (hasId (item_id item)) (storedItems w') <> None))
    with (itemId := item_id item); try reflexivity; try (intros; assumption).
  - intros w1 w2 w3 H1 H2 H. apply H2, H1, H.
  - intros s r e w0.
    destruct (updateItemStatus_found env (item_id item) s r e w0) as (w' & E0 & _ & H0).
    rewrite E0. exact H0.
Qed.

(** An item that is stored and that fails is stored as failed. *)
Lemma settleItem_failed item shouldUpload folderId onProgress maxRetries (w w1 : World) :
  find (hasId (item_id item)) (storedItems w) <> None ->
  settleItem env shouldUpload folderId onProgress maxRetries item w = (JS.Ok false, w1) ->
  exists failed,
    find (hasId (item_id item)) (storedItems w1) = Some failed
    /\ item_status failed = Failed.
Proof.
  intros F E. unfold settleItem in E. erewrite bind_ok in E by reflexivity.
  set (wa := withProgress _ w) in E.
  destruct (returns_run _ wa
              (retryLoop_returns env item shouldUpload folderId onProgress maxRetries
                 (Z.to_nat maxRetries) 0%Z None)) as ([success lastError] & wb & Eb).
  assert (Fb : find (hasId (item_id item)) (storedItems wb) <> None).
  { pose proof (retryLoop_found item shouldUpload folderId onProgress maxRetries
                  (Z.to_nat maxRetries) 0%Z None wa) as Hp.
    rewrite Eb in Hp. apply Hp. exact F. }
  erewrite bind_ok in E by exact Eb. cbv beta iota in E.
  destruct success.
  - unfold bind at 1 in E.
    match type of E with (let (_, _) := ?c in _) = _ => destruct c as [[[]|e] w'] end;
      discriminate.
  - destruct (find (hasId (item_id item)) (storedItems wb)) as [found|] eqn:Ef;
      [|now contradiction Fb].
    destruct (updateItemStatus_failed env (item_id item) lastError found
                (withProgress (setFailedCount (S (failedCount (progress wb))) (progress wb)) wb))
      as (w2 & failed & E2 & _ & F2 & St & _); [exact Ef|].
    erewrite bind_ok in E; [|erewrite bind_ok by reflexivity; exact E2].
    injection E as <-. exists failed. auto.
Qed.

Lemma find_in_the_middle (itemId : JSString) (item : QueueItem) (l1 l2 : list QueueItem) :
  item_id item = itemId -> find (hasId itemId) (l1 ++ item :: l2) <> None.
Proof.
  intros <-. induction l1 as [|x l1 IH]; cbn [app find].
  - unfold hasId at 1. now rewrite JS_eqb_refl.
  - now destruct (hasId (item_id item) x).
Qed.

(** One iteration: the stored list, the counters, the flags, and where a
    failure is recorded. *)
Lemma processOneItem_step shouldUpload folderId onProgress maxRetries totalCount item
    (front tail : list QueueItem) (w : World) :
  storedItems w = front ++ item :: tail ->
  exists success w' front',
    processOneItem env shouldUpload folderId onProgress maxRetries totalCount item w =
      (JS.Ok success, w')
    /\ storedItems w' = front' ++ tail
    /\ List.length front' = S (List.length front)
    /\ completed (progress w') = S (completed (progress w))
    /\ cancelled (progress w') = cancelled (progress w)
    /\ flagProcessing w' = flagProcessing w
    /\ flagCancelled w' = flagCancelled w
    /\ failedCount (progress w') =
       (if success then failedCount (progress w) else S (failedCount (progress w)))
    /\ (success = false ->
        exists failed,
          find (hasId (item_id item)) (storedItems w') = Some failed
          /\ item_status failed = Failed).
Proof.
  intros H.
  destruct (processOneItem_frame env shouldUpload folderId onProgress maxRetries
              totalCount item front tail w H)
    as (success & w' & front' & E & Hs & Hl & Hc & Hca).
  exists success, w', front'.
  split; [exact E|]. split; [exact Hs|]. split; [exact Hl|]. split; [exact Hc|].
  split; [exact Hca|].
  destruct (processOneItem_run env item shouldUpload folderId onProgress maxRetries
              totalCount w) as (success1 & w1 & E1 & E2).
  rewrite E in E2. injection E2 as <- ->.
  destruct (settleItem_flags item shouldUpload folderId onProgress maxRetries w)
    as (Fp & Fc).
  destruct (settleItem_counts env item shouldUpload folderId onProgress maxRetries w)
    as (success2 & w2 & evs & E3 & _ & _ & _ & _ & _ & Hf).
  rewrite E1 in Fp, Fc, E3. cbn [snd] in Fp, Fc. injection E3 as <- <-.
  match goal with |- context [notify ?cb ?w0] =>
    destruct (notify_flags cb w0) as (Np & Nc);
    destruct (notify_frame cb w0) as (Ns & Npr)
  end.
  rewrite Np, Nc, Npr. unfold storedItems at 1. rewrite Ns.
  cbn [flagProcessing flagCancelled progress storage withProgress failedCount
         setPercentage setCompleted].
  split; [exact Fp|]. split; [exact Fc|]. split; [exact Hf|].
  intros ->. fold (storedItems w1).
  apply (settleItem_failed item shouldUpload folderId onProgress maxRetries w w1);
    [|exact E1].
  rewrite H. now apply find_in_the_middle.
Qed.

(** The loop over the snapshot: where it stops, and why. *)
Lemma itemLoop_stops shouldUpload folderId onProgress continueOnError maxRetries
    totalCount (pending : list QueueItem) :
  forall (index : nat) (w : World) (front tail : list QueueItem),
    storedItems w = front ++ tail ->
    filter isPending tail = pending ->
    flagProcessing w = true -> flagCancelled w = false ->
    completed (progress w) = index ->
    cancelled (progress w) = false ->
    exists exit w' front' skipped tail',
      itemLoop env shouldUpload folderId onProgress continueOnError maxRetries
        totalCount pending index w = (JS.Ok exit, w')
      /\ tail = skipped ++ tail'
      /\ storedItems w' = front' ++ tail'
      /\ List.length front' = List.length (front ++ skipped)
      /\ index <= completed (progress w') <= index + List.length pending
      /\ filter isPending tail' = skipn (completed (progress w') - index) pending
      /\ (forall k, index <= k < completed (progress w') -> cancelArrives env k = false)
      /\ (exit = Exhausted ->
          completed (progress w') = index + List.length pending
          /\ cancelled (progress w') = false)
      /\ (exit = BrokeOnCancel ->
          completed (progress w') < index + List.length pending
          /\ cancelArrives env (completed (progress w')) = true
          /\ cancelled (progress w') = true
          /\ phase (progress w') = PhComplete)
      /\ (exit = BrokeOnError ->
          continueOnError = false
          /\ cancelled (progress w') = false
          /\ index < completed (progress w')
          /\ exists item failed,
               nth_error pending (completed (progress w') - index - 1) = Some item
               /\ find (hasId (item_id item)) (storedItems w') = Some failed
               /\ item_status failed = Failed)
      /\ (continueOnError = false ->
          failedCount (progress w') =
          failedCount (progress w) + match exit with BrokeOnError => 1 | _ => 0 end).
Proof.
  induction pending as [|item rest IH];
    intros index w front tail Hs Hp Hproc Hflag Hidx Hcan; cbn [itemLoop].
  - exists Exhausted, w, front, [], tail.
    rewrite Hidx, Nat.sub_diag, app_nil_r. cbn [skipn app List.length].
    split; [reflexivity|]. split; [reflexivity|]. split; [exact Hs|].
    split; [reflexivity|]. split; [lia|]. split; [exact Hp|].
    split; [intros k Hk; lia|]. split; [intros _; split; [lia|exact Hcan]|].
    split; [discriminate|]. split; [discriminate|]. intros _. lia.
  - destruct (filter_cons_split _ _ _ _ Hp) as (t1 & t2 & -> & Hp1 & Hp2 & Hitem).
    assert (E1 : (if cancelArrives env index then cancel else ret tt) w =
                 (JS.Ok tt, if cancelArrives env index then withCancelled true w else w)).
    { destruct (cancelArrives env index); [|reflexivity].
      unfold cancel, modify. now rewrite Hproc. }
    erewrite bind_ok by exact E1.
    erewrite bind_ok by reflexivity.
    destruct (cancelArrives env index) eqn:Ec.
    + cbn [flagCancelled withCancelled].
      erewrite bind_ok by reflexivity.
      erewrite bind_ok by reflexivity.
      match goal with |- context [bind (notify ?cb) _ ?w0] =>
        destruct (returns_run _ w0 (notify_returns cb)) as ([] & wn & En);
        destruct (notify_frame cb w0) as (Ns & Np)
      end.
      rewrite En in Ns, Np. cbn [snd] in Ns, Np.
      erewrite bind_ok by exact En.
      exists BrokeOnCancel, wn, front, [], (t1 ++ item :: t2).
      cbn [storage progress withProgress withCancelled] in Ns, Np.
      unfold storedItems in *. rewrite Ns, Np.
      cbn [completed cancelled phase failedCount setPhase setCancelled].
      rewrite Hidx, Nat.sub_diag, app_nil_r. cbn [skipn app List.length].
      split; [reflexivity|]. split; [reflexivity|]. split; [exact Hs|].
      split; [reflexivity|]. split; [lia|]. split; [exact Hp|].
      split; [intros k Hk; lia|]. split; [discriminate|].
      split; [intros _; repeat split; [lia|exact Ec]|].
      split; [discriminate|]. intros _. lia.
    + rewrite Hflag.
      assert (Hs' : storedItems w = (front ++ t1) ++ item :: t2).
      { rewrite Hs. now rewrite app_assoc. }
      destruct (processOneItem_step shouldUpload folderId onProgress maxRetries
                  totalCount item (front ++ t1) t2 w Hs')
        as (success & w2 & front2 & E2 & Hs2 & Hl2 & Hc2 & Hca2 & Hpr2 & Hfl2 & Hf2 & Hfail).
      erewrite bind_ok by exact E2.
      rewrite Hidx in Hc2. rewrite Hcan in Hca2. rewrite Hproc in Hpr2.
      rewrite Hflag in Hfl2.
      destruct success; cbn [negb andb].
      2: destruct continueOnError; cbn [negb].
      3:{ destruct (Hfail eq_refl) as (failed & Ff & Fs).
          exists BrokeOnError, w2, front2, (t1 ++ [item]), t2.
          rewrite Hc2. replace (S index - index) with 1 by lia.
          replace (1 - 1) with 0 by lia.
          cbn [skipn nth_error List.length]. rewrite <- app_assoc. cbn [app].
          split; [reflexivity|]. split; [reflexivity|]. split; [exact Hs2|].
          split; [rewrite Hl2, !length_app; cbn; lia|]. split; [lia|].
          split; [exact Hp2|].
          split; [intros k Hk; now replace k with index by lia|].
          split; [discriminate|]. split; [discriminate|].
          split; [intros _; split; [reflexivity|]; split; [exact Hca2|];
                  split; [lia|]; exists item, failed; auto|].
          intros _. rewrite Hf2. lia. }
      all: destruct (IH (S index) w2 front2 t2 Hs2 Hp2 Hpr2 Hfl2 Hc2 Hca2)
          as (exit & w' & front' & skipped & tail' & E & -> & Hs3 & Hl3 & Hc3 & Hf3
              & Hk3 & Hx3 & Hy3 & Hz3 & Hn3).
      all: exists exit, w', front', (t1 ++ item :: skipped), tail'.
      all: split; [exact E|]. all: split; [now rewrite <- app_assoc|].
      all: split; [exact Hs3|].
      all: split; [rewrite Hl3, !length_app, Hl2, !length_app; cbn; lia|].
      all: cbn [List.length]. all: split; [lia|].
      all: split;
        [rewrite Hf3;
         replace (completed (progress w') - index)
           with (S (completed (progress w') - S index)) by lia; reflexivity|].
      all: split;
        [intros k Hk; destruct (Nat.eq_dec k index) as [->|Hne];
         [exact Ec|apply Hk3; lia]|].
      all: split; [intros Hx; destruct (Hx3 Hx); split; [lia|assumption]|].
      all: split; [intros Hx; destruct (Hy3 Hx) as (a & b & c); split; [lia|auto]|].
      all: split;
        [intros Hx; destruct (Hz3 Hx) as (a & b & c & it & fl & d & e);
         split; [exact a|]; split; [exact b|]; split; [lia|];
         exists it, fl; split; [|exact e];
         replace (completed (progress w') - index - 1)
           with (S (completed (progress w') - S index - 1)) by lia; exact d|].
      all: intros Hcont; rewrite (Hn3 Hcont), Hf2; try reflexivity.
      discriminate Hcont.
Qed.

End StopFacts.

(** A run, from the queue it reads to the progress it returns. *)
Lemma processQueueRun_stops (env : Env) (options : BatchProcessorOptions) (w : World) :
  exists exit p w' front front' tail,
    processQueueRun env options w = (JS.Ok (exit, p), w')
    /\ storedItems w = front ++ tail
    /\ storedItems w' = front' ++ tail
    /\ List.length front' = List.length front
    /\ completed p <= List.length (filter isPending (storedItems w))
    /\ filter isPending tail = skipn (completed p) (filter isPending (storedItems w))
    /\ (forall k, k < completed p -> cancelArrives env k = false)
    /\ (exit = Exhausted ->
        completed p = List.length (filter isPending (storedItems w))
        /\ cancelled p = false)
    /\ (exit = BrokeOnCancel ->
        completed p < List.length (filter isPending (storedItems w))
        /\ cancelArrives env (completed p) = true
        /\ cancelled p = true)
    /\ (exit = BrokeOnError ->
        withDefault (opt_continueOnError options) true = false
        /\ cancelled p = false
        /\ exists item failed,
             nth_error (filter isPending (storedItems w)) (completed p - 1) = Some item
             /\ find (hasId (item_id item)) (storedItems w') = Some failed
             /\ item_status failed = Failed)
    /\ (withDefault (opt_continueOnError options) true = false ->
        failedCount p = match exit with BrokeOnError => 1 | _ => 0 end).
Proof.
  destruct (processQueueRun_start env options w (fun r => ret r))
    as (w2 & E & _ & Hs2 & Hfl2 & Hpr2 & Hprog2).
  assert (Ebind : forall c w0, bind c (fun r : LoopExit * BatchProgress => ret r) w0 = c w0).
  { intros c w0. unfold bind, ret. destruct (c w0) as [[a|e] w']; reflexivity. }
  rewrite !Ebind in E. rewrite E. clear E Ebind. cbv zeta.
  destruct (filter isPending (storedItems w)) as [|item rest] eqn:Hpend.
  - cbn [List.length Nat.eqb].
    erewrite bind_ok by reflexivity. erewrite bind_ok by reflexivity.
    match goal with |- context [bind (notify ?cb) _ ?w0] =>
      destruct (returns_run _ w0 (notify_returns cb)) as ([] & wn & En);
      destruct (notify_frame cb w0) as (Ns & Np)
    end.
    rewrite En in Ns, Np. cbn [snd] in Ns, Np.
    erewrite bind_ok by exact En.
    eexists Exhausted, _, _, (storedItems w), (storedItems w), [].
    split; [reflexivity|]. cbn [storage progress withProgress withProcessing] in *.
    unfold storedItems. cbn [storage withProcessing]. rewrite Ns, Hs2, app_nil_r.
    rewrite Np, Hprog2.
    cbn [completed cancelled failedCount setPercentage setPhase skipn filter].
    split; [reflexivity|]. split; [reflexivity|]. split; [reflexivity|].
    split; [lia|]. split; [reflexivity|]. split; [intros k Hk; lia|].
    split; [auto|]. split; [discriminate|]. split; [discriminate|]. auto.
  - cbn [List.length Nat.eqb].
    destruct (itemLoop_stops env (opt_uploadToDrive options) (opt_folderId options)
                (opt_onProgress options) (withDefault (opt_continueOnError options) true)
                (withDefault (opt_maxRetries options) 1%Z) (S (List.length rest))
                (item :: rest) 0 w2 [] (storedItems w))
      as (exit & w3 & front' & skipped & tail' & E3 & Ht & Hs3 & Hl3 & Hc3 & Hf3
          & Hk3 & Hx3 & Hy3 & Hz3 & Hn3).
    { unfold storedItems. now rewrite Hs2. }
    { exact Hpend. }
    { exact Hpr2. }
    { exact Hfl2. }
    { now rewrite Hprog2. }
    { now rewrite Hprog2. }
    erewrite bind_ok by exact E3.
    erewrite bind_ok by reflexivity. erewrite bind_ok by reflexivity.
    match goal with |- context [bind (notify ?cb) _ ?w0] =>
      destruct (returns_run _ w0 (notify_returns cb)) as ([] & wn & En);
      destruct (notify_frame cb w0) as (Ns & Np)
    end.
    rewrite En in Ns, Np. cbn [snd] in Ns, Np.
    erewrite bind_ok by exact En.
    eexists exit, _, _, skipped, front', tail'.
    split; [reflexivity|]. cbn [storage progress withProgress withProcessing] in *.
    split; [exact Ht|].
    unfold storedItems at 1 2. cbn [storage withProcessing]. rewrite Ns.
    fold (storedItems w3). split; [exact Hs3|]. split; [exact Hl3|].
    rewrite Np. cbn [completed cancelled phase failedCount setCurrentItem setPhase].
    rewrite Hprog2 in Hn3. cbn [failedCount] in Hn3.
    rewrite Nat.sub_0_r in Hf3. cbn [List.length] in *.
    split; [lia|]. split; [exact Hf3|].
    split; [intros k Hk; apply Hk3; lia|].
    split; [intros Hx; destruct (Hx3 Hx); split; [lia|assumption]|].
    split; [intros Hx; destruct (Hy3 Hx) as (a & b & c & _); split; [lia|auto]|].
    split; [|exact Hn3].
    intros Hx. destruct (Hz3 Hx) as (a & b & c & it & fl & d & e & f).
    split; [exact a|]. split; [exact b|]. exists it, fl.
    rewrite Nat.sub_0_r in d. auto.
Qed.

(** C6: a run of processQueue stops at the first boundary at which a
    cancellation has arrived and, when continueOnError is false, after
    the first item that fails; the pending items it did not reach stay
    stored as they were.  With [completed] the number of items the run
    reached (each counted as a success or as a failure): the stored list
    keeps, item by item, a tail that holds the snapshot of pending items
    without its first [completed] ones, while the part before it keeps its
    length.  No boundary at which a cancellation arrived is passed: if one
    arrives before item [k] of the snapshot, then [completed <= k], and the
    progress returned has [cancelled = true] - unless the run had already
    stopped on a failure.  The progress has [cancelled = true] exactly when
    the loop was left on the cancellation flag, which was raised before the
    item at position [completed]; its phase is complete.  When
    continueOnError is false at most one item fails, exactly when the loop
    is left on a failure, and the item reached last is then stored as
    failed.  A loop left in neither way has reached every item. *)
Theorem early_stop_leaves_pending_untouched (env : Env) (options : BatchProcessorOptions)
    (w : World) :
  let pendingItems := filter isPending (storedItems w) in
  let continueOnError := withDefault (opt_continueOnError options) true in
  exists exit p w' front front' tail,
    processQueueRun env options w = (JS.Ok (exit, p), w')
    /\ processQueue env options w = (JS.Ok p, w')
    /\ storedItems w = front ++ tail
    /\ storedItems w' = front' ++ tail
    /\ List.length front' = List.length front
    /\ filter isPending tail = skipn (completed p) pendingItems
    /\ completed p <= List.length pendingItems
    /\ completed p = successCount p + failedCount p
    /\ phase p = PhComplete
    /\ (forall k, k < List.length pendingItems -> cancelArrives env k = true ->
        completed p <= k
        /\ (cancelled p = true \/ (continueOnError = false /\ failedCount p = 1)))
    /\ (cancelled p = true <-> exit = BrokeOnCancel)
    /\ (cancelled p = true ->
        completed p < List.length pendingItems
        /\ cancelArrives env (completed p) = true)
    /\ (continueOnError = false ->
        failedCount p <= 1 /\ (failedCount p = 1 <-> exit = BrokeOnError))
    /\ (exit = BrokeOnError ->
        continueOnError = false
        /\ exists item failed,
             nth_error pendingItems (completed p - 1) = Some item
             /\ find (hasId (item_id item)) (storedItems w') = Some failed
             /\ item_status failed = Failed)
    /\ (exit = Exhausted -> completed p = List.length pendingItems).
Proof.
  cbv zeta.
  destruct (processQueueRun_stops env options w)
    as (exit & p & w' & front & front' & tail & E & Hs & Hs' & Hl & Hle & Hf & Hk
        & Hx & Hy & Hz & Hn).
  destruct (processQueueRun_settles env options w)
    as (exit1 & p1 & w1 & evs & E1 & Eq & _ & Hph & _ & _ & (Hco & _) & _).
  rewrite E in E1. injection E1 as <- <- <-.
  exists exit, p, w', front, front', tail.
  split; [exact E|]. split; [exact Eq|]. split; [exact Hs|]. split; [exact Hs'|].
  split; [exact Hl|]. split; [exact Hf|]. split; [exact Hle|]. split; [exact Hco|].
  split; [exact Hph|].
  split.
  { intros k Hlt Hc.
    assert (Hck : completed p <= k).
    { destruct (Nat.le_gt_cases (completed p) k) as [H|H]; [exact H|].
      rewrite (Hk k H) in Hc. discriminate. }
    split; [exact Hck|].
    destruct exit.
    - destruct (Hx eq_refl). lia.
    - left. apply (Hy eq_refl).
    - right. destruct (Hz eq_refl) as (a & _). split; [exact a|]. now rewrite (Hn a). }
  split.
  { split.
    - intros Hc. destruct exit; [|reflexivity|].
      + destruct (Hx eq_refl) as (_ & H). congruence.
      + destruct (Hz eq_refl) as (_ & H & _). congruence.
    - intros ->. apply (Hy eq_refl). }
  split.
  { intros Hc. destruct exit.
    - destruct (Hx eq_refl) as (_ & H). congruence.
    - destruct (Hy eq_refl) as (a & b & _). auto.
    - destruct (Hz eq_refl) as (_ & H & _). congruence. }
  split.
  { intros Hc. rewrite (Hn Hc). destruct exit; split; try lia;
      split; intros H; try discriminate; try reflexivity. }
  split; [|intros Hx'; apply (Hx Hx')].
  intros Hx'. destruct (Hz Hx') as (a & _ & b). auto.
Qed.

(* ================================================================== *)
(** * How often a run renders and uploads *)
(* ================================================================== *)

Section BudgetFacts.
Variable env : Env.

Lemma budget_quiet {A} (c : M A) :
  (forall w, log (snd (c w)) = log w) -> withinBudget 0 0 c.
Proof.
  intros H w. exists []. rewrite app_nil_r. split; [apply H|]. split; constructor.
Qed.

Lemma budget_weaken {A} (c : M A) (n m n' m' : nat) :
  n <= n' -> m <= m' -> withinBudget n m c -> withinBudget n' m' c.
Proof.
  intros Hn Hm H w. destruct (H w) as (evs & L & P & U).
  exists evs. repeat split; [exact L|lia|lia].
Qed.

Lemma budget_bind {A B} (c : M A) (k : A -> M B) (n1 m1 n2 m2 : nat) :
  withinBudget n1 m1 c -> (forall a, withinBudget n2 m2 (k a)) ->
  withinBudget (n1 + n2) (m1 + m2) (bind c k).
Proof.
  intros Hc Hk w. unfold bind. destruct (Hc w) as (e1 & L1 & P1 & U1).
  destruct (c w) as [[a|e] w1]; cbn [snd] in *.
  - destruct (Hk a w1) as (e2 & L2 & P2 & U2).
    exists (e1 ++ e2). split; [now rewrite L2, L1, app_assoc|].
    unfold processItemCalls, uploadAttempts in *. rewrite !filter_length_app. lia.
  - exists e1. split; [exact L1|]. lia.
Qed.

Lemma budget_tryCatch {A} (c : M A) (h : JS.Exn -> M A) (n1 m1 n2 m2 : nat) :
  withinBudget n1 m1 c -> (forall e, withinBudget n2 m2 (h e)) ->
  withinBudget (n1 + n2) (m1 + m2) (tryCatch c h).
Proof.
  intros Hc Hh w. unfold tryCatch. destruct (Hc w) as (e1 & L1 & P1 & U1).
  destruct (c w) as [[a|e] w1]; cbn [snd] in *.
  - exists e1. split; [exact L1|]. lia.
  - destruct (Hh e w1) as (e2 & L2 & P2 & U2).
    exists (e1 ++ e2). split; [now rewrite L2, L1, app_assoc|].
    unfold processItemCalls, uploadAttempts in *. rewrite !filter_length_app. lia.
Qed.

(** A step that leaves the log alone, followed by the rest. *)
Lemma budget_then {A B} (c : M A) (k : A -> M B) (n m : nat) :
  (forall w, log (snd (c w)) = log w) -> (forall a, withinBudget n m (k a)) ->
  withinBudget n m (bind c k).
Proof.
  intros Hc Hk. apply (budget_bind c k 0 0 n m); [now apply budget_quiet|exact Hk].
Qed.

Lemma budget_last {A B} (c : M A) (k : A -> M B) (n m : nat) :
  withinBudget n m c -> (forall a w, log (snd (k a w)) = log w) ->
  withinBudget n m (bind c k).
Proof.
  intros Hc Hk. apply (budget_weaken _ (n + 0) (m + 0)); [lia|lia|].
  apply budget_bind; [exact Hc|]. intros a. apply budget_quiet, Hk.
Qed.

Lemma budget_ret {A} (a : A) : withinBudget 0 0 (ret a).
Proof. now apply budget_quiet. Qed.

Lemma budget_throw {A} (e : JS.Exn) : withinBudget 0 0 (@throw A e).
Proof. now apply budget_quiet. Qed.

Lemma budget_event (e : Event) :
  withinBudget (if isProcessItem e then 1 else 0) (if isUploadAttempt e then 1 else 0)
    (emit e).
Proof.
  intros w. exists [e]. split; [reflexivity|].
  unfold processItemCalls, uploadAttempts. cbn [filter].
  destruct (isProcessItem e), (isUploadAttempt e); cbn; lia.
Qed.

Lemma budget_notify (onProgress : option ProgressCallback) :
  withinBudget 0 0 (notify onProgress).
Proof.
  intros w. destruct (snapshots_of_notify onProgress w) as (w' & E & _ & _ & _ & L).
  rewrite E. cbn [snd]. eexists. split; [exact L|].
  destruct onProgress; split; constructor.
Qed.

Lemma update_log itemId s r e (w : World) :
  log (snd (updateItemStatus env itemId s r e w)) = log w.
Proof.
  destruct (updateItemStatus_effect env itemId s r e w) as (w' & E & (L & _) & _).
  now rewrite E.
Qed.

Lemma budget_uploadLoop fetches maxRetries remaining :
  forall attempt, withinBudget 0 remaining (uploadLoop fetches maxRetries remaining attempt).
Proof.
  induction remaining as [|remaining IH]; intros attempt; cbn [uploadLoop].
  - apply budget_ret.
  - apply (budget_bind _ _ 0 1 0 remaining);
      [apply (budget_event (EvUploadAttempt attempt))|]. intros _.
    destruct (performUpload (fetches attempt)) as [result|error];
      [apply (budget_weaken _ 0 0); [lia|lia|apply budget_ret]|].
    destruct (isAuthError (errorMessageOf error));
      [apply (budget_weaken _ 0 0); [lia|lia|apply budget_ret]|].
    destruct (attempt =? maxRetries)%Z;
      [apply (budget_weaken _ 0 0); [lia|lia|apply budget_ret]|].
    apply (budget_bind _ _ 0 0 0 remaining); [apply (budget_event (EvDelay _))|].
    intros _. apply IH.
Qed.

Lemma budget_processItem item shouldUpload folderId onProgress :
  withinBudget 1 (uploadsPerCall shouldUpload)
    (processItem env item shouldUpload folderId onProgress).
Proof.
  unfold processItem.
  apply budget_then; [reflexivity|]. intros w0.
  apply budget_then; [reflexivity|]. intros _.
  apply (budget_bind _ _ 1 0 0 (uploadsPerCall shouldUpload));
    [apply (budget_event (EvProcessItem _))|]. intros _.
  apply budget_then; [apply update_log|]. intros _.
  apply budget_then; [reflexivity|]. intros _.
  apply (budget_bind _ _ 0 0); [apply budget_notify|]. intros _.
  apply budget_then; [reflexivity|]. intros pdf.
  apply budget_then; [reflexivity|]. intros bytes.
  apply budget_then; [apply update_log|]. intros _.
  apply budget_last; [|reflexivity].
  destruct shouldUpload; [|apply budget_ret].
  apply budget_then; [reflexivity|]. intros _.
  apply (budget_bind _ _ 0 0); [apply budget_notify|]. intros _.
  apply budget_then; [reflexivity|]. intros token.
  destruct (JS.isEmpty token);
    [apply (budget_weaken _ 0 0); [lia|cbn; lia|apply budget_throw]|].
  apply (budget_bind _ _ 0 3 0 0); [apply (budget_uploadLoop _ 3 3)|]. intros r.
  destruct (negb (ur_success r)); [apply budget_throw|].
  apply budget_quiet. intros w. apply update_log.
Qed.

Lemma budget_retryLoop item shouldUpload folderId onProgress maxRetries remaining :
  forall attempt lastError,
    withinBudget remaining (remaining * uploadsPerCall shouldUpload)
      (retryLoop env item shouldUpload folderId onProgress maxRetries
         remaining attempt lastError).
Proof.
  induction remaining as [|remaining IH]; intros attempt lastError; cbn [retryLoop].
  - apply budget_ret.
  - apply (budget_bind _ _ 1 (uploadsPerCall shouldUpload) remaining
             (remaining * uploadsPerCall shouldUpload)).
    + apply (budget_weaken _ (1 + 0) (uploadsPerCall shouldUpload + 0)); [lia|lia|].
      apply budget_tryCatch; [|intros e; apply budget_ret].
      apply (budget_weaken _ (1 + 0) (uploadsPerCall shouldUpload + 0)); [lia|lia|].
      apply budget_bind; [apply budget_processItem|intros b; apply budget_ret].
    + intros [[|]|error].
      * apply (budget_weaken _ 0 0); [lia|lia|apply budget_ret].
      * apply IH.
      * apply (budget_bind _ _ 0 0); [|intros _; apply IH].
        destruct (attempt <? maxRetries - 1)%Z; [|apply budget_ret].
        apply (budget_event (EvDelay _)).
Qed.

Lemma budget_settleItem item shouldUpload folderId onProgress maxRetries :
  withinBudget (Z.to_nat maxRetries) (Z.to_nat maxRetries * uploadsPerCall shouldUpload)
    (settleItem env shouldUpload folderId onProgress maxRetries item).
Proof.
  unfold settleItem. apply budget_then; [reflexivity|]. intros _.
  apply (budget_weaken _ (Z.to_nat maxRetries + 0)
           (Z.to_nat maxRetries * uploadsPerCall shouldUpload + 0)); [lia|lia|].
  apply budget_bind; [apply budget_retryLoop|]. intros [success lastError].
  apply budget_then; [|intros _; apply budget_ret].
  intros w. destruct success.
  - erewrite bind_ok by reflexivity. erewrite bind_ok by reflexivity.
    now rewrite update_log.
  - erewrite bind_ok by reflexivity. now rewrite update_log.
Qed.

Lemma budget_processOneItem item shouldUpload folderId onProgress maxRetries totalCount :
  withinBudget (Z.to_nat maxRetries) (Z.to_nat maxRetries * uploadsPerCall shouldUpload)
    (processOneItem env shouldUpload folderId onProgress maxRetries totalCount item).
Proof.
  unfold processOneItem.
  apply (budget_weaken _ (Z.to_nat maxRetries + 0)
           (Z.to_nat maxRetries * uploadsPerCall shouldUpload + 0)); [lia|lia|].
  apply budget_bind; [apply budget_settleItem|]. intros success.
  apply budget_then; [reflexivity|]. intros _.
  apply budget_then; [reflexivity|]. intros _.
  apply (budget_bind _ _ 0 0); [apply budget_notify|]. intros _. apply budget_ret.
Qed.

Lemma budget_itemLoop shouldUpload folderId onProgress continueOnError maxRetries
    totalCount pending :
  forall index,
    withinBudget (List.length pending * Z.to_nat maxRetries)
      (List.length pending * (Z.to_nat maxRetries * uploadsPerCall shouldUpload))
      (itemLoop env shouldUpload folderId onProgress continueOnError maxRetries
         totalCount pending index).
Proof.
  induction pending as [|item rest IH]; intros index; cbn [itemLoop List.length].
  - apply budget_ret.
  - apply budget_then.
    { intros w. destruct (cancelArrives env index); cbn; [|reflexivity].
      now destruct (flagProcessing w). }
    intros _. apply budget_then; [reflexivity|]. intros w0.
    destruct (flagCancelled w0).
    + apply (budget_weaken _ 0 0); [lia|lia|].
      apply budget_then; [reflexivity|]. intros _.
      apply budget_then; [reflexivity|]. intros _.
      apply (budget_bind _ _ 0 0); [apply budget_notify|]. intros _. apply budget_ret.
    + apply (budget_weaken _
               (Z.to_nat maxRetries + List.length rest * Z.to_nat maxRetries)
               (Z.to_nat maxRetries * uploadsPerCall shouldUpload
                + List.length rest * (Z.to_nat maxRetries * uploadsPerCall shouldUpload)));
        [lia|lia|].
      apply budget_bind; [apply budget_processOneItem|]. intros success.
      destruct (negb success && negb continueOnError); [|apply IH].
      apply (budget_weaken _ 0 0); [lia|lia|apply budget_ret].
Qed.

End BudgetFacts.

(** X8: a run of [processQueue] over [t] pending items calls [processItem]
    at most [maxRetries] times per item, so at most [t * maxRetries] times
    (never when [maxRetries] is not positive), and each call makes at most
    the three upload attempts of [uploadToDrive], so a run makes at most
    [3 * t * maxRetries] of them - and none when the upload is not
    requested. *)
Theorem processQueue_attempt_budget (env : Env) (options : BatchProcessorOptions)
    (w : World) :
  let t := List.length (filter isPending (storedItems w)) in
  let r := Z.to_nat (withDefault (opt_maxRetries options) 1%Z) in
  exists evs,
    log (snd (processQueue env options w)) = log w ++ evs
    /\ processItemCalls evs <= t * r
    /\ uploadAttempts evs <= (if opt_uploadToDrive options then 3 * (t * r) else 0).
Proof.
  cbv zeta. unfold processQueue.
  destruct (processQueueRun_start env options w (fun r => ret (snd r)))
    as (w2 & -> & Hl2 & _). rewrite <- Hl2. cbv zeta.
  set (t := List.length (filter isPending (storedItems w))).
  set (r := Z.to_nat (withDefault (opt_maxRetries options) 1%Z)).
  assert (H : withinBudget (t * r) (t * (r * uploadsPerCall (opt_uploadToDrive options)))
                (bind (if (t =? 0)%nat
                       then
                         mutateProgress (setPhase PhComplete) ;;
                         mutateProgress (setPercentage (Float64.ofCount 100)) ;;
                         notify (opt_onProgress options) ;;
                         modify (withProcessing false) ;;
                         w <- getWorld ;;
                         ret (Exhausted, progress w)
                       else
                         exit <- itemLoop env (opt_uploadToDrive options)
                                   (opt_folderId options) (opt_onProgress options)
                                   (withDefault (opt_continueOnError options) true)
                                   (withDefault (opt_maxRetries options) 1%Z)
                                   t (filter isPending (storedItems w)) 0 ;;
                         mutateProgress (setPhase PhComplete) ;;
                         mutateProgress (setCurrentItem None) ;;
                         notify (opt_onProgress options) ;;
                         modify (withProcessing false) ;;
                         w <- getWorld ;;
                         ret (exit, progress w))
                      (fun r => ret (snd r)))).
  { apply (budget_weaken _ (t * r + 0)
             (t * (r * uploadsPerCall (opt_uploadToDrive options)) + 0)); [lia|lia|].
    apply budget_bind; [|intros x; apply budget_ret].
    assert (Hend : forall exit : LoopExit,
               withinBudget 0 0 (notify (opt_onProgress options) ;;
                                 modify (withProcessing false) ;;
                                 w <- getWorld ;; ret (exit, progress w))).
    { intros exit. apply (budget_bind _ _ 0 0); [apply budget_notify|]. intros _.
      apply budget_then; [reflexivity|]. intros _.
      apply budget_then; [reflexivity|]. intros w0. apply budget_ret. }
    destruct (t =? 0)%nat.
    - apply (budget_weaken _ 0 0); [lia|lia|].
      apply budget_then; [reflexivity|]. intros _.
      apply budget_then; [reflexivity|]. intros _. apply Hend.
    - apply (budget_weaken _ (t * r + 0)
               (t * (r * uploadsPerCall (opt_uploadToDrive options)) + 0)); [lia|lia|].
      apply budget_bind; [apply budget_itemLoop|]. intros exit.
      apply budget_then; [reflexivity|]. intros _.
      apply budget_then; [reflexivity|]. intros _. apply Hend. }
  destruct (H w2) as (evs & L & P & U). exists evs. split; [exact L|].
  split; [exact P|]. unfold uploadsPerCall in U.
  destruct (opt_uploadToDrive options); lia.
Qed.

(** The bound is reached: with a server that always fails and two tries per
    item, one pending item is rendered twice and uploaded six times. *)
Example six_upload_attempts_for_one_item :
  let w := withStorage (Some (mkPostQueue [sampleItem "a" Pending] 1 1 0 0 0 0 0))
             initialWorld in
  let run := processQueue serverDownEnv
               (mkOptions true None None (Some true) (Some 2%Z)) w in
  processItemCalls (log (snd run)) = 2 /\ uploadAttempts (log (snd run)) = 6.
Proof. vm_compute. split; reflexivity. Qed.

(* ================================================================== *)
(** * The queue handlers *)
(* ================================================================== *)

Section HandlerFacts.
Variable env : Env.

Lemma find_existsb_none {A} (p : A -> bool) (l : list A) :
  existsb p l = false -> find p l = None.
Proof.
  induction l as [|x l IH]; [reflexivity|]. cbn [existsb find].
  destruct (p x); [discriminate|exact IH].
Qed.

(** [addToQueue] of a post no item refers to. *)
Lemma addToQueue_new (post : CapturedPost) (w : World) :
  existsb (refersTo (post_id post)) (storedItems w) = false ->
  exists item q w',
    addToQueue env post w = (JS.Ok item, w')
    /\ storage w' = Some q
    /\ items q = storedItems w ++ [item]
    /\ totalItems q = S (List.length (storedItems w))
    /\ item_status item = Pending /\ item_postId item = post_id post
    /\ item_post item = post.
Proof.
  intros H. unfold addToQueue. erewrite bind_ok by apply getQueue_run.
  rewrite items_storedQueue.
  change (fun item : QueueItem => JS.eqb (item_postId item) (post_id post))
    with (refersTo (post_id post)).
  rewrite (find_existsb_none _ _ H).
  erewrite bind_ok by apply createQueueItem_run.
  erewrite bind_ok by apply recalculateTotals_run.
  erewrite bind_ok by reflexivity.
  eexists. eexists. eexists. split; [reflexivity|].
  split; [reflexivity|]. cbn [items totalItems recounted setItems].
  rewrite length_app. cbn [List.length].
  repeat split. lia.
Qed.

Lemma getQueue_stored (q : PostQueue) (w : World) :
  storage w = Some q -> getQueue env w = (JS.Ok q, w).
Proof. intros H. rewrite getQueue_run. unfold storedQueue. now rewrite H. Qed.

Lemma consistent_total (w : World) :
  storageConsistent (storage w) ->
  totalItems (storedQueue env w) = List.length (storedItems w).
Proof.
  intros H. apply (storedQueue_consistent env) in H. destruct H as (Ht & _).
  now rewrite Ht, items_storedQueue.
Qed.

Lemma storage_is_some (w : World) :
  storedItems w <> [] -> exists q, storage w = Some q.
Proof.
  unfold storedItems. destruct (storage w) as [q|]; [now exists q|]. now intros [].
Qed.

End HandlerFacts.

(** X9: [handleAddToQueue] answers an error and changes nothing when the
    request names no post - [NO_CAPTURE] when it asks for the current capture
    and there is none, [VALIDATION_ERROR] otherwise; it answers that the post
    is already queued, and leaves the stored queue alone, when an item refers
    to the post; otherwise it appends one pending item for the post and
    reports as [queueLength] the number of items then stored. *)
Theorem handleAddToQueue_outcomes (env : Env) (currentCapture : option CapturedPost)
    (payload : option AddToQueuePayload) (requestId : option JSString) (w : World) :
  match requestedPost currentCapture payload with
  | None =>
      exists message,
        handleAddToQueue env currentCapture payload requestId w =
        (JS.Ok (AddRejected
                  (mkErrorResponse message
                     (if asksForCurrentCapture payload then NO_CAPTURE
                      else VALIDATION_ERROR)
                     requestId)), w)
  | Some post =>
      exists response w',
        handleAddToQueue env currentCapture payload requestId w = (JS.Ok response, w')
        /\ if existsb (refersTo (post_id post)) (storedItems w)
           then response = AddAlreadyQueued (JS.str "Post already in queue") requestId
                /\ storage w' = storage w
           else exists item,
                  response = AddQueued item (S (List.length (storedItems w)))
                               (JS.str "Post added to queue") requestId
                  /\ storedItems w' = storedItems w ++ [item]
                  /\ item_status item = Pending /\ item_post item = post
  end.
Proof.
  assert (Hpost : forall post,
    exists response w',
      (isInQueue <- isPostInQueue env (post_id post) ;;
       if isInQueue
       then ret (AddAlreadyQueued (JS.str "Post already in queue") requestId)
       else
         queueItem <- addToQueue env post ;;
         queue <- getQueue env ;;
         ret (AddQueued queueItem (totalItems queue) (JS.str "Post added to queue")
                requestId)) w = (JS.Ok response, w')
      /\ if existsb (refersTo (post_id post)) (storedItems w)
         then response = AddAlreadyQueued (JS.str "Post already in queue") requestId
              /\ storage w' = storage w
         else exists item,
                response = AddQueued item (S (List.length (storedItems w)))
                             (JS.str "Post added to queue") requestId
                /\ storedItems w' = storedItems w ++ [item]
                /\ item_status item = Pending /\ item_post item = post).
  { intros post. unfold isPostInQueue.
    rewrite bind_bind. erewrite bind_ok by apply getQueue_run.
    erewrite bind_ok by reflexivity. rewrite items_storedQueue.
    change (fun item : QueueItem => JS.eqb (item_postId item) (post_id post))
      with (refersTo (post_id post)).
    set (w1 := match storage w with
               | Some _ => w
               | None => withClockReads (S (clockReads w)) w
               end).
    assert (Hs1 : storage w1 = storage w).
    { unfold w1. destruct (storage w) eqn:E; cbn; now rewrite ?E. }
    assert (Hi1 : storedItems w1 = storedItems w).
    { unfold storedItems. now rewrite Hs1. }
    destruct (existsb (refersTo (post_id post)) (storedItems w)) eqn:Hin.
    - eexists. exists w1. split; [reflexivity|]. split; [reflexivity|exact Hs1].
    - destruct (addToQueue_new env post w1)
        as (item & q & w2 & E2 & S2 & I2 & T2 & P2 & _ & Q2).
      { now rewrite Hi1. }
      erewrite bind_ok by exact E2.
      erewrite bind_ok by (apply getQueue_stored; exact S2).
      eexists. eexists. split; [reflexivity|]. exists item.
      rewrite T2, Hi1. unfold storedItems at 3. rewrite S2, I2, Hi1.
      repeat split; auto. }
  unfold handleAddToQueue, requestedPost, createErrorResponse.
  destruct payload as [[[post|] [[|]|]]|]; cbn [ap_post ap_useCurrentCapture truthyBool];
    try apply Hpost;
    try (eexists; reflexivity).
  destruct currentCapture as [c|]; [apply Hpost|].
  eexists; reflexivity.
Qed.

(** X10: [handleRemoveFromQueue] without an item identifier, or with the
    empty one, answers [VALIDATION_ERROR] and changes nothing; with an
    identifier it removes the items that have it and reports as
    [queueLength] the number of items left, also when no item had it. *)
Theorem handleRemoveFromQueue_outcomes (env : Env) (itemId : option JSString)
    (requestId : option JSString) (w : World) :
  (truthyString itemId = false ->
   handleRemoveFromQueue env itemId requestId w =
   (JS.Ok (RemoveRejected (mkErrorResponse (JS.str "Item ID is required")
                             VALIDATION_ERROR requestId)), w))
  /\ (forall id, itemId = Some id -> id <> [] ->
      exists w',
        handleRemoveFromQueue env itemId requestId w =
        (JS.Ok (Removed (JS.str "Item removed from queue")
                  (List.length (storedItems w')) requestId), w')
        /\ storedItems w' = filter (fun i => negb (hasId id i)) (storedItems w)
        /\ sameButQueue w w').
Proof.
  split.
  - intros H. unfold handleRemoveFromQueue. destruct itemId as [id|]; [|reflexivity].
    now rewrite H.
  - intros id -> Hne. unfold handleRemoveFromQueue, truthyString.
    destruct id as [|c id]; [now contradiction Hne|]. cbn [JS.isEmpty negb].
    destruct (removeFromQueue_run env (c :: id) w) as (w' & E & Hs & Hc & Hsame).
    erewrite bind_ok by exact E.
    assert (Hq : exists q, storage w' = Some q /\ totalItems q = List.length (storedItems w')).
    { pose proof (consistent_total env w' Hc) as Ht.
      unfold removeFromQueue in E. erewrite bind_ok in E by apply getQueue_run.
      erewrite bind_ok in E by apply recalculateTotals_run.
      injection E as <-. eexists. split; [reflexivity|]. reflexivity. }
    destruct Hq as (q & Sq & Tq).
    erewrite bind_ok by (apply getQueue_stored; exact Sq).
    exists w'. rewrite Tq. repeat split; auto; apply Hsame.
Qed.

(** X11: [handleClearQueue] empties the queue and forgets the progress of
    the last run, but does not touch the processor: a run in flight stays in
    flight.  [handleGetQueueStatus], asked next, changes nothing and reports
    an empty queue with status empty, a percentage of 0, no batch progress,
    no completed batch, and the processing flag as it was. *)
Theorem handleClearQueue_then_status (env : Env) (requestId requestId' : option JSString)
    (w : World) :
  exists w1 data,
    handleClearQueue env requestId w =
      (JS.Ok (mkMessageResponse (JS.str "Queue cleared") requestId), w1)
    /\ flagProcessing w1 = flagProcessing w /\ flagCancelled w1 = flagCancelled w
    /\ progress w1 = progress w /\ log w1 = log w
    /\ handleGetQueueStatus env requestId' w1 = (JS.Ok (data, requestId'), w1)
    /\ items (qs_queue data) = [] /\ totalItems (qs_queue data) = 0
    /\ qs_status data = QsEmpty
    /\ qp_percentage (qs_progress data) = S754_zero false
    /\ qp_total (qs_progress data) = 0
    /\ qs_batchProgress data = None /\ qs_batchComplete data = false
    /\ qs_isProcessing data = flagProcessing w.
Proof.
  eexists. eexists. split; [reflexivity|].
  do 4 (split; [reflexivity|]).
  split.
  - unfold handleGetQueueStatus.
    erewrite bind_ok by (apply getQueue_stored; reflexivity). reflexivity.
  - repeat split.
Qed.

(** X12: [handleCancelProcessing] with no run in flight answers that
    nothing is in progress and changes nothing, so the request is not kept
    for a later run.  With a run in flight it raises the cancellation flag
    and changes nothing else; the loop over the pending items, resumed at
    its next item, then stops there: it reports a snapshot that is cancelled
    and complete when there is a callback, calls [processItem] for no
    further item and leaves the stored queue as it is. *)
Theorem handleCancelProcessing_outcomes (env : Env) (requestId : option JSString)
    (w : World) :
  (flagProcessing w = false ->
   handleCancelProcessing requestId w =
   (JS.Ok (mkMessageResponse (JS.str "No processing in progress") requestId), w))
  /\ (flagProcessing w = true ->
      handleCancelProcessing requestId w =
      (JS.Ok (mkMessageResponse (JS.str "Processing cancelled") requestId),
       withCancelled true w)
      /\ forall shouldUpload folderId onProgress continueOnError maxRetries totalCount
                item rest index,
           exists w',
             itemLoop env shouldUpload folderId onProgress continueOnError maxRetries
               totalCount (item :: rest) index (withCancelled true w) =
             (JS.Ok BrokeOnCancel, w')
             /\ storage w' = storage w
             /\ progress w' = setPhase PhComplete (setCancelled true (progress w))
             /\ log w' = log w ++ match onProgress with
                                  | Some _ => [EvProgress (progress w')]
                                  | None => []
                                  end).
Proof.
  split; intros H; unfold handleCancelProcessing, isProcessing.
  - erewrite bind_ok by reflexivity. rewrite H. reflexivity.
  - erewrite bind_ok by reflexivity. rewrite H. cbn [negb].
    split; [unfold cancel, modify, bind; now rewrite H|].
    intros. cbn [itemLoop].
    assert (E1 : (if cancelArrives env index then cancel else ret tt) (withCancelled true w)
                 = (JS.Ok tt, withCancelled true w)).
    { destruct (cancelArrives env index); [|reflexivity].
      unfold cancel, modify. cbn [flagProcessing withCancelled]. now rewrite H. }
    erewrite bind_ok by exact E1.
    erewrite bind_ok by reflexivity. cbn [flagCancelled withCancelled].
    erewrite bind_ok by reflexivity. erewrite bind_ok by reflexivity.
    match goal with |- context [bind (notify ?cb) _ ?w0] =>
      destruct (snapshots_of_notify cb w0) as (wn & En & Pn & Sn & _ & Ln)
    end.
    erewrite bind_ok by exact En.
    exists wn. split; [reflexivity|]. rewrite Ln, Pn, Sn. repeat split.
Qed.

Lemma handleCancelProcessing_outcomes_witness :
  handleCancelProcessing None initialWorld =
  (JS.Ok (mkMessageResponse (JS.str "No processing in progress") None), initialWorld).
Proof.
  apply (handleCancelProcessing_outcomes quietEnv None initialWorld). reflexivity.
Defined.



(* ================================================================== *)
(** * The maintenance handlers of the queue *)
(* ================================================================== *)

Lemma length_without_status (s : QueueItemStatus) (l : list QueueItem) :
  List.length (filter (fun i => negb (statusEqb (item_status i) s)) l) =
  List.length l - countStatus s l.
Proof.
  assert (H : List.length (filter (fun i => negb (statusEqb (item_status i) s)) l)
              + countStatus s l = List.length l).
  { unfold countStatus. induction l as [|i l IH]; [reflexivity|].
    cbn [filter]. destruct (statusEqb (item_status i) s); cbn [negb List.length]; lia. }
  lia.
Qed.

(** X27: [handleClearCompletedItems] answers with the number of items that
    are left, which is the number of stored items that were not completed,
    and [handleRetryFailedItems] answers with the number of items that were
    failed, also spelled out in its message; neither touches the
    processing flag, the cancel flag or the recorded progress, and both
    pass the request identifier on. *)
Theorem maintenance_handlers_report (env : Env) (requestId : option JSString) (w : World) :
  (exists w',
      handleClearCompletedItems env requestId w =
        (JS.Ok (mkCountResponse (JS.str "Completed items cleared")
                  (List.length (storedItems w) - countStatus Completed (storedItems w))
                  requestId), w')
      /\ storedItems w' =
         filter (fun i => negb (statusEqb (item_status i) Completed)) (storedItems w)
      /\ sameButQueue w w')
  /\ (exists w',
      handleRetryFailedItems env requestId w =
        (JS.Ok (mkCountResponse
                  (JS.ofNat (countStatus Failed (storedItems w))
                   ++ JS.str " items reset for retry")
                  (countStatus Failed (storedItems w)) requestId), w')
      /\ storedItems w' = map retryItem (storedItems w)
      /\ sameButQueue w w').
Proof.
  split.
  - destruct (clearCompletedItems_run env w) as (w' & E & Hs & Hc & Hsame).
    exists w'. unfold handleClearCompletedItems.
    erewrite bind_ok by exact E.
    assert (Hq : exists q, storage w' = Some q /\ totalItems q = List.length (storedItems w')).
    { pose proof (consistent_total env w' Hc) as Ht.
      unfold clearCompletedItems in E. erewrite bind_ok in E by apply getQueue_run.
      erewrite bind_ok in E by apply recalculateTotals_run.
      injection E as <-. eexists. split; [reflexivity|]. reflexivity. }
    destruct Hq as (q & Sq & Tq).
    erewrite bind_ok by (apply getQueue_stored; exact Sq).
    rewrite Tq, Hs, length_without_status.
    split; [reflexivity|]. split; [reflexivity|exact Hsame].
  - destruct (retryFailedItems_run env w) as (w' & E & Hs & _ & Hsame).
    exists w'. unfold handleRetryFailedItems.
    erewrite bind_ok by exact E.
    split; [reflexivity|]. split; [exact Hs|exact Hsame].
Qed.

(* ================================================================== *)
(** * The percentage of a finished queue *)
(* ================================================================== *)

Section FullPercentage.
Import Float64.

Local Open Scope Z_scope.

Lemma digits2_pos_upper (p : positive) : Zpos p < 2 ^ Zpos (digits2_pos p).
Proof.
  induction p as [p IH|p IH|]; cbn [digits2_pos].
  - rewrite Pos2Z.inj_succ, Z.pow_succ_r by lia. lia.
  - rewrite Pos2Z.inj_succ, Z.pow_succ_r by lia. lia.
  - reflexivity.
Qed.

Lemma digits2_pos_shifted (p k : positive) :
  Zpos (digits2_pos (Pos.iter xO p k)) = Zpos (digits2_pos p) + Zpos k.
Proof.
  induction k as [|k IH] using Pos.peano_ind.
  - cbn [Pos.iter digits2_pos]. lia.
  - rewrite Pos.iter_succ. cbn [digits2_pos]. lia.
Qed.

(** A mantissa of exactly 53 digits with an exponent in range is already
    rounded. *)
Lemma binary_round_aux_exact (m : positive) (e : Z) :
  Zpos (digits2_pos m) = 53 -> -1074 <= e <= 971 ->
  binary_round_aux prec emax false (Zpos m) e loc_Exact = S754_finite false m e.
Proof.
  intros Hd He.
  assert (Hs : forall l, shr_fexp prec emax (Zpos m) e l = (shr_record_of_loc (Zpos m) l, e)).
  { intros l. unfold shr_fexp, shr. cbn [Zdigits2]. rewrite Hd.
    unfold fexp, emin, prec, emax.
    replace (Z.max (53 + e - 53) (3 - 1024 - 53) - e) with 0 by lia. reflexivity. }
  unfold binary_round_aux. rewrite Hs.
  cbn [shr_record_of_loc shr_m loc_of_shr_record round_nearest_even].
  rewrite Hs. cbn [shr_record_of_loc shr_m].
  unfold emax, prec.
  destruct (e <=? 1024 - 53) eqn:E; [reflexivity|]. apply Z.leb_gt in E. lia.
Qed.

(** A count below 2^53 is a finite positive number. *)
Lemma ofCount_finite (n : nat) :
  (0 < n)%nat -> Z.of_nat n < 2 ^ 53 ->
  exists m e, ofCount n = S754_finite false m e.
Proof.
  intros Hn Hb. unfold ofCount, binary_normalize.
  destruct (Z.of_nat n) as [|p|p] eqn:E; try lia.
  pose proof (digits2_pos_lower p) as Hl.
  pose proof (digits2_pos_upper p) as Hu.
  set (d := Zpos (digits2_pos p)) in *.
  assert (Hd1 : 1 <= d) by (unfold d; lia).
  assert (Hd : d <= 53).
  { destruct (Z.le_gt_cases d 53) as [H|H]; [exact H|].
    assert (2 ^ 54 <= 2 ^ d) by (apply Z.pow_le_mono_r; lia).
    assert (2 ^ 54 = 2 * 2 ^ 53) by reflexivity. lia. }
  unfold binary_round, shl_align. fold d.
  unfold fexp, emin, prec, emax.
  destruct (Z.max (d + 0 - 53) (3 - 1024 - 53) - 0) as [|k|k] eqn:Ek; try lia.
  - exists p, 0. apply binary_round_aux_exact; [fold d|]; lia.
  - exists (Pos.iter xO p k), (Z.max (d + 0 - 53) (3 - 1024 - 53)).
    apply binary_round_aux_exact; [rewrite digits2_pos_shifted; fold d|]; lia.
Qed.

(** A finite number divided by itself is one. *)
Lemma div_self (s : bool) (m : positive) (e : Z) :
  div (S754_finite s m e) (S754_finite s m e) = ofCount 1.
Proof.
  unfold div, SFdiv, SFdiv_core_binary.
  rewrite !Z.sub_diag.
  change (Z.min (fexp prec emax 0) 0) with (-53).
  change (0 - -53) with 53.
  rewrite Z.shiftl_mul_pow2 by lia.
  assert (Hq : Z.div_eucl (Zpos m * 2 ^ 53) (Zpos m) = (2 ^ 53, 0)).
  { pose proof (Z.div_mul (2 ^ 53) (Zpos m) ltac:(lia)) as Hd.
    pose proof (Z.mod_mul (2 ^ 53) (Zpos m) ltac:(lia)) as Hr.
    rewrite (Z.mul_comm (Zpos m)).
    unfold Z.div in Hd. unfold Z.modulo in Hr.
    destruct (Z.div_eucl (2 ^ 53 * Zpos m) (Zpos m)) as [q r].
    now subst q r. }
  rewrite Hq.
  assert (Hl : new_location (Zpos m) 0 = loc_Exact).
  { unfold new_location, new_location_even, new_location_odd.
    now destruct (Z.even (Zpos m)). }
  rewrite Hl. now destruct s.
Qed.

Lemma roundedPercentage_full (t : nat) :
  (0 < t)%nat -> Z.of_nat t < 2 ^ 53 -> roundedPercentage t t = ofCount 100.
Proof.
  intros Ht Hb. unfold roundedPercentage.
  destruct (ofCount_finite t Ht Hb) as (m & e & ->).
  rewrite div_self. reflexivity.
Qed.

End FullPercentage.

(** X26: for a queue with at least one item (and fewer than 2^53), in
    which the completed and the failed items together are all the items,
    calculateQueueProgress reports exactly 100 percent: the quotient of a
    count by itself is exactly one in binary64, whatever the count. *)
Theorem calculateQueueProgress_all_settled (queue : PostQueue) :
  (0 < totalItems queue)%nat ->
  (Z.of_nat (totalItems queue) < 2 ^ 53)%Z ->
  completedItems queue + failedItems queue = totalItems queue ->
  qp_percentage (calculateQueueProgress queue) = Float64.ofCount 100.
Proof.
  intros Ht Hb Hall. unfold calculateQueueProgress. cbn [qp_percentage].
  destruct (Nat.eqb_spec (totalItems queue) 0) as [E|_]; [lia|].
  rewrite Hall. now apply roundedPercentage_full.
Qed.

Lemma calculateQueueProgress_all_settled_witness :
  qp_percentage
    (calculateQueueProgress
       (mkPostQueue [sampleItem "a" Completed; sampleItem "b" Failed; sampleItem "c" Completed]
          3 0 0 2 1 0 0)) = Float64.ofCount 100.
Proof.
  apply (calculateQueueProgress_all_settled
           (mkPostQueue [sampleItem "a" Completed; sampleItem "b" Failed;
                         sampleItem "c" Completed] 3 0 0 2 1 0 0)).
  - cbn. lia.
  - reflexivity.
  - reflexivity.
Defined.

(* ================================================================== *)
(** * More about the upload sink *)
(* ================================================================== *)

Lemma uploadLoop_answers (fetches : Z -> FetchOutcome) (maxRetries : Z) (remaining : nat) :
  forall (attempt : Z) (w : World),
    exists result evs,
      uploadLoop fetches maxRetries remaining attempt w =
        (JS.Ok result, withLog (log w ++ evs) w)
      /\ uploadAttempts evs <= remaining
      /\ (0 < remaining -> 0 < uploadAttempts evs)
      /\ snapshotsOf evs = [] /\ processItemCalls evs = 0
      /\ (ur_success result = true
          \/ exists message, result = uploadFailure message /\ message <> []).
Proof.
  assert (Hw : forall w, w = withLog (log w ++ []) w).
  { intros w. rewrite app_nil_r. now destruct w. }
  assert (Hperform : forall outcome result,
             performUpload outcome = JS.Ok result -> ur_success result = true).
  { intros [e|r] result; cbn [performUpload]; [discriminate|].
    destruct (negb (http_ok r)); [destruct (http_errorData r); discriminate|].
    destruct (http_json r); [|discriminate]. now intros [= <-]. }
  induction remaining as [|remaining IH]; intros attempt w; cbn [uploadLoop].
  - exists (uploadFailure (JS.str "Max retries exceeded")), [].
    split; [unfold ret; now rewrite <- Hw|].
    split; [cbn; lia|]. split; [lia|]. split; [reflexivity|]. split; [reflexivity|].
    right. eexists. split; [reflexivity|discriminate].
  - erewrite bind_ok by apply emit_run.
    assert (Hone : forall result : UploadResult,
               (ur_success result = true
                \/ exists message, result = uploadFailure message /\ message <> []) ->
               exists evs,
                 (JS.Ok result, withLog (log w ++ [EvUploadAttempt attempt]) w) =
                 (JS.Ok result, withLog (log w ++ evs) w)
                 /\ uploadAttempts evs <= S remaining
                 /\ (0 < S remaining -> 0 < uploadAttempts evs)
                 /\ snapshotsOf evs = [] /\ processItemCalls evs = 0
                 /\ (ur_success result = true
                     \/ exists message, result = uploadFailure message /\ message <> [])).
    { intros result R. exists [EvUploadAttempt attempt]. split; [reflexivity|].
      split; [cbn; lia|]. split; [cbn; lia|]. auto. }
    destruct (performUpload (fetches attempt)) as [result|error] eqn:Ep.
    + exists result. apply Hone. left.
      now apply Hperform with (outcome := fetches attempt).
    + destruct (isAuthError (errorMessageOf error)) eqn:Ea.
      * eexists. apply Hone. right. eexists. split; [reflexivity|].
        intros E. now rewrite E in Ea.
      * destruct (attempt =? maxRetries)%Z.
        -- eexists. apply Hone. right. eexists. split; [reflexivity|]. discriminate.
        -- unfold delay. erewrite bind_ok by apply emit_run.
           match goal with |- context [uploadLoop _ _ _ ?a ?w0] =>
             destruct (IH a w0) as (result & evs & E & U & _ & Sn & P & R)
           end.
           exists result, (EvUploadAttempt attempt :: EvDelay (2 ^ attempt * 1000) :: evs).
           split.
           { rewrite E. f_equal. cbn [log withLog].
             rewrite <- !app_assoc. destruct w; reflexivity. }
           unfold uploadAttempts, processItemCalls, snapshotsOf in *.
           cbn [filter filterMap isUploadAttempt isProcessItem isSnapshot List.length].
           split; [lia|]. split; [lia|]. auto.
Qed.

(** X14: whatever [fetch] does, [uploadToDrive] returns a result and
    changes nothing but the log: it never throws.  It makes at most
    [maxRetries] attempts (3 by default), at least one when [maxRetries] is
    positive, and none when it is not - then the result is the failure
    [Max retries exceeded].  A result that is not a success is a failure
    that carries a message which is not empty. *)
Theorem uploadToDrive_always_answers (fetches : Z -> FetchOutcome) (filename : JSString)
    (options : UploadOptions) (w : World) :
  let maxRetries := withDefault (uo_maxRetries options) 3%Z in
  exists result evs,
    uploadToDrive fetches filename options w = (JS.Ok result, withLog (log w ++ evs) w)
    /\ uploadAttempts evs <= Z.to_nat maxRetries
    /\ ((0 < maxRetries)%Z -> 0 < uploadAttempts evs)
    /\ ((maxRetries <= 0)%Z ->
        evs = [] /\ result = uploadFailure (JS.str "Max retries exceeded"))
    /\ (ur_success result = true
        \/ exists message, result = uploadFailure message /\ message <> []).
Proof.
  cbv zeta. unfold uploadToDrive.
  change (match uo_maxRetries options with Some n => n | None => 3%Z end)
    with (withDefault (uo_maxRetries options) 3%Z).
  set (maxRetries := withDefault (uo_maxRetries options) 3%Z).
  destruct (uploadLoop_answers fetches maxRetries (Z.to_nat maxRetries) 1 w)
    as (result & evs & E & U & L & _ & _ & R).
  destruct (Z.to_nat maxRetries) as [|n] eqn:En.
  - cbn [uploadLoop] in E |- *. exists (uploadFailure (JS.str "Max retries exceeded")), [].
    split; [unfold ret; rewrite app_nil_r; now destruct w|].
    split; [cbn; lia|]. split; [lia|]. split; [auto|].
    right. eexists. split; [reflexivity|discriminate].
  - exists result, evs. rewrite <- En in *. split; [exact E|]. split; [exact U|].
    split; [intros _; apply L; lia|].
    split; [lia|exact R].
Qed.

(* ================================================================== *)
(** * The upload history *)
(* ================================================================== *)

Lemma sliceLast_length {A} (n : nat) (l : list A) :
  List.length (sliceLast n l) = Nat.min n (List.length l).
Proof. unfold sliceLast. rewrite length_skipn. lia. Qed.

Lemma rev_sliceLast {A} (n : nat) (l : list A) :
  rev (sliceLast n l) = firstn n (rev l).
Proof.
  unfold sliceLast.
  destruct (Nat.le_gt_cases (List.length l) n) as [Hle|Hgt].
  - replace (List.length l - n) with 0 by lia. cbn [skipn].
    rewrite firstn_all2; [reflexivity|]. now rewrite length_rev.
  - rewrite <- (rev_involutive l) at 2. rewrite skipn_rev, rev_involutive, length_rev.
    f_equal. lia.
Qed.

(** X15: [saveUploadToHistory] keeps at most the 100 newest records: the
    history grows by one until it holds 100 records and stays at 100 from
    then on; read back newest first, as [handleGetUploadHistory] returns it,
    it starts with the record just saved, followed by the 99 newest of the
    records it held before, in their order. *)
Theorem saveUploadToHistory_keeps_newest (record : UploadRecord) (store : HistoryStore) :
  let store' := saveUploadToHistory record store in
  List.length (getUploadHistory store') =
    Nat.min 100 (S (List.length (getUploadHistory store)))
  /\ handleGetUploadHistory store' = record :: firstn 99 (handleGetUploadHistory store)
  /\ (List.length (getUploadHistory store) < 100 ->
      getUploadHistory store' = getUploadHistory store ++ [record]).
Proof.
  cbv zeta. unfold handleGetUploadHistory, saveUploadToHistory, getUploadHistory.
  cbn [withDefault]. set (h := withDefault store []).
  split; [rewrite sliceLast_length, length_app; cbn [List.length]; lia|].
  split.
  - rewrite rev_sliceLast, rev_app_distr. reflexivity.
  - intros H. unfold sliceLast. rewrite length_app. cbn [List.length].
    replace (List.length h + 1 - 100) with 0 by lia. reflexivity.
Qed.

(* ================================================================== *)
(** * The auth provider *)
(* ================================================================== *)

Lemma st_bind_ok {S A B} (c : ST S A) (k : A -> ST S B) (s s' : S) (a : A) :
  c s = (JS.Ok a, s') -> st_bind c k s = k a s'.
Proof. intros E. unfold st_bind. now rewrite E. Qed.

Lemma st_bind_throw {S A B} (c : ST S A) (k : A -> ST S B) (s s' : S) (e : JS.Exn) :
  c s = (JS.Throw e, s') -> st_bind c k s = (JS.Throw e, s').
Proof. intros E. unfold st_bind. now rewrite E. Qed.

Section AuthFacts.
Import GoogleAuth.
Variable provider : Provider.

Lemma truthyString_token (o : option JSString) :
  truthyString o = true -> exists tok, o = Some tok /\ tok <> [].
Proof.
  destruct o as [[|c tok]|]; cbn; try discriminate.
  intros _. eexists. split; [reflexivity|discriminate].
Qed.

(** The two ways [requestToken] ends. *)
Lemma requestToken_run (interactive : bool) (s : Store) :
  (exists tok,
      tok <> []
      /\ getAuthToken provider (identityCalls s) interactive =
         mkIdentityOutcome None (Some tok)
      /\ requestToken provider interactive s =
         (JS.Ok tok,
          mkStore (Some (mkAuthState (Some tok)
                           (Some (clock provider (clockReads s) + 3600000)%Z) None true))
            (S (clockReads s)) (S (identityCalls s)) (userinfoCalls s)
            (removedTokens s)))
  \/ (exists message,
        message <> []
        /\ requestToken provider interactive s =
           (JS.Throw (JS.ErrorObj message),
            mkStore (auth s) (clockReads s) (S (identityCalls s)) (userinfoCalls s)
              (removedTokens s))).
Proof.
  unfold requestToken. erewrite st_bind_ok by reflexivity.
  erewrite st_bind_ok by reflexivity. cbn [identityCalls auth clockReads userinfoCalls
                                            removedTokens].
  destruct (getAuthToken provider (identityCalls s) interactive) as [err tok] eqn:Eo.
  cbn [lastError token]. destruct err as [message|].
  - right.
    destruct (JS.includes _ (JS.str "not approve") || JS.includes _ (JS.str "cancel")).
    + eexists. split; [|reflexivity]. discriminate.
    + exists (orElse message (JS.str "Authentication failed")). split; [|reflexivity].
      unfold orElse. destruct message as [[|c m]|]; cbn; discriminate.
  - destruct (truthyString tok) eqn:Et.
    + left. destruct (truthyString_token tok Et) as (t & -> & Hne).
      exists t. split; [exact Hne|]. split; [reflexivity|]. reflexivity.
    + right. eexists. split; [|reflexivity]. discriminate.
Qed.

Lemma getAuthState_run (s : Store) :
  getAuthState s = (JS.Ok (withDefault (auth s) DEFAULT_AUTH_STATE), s).
Proof. reflexivity. Qed.

Lemma isTokenExpired_run (a : AuthState) (s : Store) :
  isTokenExpired provider a s =
  match expiresAt a with
  | None => (JS.Ok true, s)
  | Some t =>
      if (t =? 0)%Z then (JS.Ok true, s)
      else (JS.Ok (t - EXPIRATION_BUFFER_MS <=? clock provider (clockReads s))%Z,
            mkStore (auth s) (S (clockReads s)) (identityCalls s) (userinfoCalls s)
              (removedTokens s))
  end.
Proof.
  unfold isTokenExpired. destruct (expiresAt a) as [t|]; [|reflexivity].
  destruct (t =? 0)%Z; reflexivity.
Qed.

Lemma getAccessToken_cached (interactive : bool) (s : Store) (a : AuthState)
    (tok : JSString) (t : Z) :
  auth s = Some a -> isAuthenticated a = true -> accessToken a = Some tok -> tok <> [] ->
  expiresAt a = Some t -> t <> 0%Z ->
  (clock provider (clockReads s) < t - EXPIRATION_BUFFER_MS)%Z ->
  getAccessToken provider interactive s =
  (JS.Ok tok, mkStore (auth s) (S (clockReads s)) (identityCalls s) (userinfoCalls s)
                (removedTokens s)).
Proof.
  intros Ha Hauth Htok Hne Hexp Ht Hclock. unfold getAccessToken.
  erewrite st_bind_ok by apply getAuthState_run.
  rewrite Ha. cbn [withDefault]. rewrite Hauth, Htok.
  assert (Htruthy : truthyString (Some tok) = true).
  { destruct tok; [now contradiction Hne|reflexivity]. }
  rewrite Htruthy. cbn [andb].
  unfold st_bind. rewrite isTokenExpired_run, Hexp.
  destruct (Z.eqb_spec t 0) as [H0|_]; [now contradiction Ht|].
  destruct (Z.leb_spec (t - EXPIRATION_BUFFER_MS) (clock provider (clockReads s)))
    as [Hle|_]; [lia|].
  cbn. now rewrite Ha.
Qed.


(** A stored state [getAccessToken] does not use sends it to the provider. *)
Lemma getAccessToken_signed_out (interactive : bool) (s : Store) :
  isAuthenticated (withDefault (auth s) DEFAULT_AUTH_STATE) = false ->
  getAccessToken provider interactive s = requestToken provider interactive s.
Proof.
  intros H. unfold getAccessToken.
  erewrite st_bind_ok by apply getAuthState_run. rewrite H. cbn [andb].
  erewrite st_bind_ok by reflexivity. reflexivity.
Qed.

(** What [requestToken] does, by what the callback finds. *)
Lemma requestToken_answers (interactive : bool) (s : Store) :
  requestToken provider interactive s =
  match lastError (getAuthToken provider (identityCalls s) interactive),
        orNull (token (getAuthToken provider (identityCalls s) interactive)) with
  | Some message, _ =>
      (JS.Throw (JS.ErrorObj (lastErrorMessage message)),
       mkStore (auth s) (clockReads s) (S (identityCalls s)) (userinfoCalls s)
         (removedTokens s))
  | None, Some tok =>
      (JS.Ok tok,
       mkStore (Some (mkAuthState (Some tok)
                        (Some (clock provider (clockReads s) + 3600000)%Z) None true))
         (S (clockReads s)) (S (identityCalls s)) (userinfoCalls s) (removedTokens s))
  | None, None =>
      (JS.Throw (JS.ErrorObj (JS.str "No token received")),
       mkStore (auth s) (clockReads s) (S (identityCalls s)) (userinfoCalls s)
         (removedTokens s))
  end.
Proof.
  unfold requestToken. erewrite st_bind_ok by reflexivity.
  erewrite st_bind_ok by reflexivity. cbn [identityCalls auth clockReads userinfoCalls
                                            removedTokens].
  destruct (getAuthToken provider (identityCalls s) interactive) as [err tok].
  cbn [lastError token]. destruct err as [message|].
  - unfold lastErrorMessage.
    destruct (JS.includes _ (JS.str "not approve") || JS.includes _ (JS.str "cancel"));
      reflexivity.
  - destruct tok as [[|c tok]|]; reflexivity.
Qed.

Lemma lastErrorMessage_not_empty (message : option JSString) :
  lastErrorMessage message <> [].
Proof.
  unfold lastErrorMessage.
  destruct (JS.includes _ (JS.str "not approve") || JS.includes _ (JS.str "cancel"));
    [discriminate|].
  unfold orElse. destruct message as [[|c m]|]; cbn; discriminate.
Qed.

Lemma orNull_token (o : option JSString) (tok : JSString) :
  orNull o = Some tok -> o = Some tok /\ tok <> [].
Proof.
  destruct o as [[|c t]|]; cbn; try discriminate.
  intros [= <-]. split; [reflexivity|discriminate].
Qed.

(** [getAccessToken] answers with the token in force or asks the
    provider. *)
Lemma getAccessToken_decides (interactive : bool) (s : Store) :
  match tokenInForce provider s with
  | Some tok =>
      tok <> []
      /\ exists s', getAccessToken provider interactive s = (JS.Ok tok, s')
                    /\ auth s' = auth s /\ identityCalls s' = identityCalls s
  | None =>
      exists s0, auth s0 = auth s /\ identityCalls s0 = identityCalls s
                 /\ getAccessToken provider interactive s =
                    requestToken provider interactive s0
  end.
Proof.
  unfold tokenInForce, getAccessToken.
  erewrite st_bind_ok by apply getAuthState_run.
  set (a := withDefault (auth s) DEFAULT_AUTH_STATE).
  destruct (isAuthenticated a) eqn:Hauth; cbn [andb].
  2:{ erewrite st_bind_ok by reflexivity.
      destruct (expiresAt a); exists s; auto. }
  destruct (truthyString (accessToken a)) eqn:Htr.
  - destruct (truthyString_token _ Htr) as (tok & Htok & Hne).
    unfold st_bind. rewrite isTokenExpired_run.
    destruct (expiresAt a) as [t|]; [|cbn [st_ret negb]; exists s; auto].
    destruct (t =? 0)%Z; cbn [st_ret negb andb]; [exists s; auto|].
    rewrite Z.ltb_antisym.
    destruct (t - EXPIRATION_BUFFER_MS <=? clock provider (clockReads s))%Z;
      cbn [st_ret negb]; [eexists; split; [|split; [|reflexivity]]; reflexivity|].
    rewrite Htok. cbn [orNull withDefault].
    destruct tok as [|c tok]; [now contradiction Hne|]. cbn [JS.isEmpty].
    split; [discriminate|]. eexists. split; [reflexivity|]. split; reflexivity.
  - erewrite st_bind_ok by reflexivity.
    assert (Hnull : orNull (accessToken a) = None).
    { destruct (accessToken a) as [[|c tok]|]; cbn in *; try reflexivity. discriminate. }
    rewrite Hnull.
    destruct (expiresAt a) as [t|]; [|exists s; auto].
    destruct (negb (t =? 0)%Z && _); exists s; auto.
Qed.

(** Every way [getAccessToken] ends. *)
Lemma getAccessToken_run (interactive : bool) (s : Store) :
  (exists tok s', getAccessToken provider interactive s = (JS.Ok tok, s')
                  /\ tok <> [] /\ auth s' = auth s /\ identityCalls s' = identityCalls s
                  /\ removedTokens s' = removedTokens s
                  /\ accessToken (withDefault (auth s) DEFAULT_AUTH_STATE) = Some tok)
  \/ (exists tok s' now, getAccessToken provider interactive s = (JS.Ok tok, s')
                         /\ tok <> []
                         /\ auth s' = Some (mkAuthState (Some tok) (Some (now + 3600000)%Z)
                                              None true)
                         /\ identityCalls s' = S (identityCalls s)
                         /\ removedTokens s' = removedTokens s)
  \/ (exists message s', getAccessToken provider interactive s =
                            (JS.Throw (JS.ErrorObj message), s')
                         /\ message <> [] /\ auth s' = auth s
                         /\ identityCalls s' = S (identityCalls s)
                         /\ removedTokens s' = removedTokens s).
Proof.
  unfold getAccessToken.
  erewrite st_bind_ok by apply getAuthState_run.
  set (a := withDefault (auth s) DEFAULT_AUTH_STATE).
  assert (Hreq : forall s0,
             auth s0 = auth s -> identityCalls s0 = identityCalls s ->
             removedTokens s0 = removedTokens s ->
             (exists tok s' now, requestToken provider interactive s0 = (JS.Ok tok, s')
                                 /\ tok <> []
                                 /\ auth s' = Some (mkAuthState (Some tok)
                                                      (Some (now + 3600000)%Z) None true)
                                 /\ identityCalls s' = S (identityCalls s)
                                 /\ removedTokens s' = removedTokens s)
             \/ (exists message s', requestToken provider interactive s0 =
                                      (JS.Throw (JS.ErrorObj message), s')
                                    /\ message <> [] /\ auth s' = auth s
                                    /\ identityCalls s' = S (identityCalls s)
                                    /\ removedTokens s' = removedTokens s)).
  { intros s0 Ha Hi Hr.
    destruct (requestToken_run interactive s0) as [(tok & Hne & _ & E)|(m & Hne & E)].
    - left. eexists. eexists. eexists. split; [exact E|]. cbn. rewrite Hi, Hr. auto.
    - right. eexists. eexists. split; [exact E|]. cbn. rewrite Ha, Hi, Hr. auto. }
  destruct (isAuthenticated a && truthyString (accessToken a)) eqn:Hu.
  - apply andb_prop in Hu as (_ & Htr).
    destruct (truthyString_token _ Htr) as (tok & Htok & Hne).
    unfold st_bind. rewrite isTokenExpired_run.
    destruct (expiresAt a) as [t|].
    + destruct (t =? 0)%Z; cbn [st_ret negb].
      * right. now apply Hreq.
      * destruct (t - EXPIRATION_BUFFER_MS <=? clock provider (clockReads s))%Z;
          cbn [st_ret negb].
        -- right. now apply Hreq.
        -- left. exists tok. eexists. rewrite Htok. cbn [withDefault].
           split; [reflexivity|]. cbn. auto.
    + cbn [st_ret negb]. right. now apply Hreq.
  - erewrite st_bind_ok by reflexivity. right. now apply Hreq.
Qed.

End AuthFacts.

(* ================================================================== *)
(** * The handlers of a single capture *)
(* ================================================================== *)

Lemma st_try_ok {S A} (c : ST S A) (h : JS.Exn -> ST S A) (s s' : S) (a : A) :
  c s = (JS.Ok a, s') -> st_try c h s = (JS.Ok a, s').
Proof. intros E. unfold st_try. now rewrite E. Qed.

Lemma st_try_throw {S A} (c : ST S A) (h : JS.Exn -> ST S A) (s s' : S) (e : JS.Exn) :
  c s = (JS.Throw e, s') -> st_try c h s = h e s'.
Proof. intros E. unfold st_try. now rewrite E. Qed.

Section CaptureFacts.
Import CaptureHandlers.
Variable env : Env.
Variable provider : GoogleAuth.Provider.

Lemma onAuth_run {A} (c : ST GoogleAuth.Store A) (s : State) (r : JS.Result A)
    (a : GoogleAuth.Store) :
  c (authStore s) = (r, a) -> onAuth c s = (r, setAuthStore a s).
Proof. intros E. unfold onAuth. now rewrite E. Qed.

Lemma onWorld_run {A} (c : M A) (s : State) (r : JS.Result A) (w : World) :
  c (world s) = (r, w) -> onWorld c s = (r, setWorld w s).
Proof. intros E. unfold onWorld. now rewrite E. Qed.

Lemma setAuthStore_same (s : State) : setAuthStore (authStore s) s = s.
Proof. now destruct s. Qed.

Lemma onAuth_set {A} (c : ST GoogleAuth.Store A) (s : State) (r : JS.Result A)
    (a0 a1 : GoogleAuth.Store) :
  c a0 = (r, a1) -> onAuth c (setAuthStore a0 s) = (r, setAuthStore a1 s).
Proof. intros E. unfold onAuth. cbn [authStore setAuthStore]. now rewrite E. Qed.

(** The check of the authentication returns and touches the store of the
    auth service only. *)
Lemma authForUpload_run (s : State) :
  exists checked a,
    authForUpload provider s = (JS.Ok checked, setAuthStore a s).
Proof.
  unfold authForUpload.
  erewrite st_bind_ok by (apply onAuth_run; apply getAuthState_run).
  rewrite setAuthStore_same.
  set (authState := withDefault (GoogleAuth.auth (authStore s)) GoogleAuth.DEFAULT_AUTH_STATE).
  assert (Hfresh : forall a0,
             exists checked a,
               st_try
                 (st_bind (onAuth (GoogleAuth.getAccessToken provider true))
                    (fun _ => st_bind (onAuth GoogleAuth.getAuthState)
                                (fun fresh => st_ret (Some fresh))))
                 (fun _ => st_ret None) (setAuthStore a0 s)
               = (JS.Ok checked, setAuthStore a s)).
  { intros a0.
    destruct (GoogleAuth.getAccessToken provider true a0) as [[tok|e] a1] eqn:E.
    - eexists. exists a1. apply st_try_ok.
      erewrite st_bind_ok by (apply onAuth_set; exact E).
      erewrite st_bind_ok by (apply onAuth_set; apply getAuthState_run).
      reflexivity.
    - exists None, a1. erewrite st_try_throw; [reflexivity|].
      erewrite st_bind_throw; [reflexivity|]. apply onAuth_set. exact E. }
  destruct (GoogleAuth.isAuthenticated authState) eqn:Hauth; cbn [negb].
  - destruct (GoogleAuth.isTokenExpired provider authState (authStore s))
      as [[stale|e] a0] eqn:E.
    + erewrite st_bind_ok by (apply onAuth_run; exact E).
      destruct stale.
      * apply Hfresh.
      * eexists. exists a0. reflexivity.
    + exfalso. rewrite isTokenExpired_run in E.
      destruct (GoogleAuth.expiresAt authState) as [t|]; [|discriminate].
      destruct (t =? 0)%Z; discriminate.
  - erewrite st_bind_ok by reflexivity.
    destruct (Hfresh (authStore s)) as (checked & a & E).
    rewrite setAuthStore_same in E. now exists checked, a.
Qed.

(** The check of the authentication gives the token to upload with. *)
Lemma authForUpload_token (s : State) :
  exists checked a,
    authForUpload provider s = (JS.Ok checked, setAuthStore a s)
    /\ match checked with
       | Some authState => orNull (GoogleAuth.accessToken authState)
       | None => None
       end = tokenForUpload provider (authStore s).
Proof.
  unfold authForUpload, tokenForUpload.
  erewrite st_bind_ok by (apply onAuth_run; apply getAuthState_run).
  rewrite setAuthStore_same.
  set (authState := withDefault (GoogleAuth.auth (authStore s)) GoogleAuth.DEFAULT_AUTH_STATE).
  assert (Hkeep : forall tok : JSString, tok <> [] -> orNull (Some tok) = Some tok).
  { intros [|c tok] H; [now contradiction H|reflexivity]. }
  assert (Hfresh : forall a0,
             exists checked a,
               st_try
                 (st_bind (onAuth (GoogleAuth.getAccessToken provider true))
                    (fun _ => st_bind (onAuth GoogleAuth.getAuthState)
                                (fun fresh => st_ret (Some fresh))))
                 (fun _ => st_ret None) (setAuthStore a0 s)
               = (JS.Ok checked, setAuthStore a s)
               /\ match checked with
                  | Some st => orNull (GoogleAuth.accessToken st)
                  | None => None
                  end = match fst (GoogleAuth.getAccessToken provider true a0) with
                        | JS.Ok tok => Some tok
                        | JS.Throw _ => None
                        end).
  { intros a0.
    destruct (getAccessToken_run provider true a0)
      as [(tok & a1 & E & Hne & Ha & _ & _ & Ht)|[(tok & a1 & now & E & Hne & Ha & _)
                                                  |(m & a1 & E & _)]].
    - eexists. exists a1. split.
      + apply st_try_ok.
        erewrite st_bind_ok by (apply onAuth_set; exact E).
        erewrite st_bind_ok by (apply onAuth_set; apply getAuthState_run).
        reflexivity.
      + rewrite E, Ha, Ht. cbn [fst]. now apply Hkeep.
    - eexists. exists a1. split.
      + apply st_try_ok.
        erewrite st_bind_ok by (apply onAuth_set; exact E).
        erewrite st_bind_ok by (apply onAuth_set; apply getAuthState_run).
        reflexivity.
      + rewrite E, Ha. cbn [fst withDefault GoogleAuth.accessToken]. now apply Hkeep.
    - exists None, a1. split.
      + erewrite st_try_throw; [reflexivity|].
        erewrite st_bind_throw; [reflexivity|]. apply onAuth_set. exact E.
      + now rewrite E. }
  destruct (GoogleAuth.isAuthenticated authState) eqn:Hauth; cbn [negb].
  - destruct (GoogleAuth.isTokenExpired provider authState (authStore s))
      as [[stale|e] a0] eqn:E.
    + erewrite st_bind_ok by (apply onAuth_run; exact E).
      destruct stale.
      * apply Hfresh.
      * eexists. exists a0. split; reflexivity.
    + exfalso. rewrite isTokenExpired_run in E.
      destruct (GoogleAuth.expiresAt authState) as [t|]; [|discriminate].
      destruct (t =? 0)%Z; discriminate.
  - erewrite st_bind_ok by reflexivity.
    destruct (Hfresh (authStore s)) as (checked & a & E & Ht).
    rewrite setAuthStore_same in E. now exists checked, a.
Qed.

(** The result of the upload loop does not depend on the world. *)
Lemma uploadLoop_result (fetches : Z -> FetchOutcome) (maxRetries : Z) (remaining : nat) :
  forall (attempt : Z) (w w' : World),
    fst (uploadLoop fetches maxRetries remaining attempt w) =
    fst (uploadLoop fetches maxRetries remaining attempt w').
Proof.
  induction remaining as [|remaining IH]; intros attempt w w'; cbn [uploadLoop];
    [reflexivity|].
  rewrite (bind_ok _ _ w _ tt (emit_run _ w)), (bind_ok _ _ w' _ tt (emit_run _ w')).
  destruct (performUpload (fetches attempt)) as [result|error]; [reflexivity|].
  destruct (isAuthError (errorMessageOf error)); [reflexivity|].
  destruct (attempt =? maxRetries)%Z; [reflexivity|].
  unfold delay.
  match goal with |- fst (bind (emit ?e) _ ?w1) = fst (bind (emit ?e) _ ?w2) =>
    rewrite (bind_ok _ _ w1 _ tt (emit_run e w1)), (bind_ok _ _ w2 _ tt (emit_run e w2))
  end.
  apply IH.
Qed.

Lemma namesAnother_test (capturedPostId : option JSString) (actual : JSString) :
  truthyString capturedPostId && negb (JS.eqb (withDefault capturedPostId []) actual)
  = namesAnother capturedPostId actual.
Proof. now destruct capturedPostId. Qed.

Lemma storeStatus_run (capture : option CapturedPost) (status : CaptureStatus) (s : State) :
  storeStatus capture status s =
  (JS.Ok tt, match capture with
             | Some c => setCurrentCapture (Some (withStatus status c)) s
             | None => s
             end).
Proof. now destruct capture. Qed.

Lemma createUploadRecord_run (capturedPostId filename : JSString) (w : World) :
  createUploadRecord env capturedPostId filename w =
  (JS.Ok (mkUploadRecord (randomUUID env (uuidCalls w)) capturedPostId None None UsPending
            (clock env (clockReads w)) None None 0 filename),
   withClockReads (S (clockReads w)) (withUuidCalls (S (uuidCalls w)) w)).
Proof. reflexivity. Qed.

Lemma updateUploadRecord_run (record : UploadRecord) (result : UploadResult) (w : World) :
  exists updated,
    updateUploadRecord env record result w =
      (JS.Ok updated, withClockReads (S (clockReads w)) w)
    /\ rec_capturedPostId updated = rec_capturedPostId record
    /\ rec_filename updated = rec_filename record
    /\ (if ur_success result
        then rec_status updated = UsSuccess /\ rec_errorMessage updated = None
             /\ rec_retryCount updated = rec_retryCount record
        else rec_status updated = UsFailed
             /\ rec_errorMessage updated =
                Some (orElse (ur_error result) (JS.str "Unknown error"))
             /\ rec_retryCount updated = S (rec_retryCount record)).
Proof.
  unfold updateUploadRecord. destruct (ur_success result);
    eexists; (split; [reflexivity|]); cbn; auto.
Qed.

(** What storing a status changes. *)
Lemma stored_status (capture : option CapturedPost) (status : CaptureStatus) (s : State) :
  let s' := match capture with
            | Some c => setCurrentCapture (Some (withStatus status c)) s
            | None => s
            end in
  cachedPdf s' = cachedPdf s /\ uploadHistory s' = uploadHistory s
  /\ world s' = world s /\ authStore s' = authStore s
  /\ currentPdfMeta s' = currentPdfMeta s
  /\ defaultDriveFolderId s' = defaultDriveFolderId s
  /\ ((capture = None -> currentCapture s = None) ->
      captureStatus s' = option_map (fun _ => status) capture).
Proof.
  destruct capture as [c|]; cbn; repeat split.
  intros H. unfold captureStatus. now rewrite H.
Qed.

Lemma nextCall_run (s : State) :
  nextCall s =
  (JS.Ok (pipelineCalls (world s)),
   setWorld (withPipelineCalls (S (pipelineCalls (world s))) (world s)) s).
Proof. reflexivity. Qed.

End CaptureFacts.

Import CaptureHandlers.

(** X28: [handleUploadToDrive] always answers.  Without a cached PDF it
    answers [NO_PDF], and for a request that names another capture than the
    one of the cached PDF [VALIDATION_ERROR], and changes nothing.  Else,
    when no token can be had - nobody is signed in or the sign-in has
    expired, and [getAccessToken] fails, or the sign-in holds no token - it
    answers [NOT_AUTHENTICATED] and changes the store of the auth service
    at most.  Else, when the cached data does not decode, it answers
    [UPLOAD_FAILED] without a request and without a record, and leaves the
    capture marked as uploading.  Otherwise it uploads the cached PDF with
    that token, to the default folder, sending between one and three
    requests, and adds exactly one record to the history: when the upload
    succeeds the answer is a success with the record and the link, the
    record is a success and the capture is marked uploaded; when it fails
    the answer is [UPLOAD_FAILED] with the message of the failure, which
    is not empty and is the message of the record, the capture being marked
    as in error. *)
Theorem handleUploadToDrive_outcomes (env : Env) (provider : GoogleAuth.Provider)
    (capturedPostId requestId : option JSString) (s : State) :
  exists response s',
    handleUploadToDrive env provider capturedPostId requestId s = (JS.Ok response, s')
    /\ cachedPdf s' = cachedPdf s
    /\ match cachedPdf s with
       | None =>
           response = UploadRejected
                        (createErrorResponse NO_PDF
                           (JS.str "No PDF available. Please generate a PDF first.")
                           requestId)
           /\ s' = s
       | Some pdf =>
           if namesAnother capturedPostId (pdf_capturedPostId pdf)
           then response = UploadRejected
                             (createErrorResponse VALIDATION_ERROR
                                (JS.str "PDF does not match the specified capture")
                                requestId)
                /\ s' = s
           else
             match tokenForUpload provider (authStore s) with
             | None =>
                 (exists message,
                     response = UploadRejected
                                  (createErrorResponse NOT_AUTHENTICATED message requestId))
                 /\ sameButAuth s s'
             | Some token =>
                 match Base64.base64ToUint8Array (pdf_pdfBase64 pdf) with
                 | JS.Throw err =>
                     response = UploadRejected
                                  (createErrorResponse UPLOAD_FAILED
                                     (messageOr "Upload failed" err) requestId)
                     /\ uploadHistory s' = uploadHistory s
                     /\ log (world s') = log (world s)
                     /\ captureStatus s' =
                        option_map (fun _ => CsUploading) (currentCapture s)
                 | JS.Ok _ =>
                     exists result record,
                       resultOfUpload (fetchUpload env (pipelineCalls (world s)))
                         (pdf_filename pdf)
                         (mkUploadOptions (defaultDriveFolderId s) None token)
                       = JS.Ok result
                       /\ recordedUpload s s' record
                       /\ if ur_success result
                          then response = UploadDone record
                                            (orElse (ur_webViewLink result) []) requestId
                               /\ rec_status record = UsSuccess
                               /\ rec_errorMessage record = None
                               /\ rec_retryCount record = 0
                               /\ captureStatus s' =
                                  option_map (fun _ => Uploaded) (currentCapture s)
                          else exists message,
                                 ur_error result = Some message /\ message <> []
                                 /\ response = UploadRejected
                                                 (createErrorResponse UPLOAD_FAILED
                                                    message requestId)
                                 /\ rec_status record = UsFailed
                                 /\ rec_errorMessage record = Some message
                                 /\ rec_retryCount record = 1
                                 /\ captureStatus s' =
                                    option_map (fun _ => CsError) (currentCapture s)
                 end
             end
       end.
Proof.
  unfold handleUploadToDrive, st_try.
  erewrite (st_bind_ok st_get) by reflexivity.
  destruct (cachedPdf s) as [pdf|] eqn:Hc.
  2:{ eexists. eexists. split; [reflexivity|]. cbn. rewrite Hc. auto. }
  rewrite namesAnother_test.
  destruct (namesAnother capturedPostId (pdf_capturedPostId pdf)).
  { eexists. eexists. split; [reflexivity|]. cbn. auto. }
  destruct (authForUpload_token provider s) as (checked & a & Ea & Htoken).
  erewrite st_bind_ok by exact Ea. cbv beta iota.
  rewrite <- Htoken. clear Htoken.
  destruct checked as [authState|].
  2:{ eexists. eexists. split; [reflexivity|]. cbn. rewrite ?Hc.
      split; [reflexivity|]. split; [eexists; reflexivity|]. repeat split. }
  destruct (GoogleAuth.accessToken authState) as [[|c token]|] eqn:Htok;
    cbn [truthyString JS.isEmpty negb orNull withDefault].
  1,3: eexists; eexists; (split; [reflexivity|]); cbn; rewrite ?Hc;
       (split; [reflexivity|]); (split; [eexists; reflexivity|]); repeat split.
  erewrite st_bind_ok by apply storeStatus_run.
  destruct (stored_status (currentCapture s) CsUploading (setAuthStore a s))
    as (C2 & U2 & W2 & _ & _ & D2 & S2).
  specialize (S2 (fun H => H)).
  set (s2 := match currentCapture s with
             | Some c => setCurrentCapture (Some (withStatus CsUploading c)) (setAuthStore a s)
             | None => setAuthStore a s
             end) in *.
  cbn [cachedPdf uploadHistory world defaultDriveFolderId setAuthStore] in C2, U2, W2, D2.
  assert (N2 : currentCapture s = None -> currentCapture s2 = None).
  { intros H. unfold s2. now rewrite H. }
  clearbody s2.
  erewrite st_bind_ok by (apply onWorld_run; apply createUploadRecord_run).
  set (w3 := withClockReads _ _).
  assert (L3 : log w3 = log (world s)) by (unfold w3; cbn; now rewrite W2).
  assert (P3 : pipelineCalls w3 = pipelineCalls (world s))
    by (unfold w3; cbn; now rewrite W2).
  clearbody w3.
  destruct (Base64.base64ToUint8Array (pdf_pdfBase64 pdf)) as [bytes|err] eqn:Eb.
  2:{ erewrite st_bind_throw by reflexivity.
      eexists. eexists. split; [reflexivity|]. cbn. rewrite C2, Hc, U2.
      split; [reflexivity|]. split; [reflexivity|]. split; [reflexivity|].
      split; [exact L3|exact S2]. }
  erewrite st_bind_ok by reflexivity.
  erewrite st_bind_ok by reflexivity.
  erewrite st_bind_ok by apply nextCall_run.
  cbv beta. cbn [world setWorld defaultDriveFolderId]. rewrite P3, D2.
  unfold resultOfUpload, uploadToDrive. cbn [uo_maxRetries].
  set (w4 := withPipelineCalls _ w3).
  assert (L4 : log w4 = log (world s)) by (unfold w4; cbn; exact L3).
  clearbody w4.
  match goal with |- context [st_bind (onWorld (uploadLoop ?f ?m ?n ?k)) _ ?s0] =>
    destruct (uploadLoop_answers f m n k w4)
      as (result & evs & Eu & Hle & Hpos & _ & _ & Hres);
    pose proof (uploadLoop_result f m n k initialWorld w4) as Hind;
    erewrite (st_bind_ok (onWorld (uploadLoop f m n k)))
      by (apply (onWorld_run _ s0); exact Eu)
  end.
  rewrite Eu in Hind. cbn [fst] in Hind.
  cbv beta. cbn [world setWorld].
  set (w5 := withLog _ w4).
  assert (L5 : log w5 = log (world s) ++ evs) by (unfold w5; cbn; now rewrite L4).
  clearbody w5.
  match goal with |- context [st_bind (onWorld (updateUploadRecord env ?r result)) _ ?s0] =>
    destruct (updateUploadRecord_run env r result w5) as (updated & Ed & Hid & Hfn & Hup);
    erewrite (st_bind_ok (onWorld (updateUploadRecord env r result)))
      by (apply (onWorld_run _ s0); exact Ed)
  end.
  cbv beta. cbn [world setWorld rec_capturedPostId rec_filename rec_retryCount] in *.
  set (w6 := withClockReads _ w5).
  assert (L6 : log w6 = log (world s) ++ evs) by (unfold w6; cbn; exact L5).
  clearbody w6.
  erewrite st_bind_ok by reflexivity.
  erewrite st_bind_ok by apply storeStatus_run.
  cbn [uploadHistory setWorld].
  match goal with |- context [match currentCapture s with
                              | Some c => setCurrentCapture (Some (withStatus ?st c)) ?s0
                              | None => ?s0
                              end] =>
    destruct (stored_status (currentCapture s) st s0) as (C7 & U7 & W7 & _ & _ & _ & S7);
    set (s7 := match currentCapture s with
               | Some c => setCurrentCapture (Some (withStatus st c)) s0
               | None => s0
               end) in *
  end.
  cbn [cachedPdf uploadHistory world setUploadHistory setWorld] in C7, U7, W7.
  specialize (S7 N2). clearbody s7.
  assert (Hrec : recordedUpload s s7 updated).
  { split; [exists pdf; auto|]. split; [now rewrite U7, U2|].
    exists evs. rewrite W7. split; [exact L6|].
    change (Z.to_nat 3) with 3 in Hle, Hpos. lia. }
  destruct (ur_success result) eqn:Hs; cbn [negb].
  - destruct Hup as (H1 & H2 & H3).
    eexists. eexists. split; [reflexivity|]. cbn [cachedPdf].
    rewrite C7, C2, Hc. split; [reflexivity|].
    exists result, updated. split; [exact Hind|]. split; [exact Hrec|].
    rewrite Hs. split; [reflexivity|]. split; [exact H1|]. split; [exact H2|].
    split; [exact H3|exact S7].
  - destruct Hup as (H1 & H2 & H3).
    destruct Hres as [Hres|(message & -> & Hne)]; [discriminate|].
    assert (Hmsg : forall fallback, orElse (Some message) fallback = message).
    { intros fallback. cbn. destruct message; [now contradiction Hne|reflexivity]. }
    cbn [ur_error uploadFailure] in *. rewrite Hmsg in H2. rewrite Hmsg.
    eexists. eexists. split; [reflexivity|]. cbn [cachedPdf].
    rewrite C7, C2, Hc. split; [reflexivity|].
    eexists. exists updated. split; [exact Hind|]. split; [exact Hrec|].
    cbn [ur_success uploadFailure]. exists message.
    split; [reflexivity|]. split; [exact Hne|]. split; [reflexivity|].
    split; [exact H1|]. split; [exact H2|]. split; [exact H3|exact S7].
Qed.

(** Nobody signed in: without a token from the provider the upload is
    refused and nothing is sent; with one, the PDF is uploaded with it. *)
Example upload_needs_a_token :
  tokenForUpload silentProvider signedOutStore = None
  /\ handleUploadToDrive quietEnv silentProvider None None readyToUpload =
     (JS.Ok (UploadRejected
               (createErrorResponse NOT_AUTHENTICATED
                  (JS.str "Please sign in to upload to Google Drive") None)),
      setAuthStore (GoogleAuth.mkStore None 0 1 0 []) readyToUpload)
  /\ tokenForUpload grantingProvider signedOutStore = Some (JS.str "ya29.token")
  /\ (exists record link s',
        handleUploadToDrive quietEnv grantingProvider None None readyToUpload =
        (JS.Ok (UploadDone record link None), s')
        /\ uploadAttempts (log (world s')) = 1
        /\ uploadHistory s' = Some [record]).
Proof.
  split; [reflexivity|]. split; [vm_compute; reflexivity|]. split; [reflexivity|].
  eexists. eexists. eexists. split; [vm_compute; reflexivity|]. split; reflexivity.
Qed.

(** The cache after [handleGeneratePdf]: the PDF it answered with, or the
    one cached before. *)
Lemma handleGeneratePdf_cache (env : Env) (payload : option GeneratePayload)
    (requestId : option JSString) (s : State) :
  exists response s',
    handleGeneratePdf env payload requestId s = (JS.Ok response, s')
    /\ cachedPdf s' = match response with
                      | Generated pdf _ => Some pdf
                      | GenerateRejected _ => cachedPdf s
                      end.
Proof.
  unfold handleGeneratePdf, st_try.
  erewrite (st_bind_ok st_get) by reflexivity.
  destruct (match cachedPdf s with
            | Some cached => _
            | None => None
            end) as [cached|] eqn:Hhit.
  { eexists. eexists. split; [reflexivity|]. cbn.
    destruct (cachedPdf s) as [c0|]; [|discriminate].
    destruct (match payload with Some p => gp_capturedPostId p | None => None end);
      [|discriminate].
    destruct (JS.eqb _ _ && negb _); [|discriminate]. exact Hhit. }
  destruct (currentCapture s) as [capturedPost|].
  2:{ eexists. eexists. split; reflexivity. }
  destruct (truthyString _ && negb _).
  { eexists. eexists. split; reflexivity. }
  erewrite st_bind_ok by reflexivity.
  erewrite st_bind_ok by apply nextCall_run.
  cbv beta. cbn [world setCurrentCapture].
  destruct (generatePdf env (pipelineCalls (world s))) as [pdf|err].
  - erewrite st_bind_ok by reflexivity.
    erewrite st_bind_ok by reflexivity.
    erewrite st_bind_ok by reflexivity.
    erewrite st_bind_ok by reflexivity.
    eexists. eexists. split; reflexivity.
  - erewrite st_bind_throw by reflexivity.
    eexists. eexists. split; reflexivity.
Qed.

(** X29: [handleGeneratePdf] always answers and leaves the auth store and
    the upload history alone.  For a payload that names the capture of the
    cached PDF and does not force a new one, it answers with the cached
    PDF, without rendering and without any change.  Otherwise it answers
    [NO_CAPTURE] when there is no current capture and [VALIDATION_ERROR]
    when the payload names another capture than the current one, again
    without any change; else it renders exactly once: a PDF that was
    rendered is cached and returned, its metadata stored and the capture
    marked as ready; when rendering fails the answer is
    [PDF_GENERATION_ERROR] with the message of the error, the capture is
    marked as in error, and the PDF cached before, if any, stays cached. *)
Theorem handleGeneratePdf_outcomes (env : Env) (payload : option GeneratePayload)
    (requestId : option JSString) (s : State) :
  exists response s',
    handleGeneratePdf env payload requestId s = (JS.Ok response, s')
    /\ authStore s' = authStore s /\ uploadHistory s' = uploadHistory s
    /\ match answersFromCache s payload with
       | Some cached => response = Generated cached requestId /\ s' = s
       | None =>
           match currentCapture s with
           | None =>
               response = GenerateRejected
                            (createErrorResponse NO_CAPTURE
                               (JS.str "No captured post found. Please capture a post first.")
                               requestId)
               /\ s' = s
           | Some capture =>
               if namesAnother (namedCapture payload) (post_id capture)
               then response = GenerateRejected
                                 (createErrorResponse VALIDATION_ERROR
                                    (JS.str "Captured post ID mismatch") requestId)
                    /\ s' = s
               else
                 pipelineCalls (world s') = S (pipelineCalls (world s))
                 /\ match generatePdf env (pipelineCalls (world s)) with
                    | JS.Ok pdf =>
                        response = Generated pdf requestId
                        /\ cachedPdf s' = Some pdf
                        /\ captureStatus s' = Some PdfReady
                        /\ currentPdfMeta s' =
                           Some (mkPdfMeta (pdf_capturedPostId pdf) (pdf_filename pdf)
                                   (pdf_sizeBytes pdf) (pdf_pageCount pdf))
                    | JS.Throw err =>
                        response = GenerateRejected
                                     (createErrorResponse PDF_GENERATION_ERROR
                                        (messageOr "Failed to generate PDF" err)
                                        requestId)
                        /\ cachedPdf s' = cachedPdf s
                        /\ captureStatus s' = Some CsError
                        /\ currentPdfMeta s' = currentPdfMeta s
                    end
           end
       end.
Proof.
  unfold handleGeneratePdf, st_try.
  erewrite (st_bind_ok st_get) by reflexivity.
  change (match payload with Some p => gp_capturedPostId p | None => None end)
    with (namedCapture payload).
  change (match payload with
          | Some p => truthyBool (gp_forceRegenerate p)
          | None => false
          end) with (forcesNew payload).
  change (match cachedPdf s with
          | Some cached =>
              match namedCapture payload with
              | Some id =>
                  if JS.eqb (pdf_capturedPostId cached) id && negb (forcesNew payload)
                  then Some cached else None
              | None => None
              end
          | None => None
          end) with (answersFromCache s payload).
  destruct (answersFromCache s payload) as [cached|].
  { eexists. eexists. split; [reflexivity|]. auto. }
  destruct (currentCapture s) as [capturedPost|] eqn:Hcap.
  2:{ eexists. eexists. split; [reflexivity|]. auto. }
  rewrite namesAnother_test.
  destruct (namesAnother (namedCapture payload) (post_id capturedPost)).
  { eexists. eexists. split; [reflexivity|]. auto. }
  erewrite st_bind_ok by reflexivity.
  erewrite st_bind_ok by apply nextCall_run.
  cbv beta. cbn [world setCurrentCapture].
  destruct (generatePdf env (pipelineCalls (world s))) as [pdf|err] eqn:Eg.
  - erewrite st_bind_ok by reflexivity.
    erewrite st_bind_ok by reflexivity.
    erewrite st_bind_ok by reflexivity.
    erewrite st_bind_ok by reflexivity.
    eexists. eexists. split; [reflexivity|]. cbn. repeat split.
  - erewrite st_bind_throw by reflexivity.
    eexists. eexists. split; [reflexivity|]. cbn. repeat split.
Qed.

(** X30: [handleDownloadPdf] always answers and changes nothing; it answers
    [NO_PDF] exactly when no PDF is cached, and [DOWNLOAD_ERROR] only when
    the download fails.  After [handleGeneratePdf] answered with a PDF, a
    download that starts is the one of that PDF, under its file name; after
    it answered with an error, also one of rendering, the download handler
    answers as it would have before: it still offers the PDF cached
    earlier. *)
Theorem handleDownloadPdf_after_generate (env : Env) (payload : option GeneratePayload)
    (requestId requestId' : option JSString) (download : JS.Result nat) (s : State) :
  (exists response,
      handleDownloadPdf download requestId' s = (JS.Ok response, s)
      /\ match response with
         | DownloadStarted downloadId filename rid =>
             rid = requestId' /\ download = JS.Ok downloadId
             /\ exists pdf, cachedPdf s = Some pdf /\ filename = pdf_filename pdf
         | DownloadRejected e =>
             er_requestId e = requestId'
             /\ match er_errorCode e with
                | NO_PDF => cachedPdf s = None
                | DOWNLOAD_ERROR =>
                    cachedPdf s <> None /\ exists err, download = JS.Throw err
                | _ => False
                end
         end)
  /\ match handleGeneratePdf env payload requestId s with
     | (JS.Ok (Generated pdf _), s') =>
         forall downloadId,
           handleDownloadPdf (JS.Ok downloadId) requestId' s' =
           (JS.Ok (DownloadStarted downloadId (pdf_filename pdf) requestId'), s')
     | (JS.Ok (GenerateRejected _), s') =>
         fst (handleDownloadPdf download requestId' s') =
         fst (handleDownloadPdf download requestId' s)
     | (JS.Throw _, _) => False
     end.
Proof.
  assert (Hrun : forall s0,
             handleDownloadPdf download requestId' s0 =
             (JS.Ok match cachedPdf s0 with
                    | None => DownloadRejected
                                (createErrorResponse NO_PDF
                                   (JS.str "No PDF available. Please generate a PDF first.")
                                   requestId')
                    | Some pdf =>
                        match download with
                        | JS.Ok downloadId =>
                            DownloadStarted downloadId (pdf_filename pdf) requestId'
                        | JS.Throw err =>
                            DownloadRejected
                              (createErrorResponse DOWNLOAD_ERROR
                                 (messageOr "Failed to download PDF" err) requestId')
                        end
                    end, s0)).
  { intros s0. unfold handleDownloadPdf, st_try.
    erewrite (st_bind_ok st_get) by reflexivity.
    destruct (cachedPdf s0) as [pdf|]; [|reflexivity].
    destruct download as [downloadId|err]; reflexivity. }
  split.
  - eexists. split; [apply Hrun|].
    destruct (cachedPdf s) as [pdf|] eqn:Hc; [|cbn; auto].
    destruct download as [downloadId|err]; cbn.
    + split; [reflexivity|]. split; [reflexivity|]. now exists pdf.
    + split; [reflexivity|]. split; [discriminate|]. now exists err.
  - destruct (handleGeneratePdf_cache env payload requestId s)
      as (response & s' & E & Hc).
    rewrite E. destruct response as [e|pdf rid].
    + now rewrite !Hrun, Hc.
    + intros downloadId.
      unfold handleDownloadPdf, st_try.
      erewrite (st_bind_ok st_get) by reflexivity. now rewrite Hc.
Qed.

(* ================================================================== *)
(** * The token cache, signing in and signing out *)
(* ================================================================== *)

Import GoogleAuth.

(** X16: when nobody is signed in and the provider hands out a token,
    [getAccessToken] returns it and stores it with an expiry one hour after
    the clock reading; every later call whose clock reading is less than 55
    minutes after that one returns the stored token without asking the
    provider and without changing the stored state. *)
Theorem getAccessToken_token_cache (provider : Provider) (interactive : bool)
    (s : Store) (tok : JSString) :
  isAuthenticated (withDefault (auth s) DEFAULT_AUTH_STATE) = false ->
  getAuthToken provider (identityCalls s) interactive = mkIdentityOutcome None (Some tok) ->
  tok <> [] ->
  (0 <= clock provider (clockReads s))%Z ->
  exists s1,
    getAccessToken provider interactive s = (JS.Ok tok, s1)
    /\ auth s1 = Some (mkAuthState (Some tok)
                         (Some (clock provider (clockReads s) + 3600000)%Z) None true)
    /\ identityCalls s1 = S (identityCalls s)
    /\ forall interactive' s2,
         auth s2 = auth s1 ->
         (clock provider (clockReads s2) < clock provider (clockReads s) + 3300000)%Z ->
         exists s3,
           getAccessToken provider interactive' s2 = (JS.Ok tok, s3)
           /\ identityCalls s3 = identityCalls s2 /\ auth s3 = auth s2.
Proof.
  intros Hout Hprov Hne Hclock.
  rewrite (getAccessToken_signed_out provider interactive s Hout).
  destruct (requestToken_run provider interactive s) as [(t & _ & Ep & E)|(m & _ & E)].
  - rewrite Hprov in Ep. injection Ep as <-.
    eexists. split; [exact E|]. split; [reflexivity|]. split; [reflexivity|].
    intros interactive' s2 Ha Hc. cbn [auth] in Ha.
    eexists. split.
    + eapply getAccessToken_cached with (t := (clock provider (clockReads s) + 3600000)%Z);
        try exact Ha; try reflexivity; try assumption; try lia.
      unfold EXPIRATION_BUFFER_MS. lia.
    + split; reflexivity.
  - exfalso. unfold requestToken in E.
    erewrite st_bind_ok in E by reflexivity. erewrite st_bind_ok in E by reflexivity.
    rewrite Hprov in E. cbn [lastError token] in E.
    destruct tok as [|c tok]; [now contradiction Hne|]. discriminate.
Qed.

Lemma getAccessToken_token_cache_witness :
  exists s1,
    getAccessToken grantingProvider true signedOutStore = (JS.Ok (JS.str "ya29.token"), s1)
    /\ auth s1 = Some (mkAuthState (Some (JS.str "ya29.token")) (Some 3600000%Z) None true)
    /\ identityCalls s1 = 1
    /\ forall interactive' s2,
         auth s2 = auth s1 ->
         (clock grantingProvider (clockReads s2) < 0 + 3300000)%Z ->
         exists s3,
           getAccessToken grantingProvider interactive' s2 = (JS.Ok (JS.str "ya29.token"), s3)
           /\ identityCalls s3 = identityCalls s2 /\ auth s3 = auth s2.
Proof.
  apply (getAccessToken_token_cache grantingProvider true signedOutStore
           (JS.str "ya29.token")).
  - reflexivity.
  - reflexivity.
  - discriminate.
  - cbn. lia.
Defined.

(** X17: [getAccessToken] answers with the stored token, without asking
    the provider and without changing the stored state, when there is a
    sign-in whose expiry is more than five minutes away; that token is not
    empty.  In every other case it asks the provider exactly once.  When
    the provider reports an error, [getAccessToken] throws an [Error] whose
    message is not empty - [AUTH_CANCELLED] when the user did not approve
    or cancelled - and when the provider hands out no token it throws the
    [Error] [No token received]; the stored state is then as it was.  When
    the provider hands out a token, that token, which is not empty, is
    returned and stored with an expiry of one hour.  So a caller never gets
    an empty token: a failure of the provider always reaches it as an
    exception. *)
Theorem getAccessToken_outcomes (provider : Provider) (interactive : bool) (s : Store) :
  let outcome := getAuthToken provider (identityCalls s) interactive in
  match tokenInForce provider s with
  | Some tok =>
      tok <> []
      /\ exists s',
           getAccessToken provider interactive s = (JS.Ok tok, s')
           /\ auth s' = auth s /\ identityCalls s' = identityCalls s
  | None =>
      exists s',
        identityCalls s' = S (identityCalls s)
        /\ match lastError outcome, orNull (token outcome) with
           | Some message, _ =>
               getAccessToken provider interactive s =
                 (JS.Throw (JS.ErrorObj (lastErrorMessage message)), s')
               /\ lastErrorMessage message <> []
               /\ auth s' = auth s
           | None, None =>
               getAccessToken provider interactive s =
                 (JS.Throw (JS.ErrorObj (JS.str "No token received")), s')
               /\ auth s' = auth s
           | None, Some tok =>
               tok <> []
               /\ getAccessToken provider interactive s = (JS.Ok tok, s')
               /\ exists now,
                    auth s' = Some (mkAuthState (Some tok) (Some (now + 3600000)%Z)
                                      None true)
           end
  end.
Proof.
  cbv zeta.
  assert (Hreq : forall s0,
             auth s0 = auth s -> identityCalls s0 = identityCalls s ->
             exists s',
               identityCalls s' = S (identityCalls s)
               /\ match lastError (getAuthToken provider (identityCalls s) interactive),
                        orNull (token (getAuthToken provider (identityCalls s) interactive))
                  with
                  | Some message, _ =>
                      requestToken provider interactive s0 =
                        (JS.Throw (JS.ErrorObj (lastErrorMessage message)), s')
                      /\ lastErrorMessage message <> []
                      /\ auth s' = auth s
                  | None, None =>
                      requestToken provider interactive s0 =
                        (JS.Throw (JS.ErrorObj (JS.str "No token received")), s')
                      /\ auth s' = auth s
                  | None, Some tok =>
                      tok <> []
                      /\ requestToken provider interactive s0 = (JS.Ok tok, s')
                      /\ exists now,
                           auth s' = Some (mkAuthState (Some tok)
                                             (Some (now + 3600000)%Z) None true)
                  end).
  { intros s0 Ha Hi.
    pose proof (requestToken_answers provider interactive s0) as E.
    rewrite Hi in E.
    destruct (lastError _) as [message|].
    - eexists. split; [|split; [exact E|]]; cbn; [reflexivity|].
      split; [apply lastErrorMessage_not_empty|exact Ha].
    - destruct (orNull _) as [tok|] eqn:Et.
      + apply orNull_token in Et as (_ & Hne).
        eexists. split; [|split; [exact Hne|split; [exact E|]]]; cbn;
          [reflexivity|]. eexists. reflexivity.
      + eexists. split; [|split; [exact E|]]; cbn; [reflexivity|exact Ha]. }
  pose proof (getAccessToken_decides provider interactive s) as Hd.
  destruct (tokenInForce provider s) as [tok|]; [exact Hd|].
  destruct Hd as (s0 & Ha & Hi & ->). now apply Hreq.
Qed.

(** X18: [signOut] hands the stored token, if there is one, to
    [removeCachedAuthToken] and stores the default state, without asking
    the provider for anything.  After it [getAuthState] gives the default
    state, [refreshTokenIfNeeded] gives no token and leaves everything as it
    is, and [getAccessToken] has to ask the provider. *)
Theorem signOut_forgets_the_token (provider : Provider) (s : Store) :
  exists s1,
    signOut s = (JS.Ok tt, s1)
    /\ auth s1 = Some DEFAULT_AUTH_STATE
    /\ removedTokens s1 =
       removedTokens s ++
       match orNull (accessToken (withDefault (auth s) DEFAULT_AUTH_STATE)) with
       | Some tok => [tok]
       | None => []
       end
    /\ identityCalls s1 = identityCalls s
    /\ getAuthState s1 = (JS.Ok DEFAULT_AUTH_STATE, s1)
    /\ refreshTokenIfNeeded provider s1 = (JS.Ok None, s1)
    /\ forall interactive,
         getAccessToken provider interactive s1 = requestToken provider interactive s1.
Proof.
  unfold signOut. erewrite st_bind_ok by apply getAuthState_run.
  destruct (accessToken (withDefault (auth s) DEFAULT_AUTH_STATE)) as [[|c tok]|];
    cbn [truthyString JS.isEmpty negb orNull withDefault];
    (eexists; split; [reflexivity|]; split; [reflexivity|];
     split; [cbn; now rewrite ?app_nil_r|]; split; [reflexivity|];
     split; [reflexivity|]; split; [reflexivity|];
     intros interactive; now apply getAccessToken_signed_out).
Qed.


(* ================================================================== *)
(** * The batch manager *)
(* ================================================================== *)

Lemma as_bind_ok {S A B} (c : Async S A) (k : A -> Async S B) (s s' : S) (a : A) :
  c s = (Settled (JS.Ok a), s') -> as_bind c k s = k a s'.
Proof. intros E. unfold as_bind. now rewrite E. Qed.

Lemma as_bind_throw {S A B} (c : Async S A) (k : A -> Async S B) (s s' : S) (e : JS.Exn) :
  c s = (Settled (JS.Throw e), s') -> as_bind c k s = (Settled (JS.Throw e), s').
Proof. intros E. unfold as_bind. now rewrite E. Qed.

Lemma as_bind_never {S A B} (c : Async S A) (k : A -> Async S B) (s s' : S) :
  c s = (NeverSettles, s') -> as_bind c k s = (NeverSettles, s').
Proof. intros E. unfold as_bind. now rewrite E. Qed.

Section BatchManagerFacts.
Import BatchManager.
Variable browser : Browser.

Lemma batchSnapshots_app (l1 l2 : list Event) :
  batchSnapshots (l1 ++ l2) = batchSnapshots l1 ++ batchSnapshots l2.
Proof. apply filterMap_app. Qed.

(** The [try] and [catch] blocks together.  When the tab is opened and
    never finishes loading, they never settle and nothing is changed.
    Otherwise they return: they leave the flags and the log alone, keep
    [total] and [current], and push exactly one result, which names the
    note. *)
Lemma tryCatch_run (index : nat) (note : NoteRef) (s : State) :
  if tabHangs browser index
  then as_try (tryBlock browser index note) (catchBlock note) s = (NeverSettles, s)
  else
    exists p,
      as_try (tryBlock browser index note) (catchBlock note) s =
        (Settled (JS.Ok tt), setProgress p s)
      /\ total p = total (progress s) /\ current p = current (progress s)
      /\ (exists r, results p = results (progress s) ++ [r] /\ res_noteId r = noteId note
                    /\ failed p = (if isErrorResult r then S (failed (progress s))
                                   else failed (progress s)))
      /\ succeeded (progress s) <= succeeded p <= S (succeeded (progress s))
      /\ S (succeeded (progress s) + failed (progress s)) <= succeeded p + failed p.
Proof.
  assert (Hthrow : forall err,
    tryBlock browser index note s = (Settled (JS.Throw err), s) ->
    exists p,
      as_try (tryBlock browser index note) (catchBlock note) s =
        (Settled (JS.Ok tt), setProgress p s)
      /\ total p = total (progress s) /\ current p = current (progress s)
      /\ (exists r, results p = results (progress s) ++ [r] /\ res_noteId r = noteId note
                    /\ failed p = (if isErrorResult r then S (failed (progress s))
                                   else failed (progress s)))
      /\ succeeded (progress s) <= succeeded p <= S (succeeded (progress s))
      /\ S (succeeded (progress s) + failed (progress s)) <= succeeded p + failed p).
  { intros err E. eexists. split; [unfold as_try; rewrite E; reflexivity|].
    cbn. split; [reflexivity|]. split; [reflexivity|].
    split; [eexists; split; [reflexivity|]; split; reflexivity|]. lia. }
  unfold tabHangs, tabIdOf. unfold tryBlock in *.
  destruct (tabsCreate browser index) as [message|tabId];
    [cbn [truthyId andb]; now eapply Hthrow|].
  destruct (truthyId tabId); cbn [negb andb]; [|now eapply Hthrow].
  unfold waitForTabLoad in *.
  destruct (tabLoads browser index); cbn [negb].
  2:{ unfold as_try. erewrite as_bind_never by reflexivity. reflexivity. }
  assert (Hwait : forall k : unit -> Async State unit, as_bind (as_ret tt) k s = k tt s)
    by reflexivity.
  unfold as_try in *. rewrite Hwait in *. clear Hwait.
  destruct (negb match capture browser index with
                 | Some r => cap_success r
                 | None => false
                 end); [now eapply Hthrow|].
  destruct (match capture browser index with Some r => cap_data r | None => None end);
    [|now eapply Hthrow].
  destruct (negb match generate browser index with
                 | Some r => gen_success r
                 | None => false
                 end); [now eapply Hthrow|].
  destruct (match generate browser index with Some r => gen_data r | None => None end)
    as [stats|].
  - eexists. split; [reflexivity|]. cbn.
    split; [reflexivity|]. split; [reflexivity|].
    split; [eexists; split; [reflexivity|]; split; reflexivity|]. lia.
  - eexists. split; [reflexivity|]. cbn.
    split; [reflexivity|]. split; [reflexivity|].
    split; [eexists; split; [reflexivity|]; split; reflexivity|]. lia.
Qed.

Lemma finallyBlock_run (index : nat) (s : State) :
  match tabRemovalFailure browser index with
  | None =>
      exists evs,
        finallyBlock browser index s =
          (Settled (JS.Ok tt),
           mkState (isRunning s) (shouldStop s) (progress s) (log s ++ evs))
        /\ batchSnapshots evs = []
  | Some message =>
      finallyBlock browser index s = (Settled (JS.Throw (JS.ErrorObj message)), s)
  end.
Proof.
  unfold tabRemovalFailure, finallyBlock.
  destruct (tabIdOf browser index) as [[|id]|]; cbn [truthyId].
  - exists []. rewrite app_nil_r. now destruct s.
  - destruct (tabsRemove browser index) as [message|]; [reflexivity|].
    exists [EvTabRemoved (S id)]. split; reflexivity.
  - exists []. rewrite app_nil_r. now destruct s.
Qed.

(** One iteration: the note is counted and reported before it is
    processed.  Then, unless the wait for the tab never returns, one result
    is pushed and the tab is closed. *)
Lemma processNote_run (index : nat) (note : NoteRef) (s : State) :
  exists p evs,
    total p = total (progress s) /\ current p = S (current (progress s))
    /\ batchSnapshots evs =
       [mkBatchProgress (total (progress s)) (S (current (progress s)))
          (succeeded (progress s)) (failed (progress s)) (results (progress s))]
    /\ if tabHangs browser index
       then processNote browser index note s =
            (NeverSettles, mkState (isRunning s) (shouldStop s) p (log s ++ evs))
       else
         (exists r, results p = results (progress s) ++ [r] /\ res_noteId r = noteId note
                    /\ failed p = (if isErrorResult r then S (failed (progress s))
                                   else failed (progress s)))
         /\ succeeded (progress s) <= succeeded p <= S (succeeded (progress s))
         /\ S (succeeded (progress s) + failed (progress s)) <= succeeded p + failed p
         /\ processNote browser index note s =
            (match tabRemovalFailure browser index with
             | None => Settled (JS.Ok tt)
             | Some message => Settled (JS.Throw (JS.ErrorObj message))
             end,
             mkState (isRunning s) (shouldStop s) p (log s ++ evs)).
Proof.
  unfold processNote.
  erewrite as_bind_ok by reflexivity. erewrite as_bind_ok by reflexivity.
  match goal with |- context [as_bind (as_try _ _) _ ?s0] =>
    pose proof (tryCatch_run index note s0) as Htry
  end.
  destruct (tabHangs browser index).
  - erewrite as_bind_never by exact Htry.
    eexists. eexists. split; [|split; [|split; [|reflexivity]]]; reflexivity.
  - destruct Htry as (p & E & Ht & Hc & Hr & Hs & Hsf).
    erewrite as_bind_ok by exact E.
    cbn [progress setProgress total current results failed succeeded]
      in Ht, Hc, Hr, Hs, Hsf.
    match goal with |- context [finallyBlock browser index ?s0] =>
      pose proof (finallyBlock_run index s0) as Hfin
    end.
    destruct (tabRemovalFailure browser index) as [message|].
    + exists p. eexists. split; [exact Ht|]. split; [exact Hc|].
      split; [|split; [exact Hr|split; [exact Hs|split; [exact Hsf|]]]].
      2: rewrite Hfin; cbn; reflexivity.
      reflexivity.
    + destruct Hfin as (evs & Efin & Hev).
      exists p. eexists. split; [exact Ht|]. split; [exact Hc|].
      split; [|split; [exact Hr|split; [exact Hs|split; [exact Hsf|]]]].
      2: rewrite Efin; cbn; rewrite <- app_assoc; reflexivity.
      cbn [app]. unfold batchSnapshots in *. cbn [filterMap]. now rewrite Hev.
Qed.

(** The loop when closing a tab fails for one of the notes and every tab up
    to that one finishes loading: it throws, and the running flag stays as
    it is. *)
Lemma noteLoop_stuck (notes : list NoteRef) :
  forall (index : nat) (s : State),
    shouldStop s = false ->
    (exists j, j < List.length notes /\ tabRemovalFailure browser (index + j) <> None
               /\ forall i, i <= j -> tabHangs browser (index + i) = false) ->
    exists message s',
      noteLoop browser notes index s = (Settled (JS.Throw (JS.ErrorObj message)), s')
      /\ isRunning s' = isRunning s.
Proof.
  induction notes as [|note rest IH]; intros index s Hstop (j & Hj & Hfail & Hload);
    [cbn in Hj; lia|].
  cbn [noteLoop]. erewrite as_bind_ok by reflexivity. rewrite Hstop.
  destruct (processNote_run index note s) as (p & evs & _ & _ & _ & E).
  assert (H0 : tabHangs browser index = false).
  { rewrite <- (Nat.add_0_r index). apply Hload. lia. }
  rewrite H0 in E. destruct E as (_ & _ & _ & E).
  destruct (tabRemovalFailure browser index) as [message|] eqn:Hhere.
  - erewrite as_bind_throw by exact E. eexists. eexists. split; reflexivity.
  - erewrite as_bind_ok by exact E.
    destruct j as [|j]; [rewrite Nat.add_0_r, Hhere in Hfail; now contradiction Hfail|].
    destruct (IH (S index) (mkState (isRunning s) (shouldStop s) p (log s ++ evs)))
      as (message & s' & E' & Hr).
    + exact Hstop.
    + exists j. cbn [List.length] in Hj. split; [lia|].
      replace (S index + j) with (index + S j) by lia. split; [exact Hfail|].
      intros i Hi. replace (S index + i) with (index + S i) by lia. apply Hload. lia.
    + exists message, s'. split; [exact E'|exact Hr].
Qed.

(** The loop when, for one of the notes, closing the tab fails or the tab
    never finishes loading: it does not return, and the running flag stays
    as it is. *)
Lemma noteLoop_does_not_return (notes : list NoteRef) :
  forall (index : nat) (s : State),
    shouldStop s = false ->
    (exists j, j < List.length notes
               /\ (tabRemovalFailure browser (index + j) <> None
                   \/ tabHangs browser (index + j) = true)) ->
    exists completion s',
      noteLoop browser notes index s = (completion, s')
      /\ (completion = NeverSettles
          \/ exists message, completion = Settled (JS.Throw (JS.ErrorObj message)))
      /\ isRunning s' = isRunning s.
Proof.
  induction notes as [|note rest IH]; intros index s Hstop (j & Hj & Hbad);
    [cbn in Hj; lia|].
  cbn [noteLoop]. erewrite as_bind_ok by reflexivity. rewrite Hstop.
  destruct (processNote_run index note s) as (p & evs & _ & _ & _ & E).
  destruct (tabHangs browser index) eqn:Hhang.
  { erewrite as_bind_never by exact E. eexists. eexists.
    split; [reflexivity|]. split; [now left|reflexivity]. }
  destruct E as (_ & _ & _ & E).
  destruct (tabRemovalFailure browser index) as [message|] eqn:Hhere.
  - erewrite as_bind_throw by exact E. eexists. eexists.
    split; [reflexivity|]. split; [right; now exists message|reflexivity].
  - erewrite as_bind_ok by exact E.
    destruct j as [|j].
    { rewrite Nat.add_0_r, Hhere, Hhang in Hbad. destruct Hbad as [H|H];
        [now contradiction H|discriminate]. }
    destruct (IH (S index) (mkState (isRunning s) (shouldStop s) p (log s ++ evs)))
      as (completion & s' & E' & Hc & Hr).
    + exact Hstop.
    + exists j. cbn [List.length] in Hj. split; [lia|].
      now replace (S index + j) with (index + S j) by lia.
    + exists completion, s'. split; [exact E'|]. split; [exact Hc|exact Hr].
Qed.

(** The loop when every tab finishes loading and can be closed. *)
Lemma noteLoop_run (notes : list NoteRef) :
  forall (index : nat) (s : State),
    shouldStop s = false ->
    (forall j, j < List.length notes -> tabHangs browser (index + j) = false) ->
    (forall j, j < List.length notes -> tabRemovalFailure browser (index + j) = None) ->
    exists p evs rs,
      noteLoop browser notes index s =
        (Settled (JS.Ok tt), mkState (isRunning s) false p (log s ++ evs))
      /\ total p = total (progress s)
      /\ current p = current (progress s) + List.length notes
      /\ results p = results (progress s) ++ rs
      /\ map res_noteId rs = map noteId notes
      /\ failed p = failed (progress s) + List.length (filter isErrorResult rs)
      /\ succeeded (progress s) <= succeeded p
      /\ succeeded (progress s) + failed (progress s) + List.length notes
         <= succeeded p + failed p
      /\ map current (batchSnapshots evs) =
         seq (S (current (progress s))) (List.length notes)
      /\ Forall (fun q => List.length (results q) + current (progress s) + 1 =
                          current q + List.length (results (progress s))
                          /\ total q = total (progress s))
           (batchSnapshots evs).
Proof.
  induction notes as [|note rest IH]; intros index s Hstop Hload Hok.
  - exists (progress s), [], []. cbn [noteLoop List.length map filter seq batchSnapshots
                                       filterMap].
    rewrite !app_nil_r, !Nat.add_0_r. unfold as_ret.
    split; [destruct s; cbn in *; now subst|]. repeat (split; [reflexivity || lia|]).
    constructor.
  - cbn [noteLoop]. erewrite as_bind_ok by reflexivity. rewrite Hstop.
    destruct (processNote_run index note s) as (p1 & evs1 & Ht1 & Hc1 & Hsnap1 & E1).
    assert (Hl0 : tabHangs browser index = false).
    { rewrite <- (Nat.add_0_r index). apply Hload. cbn [List.length]. lia. }
    rewrite Hl0 in E1. destruct E1 as ((r & Hr1 & Hid1 & Hf1) & Hs1 & Hsf1 & E1).
    assert (H0 : tabRemovalFailure browser index = None).
    { rewrite <- (Nat.add_0_r index). apply Hok. cbn [List.length]. lia. }
    rewrite H0 in E1.
    erewrite as_bind_ok by exact E1.
    destruct (IH (S index) (mkState (isRunning s) (shouldStop s) p1 (log s ++ evs1)))
      as (p & evs & rs & E & Ht & Hc & Hr & Hids & Hf & Hs & Hsf & Hcur & Hall).
    { exact Hstop. }
    { intros j Hj. replace (S index + j) with (index + S j) by lia.
      apply Hload. cbn [List.length]. lia. }
    { intros j Hj. replace (S index + j) with (index + S j) by lia.
      apply Hok. cbn [List.length]. lia. }
    cbn [progress isRunning log] in *.
    exists p, (evs1 ++ evs), (r :: rs). split; [rewrite E, <- app_assoc; reflexivity|].
    split; [congruence|]. split; [cbn [List.length]; lia|].
    split; [rewrite Hr, Hr1, <- app_assoc; reflexivity|].
    split; [cbn [map]; now rewrite Hid1, Hids|].
    split; [rewrite Hf, Hf1; cbn [filter]; destruct (isErrorResult r); cbn; lia|].
    split; [lia|]. split; [cbn [List.length]; lia|].
    rewrite batchSnapshots_app, Hsnap1. cbn [app map current List.length seq].
    split; [f_equal; now rewrite Hcur, Hc1|].
    constructor.
    + cbn [results current total]. split; [lia|reflexivity].
    + revert Hall. apply Forall_impl. intros q (Hq1 & Hq2).
      rewrite Hr1, length_app in Hq1. cbn [List.length] in Hq1. split; [lia|congruence].
Qed.

End BatchManagerFacts.

Import BatchManager.

(** X20: [processBatch] called while a batch is running returns the empty
    list at once: no callback, nothing changed.  When, in a batch, closing
    the tab of some note fails - the tabs up to that one having finished
    loading, so that the tab is closed at all - [processBatch] throws and
    the running flag stays raised - so every later call returns the empty
    list without processing anything.  More generally, when for some note
    closing the tab fails or the tab never finishes loading, [processBatch]
    does not return - it throws or never settles - and the running flag
    stays raised, with the same consequence. *)
Theorem processBatch_guard (browser : Browser) (notes : list NoteRef) (s : State) :
  (isRunning s = true -> processBatch browser notes s = (Settled (JS.Ok []), s))
  /\ (isRunning s = false ->
      (exists j, j < List.length notes /\ tabRemovalFailure browser j <> None
                 /\ forall i, i <= j -> tabHangs browser i = false) ->
      exists message s',
        processBatch browser notes s = (Settled (JS.Throw (JS.ErrorObj message)), s')
        /\ isRunning s' = true
        /\ forall notes', processBatch browser notes' s' = (Settled (JS.Ok []), s'))
  /\ (isRunning s = false ->
      (exists j, j < List.length notes
                 /\ (tabRemovalFailure browser j <> None \/ tabHangs browser j = true)) ->
      exists completion s',
        processBatch browser notes s = (completion, s')
        /\ (completion = NeverSettles
            \/ exists message, completion = Settled (JS.Throw (JS.ErrorObj message)))
        /\ isRunning s' = true
        /\ forall notes', processBatch browser notes' s' = (Settled (JS.Ok []), s')).
Proof.
  assert (Hguard : forall notes0 s0,
             isRunning s0 = true ->
             processBatch browser notes0 s0 = (Settled (JS.Ok []), s0)).
  { intros notes0 s0 H. unfold processBatch. erewrite as_bind_ok by reflexivity.
    now rewrite H. }
  split; [apply Hguard|]. split.
  - intros Hidle Hfail.
    unfold processBatch. erewrite as_bind_ok by reflexivity. rewrite Hidle.
    do 4 erewrite as_bind_ok by reflexivity.
    match goal with |- context [as_bind (noteLoop browser notes 0) _ ?s0] =>
      destruct (noteLoop_stuck browser notes 0 s0) as (message & s' & E & Hr);
        [reflexivity|exact Hfail|]
    end.
    erewrite as_bind_throw by exact E. cbn [isRunning] in Hr.
    exists message, s'. split; [reflexivity|]. split; [exact Hr|].
    intros notes'. now apply Hguard.
  - intros Hidle Hbad.
    unfold processBatch. erewrite as_bind_ok by reflexivity. rewrite Hidle.
    do 4 erewrite as_bind_ok by reflexivity.
    match goal with |- context [as_bind (noteLoop browser notes 0) _ ?s0] =>
      destruct (noteLoop_does_not_return browser notes 0 s0)
        as (completion & s' & E & Hc & Hr); [reflexivity|exact Hbad|]
    end.
    cbn [isRunning] in Hr.
    destruct Hc as [->|(message & ->)].
    + erewrite as_bind_never by exact E.
      eexists. exists s'. split; [reflexivity|]. split; [now left|].
      split; [exact Hr|]. intros notes'. now apply Hguard.
    + erewrite as_bind_throw by exact E.
      eexists. exists s'. split; [reflexivity|]. split; [right; now exists message|].
      split; [exact Hr|]. intros notes'. now apply Hguard.
Qed.

Lemma processBatch_guard_witness :
  exists message s',
    processBatch stuckTabBrowser [sampleNote "n1"] idleManager =
      (Settled (JS.Throw (JS.ErrorObj message)), s')
    /\ isRunning s' = true
    /\ forall notes', processBatch stuckTabBrowser notes' s' = (Settled (JS.Ok []), s').
Proof.
  apply (processBatch_guard stuckTabBrowser [sampleNote "n1"] idleManager).
  - reflexivity.
  - exists 0. split; [cbn; lia|]. split; [discriminate|]. intros i _. reflexivity.
Defined.

(** X21: a batch in which every tab that is opened finishes loading and
    can be closed returns, with the running flag lowered.  The progress
    object then holds one result per note, in the order of the notes;
    [current] is [total], the number of notes; [failed] is the number of
    error results; [succeeded + failed] is at least [total]; and the list
    returned holds the results that succeeded with a PDF that is not empty,
    in order.  The callback was called once before the first note and once
    at the start of each note, so it saw [current] go from 0 to [total] but
    never the result of the note it was called for: at each call the
    results number [current - 1], and 0 at the first. *)
Theorem processBatch_reports (browser : Browser) (notes : list NoteRef) (s : State) :
  isRunning s = false ->
  (forall j, j < List.length notes -> tabHangs browser j = false) ->
  (forall j, j < List.length notes -> tabRemovalFailure browser j = None) ->
  exists p evs,
    processBatch browser notes s =
      (Settled (JS.Ok (filterMap toOutput (results p))),
       mkState false false p (log s ++ evs))
    /\ total p = List.length notes /\ current p = List.length notes
    /\ map res_noteId (results p) = map noteId notes
    /\ failed p = List.length (filter isErrorResult (results p))
    /\ List.length notes <= succeeded p + failed p
    /\ map current (batchSnapshots evs) = seq 0 (S (List.length notes))
    /\ Forall (fun q => List.length (results q) = current q - 1
                        /\ total q = List.length notes)
         (batchSnapshots evs).
Proof.
  intros Hidle Hload Hok. unfold processBatch.
  erewrite as_bind_ok by reflexivity. rewrite Hidle.
  do 4 erewrite as_bind_ok by reflexivity.
  match goal with |- context [as_bind (noteLoop browser notes 0) _ ?s0] =>
    destruct (noteLoop_run browser notes 0 s0)
      as (p & evs & rs & E & Ht & Hc & Hr & Hids & Hf & Hs & Hsf & Hcur & Hall);
      [reflexivity|exact Hload|exact Hok|]
  end.
  erewrite as_bind_ok by exact E.
  cbn [progress setProgress setRunning setShouldStop total current results failed
         succeeded log isRunning shouldStop app List.length] in *.
  erewrite as_bind_ok by reflexivity. erewrite as_bind_ok by reflexivity.
  exists p. eexists. split.
  { unfold as_ret. cbn [progress setRunning]. rewrite <- app_assoc. reflexivity. }
  rewrite Hr in *. cbn [app] in *.
  split; [exact Ht|]. split; [lia|]. split; [exact Hids|]. split; [lia|].
  split; [lia|].
  unfold batchSnapshots in *. cbn [app filterMap map current seq].
  split; [now rewrite Hcur|].
  constructor; [cbn; auto|].
  revert Hall. apply Forall_impl. intros q (Hq1 & Hq2). split; [lia|exact Hq2].
Qed.

Lemma processBatch_reports_witness :
  exists p evs,
    processBatch workingBrowser [sampleNote "n1"; sampleNote "n2"] idleManager =
      (Settled (JS.Ok (filterMap toOutput (results p))),
       mkState false false p (log idleManager ++ evs))
    /\ total p = 2 /\ current p = 2
    /\ map res_noteId (results p) = [JS.str "n1"; JS.str "n2"]
    /\ failed p = List.length (filter isErrorResult (results p))
    /\ 2 <= succeeded p + failed p
    /\ map current (batchSnapshots evs) = [0; 1; 2]
    /\ Forall (fun q => List.length (results q) = current q - 1 /\ total q = 2)
         (batchSnapshots evs).
Proof.
  apply (processBatch_reports workingBrowser [sampleNote "n1"; sampleNote "n2"]
           idleManager).
  - reflexivity.
  - intros j _. reflexivity.
  - intros j _. reflexivity.
Defined.

(** A response that reports success without data is counted twice: as a
    success and, when the data is read, as a failure. *)
Example success_without_data_counts_twice :
  let run := processBatch noDataBrowser [sampleNote "n1"] idleManager in
  fst run = Settled (JS.Ok [])
  /\ total (progress (snd run)) = 1
  /\ succeeded (progress (snd run)) = 1 /\ failed (progress (snd run)) = 1.
Proof. vm_compute. repeat split. Qed.

(** A tab that never finishes loading: the batch never settles, the
    running flag stays raised, the first note has its result and the tab of
    the second one stays open. *)
Example stalled_tab_blocks_the_batch :
  let run := processBatch stalledTabBrowser
               [sampleNote "n1"; sampleNote "n2"; sampleNote "n3"] idleManager in
  fst run = NeverSettles
  /\ isRunning (snd run) = true
  /\ current (progress (snd run)) = 2
  /\ map res_noteId (results (progress (snd run))) = [JS.str "n1"]
  /\ filter (fun e => match e with EvTabRemoved _ => true | _ => false end)
       (log (snd run)) = [EvTabRemoved 1].
Proof. vm_compute. repeat split. Qed.

(* ================================================================== *)
(** * The image downloader *)
(* ================================================================== *)

Section DownloadFacts.
Import ImageDownloader.

Lemma downloadAttempts_app (l1 l2 : list Event) :
  downloadAttempts (l1 ++ l2) = downloadAttempts l1 + downloadAttempts l2.
Proof. unfold downloadAttempts. now rewrite filter_app, length_app. Qed.

Lemma downloadDelays_app (l1 l2 : list Event) :
  downloadDelays (l1 ++ l2) = downloadDelays l1 ++ downloadDelays l2.
Proof. apply filterMap_app. Qed.

(** A result of the [try] block is a success that holds bytes. *)
Lemma tryDownload_ok network image convertWebP attempt result :
  tryDownload network image convertWebP attempt = JS.Ok result ->
  di_image result = image /\ di_success result = true /\ di_error result = None
  /\ isSome (di_bytes result) = true
  /\ (convertWebP = true -> di_type result = ItWebp -> converts network attempt = None).
Proof.
  unfold tryDownload. destruct (fetches network attempt) as [e|status body]; [discriminate|].
  destruct (negb _); [discriminate|]. destruct body as [bytes|e]; [|discriminate].
  destruct (detectImageType bytes) eqn:Ht;
    try (intros [= <-]; cbn; repeat split; auto; discriminate).
  destruct convertWebP.
  - destruct (converts network attempt) as [converted|]; intros [= <-]; cbn;
      repeat split; auto; discriminate.
  - intros [= <-]. cbn. repeat split; auto. discriminate.
Qed.

Lemma downloadLoop_run network image convertWebP maxRetries (remaining : nat) :
  forall (attempt : Z) (l : list Event),
    (attempt + Z.of_nat remaining = maxRetries + 1)%Z ->
    exists result evs,
      downloadLoop network image convertWebP maxRetries remaining attempt l =
        (JS.Ok result, l ++ evs)
      /\ di_image result = image
      /\ downloadAttempts evs <= remaining
      /\ (if di_success result
          then di_error result = None /\ isSome (di_bytes result) = true
               /\ (convertWebP = true -> di_type result = ItWebp ->
                   exists a, converts network a = None)
          else di_bytes result = None /\ di_type result = ItUnknown
               /\ isSome (di_error result) = true
               /\ downloadAttempts evs = remaining
               /\ downloadDelays evs = downloadBackoff (remaining - 1) attempt).
Proof.
  induction remaining as [|remaining IH]; intros attempt l Hmax; cbn [downloadLoop].
  - exists (failure image (JS.str "Max retries exceeded")), [].
    rewrite app_nil_r. split; [reflexivity|]. split; [reflexivity|].
    split; [cbn; lia|]. cbn. auto.
  - erewrite st_bind_ok by reflexivity.
    destruct (tryDownload network image convertWebP attempt) as [result|error] eqn:Et.
    + destruct (tryDownload_ok _ _ _ _ _ Et) as (Hi & Hs & He & Hb & Hw).
      exists result, [EvAttempt attempt]. split; [reflexivity|]. split; [exact Hi|].
      split; [cbn; lia|]. rewrite Hs. split; [exact He|]. split; [exact Hb|].
      intros Hc Hty. exists attempt. now apply Hw.
    + destruct (Z.eqb_spec attempt maxRetries) as [Heq|Hne].
      * exists (failure image (errorMessageOf error)), [EvAttempt attempt].
        split; [reflexivity|]. split; [reflexivity|]. split; [cbn; lia|].
        cbn [di_success failure di_bytes di_type di_error isSome].
        assert (remaining = 0) by lia. subst remaining. cbn. auto.
      * erewrite st_bind_ok by reflexivity.
        destruct (IH (attempt + 1)%Z ((l ++ [EvAttempt attempt])
                                        ++ [EvDelay (2 ^ attempt * 500)]))
          as (result & evs & E & Hi & Ha & Hres); [lia|].
        exists result, (EvAttempt attempt :: EvDelay (2 ^ attempt * 500) :: evs).
        split; [rewrite E, <- !app_assoc; reflexivity|]. split; [exact Hi|].
        change (EvAttempt attempt :: EvDelay (2 ^ attempt * 500) :: evs)
          with ([EvAttempt attempt; EvDelay (2 ^ attempt * 500)] ++ evs).
        rewrite downloadAttempts_app, downloadDelays_app.
        cbn [downloadAttempts downloadDelays filter filterMap List.length app].
        split; [unfold downloadAttempts in *; cbn; lia|].
        destruct (di_success result); [exact Hres|].
        destruct Hres as (Hb & Hty & He & Hn & Hd).
        repeat (split; [assumption|]).
        split; [unfold downloadAttempts in *; cbn; lia|].
        rewrite Hd. destruct remaining as [|r]; [lia|].
        cbn [Nat.sub downloadBackoff]. now rewrite Nat.sub_0_r.
Qed.

End DownloadFacts.

Import ImageDownloader.

(** Every way a download ends. *)
Lemma downloadImage_outcomes_aux (network : Network) (image : PostImage)
    (options : DownloadOptions) (l : list Event) :
  let maxRetries := withDefault (do_maxRetries options) DEFAULT_maxRetries in
  let convertWebP := withDefault (do_convertWebP options) DEFAULT_convertWebP in
  exists result evs,
    downloadImage network image options l = (JS.Ok result, l ++ evs)
    /\ di_image result = image
    /\ downloadAttempts evs <= Z.to_nat maxRetries
    /\ (if di_success result
        then di_error result = None /\ isSome (di_bytes result) = true
             /\ (convertWebP = true -> di_type result = ItWebp ->
                 exists a, converts network a = None)
        else di_bytes result = None /\ di_type result = ItUnknown
             /\ isSome (di_error result) = true
             /\ downloadAttempts evs = Z.to_nat maxRetries
             /\ downloadDelays evs = downloadBackoff (Z.to_nat maxRetries - 1) 1).
Proof.
  cbv zeta. unfold downloadImage.
  set (maxRetries := withDefault (do_maxRetries options) DEFAULT_maxRetries).
  destruct (Z.le_gt_cases 1 maxRetries) as [Hpos|Hneg].
  - apply downloadLoop_run. lia.
  - replace (Z.to_nat maxRetries) with 0 by lia. cbn [downloadLoop].
    exists (failure image (JS.str "Max retries exceeded")), [].
    rewrite app_nil_r. split; [reflexivity|]. split; [reflexivity|].
    split; [cbn; lia|]. cbn. auto.
Qed.


(** X22: whatever the network does, [downloadImage] returns a result for
    the image and never throws.  A success holds bytes and no error, and
    with the conversion enabled its type is WebP only when a conversion
    failed.  A failure holds no bytes, the type unknown and an error
    message, and is only reported after [maxRetries] attempts (3 by default)
    with waits of [2^attempt] times 500 ms between them: every error is
    retried, HTTP errors included. *)
Theorem downloadImage_outcomes (network : Network) (image : PostImage)
    (options : DownloadOptions) (l : list Event) :
  let maxRetries := withDefault (do_maxRetries options) DEFAULT_maxRetries in
  let convertWebP := withDefault (do_convertWebP options) DEFAULT_convertWebP in
  exists result evs,
    downloadImage network image options l = (JS.Ok result, l ++ evs)
    /\ di_image result = image
    /\ downloadAttempts evs <= Z.to_nat maxRetries
    /\ (if di_success result
        then di_error result = None /\ isSome (di_bytes result) = true
             /\ (convertWebP = true -> di_type result = ItWebp ->
                 exists a, converts network a = None)
        else di_bytes result = None /\ di_type result = ItUnknown
             /\ isSome (di_error result) = true
             /\ downloadAttempts evs = Z.to_nat maxRetries
             /\ downloadDelays evs = downloadBackoff (Z.to_nat maxRetries - 1) 1).
Proof. apply downloadImage_outcomes_aux. Qed.

(** X23: [downloadImages] never throws and returns one result per image, in
    the order of the images, each for its image; every image is either a
    success that holds bytes or a failure, so the images a PDF includes and
    the ones it counts as failed add up to the images of the post. *)
Theorem downloadImages_in_order (networks : nat -> Network) (images : list PostImage)
    (options : DownloadOptions) (l : list Event) :
  exists results evs,
    downloadImages networks images options l = (JS.Ok results, l ++ evs)
    /\ map di_image results = images
    /\ List.length (filter (fun r => di_success r && isSome (di_bytes r)) results)
       + List.length (filter (fun r => negb (di_success r)) results)
       = List.length images
    /\ downloadAttempts evs
       <= List.length images
          * Z.to_nat (withDefault (do_maxRetries options) DEFAULT_maxRetries).
Proof.
  unfold downloadImages. generalize 0 as index. revert l.
  induction images as [|image rest IH]; intros l index; cbn [downloadAll].
  - exists [], []. rewrite app_nil_r. repeat split. cbn. lia.
  - destruct (downloadImage_outcomes_aux (networks index) image options l)
      as (result & evs1 & E1 & Hi & Ha & Hres).
    erewrite st_bind_ok by exact E1.
    destruct (IH (l ++ evs1) (S index)) as (results & evs & E & Hm & Hc & Hatt).
    erewrite st_bind_ok by exact E.
    exists (result :: results), (evs1 ++ evs).
    split; [unfold st_ret; now rewrite app_assoc|].
    split; [cbn [map]; now rewrite Hi, Hm|].
    rewrite downloadAttempts_app. cbn [filter List.length].
    split; [|lia].
    destruct (di_success result); cbn [andb negb].
    + destruct Hres as (_ & Hb & _). rewrite Hb. cbn [List.length]. lia.
    + cbn [List.length]. lia.
Qed.

(* ================================================================== *)
(** * Text in the PDF *)
(* ================================================================== *)

Section TextFacts.
Import PdfText.

Lemma chars_cons (c d : N) (s : JSString) :
  chars (c :: d :: s) =
  if isHighSurrogate c && isLowSurrogate d then [c; d] :: chars s
  else [c] :: chars (d :: s).
Proof. reflexivity. Qed.

(** Iterating over a string loses nothing. *)
Lemma chars_step (s : JSString) :
  (List.concat (chars s) = s /\ Forall (fun char => char <> []) (chars s))
  /\ forall c, List.concat (chars (c :: s)) = c :: s
               /\ Forall (fun char => char <> []) (chars (c :: s)).
Proof.
  induction s as [|d s ((IH1 & IH2) & IH3)].
  - split; [split; [reflexivity|constructor]|]. intros c. cbn.
    split; [reflexivity|]. repeat constructor. discriminate.
  - split; [apply IH3|]. intros c. rewrite chars_cons.
    destruct (isHighSurrogate c && isLowSurrogate d).
    + cbn [List.concat app]. rewrite IH1. split; [reflexivity|].
      constructor; [discriminate|exact IH2].
    + destruct (IH3 d) as (E & F). cbn [List.concat app]. rewrite E.
      split; [reflexivity|]. constructor; [discriminate|exact F].
Qed.

Lemma concat_chars (s : JSString) : List.concat (chars s) = s.
Proof. apply chars_step. Qed.

Lemma chars_nonempty (s : JSString) : Forall (fun char => char <> []) (chars s).
Proof. apply chars_step. Qed.

Lemma surrogate_not_selector (c : N) :
  isHighSurrogate c || isLowSurrogate c = true -> isVariationSelector c = false.
Proof.
  unfold isHighSurrogate, isLowSurrogate, isVariationSelector.
  intros H. apply orb_true_iff in H.
  destruct (N.leb_spec 0xFE00 c); [|reflexivity].
  destruct H as [H|H]; apply andb_true_iff in H as (_ & H); apply N.leb_le in H; lia.
Qed.

(** Dropping the variation selectors character by character is dropping
    them code unit by code unit. *)
Lemma selectors_step (s : JSString) :
  List.concat (filter notSelector (chars s)) = filter (fun c => negb (isVariationSelector c)) s
  /\ forall c, List.concat (filter notSelector (chars (c :: s))) =
               filter (fun c => negb (isVariationSelector c)) (c :: s).
Proof.
  induction s as [|d s (IH1 & IH2)].
  - split; [reflexivity|]. intros c. cbn. unfold notSelector. cbn [codePointAt0].
    destruct (isVariationSelector c); reflexivity.
  - split; [apply IH2|]. intros c. rewrite chars_cons.
    destruct (isHighSurrogate c && isLowSurrogate d) eqn:Hp.
    + apply andb_true_iff in Hp as (Hc & Hd).
      cbn [filter]. unfold notSelector at 1. cbn [codePointAt0]. rewrite Hc, Hd. cbn [andb].
      assert (Hbig : isVariationSelector
                       (0x10000 + (c - 0xD800) * 0x400 + (d - 0xDC00))%N = false).
      { unfold isVariationSelector.
        destruct (N.leb_spec (0x10000 + (c - 0xD800) * 0x400 + (d - 0xDC00))%N 0xFE0F);
          [lia|]. now rewrite andb_false_r. }
      rewrite Hbig. cbn [negb List.concat app].
      rewrite (surrogate_not_selector c), (surrogate_not_selector d)
        by (rewrite ?Hc, ?Hd, ?orb_true_r; reflexivity).
      cbn [negb]. now rewrite IH1.
    + cbn [filter]. unfold notSelector at 1. cbn [codePointAt0].
      destruct (isVariationSelector c); cbn [negb List.concat app]; now rewrite IH2.
Qed.

Lemma alternating_snoc (flags : list bool) (a b : bool) :
  alternating (flags ++ [a]) -> a <> b -> alternating ((flags ++ [a]) ++ [b]).
Proof.
  induction flags as [|x flags IH]; intros H Hab; [cbn; auto|].
  destruct flags as [|y flags].
  - cbn in *. destruct H as (Hxa & _). auto.
  - cbn [app alternating] in *. destruct H as (Hxy & H). split; [exact Hxy|].
    now apply IH.
Qed.

Lemma segmentsOf_snoc groups g flag :
  segmentsOf groups ++ [mkTextSegment (List.concat g) flag] = segmentsOf (groups ++ [(g, flag)]).
Proof. unfold segmentsOf. now rewrite map_app. Qed.

Lemma concat_nonempty (g : list JSString) :
  g <> [] -> Forall (fun char => char <> []) g -> JS.isEmpty (List.concat g) = false.
Proof.
  intros Hg Hf. destruct g as [|char g]; [now contradiction Hg|].
  inversion Hf as [|? ? Hc _]; subst. cbn [List.concat].
  destruct char; [now contradiction Hc|reflexivity].
Qed.

(** The loop once a segment has been started. *)
Lemma splitLoop_started (rest : list JSString) :
  forall (groups : list (list JSString * bool)) (g : list JSString) (flag : bool),
    Forall (fun char => char <> []) rest ->
    uniformGroups (groups ++ [(g, flag)]) ->
    alternating (map snd (groups ++ [(g, flag)])) ->
    exists groups',
      splitLoop rest (segmentsOf groups) (List.concat g) flag = segmentsOf groups'
      /\ uniformGroups groups' /\ alternating (map snd groups')
      /\ List.concat (map fst groups') =
         List.concat (map fst groups) ++ g ++ filter notSelector rest.
Proof.
  induction rest as [|char rest IH]; intros groups g flag Hne Hu Ha.
  - assert (Hg : JS.isEmpty (List.concat g) = false).
    { apply Forall_app in Hu as (_ & Hu). inversion Hu as [|? ? (Hg & Hf) _]; subst.
      apply concat_nonempty; [exact Hg|]. revert Hf. apply Forall_impl. now intros ? []. }
    cbn [splitLoop]. rewrite Hg, segmentsOf_snoc.
    exists (groups ++ [(g, flag)]). split; [reflexivity|]. split; [exact Hu|].
    split; [exact Ha|]. rewrite map_app, concat_app. cbn. now rewrite !app_nil_r.
  - inversion Hne as [|? ? Hchar Hrest]; subst. cbn [splitLoop filter].
    unfold notSelector at 1.
    destruct (isVariationSelector (codePointAt0 char)); cbn [negb]; [now apply IH|].
    assert (Hg : JS.isEmpty (List.concat g) = false).
    { apply Forall_app in Hu as (_ & Hu). inversion Hu as [|? ? (Hg & Hf) _]; subst.
      apply concat_nonempty; [exact Hg|]. revert Hf. apply Forall_impl. now intros ? []. }
    rewrite Hg.
    destruct (Bool.eqb (isEmoji (codePointAt0 char)) flag) eqn:Heq.
    + apply Bool.eqb_prop in Heq.
      replace (List.concat g ++ char) with (List.concat (g ++ [char]))
        by (rewrite concat_app; cbn; now rewrite app_nil_r).
      destruct (IH groups (g ++ [char]) flag Hrest) as (groups' & E & Hu' & Ha' & Hc').
      * apply Forall_app in Hu as (Hu1 & Hu2). apply Forall_app. split; [exact Hu1|].
        inversion Hu2 as [|? ? (Hg2 & Hf2) _]; subst. constructor; [|constructor].
        cbn [fst snd] in *. split; [now destruct g|].
        apply Forall_app. split; [exact Hf2|]. constructor; [|constructor]. auto.
      * rewrite map_app in *. exact Ha.
      * exists groups'. split; [exact E|]. split; [exact Hu'|]. split; [exact Ha'|].
        rewrite Hc', <- !app_assoc. reflexivity.
    + apply Bool.eqb_false_iff in Heq. rewrite segmentsOf_snoc.
      assert (Hone : List.concat [char] = char) by (cbn; now rewrite app_nil_r).
      destruct (IH (groups ++ [(g, flag)]) [char] (isEmoji (codePointAt0 char)) Hrest)
        as (groups' & E & Hu' & Ha' & Hc'); [| |rewrite Hone in E].
      * apply Forall_app. split; [exact Hu|]. constructor; [|constructor].
        cbn [fst snd]. split; [discriminate|]. constructor; [|constructor]. auto.
      * rewrite !map_app. cbn [map snd]. rewrite map_app in Ha. cbn [map snd] in Ha.
        apply alternating_snoc; [exact Ha|]. congruence.
      * exists groups'. split; [exact E|]. split; [exact Hu'|]. split; [exact Ha'|].
        rewrite Hc', map_app, concat_app. cbn [map fst List.concat].
        rewrite !app_nil_r, <- !app_assoc. reflexivity.
Qed.

(** The loop before the first character that is not a variation
    selector. *)
Lemma splitLoop_initial (rest : list JSString) :
  Forall (fun char => char <> []) rest ->
  exists groups,
    splitLoop rest [] [] false = segmentsOf groups
    /\ uniformGroups groups /\ alternating (map snd groups)
    /\ List.concat (map fst groups) = filter notSelector rest.
Proof.
  induction rest as [|char rest IH]; intros Hne.
  - exists []. repeat split. constructor.
  - inversion Hne as [|? ? Hchar Hrest]; subst. cbn [splitLoop filter JS.isEmpty].
    unfold notSelector at 1.
    destruct (isVariationSelector (codePointAt0 char)); cbn [negb]; [now apply IH|].
    assert (Hone : List.concat [char] = char) by (cbn; now rewrite app_nil_r).
    destruct (splitLoop_started rest [] [char] (isEmoji (codePointAt0 char)) Hrest)
      as (groups & E & Hu & Ha & Hc); [| |rewrite Hone in E].
    + constructor; [|constructor]. cbn [fst snd]. split; [discriminate|].
      constructor; [|constructor]. auto.
    + cbn. exact I.
    + exists groups. split; [exact E|]. split; [exact Hu|]. split; [exact Ha|].
      rewrite Hc. reflexivity.
Qed.

End TextFacts.

Import PdfText.

(** X24: [splitTextByEmoji] cuts the characters of the text, without the
    variation selectors U+FE00 to U+FE0F, into consecutive groups: every
    segment is the text of one group, which is not empty and whose
    characters are all emoji or all not, as the flag of the segment says;
    neighbouring segments have different flags; and the texts of the
    segments, put together, are the text without the code units that are
    variation selectors. *)
Theorem splitTextByEmoji_segments (text : JSString) :
  exists groups,
    splitTextByEmoji text = segmentsOf groups
    /\ List.concat (map fst groups) = filter notSelector (chars text)
    /\ uniformGroups groups
    /\ alternating (map seg_isEmoji (splitTextByEmoji text))
    /\ Forall (fun segment => seg_text segment <> []) (splitTextByEmoji text)
    /\ List.concat (map seg_text (splitTextByEmoji text)) =
       filter (fun c => negb (isVariationSelector c)) text.
Proof.
  unfold splitTextByEmoji.
  destruct (splitLoop_initial (chars text) (chars_nonempty text))
    as (groups & E & Hu & Ha & Hc).
  exists groups. rewrite E. split; [reflexivity|]. split; [exact Hc|].
  split; [exact Hu|].
  assert (Hflags : map seg_isEmoji (segmentsOf groups) = map snd groups).
  { unfold segmentsOf. rewrite map_map. reflexivity. }
  assert (Htexts : map seg_text (segmentsOf groups) = map (fun g => List.concat (fst g)) groups).
  { unfold segmentsOf. rewrite map_map. reflexivity. }
  split; [now rewrite Hflags|]. split.
  - unfold segmentsOf. apply Forall_map. revert Hu. apply Forall_impl.
    intros [g flag] (Hg & Hf). cbn [fst snd seg_text] in *. intros Hempty.
    assert (Hn : JS.isEmpty (List.concat g) = false).
    { apply concat_nonempty; [exact Hg|]. revert Hf. apply Forall_impl. now intros ? []. }
    now rewrite Hempty in Hn.
  - rewrite Htexts. rewrite <- (proj1 (selectors_step text)), <- Hc.
    clear. induction groups as [|[g flag] groups IH]; [reflexivity|].
    cbn [map List.concat fst]. now rewrite concat_app, IH.
Qed.

Section WrapFacts.
Variable widthOfTextAtSize : JSString -> Float64.Number -> Float64.Number.
Variable fontSize maxWidth : Float64.Number.

Lemma wrapLoop_run (paragraph : JSString) (rest : list JSString) :
  forall (lines : list JSString) (currentLine : JSString),
    Forall (fun char => char <> [] /\ In char (chars paragraph)) rest ->
    currentLine = [] \/ wrappedPart widthOfTextAtSize fontSize maxWidth paragraph currentLine ->
    exists added currentLine',
      wrapLoop widthOfTextAtSize fontSize maxWidth rest lines currentLine =
        (lines ++ added, currentLine')
      /\ List.concat added ++ currentLine' = currentLine ++ List.concat rest
      /\ Forall (wrappedPart widthOfTextAtSize fontSize maxWidth paragraph) added
      /\ (currentLine' = [] /\ rest = [] /\ currentLine = []
          \/ wrappedPart widthOfTextAtSize fontSize maxWidth paragraph currentLine').
Proof.
  induction rest as [|char rest IH]; intros lines currentLine Hrest Hcur.
  - exists [], currentLine. cbn [wrapLoop List.concat]. rewrite !app_nil_r.
    split; [reflexivity|]. split; [reflexivity|]. split; [constructor|].
    destruct Hcur as [->|H]; auto.
  - inversion Hrest as [|? ? (Hne & Hin) Hrest']; subst. cbn [wrapLoop].
    destruct (greater (widthOfTextAtSize (currentLine ++ char) fontSize) maxWidth
              && negb (JS.isEmpty currentLine)) eqn:Hwide.
    + apply andb_true_iff in Hwide as (_ & Hcne).
      assert (Hproper : wrappedPart widthOfTextAtSize fontSize maxWidth paragraph currentLine).
      { destruct Hcur as [->|H]; [discriminate|exact H]. }
      destruct (IH (lines ++ [currentLine]) char Hrest') as (added & cur' & E & Hc & Hf & Hl).
      { right. split; [exact Hne|now left]. }
      exists (currentLine :: added), cur'.
      split; [rewrite E, <- app_assoc; reflexivity|].
      split; [cbn [List.concat]; rewrite <- app_assoc, Hc; reflexivity|].
      split; [now constructor|].
      right. destruct Hl as [(-> & _ & ->)|H]; [now contradiction Hne|exact H].
    + destruct (IH lines (currentLine ++ char) Hrest') as (added & cur' & E & Hc & Hf & Hl).
      { right. split; [destruct currentLine; [exact Hne|discriminate]|].
        apply andb_false_iff in Hwide as [Hfit|Hempty]; [now right|].
        destruct currentLine; [now left|discriminate]. }
      exists added, cur'. split; [exact E|].
      split; [rewrite Hc, <- app_assoc; reflexivity|]. split; [exact Hf|].
      right. destruct Hl as [(_ & _ & H)|H]; [|exact H].
      destruct currentLine; [now contradiction Hne|discriminate].
Qed.

Lemma blank_nil : blank [] = true.
Proof. reflexivity. Qed.

Lemma chars_all (s : JSString) :
  Forall (fun char => char <> [] /\ In char (chars s)) (chars s).
Proof.
  apply Forall_forall. intros char Hin. split; [|exact Hin].
  pose proof (chars_nonempty s) as H. rewrite Forall_forall in H. now apply H.
Qed.

(** One paragraph: a blank one gives one empty line; another one gives
    lines that are not empty and that put together are the paragraph. *)
Lemma wrapParagraph_run (lines : list JSString) (paragraph : JSString) :
  exists added,
    wrapParagraph widthOfTextAtSize fontSize maxWidth lines paragraph = lines ++ added
    /\ added <> []
    /\ if blank paragraph
       then added = [[]]
       else List.concat added = paragraph /\ Forall (wrappedPart widthOfTextAtSize fontSize maxWidth paragraph) added.
Proof.
  unfold wrapParagraph. fold (blank paragraph).
  destruct (blank paragraph) eqn:Hb.
  - exists [[]]. split; [reflexivity|]. split; [discriminate|reflexivity].
  - destruct (wrapLoop_run paragraph (chars paragraph) lines [] (chars_all paragraph))
      as (added & cur' & E & Hc & Hf & Hl); [now left|].
    rewrite E. rewrite concat_chars in Hc. cbn [app] in Hc.
    destruct Hl as [(-> & Hnil & _)|(Hne & Hp)].
    + exfalso. assert (Hp : paragraph = [])
        by (rewrite <- (concat_chars paragraph), Hnil; reflexivity).
      rewrite Hp in Hb. discriminate Hb.
    + destruct cur' as [|c cur']; [now contradiction Hne|]. cbn [JS.isEmpty].
      exists (added ++ [c :: cur']). split; [now rewrite app_assoc|].
      split; [now destruct added|]. split.
      * rewrite concat_app. cbn [List.concat]. now rewrite app_nil_r.
      * apply Forall_app. split; [exact Hf|]. constructor; [|constructor].
        split; [discriminate|exact Hp].
Qed.

Lemma wrapText_run (paragraphs : list JSString) :
  forall (lines : list JSString),
    exists added,
      fold_left (wrapParagraph widthOfTextAtSize fontSize maxWidth) paragraphs lines =
        lines ++ added
      /\ List.concat added = List.concat (filter (fun p => negb (blank p)) paragraphs)
      /\ List.length paragraphs <= List.length added
      /\ List.length (filter JS.isEmpty added) = List.length (filter blank paragraphs)
      /\ Forall (wrappedLine widthOfTextAtSize fontSize maxWidth paragraphs) added.
Proof.
  induction paragraphs as [|paragraph rest IH]; intros lines; cbn [fold_left].
  - exists []. rewrite app_nil_r. repeat split; constructor.
  - destruct (wrapParagraph_run lines paragraph) as (added1 & E1 & Hne1 & H1).
    rewrite E1. destruct (IH (lines ++ added1)) as (added & E & Hc & Hl & He & Hf).
    exists (added1 ++ added). split; [now rewrite E, app_assoc|].
    rewrite concat_app, length_app, filter_app, length_app, Hc, He. cbn [filter].
    assert (Hlen : 1 <= List.length added1) by (destruct added1; [easy|cbn; lia]).
    assert (Hweak : Forall (wrappedLine widthOfTextAtSize fontSize maxWidth
                              (paragraph :: rest)) added).
    { revert Hf. apply Forall_impl. intros line [H|[(p & Hp & Hin)|H]].
      - now left.
      - right. left. exists p. split; [now right|exact Hin].
      - now right; right. }
    destruct (blank paragraph) eqn:Hb; cbn [negb].
    + subst added1. cbn. split; [reflexivity|]. split; [lia|]. split; [reflexivity|].
      constructor; [now left|exact Hweak].
    + destruct H1 as (Hc1 & Hf1). cbn [List.concat]. rewrite Hc1.
      split; [reflexivity|]. split; [cbn [List.length]; lia|]. split.
      * replace (filter JS.isEmpty added1) with (@nil JSString); [reflexivity|].
        symmetry. clear -Hf1. induction Hf1 as [|line l (Hne & _) _ IHl]; [reflexivity|].
        cbn [filter]. destruct line; [now contradiction Hne|exact IHl].
      * apply Forall_app. split; [|exact Hweak].
        revert Hf1. apply Forall_impl. intros line (Hne & [Hin|Hfit]).
        -- right. left. exists paragraph. split; [now left|exact Hin].
        -- now right; right.
Qed.

End WrapFacts.

(** X25: [wrapText] loses no text: its lines, put together, are the
    paragraphs of the text that are not blank, in order.  It produces at
    least one line per paragraph, and exactly one empty line for each blank
    paragraph and no other empty line.  Every line that is not empty fits the
    width, unless it is a single character of the text, which is never
    split. *)
Theorem wrapText_lines (widthOfTextAtSize : JSString -> Float64.Number -> Float64.Number)
    (fontSize maxWidth : Float64.Number) (text : JSString) :
  let lines := wrapText widthOfTextAtSize fontSize maxWidth text in
  let paragraphs := splitLines text [] in
  List.concat lines = List.concat (filter (fun p => negb (blank p)) paragraphs)
  /\ List.length paragraphs <= List.length lines
  /\ List.length (filter JS.isEmpty lines) = List.length (filter blank paragraphs)
  /\ Forall (wrappedLine widthOfTextAtSize fontSize maxWidth paragraphs) lines.
Proof.
  cbv zeta. unfold wrapText.
  destruct (wrapText_run widthOfTextAtSize fontSize maxWidth (splitLines text []) [])
    as (added & E & H).
  rewrite E. exact H.
Qed.
